(** * The question export pipeline (utils/htmlExporter.ts), embedded in Rocq

    The development follows the last revision of the exporter: the markup
    helpers ([addLexicalClass], [rewriteImagePaths], [resolveImageUrl]),
    the per-type answer renderers, the worker pool [mapWithConcurrency]
    and the first phase of [generateExportHTML].

    JavaScript strings are sequences of UTF-16 code units; regular
    expressions are embedded as syntax trees and run by a backtracking
    matcher that lists the matches in the priority order of ECMAScript
    (greedy quantifiers, left alternative first). *)

From Stdlib Require Import Ascii String DecimalString.
From Stdlib Require Import NArith ZArith QArith Qround Bool Arith Lia.
From Stdlib Require Import List Permutation Sorted.
Import ListNotations.
Close Scope Q_scope.

Set Implicit Arguments.
Set Warnings "-register-all".

(* ================================================================= *)
(** ** JavaScript strings *)

(** A UTF-16 code unit. *)
Definition char : Type := N.

Definition jsstring : Type := list char.

(** [lit s] is the string literal [s] as code units.  The templates of the
    source are full of double quotes, so a literal is written here with a
    backquote wherever the source has a double quote (no string of the
    source contains a backquote: its templates are delimited by them). *)
Definition lit_char (a : ascii) : char :=
  if Ascii.eqb a "`"%char then 34%N else N_of_ascii a.

Fixpoint lit (s : string) : jsstring :=
  match s with
  | EmptyString => []
  | String a s' => lit_char a :: lit s'
  end.

Definition nl : jsstring := [10%N].
Definition dquote : char := 34%N.
Definition slash : char := 47%N.

Fixpoint jseq (a b : jsstring) : bool :=
  match a, b with
  | [], [] => true
  | x :: a', y :: b' => N.eqb x y && jseq a' b'
  | _, _ => false
  end.

(** An empty string is the only falsy string. *)
Definition str_truthy (s : jsstring) : bool :=
  match s with [] => false | _ => true end.

Fixpoint startsWith (p s : jsstring) : bool :=
  match p, s with
  | [], _ => true
  | x :: p', y :: s' => N.eqb x y && startsWith p' s'
  | _ :: _, [] => false
  end.

(** [s.split(sep)] for a one-unit separator: never empty. *)
Fixpoint split (sep : char) (s : jsstring) : list jsstring :=
  match s with
  | [] => [[]]
  | c :: s' =>
      if N.eqb c sep then [] :: split sep s'
      else match split sep s' with
           | seg :: segs => (c :: seg) :: segs
           | [] => [[c]]
           end
  end.

(** [parts.join(sep)]. *)
Fixpoint join (sep : jsstring) (parts : list jsstring) : jsstring :=
  match parts with
  | [] => []
  | [p] => p
  | p :: ps => p ++ sep ++ join sep ps
  end.

(** WhiteSpace and LineTerminator code units: what [\s] matches and what
    [trim] strips. *)
Definition is_space (c : char) : bool :=
  ((9 <=? c) && (c <=? 13) || (c =? 32) || (c =? 160) || (c =? 0x1680)
   || (0x2000 <=? c) && (c <=? 0x200A) || (c =? 0x2028) || (c =? 0x2029)
   || (c =? 0x202F) || (c =? 0x205F) || (c =? 0x3000) || (c =? 0xFEFF))%N.

Fixpoint trimStart (s : jsstring) : jsstring :=
  match s with
  | c :: s' => if is_space c then trimStart s' else s
  | [] => []
  end.

Definition trimEnd (s : jsstring) : jsstring := rev (trimStart (rev s)).

Definition trim (s : jsstring) : jsstring := trimEnd (trimStart s).

(** [String(n)] for a non-negative integer. *)
Definition String_of_nat (n : nat) : jsstring :=
  lit (NilEmpty.string_of_uint (Nat.to_uint n)).

(* ================================================================= *)
(** ** Regular expressions *)

Module Re.

(** The fragment of ECMAScript patterns the exporter uses.  Every starred
    atom of the source is a character class, which keeps the matcher
    structurally recursive. *)
Inductive regex : Type :=
| Eps
| Cls (p : char -> bool)
| Seq (r1 r2 : regex)
| Alt (r1 r2 : regex)
| Star (p : char -> bool)
| Opt (r : regex)
| Grp (i : nat) (r : regex)
| Bol
| WordB.

(** Where the matcher stands: the code unit before the position (none at
    the start of the input), the input still ahead, and the groups
    captured so far. *)
Record mstate : Type := MState {
  m_prev : option char;
  m_rest : jsstring;
  m_caps : list (nat * jsstring)
}.

Definition is_word (c : char) : bool :=
  ((48 <=? c) && (c <=? 57) || (65 <=? c) && (c <=? 90)
   || (97 <=? c) && (c <=? 122) || (c =? 95))%N.

Definition word_before (st : mstate) : bool :=
  match m_prev st with Some c => is_word c | None => false end.

Definition word_after (st : mstate) : bool :=
  match m_rest st with c :: _ => is_word c | [] => false end.

(** The ways [p*] can match at the front of [s], longest first. *)
Fixpoint star (p : char -> bool) (prev : option char) (s : jsstring)
  (caps : list (nat * jsstring)) : list mstate :=
  match s with
  | c :: s' =>
      if p c then star p (Some c) s' caps ++ [MState prev s caps]
      else [MState prev s caps]
  | [] => [MState prev s caps]
  end.

(** What a group captured: the input consumed between two states. *)
Definition consumed (st st' : mstate) : jsstring :=
  firstn (length (m_rest st) - length (m_rest st')) (m_rest st).

Definition capture (i : nat) (st st' : mstate) : mstate :=
  MState (m_prev st') (m_rest st') ((i, consumed st st') :: m_caps st').

(** All the ways [r] matches from [st], in backtracking order: the head
    of the list is the match ECMAScript reports. *)
Fixpoint run (r : regex) (st : mstate) : list mstate :=
  match r with
  | Eps => [st]
  | Cls p =>
      match m_rest st with
      | c :: s' => if p c then [MState (Some c) s' (m_caps st)] else []
      | [] => []
      end
  | Seq r1 r2 => flat_map (run r2) (run r1 st)
  | Alt r1 r2 => run r1 st ++ run r2 st
  | Star p => star p (m_prev st) (m_rest st) (m_caps st)
  | Opt r1 => run r1 st ++ [st]
  | Grp i r1 => map (capture i st) (run r1 st)
  | Bol => match m_prev st with None => [st] | Some _ => [] end
  | WordB => if xorb (word_before st) (word_after st) then [st] else []
  end.

(** A successful match: the text matched, the captures, the input left. *)
Record result : Type := Result {
  matched : jsstring;
  caps : list (nat * jsstring);
  rest : jsstring
}.

(** The value of group [i]: [None] is JavaScript's [undefined] (the group
    took no part in the match). *)
Fixpoint lookup (i : nat) (l : list (nat * jsstring)) : option jsstring :=
  match l with
  | [] => None
  | (j, v) :: l' => if Nat.eqb i j then Some v else lookup i l'
  end.

Definition group (i : nat) (m : result) : option jsstring := lookup i (caps m).

(** The match of [r] that starts exactly at the current position. *)
Definition exec_at (r : regex) (prev : option char) (s : jsstring) : option result :=
  match run r (MState prev s []) with
  | st' :: _ =>
      Some (Result (firstn (length s - length (m_rest st')) s) (m_caps st') (m_rest st'))
  | [] => None
  end.

(** [r.test(s)]: is there a match at some position? *)
Fixpoint test_from (r : regex) (prev : option char) (s : jsstring) : bool :=
  match exec_at r prev s with
  | Some _ => true
  | None =>
      match s with
      | [] => false
      | c :: s' => test_from r (Some c) s'
      end
  end.

Definition test (r : regex) (s : jsstring) : bool := test_from r None s.

(** [s.replace(r, f)] without the global flag: the leftmost match only. *)
Fixpoint replace_from (r : regex) (f : result -> jsstring)
  (prev : option char) (s : jsstring) : jsstring :=
  match exec_at r prev s with
  | Some m => f m ++ rest m
  | None =>
      match s with
      | [] => []
      | c :: s' => c :: replace_from r f (Some c) s'
      end
  end.

Definition replace (r : regex) (f : result -> jsstring) (s : jsstring) : jsstring :=
  replace_from r f None s.

(** [s.replace(r, f)] with the global flag.  [skip] counts the code units
    of the current match still to pass over; after an empty match the
    scan copies one unit and moves on, as [lastIndex] does. *)
Fixpoint replace_all_from (r : regex) (f : result -> jsstring)
  (skip : nat) (prev : option char) (s : jsstring) : jsstring :=
  match skip, s with
  | S k, c :: s' => replace_all_from r f k (Some c) s'
  | S _, [] => []
  | O, [] =>
      match exec_at r prev [] with
      | Some m => f m
      | None => []
      end
  | O, c :: s' =>
      match exec_at r prev s with
      | Some m =>
          f m ++ match length (matched m) with
                 | O => c :: replace_all_from r f 0 (Some c) s'
                 | S k => replace_all_from r f k (Some c) s'
                 end
      | None => c :: replace_all_from r f 0 (Some c) s'
      end
  end.

Definition replace_all (r : regex) (f : result -> jsstring) (s : jsstring) : jsstring :=
  replace_all_from r f 0 None s.

(** The successive matches of a global pattern, as a loop over [r.exec(s)]
    or [s.matchAll(r)] finds them. *)
Fixpoint match_all_from (r : regex) (skip : nat) (prev : option char) (s : jsstring)
  : list result :=
  match skip, s with
  | S k, c :: s' => match_all_from r k (Some c) s'
  | S _, [] => []
  | O, [] =>
      match exec_at r prev [] with
      | Some m => [m]
      | None => []
      end
  | O, c :: s' =>
      match exec_at r prev s with
      | Some m =>
          m :: match_all_from r (pred (length (matched m))) (Some c) s'
      | None => match_all_from r 0 (Some c) s'
      end
  end.

Definition match_all (r : regex) (s : jsstring) : list result :=
  match_all_from r 0 None s.

(** Pattern syntax. *)
Definition chr (c : char) : regex := Cls (N.eqb c).

(** A letter under the [i] flag: Canonicalize maps a code unit to its
    upper case, and never a unit above 127 to one below. *)
Definition fold_case (c : char) : char :=
  if ((97 <=? c) && (c <=? 122))%N then (c - 32)%N else c.

Definition chr_i (c : char) : regex := Cls (fun x => N.eqb (fold_case x) (fold_case c)).

Fixpoint seq_of (l : list regex) : regex :=
  match l with
  | [] => Eps
  | [r] => r
  | r :: l' => Seq r (seq_of l')
  end.

Definition str (s : string) : regex := seq_of (map chr (lit s)).
Definition str_i (s : string) : regex := seq_of (map chr_i (lit s)).

Definition space : regex := Cls is_space.
Definition spaces : regex := Star is_space.
Definition not_chr (c : char) : char -> bool := fun x => negb (N.eqb x c).

End Re.

(* ================================================================= *)
(** ** Image URLs *)

Definition BASE_URL : jsstring := lit "/api/questions".
Definition S3_BASE : jsstring := lit "/api/questions".
Definition QUESTION_FETCH_CONCURRENCY : Z := 6.
Definition IMAGE_FETCH_CONCURRENCY : Z := 10.

(** [/^\/+/] *)
Definition re_leading_slashes : Re.regex :=
  Re.Seq Re.Bol (Re.Seq (Re.chr slash) (Re.Star (N.eqb slash))).

(** [resolveImageUrl]: [None] is the source's [null]. *)
Definition resolveImageUrl (imgPath : jsstring) : option jsstring :=
  let normalizedPath := Re.replace re_leading_slashes (fun _ => []) imgPath in
  let parts := split slash normalizedPath in
  if (length parts <? 3) || negb (jseq (nth 0 parts []) (lit "images")) then None
  else
    let questionId := nth 1 parts [] in
    let filename := join [slash] (skipn 2 parts) in
    if negb (str_truthy questionId) || negb (str_truthy filename) then None
    else Some (S3_BASE ++ lit "/" ++ questionId ++ lit "/" ++ filename).

(* ================================================================= *)
(** ** Markup helpers *)

Definition gt : char := 62%N.

(** The pattern [/<p(\s[^>]* )?\s*>/g] (in these comments a blank stands
    between a star and the closing parenthesis after it). *)
Definition re_p_open : Re.regex :=
  Re.seq_of [Re.str "<p";
             Re.Opt (Re.Grp 1 (Re.Seq Re.space (Re.Star (Re.not_chr gt))));
             Re.spaces; Re.chr gt].

(** [/class\s*=/] *)
Definition re_class_attr : Re.regex :=
  Re.seq_of [Re.str "class"; Re.spaces; Re.str "="].

(** [/LexicalTheme__paragraph/] *)
Definition re_theme : Re.regex := Re.str "LexicalTheme__paragraph".

(** The pattern [/class\s*=\s*Q([^Q]* )Q/], Q being the double quote. *)
Definition re_class_value : Re.regex :=
  Re.seq_of [Re.str "class"; Re.spaces; Re.str "="; Re.spaces; Re.chr dquote;
             Re.Grp 1 (Re.Star (Re.not_chr dquote)); Re.chr dquote].

(** [/dir\s*=/] *)
Definition re_dir_attr : Re.regex :=
  Re.seq_of [Re.str "dir"; Re.spaces; Re.str "="].

(** [x || ''] for a capture group. *)
Definition or_empty (g : option jsstring) : jsstring :=
  match g with Some a => a | None => [] end.

(** The body of the callback of [addLexicalClass]: the attribute text of
    the new tag, from the attribute text of the matched one. *)
Definition newAttrs (dir existingAttrs : jsstring) : jsstring :=
  let newAttrs :=
    if negb (Re.test re_class_attr existingAttrs) then
      existingAttrs ++ lit " class=`LexicalTheme__paragraph`"
    else if negb (Re.test re_theme existingAttrs) then
      Re.replace re_class_value
        (fun c => lit "class=`" ++ or_empty (Re.group 1 c) ++ lit " LexicalTheme__paragraph`")
        existingAttrs
    else existingAttrs in
  if negb (Re.test re_dir_attr newAttrs) then newAttrs ++ lit " dir=`" ++ dir ++ lit "`"
  else newAttrs.

(** The callback: [attrs || ''], then the new tag. *)
Definition lexical_p_tag (dir : jsstring) (m : Re.result) : jsstring :=
  let existingAttrs := or_empty (Re.group 1 m) in
  lit "<p" ++ newAttrs dir existingAttrs ++ lit ">".

Definition addLexicalClass (html dir : jsstring) : jsstring :=
  Re.replace_all re_p_open (lexical_p_tag dir) html.

(** [(?:svg|png|jpg|jpeg|gif|webp)] under the [i] flag. *)
Definition re_image_ext : Re.regex :=
  Re.Alt (Re.str_i "svg") (Re.Alt (Re.str_i "png") (Re.Alt (Re.str_i "jpg")
    (Re.Alt (Re.str_i "jpeg") (Re.Alt (Re.str_i "gif") (Re.str_i "webp"))))).

(** The pattern [/(<img[^>]*\ssrc\s*=\s*Q)([^Q]*\.(?:svg|png|jpg|jpeg|gif|webp))(Q)/gi],
    where Q is the double quote. *)
Definition re_img_src : Re.regex :=
  Re.seq_of
    [Re.Grp 1 (Re.seq_of [Re.str_i "<img"; Re.Star (Re.not_chr gt); Re.space;
                          Re.str_i "src"; Re.spaces; Re.str "="; Re.spaces;
                          Re.chr dquote]);
     Re.Grp 2 (Re.seq_of [Re.Star (Re.not_chr dquote); Re.str "."; re_image_ext]);
     Re.Grp 3 (Re.chr dquote)].

(** [/^https?:\/\//] *)
Definition re_http : Re.regex :=
  Re.seq_of [Re.Bol; Re.str "http"; Re.Opt (Re.str "s"); Re.str "://"].

(** The callback of [rewriteImagePaths]. *)
Definition rewrite_img (questionId : jsstring) (m : Re.result) : jsstring :=
  let pre := or_empty (Re.group 1 m) in
  let src := or_empty (Re.group 2 m) in
  let post := or_empty (Re.group 3 m) in
  if Re.test re_http src || startsWith (lit "images/") src then Re.matched m
  else pre ++ lit "images/" ++ questionId ++ lit "/" ++ src ++ post.

Definition rewriteImagePaths (html questionId : jsstring) : jsstring :=
  Re.replace_all re_img_src (rewrite_img questionId) html.

(** The pattern [/src\s*=\s*Q([^Q]*\.(?:svg|png|jpg|jpeg|gif|webp))Q/gi], Q being the
    double quote. *)
Definition re_src_value : Re.regex :=
  Re.seq_of [Re.str_i "src"; Re.spaces; Re.str "="; Re.spaces; Re.chr dquote;
             Re.Grp 1 (Re.seq_of [Re.Star (Re.not_chr dquote); Re.str "."; re_image_ext]);
             Re.chr dquote].

Definition collectImagePaths (html : jsstring) : list jsstring :=
  flat_map (fun m =>
              let src := or_empty (Re.group 1 m) in
              if Re.test re_http src then [] else [src])
    (Re.match_all re_src_value html).

(* ================================================================= *)
(** ** JavaScript values and abrupt completion *)

(** What is thrown, or what a promise is rejected with. *)
Inductive jserror : Type :=
| TypeError
| Error (message : jsstring).

(** The outcome of evaluating an expression: a value, or a thrown error.
    It is also how a promise settles: fulfilled, or rejected. *)
Inductive completion (A : Type) : Type :=
| Normal (a : A)
| Throw (e : jserror).

Arguments Normal {A} a.
Arguments Throw {A} e.

Definition bind {A B : Type} (c : completion A) (k : A -> completion B) : completion B :=
  match c with
  | Normal a => k a
  | Throw e => Throw e
  end.

Notation "x <- c ;; k" := (bind c (fun x => k))
  (at level 61, c at next level, right associativity).

(** [l.map(f)] with a callback that may throw: the first throw ends it. *)
Fixpoint mapM {A B : Type} (f : A -> completion B) (l : list A) : completion (list B) :=
  match l with
  | [] => Normal []
  | a :: l' => b <- f a ;; bs <- mapM f l' ;; Normal (b :: bs)
  end.

(** [l.map((x, index) => f x index)], counting from [i]. *)
Fixpoint mapMi {A B : Type} (f : A -> nat -> completion B) (i : nat) (l : list A)
  : completion (list B) :=
  match l with
  | [] => Normal []
  | a :: l' => b <- f a i ;; bs <- mapMi f (S i) l' ;; Normal (b :: bs)
  end.

(** The values [JSON.parse] produces, for the fields the interfaces type
    as [unknown].  A number is kept by what the renderers observe of it:
    whether it is falsy (zero) and its decimal text (Number::toString). *)
Inductive jsval : Type :=
| JUndefined
| JNull
| JBool (b : bool)
| JNumber (zero : bool) (text : jsstring)
| JString (s : jsstring)
| JArray (l : list jsval)
| JObject (fields : list (jsstring * jsval)).

(** ToBoolean. *)
Definition truthy (v : jsval) : bool :=
  match v with
  | JUndefined | JNull => false
  | JBool b => b
  | JNumber zero _ => negb zero
  | JString s => str_truthy s
  | JArray _ | JObject _ => true
  end.

Fixpoint own_property (name : jsstring) (fields : list (jsstring * jsval)) : option jsval :=
  match fields with
  | [] => None
  | (k, v) :: fields' => if jseq k name then Some v else own_property name fields'
  end.

(** [v.name] for the property names the renderers read ([value], [unit],
    [src], [alt], [A], [B], [label], [is_correct]): none of them is on a
    built-in prototype, so the result is the own property or [undefined];
    reading a property of [undefined] or [null] throws. *)
Definition get (v : jsval) (name : string) : completion jsval :=
  match v with
  | JUndefined | JNull => Throw TypeError
  | JObject fields =>
      match own_property (lit name) fields with
      | Some x => Normal x
      | None => Normal JUndefined
      end
  | _ => Normal JUndefined
  end.

(** ToString.  An object parsed from JSON that has a [toString] entry of
    its own has no callable [toString], and the inherited [valueOf] returns
    the object: OrdinaryToPrimitive throws.  An array joins its elements
    with commas, [null] and [undefined] as the empty string. *)
Fixpoint ToString (v : jsval) : completion jsstring :=
  match v with
  | JUndefined => Normal (lit "undefined")
  | JNull => Normal (lit "null")
  | JBool true => Normal (lit "true")
  | JBool false => Normal (lit "false")
  | JNumber _ text => Normal text
  | JString s => Normal s
  | JArray l =>
      parts <- (fix elements (l : list jsval) : completion (list jsstring) :=
                  match l with
                  | [] => Normal []
                  | x :: l' =>
                      s <- match x with
                           | JUndefined | JNull => Normal []
                           | _ => ToString x
                           end ;;
                      ss <- elements l' ;;
                      Normal (s :: ss)
                  end) l ;;
      Normal (join (lit ",") parts)
  | JObject fields =>
      match own_property (lit "toString") fields with
      | Some _ => Throw TypeError
      | None => Normal (lit "[object Object]")
      end
  end.

(** [v ?? d] *)
Definition nullish_or (v d : jsval) : jsval :=
  match v with
  | JUndefined | JNull => d
  | _ => v
  end.

(* ================================================================= *)
(** ** The question records *)

Record Choice : Type := {
  label : jsstring;
  value : jsstring;
  is_correct : option bool
}.

(** The order fields are JSON numbers: finite, so rationals. *)
Record GapKey : Type := {
  gap_value : jsstring;
  display_order : Q;
  correct_order : Q
}.

(** The fields of a part the exporter reads, typed as the interface
    [QuestionPart] types them.  An optional field that is absent is
    [None]; an [unknown] field that is absent is [JUndefined].  The number
    [n] is only printed: it is kept as the JSON value it is. *)
Record QuestionPart : Type := {
  n : jsval;
  type : jsstring;
  stem : jsstring;
  choices : option (list Choice);
  correct_answer : jsval;
  acceptable_answers : option (list jsstring);
  gap_keys : option (list GapKey);
  items : jsval
}.

(** A question as the interface [QuestionJSON] types it; [parts] is
    [content.parts].  The number of parts is a JSON number: a rational. *)
Record QuestionJSON : Type := {
  question_id : jsstring;
  language_code : jsstring;
  number_of_parts : Q;
  parts : list QuestionPart
}.

(* ================================================================= *)
(** ** Labels and choice items *)

(** Arabic label to HTML entity; the keys are given by their code units
    (alef with hamza, beh, jeem, dal, heh with tatweel, heh, waw). *)
Definition LABEL_ENTITY_MAP : list (jsstring * jsstring) :=
  [([0x623%N], lit "&#x623;");
   ([0x628%N], lit "&#x628;");
   ([0x62C%N], lit "&#x62C;");
   ([0x62F%N], lit "&#x62F;");
   ([0x647%N; 0x640%N], lit "&#x647;");
   ([0x647%N], lit "&#x647;");
   ([0x648%N], lit "&#x648;");
   (lit "A", lit "A"); (lit "B", lit "B"); (lit "C", lit "C");
   (lit "D", lit "D"); (lit "E", lit "E"); (lit "F", lit "F")].

Fixpoint assoc (key : jsstring) (table : list (jsstring * jsstring)) : option jsstring :=
  match table with
  | [] => None
  | (k, v) :: table' => if jseq k key then Some v else assoc key table'
  end.

Definition native_function_text (name : jsstring) : jsstring :=
  lit "function " ++ name ++ lit "() { [native code] }".

(** The table is an object literal, so a key that is not its own is looked
    up on Object.prototype; this is how such a property prints in a
    template (a native function prints as V8 prints it). *)
Definition Object_prototype_text (key : jsstring) : option jsstring :=
  if jseq key (lit "__proto__") then Some (lit "[object Object]")
  else if jseq key (lit "constructor") then Some (native_function_text (lit "Object"))
  else if existsb (jseq key)
            (map lit ["hasOwnProperty"; "isPrototypeOf"; "propertyIsEnumerable";
                      "toLocaleString"; "toString"; "valueOf"; "__defineGetter__";
                      "__defineSetter__"; "__lookupGetter__"; "__lookupSetter__"]%string)
       then Some (native_function_text key)
  else None.

(** [getLabelEntity], as the text its result has in a template. *)
Definition getLabelEntity (label : jsstring) : jsstring :=
  match assoc label LABEL_ENTITY_MAP with
  | Some entity => entity
  | None =>
      match Object_prototype_text label with
      | Some text => text
      | None => label
      end
  end.

(** The pattern [/<\s*p\b/i]. *)
Definition re_p_word : Re.regex :=
  Re.seq_of [Re.str "<"; Re.spaces; Re.chr_i 112%N; Re.WordB].

Definition wrapChoiceValue (valueHtml : jsval) (dir : jsstring) : completion jsstring :=
  text <- ToString (nullish_or valueHtml (JString [])) ;;
  let rawValue := trim text in
  let valueWithLexicalClass := trim (addLexicalClass rawValue dir) in
  let normalizedValue :=
    if Re.test re_p_word valueWithLexicalClass then valueWithLexicalClass
    else lit "<p class=`LexicalTheme__paragraph` dir=`" ++ dir ++ lit "`>"
         ++ valueWithLexicalClass ++ lit "</p>" in
  Normal (lit "<div class=`choice-value` dir=`" ++ dir ++ lit "`>" ++ normalizedValue
          ++ lit "</div>").

Definition renderChoiceItem (label labelClass : jsstring) (valueHtml : jsval)
  (dir : jsstring) : completion jsstring :=
  wrapped <- wrapChoiceValue valueHtml dir ;;
  Normal (lit "                <li class=``>" ++ nl
          ++ lit "                    <span class=`" ++ labelClass ++ lit "`>" ++ nl
          ++ lit "                        " ++ label ++ nl
          ++ lit "                    </span>" ++ nl
          ++ lit "                    " ++ wrapped ++ nl
          ++ lit "                </li>").

(* ================================================================= *)
(** ** Renderers per question type *)

Definition renderStringAnswer (part : QuestionPart) (dir : jsstring) : completion jsstring :=
  let answer :=
    match acceptable_answers part with
    | Some (a :: _) => a
    | _ => []
    end in
  item <- renderChoiceItem (lit "&#x623;") (lit "answered correct") (JString answer) dir ;;
  Normal (nl ++ lit "        <ul class=`mcq_choices`>" ++ nl
          ++ item ++ nl
          ++ lit "        </ul>" ++ nl).

(** [choice.is_correct ? 'not_active answered correct' : 'not_active'] *)
Definition choice_class (correct : bool) : jsstring :=
  if correct then lit "not_active answered correct" else lit "not_active".

Definition flag (f : option bool) : bool :=
  match f with Some b => b | None => false end.

Definition renderMCQAnswer (part : QuestionPart) (dir : jsstring) : completion jsstring :=
  match choices part with
  | None | Some [] => Normal []
  | Some cs =>
      rendered <- mapM (fun choice =>
                    let entity := getLabelEntity (label choice) in
                    let cls := choice_class (flag (is_correct choice)) in
                    renderChoiceItem entity cls (JString (value choice)) dir) cs ;;
      let items := join nl rendered in
      Normal (nl ++ lit "    <ul class=`mcq_choices`>" ++ nl
              ++ items ++ nl
              ++ lit "    </ul>" ++ nl)
  end.

Definition renderMRQAnswer (part : QuestionPart) (dir : jsstring) : completion jsstring :=
  renderMCQAnswer part dir.

Definition renderFRQAnswer (part : QuestionPart) (dir : jsstring) : completion jsstring :=
  match acceptable_answers part with
  | None | Some [] => Normal []
  | Some (first :: _) =>
      let answerHTML := addLexicalClass first dir in
      Normal (nl ++ lit "        <div class=`frq-answer`>" ++ nl
              ++ lit "                <div class=`answered correct`>" ++ answerHTML
              ++ lit "</div>" ++ nl
              ++ lit "        </div>" ++ nl)
  end.

Definition renderInputAnswer (part : QuestionPart) : completion jsstring :=
  let ca := correct_answer part in
  if negb (truthy ca) then Normal []
  else
    v <- get ca "value" ;;
    val <- match v with
           | JUndefined => Normal []
           | _ => ToString v
           end ;;
    u <- get ca "unit" ;;
    suffix <- (if truthy u then (text <- ToString u ;; Normal (lit " " ++ text))
               else Normal []) ;;
    Normal (nl ++ lit "        <div class=`input-answer`>" ++ nl
            ++ lit "                <span class=`answered correct`>" ++ val ++ suffix
            ++ lit "</span>" ++ nl
            ++ lit "        </div>" ++ nl).

(** [a.sort(cmp)]: the sort is stable, and a stable sort by a consistent
    comparator has one result; insertion from the right computes it.  An
    element goes before the first one it does not compare greater than. *)
Fixpoint sort_insert {A : Type} (cmp : A -> A -> Q) (x : A) (l : list A) : list A :=
  match l with
  | [] => [x]
  | y :: l' => if Qle_bool (cmp x y) 0 then x :: l else y :: sort_insert cmp x l'
  end.

Definition sort {A : Type} (cmp : A -> A -> Q) (l : list A) : list A :=
  fold_right (sort_insert cmp) [] l.

Definition by_correct_order (a b : GapKey) : Q :=
  (correct_order a - correct_order b)%Q.

Definition renderGapAnswer (part : QuestionPart) (dir : jsstring) : completion jsstring :=
  match gap_keys part with
  | None | Some [] => Normal []
  | Some keys =>
      let sorted := sort by_correct_order keys in
      rendered <- mapMi (fun gapKey index =>
                    renderChoiceItem (String_of_nat (index + 1)) (lit "answered correct")
                      (JString (gap_value gapKey)) dir) 0 sorted ;;
      let items := join nl rendered in
      Normal (nl ++ lit "        <ul class=`mcq_choices`>" ++ nl
              ++ items ++ nl
              ++ lit "        </ul>" ++ nl)
  end.

Definition renderOrderingAnswer (part : QuestionPart) (dir : jsstring) : completion jsstring :=
  match correct_answer part with
  | JArray ca =>
      rendered <- mapMi (fun value index =>
                    renderChoiceItem (String_of_nat (index + 1)) (lit "answered correct")
                      value dir) 0 ca ;;
      let items := join nl rendered in
      Normal (nl ++ lit "        <ol class=`mcq_choices`>" ++ nl
              ++ items ++ nl
              ++ lit "        </ol>" ++ nl)
  | _ => Normal []
  end.

(** The left-right arrow U+2194. *)
Definition arrow : jsstring := [0x2194%N].

Definition renderMatchingAnswer (part : QuestionPart) : completion jsstring :=
  match correct_answer part with
  | JArray pairs =>
      rendered <- mapM (fun pair =>
                    a <- get pair "A" ;;
                    ta <- ToString a ;;
                    b <- get pair "B" ;;
                    tb <- ToString b ;;
                    Normal (lit "            <tr>" ++ nl
                            ++ lit "                <td>" ++ ta ++ lit "</td>" ++ nl
                            ++ lit "                <td>" ++ arrow ++ lit "</td>" ++ nl
                            ++ lit "                <td>" ++ tb ++ lit "</td>" ++ nl
                            ++ lit "            </tr>")) pairs ;;
      let rows := join nl rendered in
      Normal (nl ++ lit "        <table class=`matching-answer`>" ++ nl
              ++ rows ++ nl
              ++ lit "        </table>" ++ nl)
  | _ => Normal []
  end.

(** [group.map(...).join('\n')] of [renderGMRQAnswer]: [group] is whatever
    the record holds under [A] or [B]; calling [map] on anything but an
    array throws. *)
Definition renderGroup (dir : jsstring) (group : jsval) : completion jsstring :=
  match group with
  | JArray cs =>
      rendered <- mapM (fun choice =>
                    correct <- get choice "is_correct" ;;
                    let cls := choice_class (truthy correct) in
                    l <- get choice "label" ;;
                    key <- ToString l ;;
                    v <- get choice "value" ;;
                    renderChoiceItem (getLabelEntity key) cls v dir) cs ;;
      Normal (join nl rendered)
  | _ => Throw TypeError
  end.

Definition renderGMRQAnswer (part : QuestionPart) (dir : jsstring) : completion jsstring :=
  let its := items part in
  if negb (truthy its) then Normal []
  else
    ga <- get its "A" ;;
    groupA <- renderGroup dir ga ;;
    gb <- get its "B" ;;
    groupB <- renderGroup dir gb ;;
    Normal (nl ++ lit "        <div class=`gmrq-group`>" ++ nl
            ++ lit "            <strong>Group A:</strong>" ++ nl
            ++ lit "            <ul class=`mcq_choices`>" ++ nl
            ++ groupA ++ nl
            ++ lit "            </ul>" ++ nl
            ++ lit "            <strong>Group B:</strong>" ++ nl
            ++ lit "            <ul class=`mcq_choices`>" ++ nl
            ++ groupB ++ nl
            ++ lit "            </ul>" ++ nl
            ++ lit "        </div>" ++ nl).

Definition renderCountingAnswer (part : QuestionPart) : completion jsstring :=
  ca <- ToString (correct_answer part) ;;
  Normal (nl ++ lit "        <div class=`input-answer`>" ++ nl
          ++ lit "                <span class=`answered correct`>" ++ ca ++ lit "</span>" ++ nl
          ++ lit "        </div>" ++ nl).

Definition renderOpinionAnswer (part : QuestionPart) (dir : jsstring) : completion jsstring :=
  match choices part with
  | None | Some [] => Normal []
  | Some cs =>
      rendered <- mapM (fun choice =>
                    renderChoiceItem (getLabelEntity (label choice)) (lit "not_active")
                      (JString (value choice)) dir) cs ;;
      let items := join nl rendered in
      Normal (nl ++ lit "    <ul class=`mcq_choices`>" ++ nl
              ++ items ++ nl
              ++ lit "    </ul>" ++ nl)
  end.

Definition renderPuzzleAnswer (part : QuestionPart) : completion jsstring :=
  let ca := correct_answer part in
  if negb (truthy ca) then Normal []
  else
    s <- get ca "src" ;;
    src <- ToString s ;;
    a <- get ca "alt" ;;
    alt <- (if truthy a then ToString a else Normal (lit "Puzzle answer")) ;;
    Normal (nl ++ lit "        <div class=`puzzle-answer`>" ++ nl
            ++ lit "            <img src=`" ++ src ++ lit "` alt=`" ++ alt
            ++ lit "` style=`max-width: 300px;` />" ++ nl
            ++ lit "        </div>" ++ nl).

(* ================================================================= *)
(** ** Main renderer *)

Definition renderAnswers (part : QuestionPart) (dir : jsstring) : completion jsstring :=
  let t := type part in
  if jseq t (lit "string") then renderStringAnswer part dir
  else if jseq t (lit "mcq") then renderMCQAnswer part dir
  else if jseq t (lit "mrq") then renderMRQAnswer part dir
  else if jseq t (lit "frq") then renderFRQAnswer part dir
  else if jseq t (lit "input") then renderInputAnswer part
  else if jseq t (lit "gap") then renderGapAnswer part dir
  else if jseq t (lit "ordering") then renderOrderingAnswer part dir
  else if jseq t (lit "matching") then renderMatchingAnswer part
  else if jseq t (lit "gmrq") then renderGMRQAnswer part dir
  else if jseq t (lit "counting") then renderCountingAnswer part
  else if jseq t (lit "opinion") then renderOpinionAnswer part dir
  else if jseq t (lit "puzzle") then renderPuzzleAnswer part
  else Normal (lit "<p style=`color:#999;`>Unsupported type: " ++ t ++ lit "</p>").

(* ================================================================= *)
(** ** Numbers *)

(** A JavaScript number, as far as [Math.min], [Math.max] and ToLength
    look at it: every finite double is a rational. *)
Inductive number : Type :=
| NaN
| PosInf
| NegInf
| Fin (q : Q).

Definition of_nat (k : nat) : number := Fin (inject_Z (Z.of_nat k)).

Definition Math_min (a b : number) : number :=
  match a, b with
  | NaN, _ | _, NaN => NaN
  | NegInf, _ | _, NegInf => NegInf
  | PosInf, x | x, PosInf => x
  | Fin p, Fin q => if Qle_bool p q then Fin p else Fin q
  end.

Definition Math_max (a b : number) : number :=
  match a, b with
  | NaN, _ | _, NaN => NaN
  | PosInf, _ | _, PosInf => PosInf
  | NegInf, x | x, NegInf => x
  | Fin p, Fin q => if Qle_bool p q then Fin q else Fin p
  end.

(** Truncation towards zero. *)
Definition Qtrunc (q : Q) : Z := if Qle_bool 0 q then Qfloor q else Qceiling q.

(** ToLength, which [Array.from] applies to [length]: [NaN] gives 0, and
    the result lies between 0 and 2^53 - 1. *)
Definition ToLength (x : number) : nat :=
  match x with
  | NaN | NegInf => 0
  | PosInf => Z.to_nat (2 ^ 53 - 1)
  | Fin q => Z.to_nat (Z.min (Qtrunc q) (2 ^ 53 - 1))
  end.

(* ================================================================= *)
(** ** The worker pool *)

(** A promise as its caller sees it once the event loop has run. *)
Inductive promise (A : Type) : Type :=
| Fulfilled (a : A)
| Rejected (e : jserror)
| Pending.

Arguments Fulfilled {A} a.
Arguments Rejected {A} e.
Arguments Pending {A}.

(** A worker is suspended at its [await] with the index it took, or it
    has left its loop: its guard failed, or the promise it awaited was
    rejected and the [await] threw. *)
Inductive worker : Type :=
| Awaiting (currentIndex : nat)
| Returned.

(** [l[i] = v] for [i] within the array. *)
Fixpoint assign {A : Type} (i : nat) (v : A) (l : list A) : list A :=
  match l, i with
  | [], _ => []
  | _ :: l', O => v :: l'
  | x :: l', S i' => x :: assign i' v l'
  end.

Section Pool.

Variables T R : Type.

(** The shared variables of one call: [nextIndex], the [results] array
    (a hole is [None]) and the workers. *)
Record pool : Type := Pool {
  nextIndex : nat;
  results : list (option R);
  workers : list worker
}.

Variable items : list T.

(** How the promise [mapper(item, index)] settles. *)
Variable mapper : T -> nat -> completion R.

(** A worker at the head of its loop: it takes the next index and
    suspends on the mapper's promise, or returns. *)
Definition enter_loop (next : nat) : worker * nat :=
  if next <? length items then (Awaiting next, next + 1) else (Returned, next).

(** [Array.from({ length: workerCount }, () => worker())]: the workers
    start one after the other, each running up to its first [await]. *)
Fixpoint spawn (count : nat) (next : nat) : list worker * nat :=
  match count with
  | O => ([], next)
  | S count' =>
      let (w, next') := enter_loop next in
      let (ws, next'') := spawn count' next' in
      (w :: ws, next'')
  end.

(** Worker [w] resumes because the promise it awaits has settled: on a
    rejection the worker's own promise is rejected (and with it the
    [Promise.all]); otherwise it stores the result and loops. *)
Definition resume (w : nat) (st : pool) : completion pool :=
  match nth_error (workers st) w with
  | Some (Awaiting currentIndex) =>
      match nth_error items currentIndex with
      | Some item =>
          r <- mapper item currentIndex ;;
          let (w', next') := enter_loop (nextIndex st) in
          Normal (Pool next' (assign currentIndex (Some r) (results st))
                       (assign w w' (workers st)))
      | None => Throw TypeError
      end
  | _ => Normal st
  end.

(** What a rejection leaves behind: the [await] throws in worker [w],
    which leaves its loop without storing anything; the shared variables
    and the other workers are as they were. *)
Definition abandon (w : nat) (st : pool) : pool :=
  Pool (nextIndex st) (results st) (assign w Returned (workers st)).

(** The workers suspended at an [await]. *)
Fixpoint awaiting_from (w : nat) (ws : list worker) : list nat :=
  match ws with
  | [] => []
  | Awaiting _ :: ws' => w :: awaiting_from (S w) ws'
  | Returned :: ws' => awaiting_from (S w) ws'
  end.

Definition awaiting (st : pool) : list nat := awaiting_from 0 (workers st).

(** The event loop.  Which of the pending mapper promises settles next is
    not the pool's choice: [sched t] picks it at step [t], among the
    workers then suspended.  When no worker is suspended all have
    returned, and [Promise.all] is fulfilled. *)
Fixpoint event_loop (sched : nat -> nat) (fuel t : nat) (st : pool)
  : promise (list (option R)) :=
  match awaiting st with
  | [] => Fulfilled (results st)
  | w0 :: ws =>
      match fuel with
      | O => Pending
      | S fuel' =>
          let w := nth (sched t mod length (w0 :: ws)) (w0 :: ws) w0 in
          match resume w st with
          | Normal st' => event_loop sched fuel' (S t) st'
          | Throw e => Rejected e
          end
      end
  end.

Definition workerCount (limit : number) : nat :=
  ToLength (Math_max (of_nat 1) (Math_min limit (of_nat (length items)))).

(** [mapWithConcurrency(items, limit, mapper)] under the completion order
    [sched].  Each step of the loop settles one item, so [length items]
    steps are all it can take. *)
Definition mapWithConcurrency (limit : number) (sched : nat -> nat)
  : promise (list (option R)) :=
  if length items =? 0 then Fulfilled []
  else
    let (ws, next) := spawn (workerCount limit) 0 in
    event_loop sched (length items) 0 (Pool next (repeat None (length items)) ws).

End Pool.

(* ================================================================= *)
(** ** The export: fetching the questions *)

(** What [response.json()] gives: a rejection when the body does not
    parse, a JSON value otherwise; [null], [false], [0] and the empty
    string are the falsy ones, and any other body is used as a question.
    The source casts it to [QuestionJSON] without a check; here a truthy
    body is taken to have the fields that interface declares. *)
Inductive json_body : Type :=
| Unparsable
| FalsyBody
| QuestionBody (q : QuestionJSON).

(** What [fetch(url)] gives: a rejection, or a response with its [ok] flag. *)
Inductive response : Type :=
| NetworkFailure
| Response (ok : bool) (body : json_body).

(** [{ id, question }], with [None] for a [null] or falsy question. *)
Record fetched : Type := Fetched {
  fetched_id : jsstring;
  fetched_question : option QuestionJSON
}.

(** The mapper of the first phase: whatever the fetch does, the promise is
    fulfilled with a record. *)
Definition fetchQuestion (fetch : jsstring -> response) (id : jsstring) : completion fetched :=
  match fetch (BASE_URL ++ lit "/" ++ id ++ lit "/" ++ id ++ lit ".json") with
  | Response true (QuestionBody question) => Normal (Fetched id (Some question))
  | Response true FalsyBody => Normal (Fetched id None)
  | Response true Unparsable => Normal (Fetched id None)
  | Response false _ => Normal (Fetched id None)
  | NetworkFailure => Normal (Fetched id None)
  end.

(** The loop over [questionResults]: a result goes to [questions] or its
    id to [failedIds].  Reading [question] of a hole throws. *)
Fixpoint sortResults (questionResults : list (option fetched))
  : completion (list QuestionJSON * list jsstring) :=
  match questionResults with
  | [] => Normal ([], [])
  | None :: _ => Throw TypeError
  | Some result :: more =>
      qf <- sortResults more ;;
      let (questions, failedIds) := qf in
      match fetched_question result with
      | Some question => Normal (question :: questions, failedIds)
      | None => Normal (questions, fetched_id result :: failedIds)
      end
  end.

Section Orchestrator.

Variable Blob : Type.

Record ExportResult : Type := {
  blob : Blob;
  successCount : nat;
  failedIds : list jsstring;
  failedImagePaths : list jsstring
}.

(** The network: the response to request number [i] for a URL. *)
Variable network : nat -> jsstring -> response.

(** Everything after the first loop (the document, the image downloads,
    the archive): it gives the blob and the failed image paths, or it
    rejects.  It reads [questions] and nothing else of the first phase. *)
Variable package : list QuestionJSON -> completion (Blob * list jsstring).

Definition generateExportHTML (questionIds : list jsstring) (sched : nat -> nat)
  : promise ExportResult :=
  match mapWithConcurrency questionIds
          (fun id i => fetchQuestion (network i) id)
          (Fin (inject_Z QUESTION_FETCH_CONCURRENCY)) sched with
  | Fulfilled questionResults =>
      match sortResults questionResults with
      | Normal (questions, failed) =>
          match package questions with
          | Normal (zipped, failedImages) =>
              Fulfilled {| blob := zipped;
                           successCount := length questions;
                           failedIds := failed;
                           failedImagePaths := failedImages |}
          | Throw e => Rejected e
          end
      | Throw e => Rejected e
      end
  | Rejected e => Rejected e
  | Pending => Pending
  end.

End Orchestrator.

(* ================================================================= *)
(** ** Vocabulary of the statements *)

(** The part with another type tag. *)
Definition with_type (t : jsstring) (p : QuestionPart) : QuestionPart :=
  {| n := n p; type := t; stem := stem p; choices := choices p;
     correct_answer := correct_answer p; acceptable_answers := acceptable_answers p;
     gap_keys := gap_keys p; items := items p |}.

(** A choice, and a part, without its correctness flags. *)
Definition erase_flag (c : Choice) : Choice :=
  {| label := label c; value := value c; is_correct := None |}.

Definition erase_flags (p : QuestionPart) : QuestionPart :=
  {| n := n p; type := type p; stem := stem p;
     choices := option_map (map erase_flag) (choices p);
     correct_answer := correct_answer p; acceptable_answers := acceptable_answers p;
     gap_keys := gap_keys p; items := items p |}.

(** A path of the canonical shape [images/<questionId>/<filename>] behind
    any number of leading slashes: the id is not empty and holds no slash,
    the file name is not empty (it may hold slashes). *)
Definition canonical_path (p questionId filename : jsstring) : Prop :=
  (exists k, p = repeat slash k ++ lit "images/" ++ questionId ++ lit "/" ++ filename)
  /\ questionId <> [] /\ ~ In slash questionId /\ filename <> [].

(** [needle] occurs in [s]. *)
Definition contains (s needle : jsstring) : Prop :=
  exists before after, s = before ++ needle ++ after.

(** The string without its leading slashes. *)
Fixpoint drop_slashes (s : jsstring) : jsstring :=
  match s with
  | c :: s' => if N.eqb slash c then drop_slashes s' else s
  | [] => []
  end.

(** The previous code unit after reading [u]. *)
Definition prev_after (prev : option char) (u : jsstring) : option char :=
  match rev u with
  | c :: _ => Some c
  | [] => prev
  end.

(** The markup [wrapChoiceValue] gives for a value that is the string
    [text], and [renderChoiceItem] for such an item. *)
Definition choice_value_html (text dir : jsstring) : jsstring :=
  let valueWithLexicalClass := trim (addLexicalClass (trim text) dir) in
  lit "<div class=`choice-value` dir=`" ++ dir ++ lit "`>"
  ++ (if Re.test re_p_word valueWithLexicalClass then valueWithLexicalClass
      else lit "<p class=`LexicalTheme__paragraph` dir=`" ++ dir ++ lit "`>"
           ++ valueWithLexicalClass ++ lit "</p>")
  ++ lit "</div>".

Definition choice_item_html (label labelClass text dir : jsstring) : jsstring :=
  lit "                <li class=``>" ++ nl
  ++ lit "                    <span class=`" ++ labelClass ++ lit "`>" ++ nl
  ++ lit "                        " ++ label ++ nl
  ++ lit "                    </span>" ++ nl
  ++ lit "                    " ++ choice_value_html text dir ++ nl
  ++ lit "                </li>".

(** List items for [values], numbered from [i + 1] in the order given. *)
Fixpoint numbered_items (dir : jsstring) (i : nat) (values : list jsstring) : list jsstring :=
  match values with
  | [] => []
  | v :: values' =>
      choice_item_html (String_of_nat (i + 1)) (lit "answered correct") v dir
      :: numbered_items dir (S i) values'
  end.

(** The answer list of a gap part whose values, in list order, are [values]. *)
Definition gap_list_html (dir : jsstring) (values : list jsstring) : jsstring :=
  nl ++ lit "        <ul class=`mcq_choices`>" ++ nl
  ++ join nl (numbered_items dir 0 values) ++ nl
  ++ lit "        </ul>" ++ nl.

(** The answer list of an opinion part with the choices [cs]: every
    label in a span of the class [not_active]. *)
Definition opinion_list_html (dir : jsstring) (cs : list Choice) : jsstring :=
  nl ++ lit "    <ul class=`mcq_choices`>" ++ nl
  ++ join nl (map (fun choice =>
                     choice_item_html (getLabelEntity (label choice)) (lit "not_active")
                       (value choice) dir) cs) ++ nl
  ++ lit "    </ul>" ++ nl.

(** What a gap key contributes besides its display order. *)
Definition gap_content (g : GapKey) : jsstring * Q := (gap_value g, correct_order g).

Definition by_correct_order_le (a b : GapKey) : Prop :=
  (correct_order a <= correct_order b)%Q.

(** ToString does not throw on [v]: no object with a [toString] entry of
    its own is converted. *)
Fixpoint printable (v : jsval) : bool :=
  match v with
  | JArray l =>
      (fix all (l : list jsval) : bool :=
         match l with
         | [] => true
         | x :: l' => printable x && all l'
         end) l
  | JObject fields =>
      match own_property (lit "toString") fields with
      | Some _ => false
      | None => true
      end
  | _ => true
  end.

Definition nullish (v : jsval) : bool :=
  match v with
  | JUndefined | JNull => true
  | _ => false
  end.

(** [v.name] where [v] is not nullish. *)
Definition prop (v : jsval) (name : string) : jsval :=
  match v with
  | JObject fields =>
      match own_property (lit name) fields with
      | Some x => x
      | None => JUndefined
      end
  | _ => JUndefined
  end.

(** An element of a gmrq group the renderer can draw: not nullish, with a
    label and a value that convert to strings. *)
Definition choice_like (c : jsval) : bool :=
  negb (nullish c) && printable (prop c "label") && printable (prop c "value").

Definition group_like (g : jsval) : bool :=
  match g with
  | JArray cs => forallb choice_like cs
  | _ => false
  end.

(** A row of a matching answer the renderer can draw. *)
Definition pair_like (p : jsval) : bool :=
  negb (nullish p) && printable (prop p "A") && printable (prop p "B").

(** The payload of the part is absent, or it is one its renderer can
    draw.  The types that read typed fields only have nothing to ask. *)
Definition payload_ok (part : QuestionPart) : bool :=
  let t := type part in
  let ca := correct_answer part in
  if jseq t (lit "input") then
    negb (truthy ca) || printable (prop ca "value") && printable (prop ca "unit")
  else if jseq t (lit "ordering") then
    match ca with JArray l => forallb printable l | _ => true end
  else if jseq t (lit "matching") then
    match ca with JArray l => forallb pair_like l | _ => true end
  else if jseq t (lit "gmrq") then
    negb (truthy (items part))
    || group_like (prop (items part) "A") && group_like (prop (items part) "B")
  else if jseq t (lit "counting") then printable ca
  else if jseq t (lit "puzzle") then
    negb (truthy ca) || printable (prop ca "src") && printable (prop ca "alt")
  else true.

(** The renderer gives markup when [ok] holds and throws a TypeError
    when it does not. *)
Definition draws_iff (ok : bool) (c : completion jsstring) : Prop :=
  if ok then exists html, c = Normal html else c = Throw TypeError.

(** [f] over the items with their indices, counted from [i]. *)
Fixpoint map_from {T R : Type} (f : T -> nat -> R) (i : nat) (l : list T) : list R :=
  match l with
  | [] => []
  | x :: l' => f x i :: map_from f (S i) l'
  end.

(** The number of holes of a results array. *)
Fixpoint holes {R : Type} (l : list (option R)) : nat :=
  match l with
  | [] => 0
  | None :: l' => S (holes l')
  | Some _ :: l' => holes l'
  end.

Section PoolInvariant.

Variables T R : Type.
Variable items : list T.
Variable f : T -> nat -> R.

(** What holds of the pool whenever the event loop has control, for a
    mapper whose promise for item [i] is fulfilled with [f items[i] i]:
    an index below [nextIndex] is stored or awaited by one worker, the
    slots of the awaited indices and of the indices not yet taken are
    holes, and a worker has returned only once the indices ran out. *)
Record pool_inv (st : pool R) : Prop := {
  inv_length : length (results st) = length items;
  inv_next : nextIndex st <= length items;
  inv_awaiting : forall w i,
    nth_error (workers st) w = Some (Awaiting i) ->
    i < nextIndex st /\ nth_error (results st) i = Some None;
  inv_distinct : forall w w' i,
    nth_error (workers st) w = Some (Awaiting i) ->
    nth_error (workers st) w' = Some (Awaiting i) -> w = w';
  inv_done : forall i x,
    i < nextIndex st -> nth_error items i = Some x ->
    nth_error (results st) i = Some (Some (f x i))
    \/ exists w, nth_error (workers st) w = Some (Awaiting i);
  inv_ahead : forall i,
    nextIndex st <= i -> i < length items -> nth_error (results st) i = Some None;
  inv_returned : forall w,
    nth_error (workers st) w = Some Returned -> length items <= nextIndex st;
  inv_workers : workers st <> []
}.

End PoolInvariant.

(** The question a response yields, if it yields one. *)
Definition fetched_body (r : response) : option QuestionJSON :=
  match r with
  | Response true (QuestionBody question) => Some question
  | _ => None
  end.

(** The record the first phase gets for the id at position [i]. *)
Definition fetch_outcome (network : nat -> jsstring -> response) (id : jsstring) (i : nat)
  : fetched :=
  Fetched id (fetched_body (network i (BASE_URL ++ lit "/" ++ id ++ lit "/" ++ id ++ lit ".json"))).

Definition has_question (r : fetched) : bool :=
  match fetched_question r with Some _ => true | None => false end.

(** The questions fetched, the ids they were asked under, and the ids
    whose fetch gave no question, each in the order of the input. *)
Definition fetched_questions (outcomes : list fetched) : list QuestionJSON :=
  flat_map (fun r => match fetched_question r with Some q => [q] | None => [] end) outcomes.

Definition succeeded_ids (outcomes : list fetched) : list jsstring :=
  map fetched_id (filter has_question outcomes).

Definition failed_ids (outcomes : list fetched) : list jsstring :=
  map fetched_id (filter (fun r => negb (has_question r)) outcomes).

(** A pattern without [^] and [\b]: whether and how it matches does not
    depend on the code unit before the position. *)
Fixpoint simple (r : Re.regex) : bool :=
  match r with
  | Re.Eps | Re.Cls _ | Re.Star _ => true
  | Re.Seq r1 r2 | Re.Alt r1 r2 => simple r1 && simple r2
  | Re.Opt r1 | Re.Grp _ r1 => simple r1
  | Re.Bol | Re.WordB => false
  end.

(** Two positions of the matcher with the same text ahead and the same
    captures. *)
Definition alike (st1 st2 : Re.mstate) : Prop :=
  Re.m_rest st1 = Re.m_rest st2 /\ Re.m_caps st1 = Re.m_caps st2.

(** The strings a pattern can match (an assertion matches the empty
    string, wherever it holds). *)
Fixpoint matches (r : Re.regex) (u : jsstring) : Prop :=
  match r with
  | Re.Eps | Re.Bol | Re.WordB => u = []
  | Re.Cls p => exists c, u = [c] /\ p c = true
  | Re.Seq r1 r2 => exists u1 u2, u = u1 ++ u2 /\ matches r1 u1 /\ matches r2 u2
  | Re.Alt r1 r2 => matches r1 u \/ matches r2 u
  | Re.Star p => forallb p u = true
  | Re.Opt r1 => u = [] \/ matches r1 u
  | Re.Grp _ r1 => matches r1 u
  end.

(** The parts of [re_p_open] after [<p]: the attribute group, and the
    blanks before the closing bracket. *)
Definition re_p_attrs : Re.regex :=
  Re.Grp 1 (Re.Seq Re.space (Re.Star (Re.not_chr gt))).

Definition re_p_close : Re.regex := Re.Seq Re.spaces (Re.chr gt).

(** The text before the first [stop], and the text from it on. *)
Fixpoint span_until (stop : char) (s : jsstring) : jsstring * jsstring :=
  match s with
  | [] => ([], [])
  | c :: s' =>
      if N.eqb c stop then ([], s)
      else let (u, v) := span_until stop s' in (c :: u, v)
  end.

(** The paragraph-opening tag at the front of [s], if there is one: its
    attribute text (none for a bare tag) and the text behind the tag. *)
Definition p_open (s : jsstring) : option (option jsstring * jsstring) :=
  match s with
  | a :: b :: c :: t =>
      if negb (N.eqb 60 a && N.eqb 112 b) then None
      else if is_space c then
        match span_until gt t with
        | (u, _ :: rest) => Some (Some (c :: u), rest)
        | (_, []) => None
        end
      else if N.eqb gt c then Some (None, t)
      else None
  | _ => None
  end.

(** The match [exec] reports for such a tag. *)
Definition p_open_result (s : jsstring) (found : option jsstring * jsstring) : Re.result :=
  Re.Result (firstn (length s - length (snd found)) s)
    (match fst found with Some a => [(1, a)] | None => [] end)
    (snd found).



(** *** Image tags *)

(** The start of an image tag, in any case: the first four units of
    [re_img_src]. *)
Definition re_img_open : Re.regex := Re.str_i "<img".

(** The start of a [src] attribute in double quotes, as [re_img_src] asks
    for it behind the tag's other attributes: [\ssrc\s*=\s*Q]. *)
Definition re_src_open : Re.regex :=
  Re.seq_of [Re.space; Re.str_i "src"; Re.spaces; Re.str "="; Re.spaces; Re.chr dquote].

(** An image tag up to the closing quote of its [src]: the attributes
    [attrs] written before it, then the source between double quotes. *)
Definition img_tag (attrs src : jsstring) : jsstring :=
  lit "<img" ++ attrs ++ lit " src=`" ++ src ++ [dquote].

(** A source that [re_img_src] takes: without a double quote, and ending
    in a dot and one of the six extensions, in any case. *)
Definition image_src (src : jsstring) : Prop :=
  ~ In dquote src
  /\ exists stem ext, src = stem ++ lit "." ++ ext /\ matches re_image_ext ext.

(** What is left of a tag: the text up to its closing bracket. *)
Definition tag_rest (s : jsstring) : jsstring := fst (span_until gt s).

(** A source that starts with [http://] or [https://], in lower case. *)
Definition absolute_http (src : jsstring) : bool :=
  startsWith (lit "http://") src || startsWith (lit "https://") src.

(** The source [rewriteImagePaths] leaves in the tag. *)
Definition archive_src (questionId src : jsstring) : jsstring :=
  if absolute_http src || startsWith (lit "images/") src then src
  else lit "images/" ++ questionId ++ lit "/" ++ src.

(* ================================================================= *)
(** ** One question of the document *)

Definition generateQuestionHTML (question : QuestionJSON) : completion jsstring :=
  let dir := if jseq (language_code question) (lit "ar") then lit "rtl" else lit "ltr" in
  let dirClass := lit "dir-" ++ dir in
  let qId := question_id question in
  let isMultiPart := negb (Qle_bool (number_of_parts question) 1) in
  let wrapperClass :=
    if isMultiPart then lit "multi-parts-question" else lit "one-part-question" in
  rendered <- mapM (fun part =>
                let stemHTML := rewriteImagePaths (addLexicalClass (stem part) dir) qId in
                answers <- renderAnswers part dir ;;
                let answersHTML := rewriteImagePaths answers qId in
                partLabel <- (if isMultiPart then
                                number <- ToString (n part) ;;
                                Normal (nl
                                        ++ lit "                    <div class=`part-number`><p>Part "
                                        ++ number ++ lit "</p></div>")
                              else Normal []) ;;
                partno <- ToString (n part) ;;
                Normal (lit "                    " ++ partLabel ++ nl
                        ++ lit "                        <div class=`question inline-displayed` data-partno=`"
                        ++ partno ++ lit "` data-parttype=`" ++ type part
                        ++ lit "`>" ++ nl
                        ++ nl
                        ++ lit "            <div class=`stem`>" ++ nl
                        ++ lit "                " ++ stemHTML ++ nl
                        ++ lit "            </div>" ++ nl
                        ++ lit "            <div class=`answers`>" ++ nl
                        ++ answersHTML ++ nl
                        ++ lit "            </div>" ++ nl
                        ++ lit "        </div>"))
              (parts question) ;;
  let partsHTML := join (nl ++ nl) rendered in
  Normal (nl
          ++ lit "            <div class=`instance " ++ dirClass ++ lit "` data-questionid=`"
          ++ qId ++ lit "`>" ++ nl
          ++ lit "                <div class=`" ++ wrapperClass ++ lit "`>" ++ nl
          ++ lit "                    <div class=`question-number`>" ++ nl
          ++ lit "                        <p>Question (" ++ qId ++ lit ")</p>" ++ nl
          ++ lit "                    </div>" ++ nl
          ++ partsHTML ++ nl
          ++ nl
          ++ nl
          ++ nl
          ++ nl
          ++ lit "                </div>" ++ nl
          ++ lit "            </div>").

(** A part [generateQuestionHTML] can draw: its payload is absent or one
    its renderer can draw, and its number converts to a string. *)
Definition part_ok (part : QuestionPart) : bool :=
  payload_ok part && printable (n part).

(** [questions.map((q) => generateQuestionHTML(q)).join('\n')], the first
    statement of [generateExportHTML] behind its loop. *)
Definition questionDivs (questions : list QuestionJSON) : completion jsstring :=
  divs <- mapM generateQuestionHTML questions ;; Normal (join nl divs).

(* ================================================================= *)
(** ** The states of the worker pool *)

Section PoolRun.

Variables T R : Type.
Variable items : list T.
Variable mapper : T -> nat -> completion R.
Variable limit : number.

(** The states the workers of a call go through, whatever the mapper
    does and whatever the order in which its promises settle: the state
    the start of the workers leaves, the state after any suspended worker
    resumed with a fulfilled promise, and the state after any suspended
    worker resumed with a rejected one.  There is no [try] in the worker
    and nothing stops the others: they go on taking items after
    [Promise.all], and with it the call, has been rejected. *)
Inductive reachable : pool R -> Prop :=
| reach_start (ws : list worker) (next : nat) :
    items <> [] ->
    spawn items (workerCount items limit) 0 = (ws, next) ->
    reachable (Pool next (repeat None (length items)) ws)
| reach_resume (st st' : pool R) (w : nat) :
    reachable st ->
    In w (awaiting st) ->
    resume items mapper w st = Normal st' ->
    reachable st'
| reach_reject (st : pool R) (w : nat) (e : jserror) :
    reachable st ->
    In w (awaiting st) ->
    resume items mapper w st = Throw e ->
    reachable (abandon w st).

End PoolRun.

(** The attribute name that [re_src_value] starts with, in any case. *)
Definition re_src_name : Re.regex := Re.str_i "src".

(** The source sub-pattern of [re_img_src] and [re_src_value]:
    [[^Q]*\.(?:svg|png|jpg|jpeg|gif|webp)]. *)
Definition re_source : Re.regex :=
  Re.seq_of [Re.Star (Re.not_chr dquote); Re.str "."; re_image_ext].

(** The opening bracket of a tag. *)
Definition lt_sign : char := 60%N.

(** What [re_img_src] asks for behind the tag name and the attributes it
    passes over: [\ssrc\s*=\s*Q[^Q]*\.(?:svg|png|jpg|jpeg|gif|webp)Q]. *)
Definition re_src_attr : Re.regex :=
  Re.Seq re_src_open (Re.Seq re_source (Re.chr dquote)).

(** Does the pattern match at one of the first [k] positions of [s]? *)
Fixpoint found_within (r : Re.regex) (k : nat) (prev : option char) (s : jsstring) : bool :=
  match k with
  | O => false
  | S k' =>
      match Re.exec_at r prev s with
      | Some _ => true
      | None =>
          match s with
          | [] => false
          | c :: s' => found_within r k' (Some c) s'
          end
      end
  end.

(** [s] starts with [p], letters compared without their case. *)
Fixpoint startsWith_i (p s : jsstring) : bool :=
  match p, s with
  | [], _ => true
  | x :: p', y :: s' => N.eqb (Re.fold_case x) (Re.fold_case y) && startsWith_i p' s'
  | _ :: _, [] => false
  end.

(** A source that starts with [http://] or [https://] in any case. *)
Definition absolute_any_case (src : jsstring) : bool :=
  startsWith_i (lit "http://") src || startsWith_i (lit "https://") src.

(** What [collectImagePaths] keeps of a source. *)
Definition collected (src : jsstring) : list jsstring :=
  if absolute_http src then [] else [src].

(* ================================================================= *)
(** ** Documents cut at their image tags *)

(** One image tag with the text before it. *)
Record img_piece : Type := Piece {
  piece_before : jsstring;
  piece_attrs : jsstring;
  piece_src : jsstring
}.

(** The document: each piece's text and tag, then the text [last] behind
    the last tag. *)
Fixpoint doc_text (pieces : list img_piece) (last : jsstring) : jsstring :=
  match pieces with
  | [] => last
  | p :: more =>
      piece_before p ++ img_tag (piece_attrs p) (piece_src p) ++ doc_text more last
  end.

(** The cut is at every tag: no [<img] in the text between the tags, no
    closing bracket in the attributes before a source, sources as
    [re_img_src] takes them, and no further [src=Q] before a tag closes. *)
Fixpoint well_tagged (pieces : list img_piece) (last : jsstring) : Prop :=
  match pieces with
  | [] => Re.test re_img_open last = false
  | p :: more =>
      Re.test re_img_open (piece_before p) = false
      /\ ~ In gt (piece_attrs p)
      /\ image_src (piece_src p)
      /\ Re.test re_src_open (tag_rest (doc_text more last)) = false
      /\ well_tagged more last
  end.

(** The text [src] stands nowhere but in the source attributes of the tags. *)
Fixpoint src_in_tags_only (pieces : list img_piece) (last : jsstring) : Prop :=
  match pieces with
  | [] => Re.test re_src_name last = false
  | p :: more =>
      Re.test re_src_name (piece_before p ++ lit "<img" ++ piece_attrs p) = false
      /\ src_in_tags_only more last
  end.

(** The piece with the source [rewriteImagePaths] leaves in its tag. *)
Definition archive_piece (questionId : jsstring) (p : img_piece) : img_piece :=
  Piece (piece_before p) (piece_attrs p) (archive_src questionId (piece_src p)).

(* ================================================================= *)
(** ** The CSV parser (utils/csvParser.ts) *)

(** A [Set] of strings: the elements in insertion order. *)
Definition set_has (x : jsstring) (s : list jsstring) : bool := existsb (jseq x) s.

Definition set_add (x : jsstring) (s : list jsstring) : list jsstring :=
  if set_has x s then s else s ++ [x].

Definition QUESTION_ID_KEYS : list jsstring :=
  set_add (lit "id") (set_add (lit "questionid") (set_add (lit "question_id") [])).

(** The class [[\s-]] and the pattern [/[\s-]+/g]. *)
Definition blank_or_dash (c : char) : bool := is_space c || N.eqb c 45.

Definition re_blanks_dashes : Re.regex :=
  Re.Seq (Re.Cls blank_or_dash) (Re.Star blank_or_dash).

(** The class [[a-z0-9_]] and the pattern [/[^a-z0-9_]/g]. *)
Definition key_unit (c : char) : bool :=
  ((97 <=? c) && (c <=? 122) || (48 <=? c) && (c <=? 57) || (c =? 95))%N.

Definition re_not_key_unit : Re.regex := Re.Cls (fun c => negb (key_unit c)).

(** One row of [results.data]: the entries of the object, in the order
    [Object.entries] lists them. *)
Definition csv_row : Type := list (jsstring * jsval).

(** What [Papa.parse] does with the file: it calls [complete] with the
    rows, or [error]. *)
Inductive papa_outcome : Type :=
| PapaComplete (data : list csv_row)
| PapaError (error : jserror).

Section CsvParser.

(** [String.prototype.toLowerCase], over all of Unicode: the parser is
    read for whatever this function is. *)
Variable toLowerCase : jsstring -> jsstring.

Definition normalizeHeaderKey (key : jsstring) : jsstring :=
  Re.replace_all re_not_key_unit (fun _ => [])
    (Re.replace_all re_blanks_dashes (fun _ => []) (toLowerCase (trim key))).

Fixpoint extractQuestionId (row : csv_row) : completion (option jsstring) :=
  match row with
  | [] => Normal None
  | (key, rawValue) :: row' =>
      if negb (set_has (normalizeHeaderKey key) QUESTION_ID_KEYS) then extractQuestionId row'
      else
        s <- ToString (nullish_or rawValue (JString [])) ;;
        let value := trim s in
        if str_truthy value then Normal (Some value) else extractQuestionId row'
  end.

(** The loop of [complete] over the rows, with its [ids] and [seen]. *)
Fixpoint collect_ids (data : list csv_row) (ids seen : list jsstring)
  : completion (list jsstring) :=
  match data with
  | [] => Normal ids
  | row :: data' =>
      id <- extractQuestionId row ;;
      match id with
      | None => collect_ids data' ids seen
      | Some id =>
          if negb (str_truthy id) || set_has id seen then collect_ids data' ids seen
          else collect_ids data' (ids ++ [id]) (set_add id seen)
      end
  end.

(** [parseCSV(file)], by what [Papa.parse] does.  A callback that throws
    calls neither [resolve] nor [reject]: the promise stays pending. *)
Definition parseCSV (parsed : papa_outcome) : promise (list jsstring) :=
  match parsed with
  | PapaError error => Rejected error
  | PapaComplete data =>
      match collect_ids data [] [] with
      | Normal ids =>
          if length ids =? 0 then
            Rejected (Error (lit "No question IDs found in CSV. Make sure the CSV has a column named `question_id`."))
          else Fulfilled ids
      | Throw _ => Pending
      end
  end.

End CsvParser.

(** [toLowerCase] on a string of ASCII units. *)
Definition ascii_lower (s : jsstring) : jsstring :=
  map (fun c => if ((65 <=? c) && (c <=? 90))%N then (c + 32)%N else c) s.

(** A cell under an id column. *)
Definition id_column (toLowerCase : jsstring -> jsstring) (key : jsstring) : bool :=
  set_has (normalizeHeaderKey toLowerCase key) QUESTION_ID_KEYS.

(** The text of a cell, trimmed: [String(rawValue ?? '').trim()]. *)
Definition cell_text (rawValue : jsval) : completion jsstring :=
  s <- ToString (nullish_or rawValue (JString [])) ;; Normal (trim s).

(** A row whose id cells (there may be none) are all blank. *)
Definition blank_ids (toLowerCase : jsstring -> jsstring) (row : csv_row) : Prop :=
  forall key rawValue,
    In (key, rawValue) row -> id_column toLowerCase key = true ->
    cell_text rawValue = Normal [].

(** The ids the rows give, in row order. *)
Fixpoint row_ids (toLowerCase : jsstring -> jsstring) (data : list csv_row) : list jsstring :=
  match data with
  | [] => []
  | row :: data' =>
      match extractQuestionId toLowerCase row with
      | Normal (Some id) => id :: row_ids toLowerCase data'
      | _ => row_ids toLowerCase data'
      end
  end.

(** A list without the repetitions of what was [seen] or came before. *)
Fixpoint first_occurrences (seen l : list jsstring) : list jsstring :=
  match l with
  | [] => []
  | x :: l' =>
      if set_has x seen then first_occurrences seen l'
      else x :: first_occurrences (set_add x seen) l'
  end.

(* ================================================================= *)
(** ** The document *)

(** The template of [generateExportHTML] before and behind
    [${questionDivs}], as the template literal evaluates (a backquote
    stands for a double quote). *)
Definition EXPORT_HEAD : jsstring := lit "<!DOCTYPE html PUBLIC `-//W3C//DTD XHTML 1.0 Transitional//EN` `http://www.w3.org/TR/xhtml1/DTD/xhtml1-transitional.dtd`>
            <html xmlns=`http://www.w3.org/1999/xhtml` xml:lang=`en` lang=`en`>
            <head>
                <meta http-equiv=`Content-Type` content=`text/html; charset=utf-8` />
                <meta name=`Author` content=`Nagwa` />
                <meta name=`application-name` content=`Nagwa` />
                <meta charset=`utf-8` />
                <meta name=`viewport` content=`width=device-width, initial-scale=1.0, user-scalable=yes` />
                <meta name=`format-detection` content=`telephone=no` />
                <meta property=`og:image` content=`https://contents.nagwa.com/content/images/nagwa-share.png`>
                <link rel=`icon` href=`https://contents.nagwa.com/content/images/favicon.png` type=`image/png` />
                <link href=`https://contents.nagwa.com/content/styles/app-min.637857909358239378.css` rel=`stylesheet` />
                <link href=`https://contents.nagwa.com/content/styles/plyr-min.637845694981855899.css` rel=`stylesheet` />

                <!-- KaTeX for math rendering -->
                <link rel=`stylesheet` href=`https://cdn.jsdelivr.net/npm/katex@0.16.9/dist/katex.min.css` />
                <script src=`https://cdn.jsdelivr.net/npm/katex@0.16.9/dist/katex.min.js`></script>

                <style>
                    /* ===== Blank-line / Gap Span ===== */
                    span[data-node-type=`blank-line`] {
                        display: inline-block;
                        min-width: 80px;
                        border-bottom: 2px solid #333;
                        margin: 0 4px;
                        text-align: center;
                        vertical-align: baseline;
                    }
                    span[data-node-type=`blank-line`][data-node-variation=`gap`] {
                        min-width: 100px;
                        padding: 2px 8px;
                    }

                    /* ===== Math / LaTeX Spans ===== */
                    .LexicalTheme__math--inline,
                    .LexicalTheme__math-inline {
                        display: inline-block;
                        vertical-align: middle;
                        margin: 0 2px;
                    }
                    .LexicalTheme__math--block,
                    .LexicalTheme__math-block {
                        display: block;
                        text-align: center;
                        margin: 10px 0;
                    }

                    /* ===== Audio Wrapper Span ===== */
                    span.audio-wrapper,
                    span[data-node-type=`audio`] {
                        display: inline-block;
                        vertical-align: middle;
                        margin: 4px 0;
                    }
                    span.audio-wrapper audio,
                    span[data-node-type=`audio`] audio {
                        max-width: 300px;
                        height: 36px;
                    }

                    /* ===== RTL / LTR Text Direction Spans ===== */
                    .LexicalTheme__text-rtl {
                        direction: rtl;
                        unicode-bidi: embed;
                        text-align: right;
                    }
                    .LexicalTheme__text-ltr {
                        direction: ltr;
                        unicode-bidi: embed;
                        text-align: left;
                    }
                    span[dir=`rtl`] {
                        direction: rtl;
                        unicode-bidi: embed;
                    }
                    span[dir=`ltr`] {
                        direction: ltr;
                        unicode-bidi: embed;
                    }

                    /* ===== Formatting / Pre-wrap Spans ===== */
                    span[style*=`white-space: pre-wrap`] {
                        white-space: pre-wrap !important;
                    }

                    /* ===== Editor Keywords (should not appear, but hide just in case) ===== */
                    .editor-keyword {
                        display: none !important;
                    }

                    /* ===== LexicalTheme Paragraph ===== */
                    .LexicalTheme__paragraph {
                        margin: 0;
                        padding: 0;
                        line-height: 1.8;
                    }

                    /* ===== Direction Classes ===== */
                    .dir-rtl {
                        direction: rtl;
                        text-align: right;
                    }
                    .dir-ltr {
                        direction: ltr;
                        text-align: left;
                    }

                    /* ===== MCQ / Choices Styling ===== */
                    .mcq_choices {
                        list-style: none;
                        padding: 0;
                        margin: 15px 0;
                    }
                    .mcq_choices li {
                        display: flex !important;
                        align-items: flex-start !important;
                        justify-content: flex-start !important;
                        width: 100% !important;
                        margin-bottom: 12px;
                        gap: 12px;
                    }
                    .mcq_choices li > span {
                        flex: 0 0 auto;
                        min-width: 2.2em;
                        text-align: center;
                        overflow: visible !important;
                        float: none !important;
                        position: static !important;
                        margin: 0 !important;
                        left: auto !important;
                        right: auto !important;
                    }
                    .mcq_choices li .choice-value {
                        flex: 1 1 auto;
                        min-width: 0;
                    }
                    .mcq_choices li .choice-value p {
                        margin: 0 !important;
                        white-space: normal;
                        overflow-wrap: anywhere;
                    }
                    .mcq_choices li p {
                        margin: 0 !important;
                    }
                    .dir-rtl .mcq_choices li {
                        flex-direction: row !important;
                        justify-content: flex-start !important;
                        direction: rtl !important;
                        text-align: right;
                    }
                    .dir-ltr .mcq_choices li {
                        flex-direction: row !important;
                        justify-content: flex-start !important;
                        direction: ltr !important;
                        text-align: left;
                    }
                    .dir-rtl .mcq_choices li .choice-value,
                    .dir-rtl .mcq_choices li .choice-value * {
                        direction: rtl;
                        text-align: right;
                    }
                    .dir-ltr .mcq_choices li .choice-value,
                    .dir-ltr .mcq_choices li .choice-value * {
                        direction: ltr;
                        text-align: left;
                    }
                </style>
            </head>
            <body>
<div class=`instances instances--instances-preview` id=`questionList`>
".

Definition EXPORT_TAIL : jsstring := lit "
</div>
<script>
document.addEventListener('DOMContentLoaded', function() {
    document.querySelectorAll('math-field').forEach(function(mf) {
        var latex = mf.getAttribute('value') || mf.textContent || '';
        if (!latex.trim()) return;
        var span = document.createElement('span');
        span.className = 'katex-rendered';
        try {
            katex.render(latex, span, {
                throwOnError: false,
                displayMode: mf.closest('[data-node-variation=`block`]') !== null ||
                              mf.closest('.LexicalTheme__math--block') !== null ||
                              mf.closest('.LexicalTheme__math-block') !== null
            });
        } catch(e) {
            span.textContent = latex;
        }
        mf.parentNode.replaceChild(span, mf);
    });
});
</script>
</body></html>
  ".

Definition exportDocument (questionDivs : jsstring) : jsstring :=
  EXPORT_HEAD ++ questionDivs ++ EXPORT_TAIL.

(* ================================================================= *)
(** ** The export: downloading the images *)

(** [[...new Set(l)]]: each element is added in turn, and the set keeps
    the order of insertion. *)
Definition Set_of (l : list jsstring) : list jsstring :=
  fold_left (fun s x => set_add x s) l [].

Definition EXPORT_NAME : jsstring := lit "Questions_Export.html".

Section ImagePhase.

(** What [response.blob()] is fulfilled with. *)
Variable Blob : Type.

(** What [fetch(imageUrl)] gives: a rejection, or a response with its
    [ok] flag and what [response.blob()] gives ([None] for a rejection). *)
Inductive image_response : Type :=
| ImageFailure
| ImageResponse (ok : bool) (body : option Blob).

(** The data of an entry of the archive. *)
Inductive zip_data : Type :=
| HtmlText (html : jsstring)
| ImageData (blob : Blob).

(** [zip.file(name, data)]: a new entry goes behind the others, an entry
    of that name gets the new data.  The archive is kept as its file
    entries, in the order of insertion. *)
Fixpoint zip_file (name : jsstring) (data : zip_data) (zip : list (jsstring * zip_data))
  : list (jsstring * zip_data) :=
  match zip with
  | [] => [(name, data)]
  | (name', data') :: more =>
      if jseq name' name then (name', data) :: more
      else (name', data') :: zip_file name data more
  end.

(** The variables the workers and the mapper calls share: [nextIndex]
    and [results] of [mapWithConcurrency], and [failedImagePathSet],
    [zip] and [processedImages] of [generateExportHTML].  The mapper of
    this phase returns [null]. *)
Record image_vars : Type := ImageVars {
  img_nextIndex : nat;
  img_results : list (option unit);
  failedImagePathSet : list jsstring;
  zip : list (jsstring * zip_data);
  processedImages : nat
}.

(** [failedImagePathSet.add(imgPath)] *)
Definition add_failed (imgPath : jsstring) (v : image_vars) : image_vars :=
  ImageVars (img_nextIndex v) (img_results v) (set_add imgPath (failedImagePathSet v))
            (zip v) (processedImages v).

(** [zip.file(imgPath, blob)] *)
Definition add_file (imgPath : jsstring) (blob : Blob) (v : image_vars) : image_vars :=
  ImageVars (img_nextIndex v) (img_results v) (failedImagePathSet v)
            (zip_file imgPath (ImageData blob) (zip v)) (processedImages v).

(** [processedImages += 1]; the optional [onProgress] is not given. *)
Definition count_processed (v : image_vars) : image_vars :=
  ImageVars (img_nextIndex v) (img_results v) (failedImagePathSet v) (zip v)
            (processedImages v + 1).

(** A worker with the mapper call it awaits: the call is suspended at
    [await fetch(imageUrl)], which will settle as [settles], or at
    [await response.blob()], or it has returned and the worker is to
    resume behind its own [await]; or the worker has left its loop. *)
Inductive image_worker : Type :=
| AwaitingFetch (currentIndex : nat) (settles : image_response)
| AwaitingBlob (currentIndex : nat) (settles : option Blob)
| AwaitingMapper (currentIndex : nat)
| WorkerReturned.

Variable imagePaths : list jsstring.

(** The network: the response to the request of the item at [index]
    for a URL. *)
Variable network : nat -> jsstring -> image_response.

(** The mapper called for the item at [currentIndex], up to its first
    [await] or, for a path without a URL, to its [return]. *)
Definition call_mapper (currentIndex : nat) (v : image_vars) : image_worker * image_vars :=
  let imgPath := nth currentIndex imagePaths [] in
  match resolveImageUrl imgPath with
  | None => (AwaitingMapper currentIndex, count_processed (add_failed imgPath v))
  | Some imageUrl => (AwaitingFetch currentIndex (network currentIndex imageUrl), v)
  end.

(** A worker at the head of its loop: it takes the next index and calls
    the mapper, or returns. *)
Definition image_enter_loop (v : image_vars) : image_worker * image_vars :=
  if img_nextIndex v <? length imagePaths then
    let currentIndex := img_nextIndex v in
    call_mapper currentIndex
      (ImageVars (img_nextIndex v + 1) (img_results v) (failedImagePathSet v)
                 (zip v) (processedImages v))
  else (WorkerReturned, v).

(** The workers start one after the other. *)
Fixpoint image_spawn (count : nat) (v : image_vars) : list image_worker * image_vars :=
  match count with
  | O => ([], v)
  | S count' =>
      let (w, v') := image_enter_loop v in
      let (ws, v'') := image_spawn count' v' in
      (w :: ws, v'')
  end.

(** One continuation runs: the mapper call behind its [await] up to the
    next one or through [catch] and [finally] to its end, or the worker
    behind its [await], which stores [null] and loops. *)
Definition image_resume (w : image_worker) (v : image_vars) : image_worker * image_vars :=
  match w with
  | AwaitingFetch currentIndex ImageFailure =>
      (AwaitingMapper currentIndex,
       count_processed (add_failed (nth currentIndex imagePaths []) v))
  | AwaitingFetch currentIndex (ImageResponse false _) =>
      (AwaitingMapper currentIndex,
       count_processed (add_failed (nth currentIndex imagePaths []) v))
  | AwaitingFetch currentIndex (ImageResponse true body) =>
      (AwaitingBlob currentIndex body, v)
  | AwaitingBlob currentIndex (Some blob) =>
      (AwaitingMapper currentIndex,
       count_processed (add_file (nth currentIndex imagePaths []) blob v))
  | AwaitingBlob currentIndex None =>
      (AwaitingMapper currentIndex,
       count_processed (add_failed (nth currentIndex imagePaths []) v))
  | AwaitingMapper currentIndex =>
      image_enter_loop
        (ImageVars (img_nextIndex v) (assign currentIndex (Some tt) (img_results v))
                   (failedImagePathSet v) (zip v) (processedImages v))
  | WorkerReturned => (WorkerReturned, v)
  end.

(** The workers that have a continuation to run. *)
Fixpoint image_pending_from (w : nat) (ws : list image_worker) : list nat :=
  match ws with
  | [] => []
  | WorkerReturned :: ws' => image_pending_from (S w) ws'
  | _ :: ws' => w :: image_pending_from (S w) ws'
  end.

(** The event loop: [sched t] picks the continuation that runs at step
    [t] among the pending ones, in any order the network and the job
    queue may give.  When none is pending every worker has returned. *)
Fixpoint image_event_loop (sched : nat -> nat) (fuel t : nat)
  (v : image_vars) (ws : list image_worker) : promise image_vars :=
  match image_pending_from 0 ws with
  | [] => Fulfilled v
  | w0 :: more =>
      match fuel with
      | O => Pending
      | S fuel' =>
          let w := nth (sched t mod length (w0 :: more)) (w0 :: more) w0 in
          let (worker', v') := image_resume (nth w ws WorkerReturned) v in
          image_event_loop sched fuel' (S t) v' (assign w worker' ws)
      end
  end.

(** Phase 3: the downloads under [mapWithConcurrency] when there is a
    path, from the shared variables [v].  A download takes at most three
    continuations, so three steps per path are all the loop can take. *)
Definition download_images (sched : nat -> nat) (v : image_vars) : promise image_vars :=
  if 0 <? length imagePaths then
    let (ws, v') :=
      image_spawn (workerCount imagePaths (Fin (inject_Z IMAGE_FETCH_CONCURRENCY))) v in
    image_event_loop sched (3 * length imagePaths) 0 v' ws
  else Fulfilled v.

End ImagePhase.

Arguments HtmlText {Blob} html.
Arguments AwaitingMapper {Blob} currentIndex.
Arguments WorkerReturned {Blob}.
Arguments ImageFailure {Blob}.

(** Phases 2 and 3 for the document [html]: the distinct paths, the
    archive with the document under its name, and the downloads.  The
    promise is fulfilled with the entries of the archive, in place of the
    blob made of them, and [[...failedImagePathSet]]. *)
Definition packageImages (Blob : Type) (network : nat -> jsstring -> image_response Blob)
  (html : jsstring) (sched : nat -> nat)
  : promise (list (jsstring * zip_data Blob) * list jsstring) :=
  let imagePaths := Set_of (collectImagePaths html) in
  match download_images imagePaths network sched
          (ImageVars 0 (repeat None (length imagePaths)) []
                     (zip_file EXPORT_NAME (HtmlText html) []) 0) with
  | Fulfilled v => Fulfilled (zip v, failedImagePathSet v)
  | Rejected e => Rejected e
  | Pending => Pending
  end.

(** What becomes of the image at [index]: its data when it is
    downloaded, [None] when its path has no URL, the request fails, the
    response is not ok or its body cannot be read. *)
Definition image_outcome (Blob : Type) (network : nat -> jsstring -> image_response Blob)
  (imagePaths : list jsstring) (index : nat) : option Blob :=
  match resolveImageUrl (nth index imagePaths []) with
  | None => None
  | Some imageUrl =>
      match network index imageUrl with
      | ImageResponse true (Some blob) => Some blob
      | _ => None
      end
  end.

(** What the downloads leave when their mapper calls come to an end in
    the order [done] (a list of indices): the failed paths, and the
    entries of the images behind those the archive had. *)
Definition failed_of (Blob : Type) (network : nat -> jsstring -> image_response Blob)
  (imagePaths : list jsstring) (done : list nat) : list jsstring :=
  flat_map (fun i => match image_outcome network imagePaths i with
                     | Some _ => []
                     | None => [nth i imagePaths []]
                     end) done.

Definition files_of (Blob : Type) (network : nat -> jsstring -> image_response Blob)
  (imagePaths : list jsstring) (done : list nat) : list (jsstring * zip_data Blob) :=
  flat_map (fun i => match image_outcome network imagePaths i with
                     | Some blob => [(nth i imagePaths [], ImageData blob)]
                     | None => []
                     end) done.

Section ImageInvariant.

Variable Blob : Type.
Variable imagePaths : list jsstring.
Variable network : nat -> jsstring -> image_response Blob.

(** The archive before the downloads. *)
Variable zip0 : list (jsstring * zip_data Blob).

(** The index of the mapper call a worker awaits, while the call is
    suspended. *)
Definition flight (w : image_worker Blob) : list nat :=
  match w with
  | AwaitingFetch i _ => [i]
  | AwaitingBlob i _ => [i]
  | _ => []
  end.

(** A suspended call waits for what the network gives for its item. *)
Definition worker_ok (w : image_worker Blob) : Prop :=
  match w with
  | AwaitingFetch i settles =>
      exists imageUrl,
        resolveImageUrl (nth i imagePaths []) = Some imageUrl
        /\ settles = network i imageUrl
  | AwaitingBlob i settles =>
      exists imageUrl,
        resolveImageUrl (nth i imagePaths []) = Some imageUrl
        /\ network i imageUrl = ImageResponse true settles
  | _ => True
  end.

(** The continuations a worker has before it takes another index. *)
Definition weight (w : image_worker Blob) : nat :=
  match w with
  | AwaitingFetch _ _ => 3
  | AwaitingBlob _ _ => 2
  | AwaitingMapper _ => 1
  | WorkerReturned => 0
  end.

(** Between two continuations: the indices handed out are those of the
    suspended calls [flights] and of the calls that came to an end, in
    the order [done]; the shared variables hold what those left. *)
Record image_inv (flights done : list nat) (v : image_vars Blob) : Prop := {
  img_inv_indices : Permutation (flights ++ done) (seq 0 (img_nextIndex v));
  img_inv_next : img_nextIndex v <= length imagePaths;
  img_inv_failed : failedImagePathSet v = failed_of network imagePaths done;
  img_inv_zip : zip v = zip0 ++ files_of network imagePaths done;
  img_inv_processed : processedImages v = length done
}.

End ImageInvariant.

(* ================================================================= *)
(** ** Sample records *)

(** A gmrq part whose [items] is the empty object: it has neither group. *)
Definition gmrq_without_groups : QuestionPart :=
  {| n := JNumber false (lit "1"); type := lit "gmrq"; stem := []; choices := None;
     correct_answer := JUndefined; acceptable_answers := None; gap_keys := None;
     items := JObject [] |}.

(** An ordering part and a matching part whose [correct_answer] is the
    empty object. *)
Definition ordering_without_list : QuestionPart :=
  {| n := JNumber false (lit "1"); type := lit "ordering"; stem := []; choices := None;
     correct_answer := JObject []; acceptable_answers := None; gap_keys := None;
     items := JUndefined |}.

Definition matching_without_list : QuestionPart :=
  {| n := JNumber false (lit "1"); type := lit "matching"; stem := []; choices := None;
     correct_answer := JObject []; acceptable_answers := None; gap_keys := None;
     items := JUndefined |}.

(** A gmrq part with one flagged choice in group A and an empty group B. *)
Definition gmrq_sample : QuestionPart :=
  {| n := JNumber false (lit "1"); type := lit "gmrq"; stem := []; choices := None;
     correct_answer := JUndefined; acceptable_answers := None; gap_keys := None;
     items := JObject
       [(lit "A", JArray [JObject [(lit "label", JString (lit "A"));
                                   (lit "value", JString (lit "<p>one</p>"));
                                   (lit "is_correct", JBool true)]]);
        (lit "B", JArray [])] |}.

(** Three gap keys, listed by display order 1, 2, 3; their correct orders
    are 2, 1, 3. *)
Definition gap_sample_keys : list GapKey :=
  [ {| gap_value := lit "second"; display_order := 1; correct_order := 2 |};
    {| gap_value := lit "first"; display_order := 2; correct_order := 1 |};
    {| gap_value := lit "third"; display_order := 3; correct_order := 3 |} ].

Definition gap_sample : QuestionPart :=
  {| n := JNumber false (lit "1"); type := lit "gap"; stem := []; choices := None;
     correct_answer := JUndefined; acceptable_answers := None;
     gap_keys := Some gap_sample_keys; items := JUndefined |}.

(** An opinion part with its first choice flagged correct, and the same
    part with no flag. *)
Definition opinion_choices (first_flag : option bool) : list Choice :=
  [ {| label := lit "A"; value := lit "agree"; is_correct := first_flag |};
    {| label := lit "B"; value := lit "disagree"; is_correct := Some false |} ].

Definition opinion_sample (first_flag : option bool) : QuestionPart :=
  {| n := JNumber false (lit "1"); type := lit "opinion"; stem := []; choices := Some (opinion_choices first_flag);
     correct_answer := JUndefined; acceptable_answers := None; gap_keys := None;
     items := JUndefined |}.

(** A mapper whose promise for the item 2 is rejected. *)
Definition reject_two (x i : nat) : completion nat :=
  if x =? 2 then Throw (Error (lit "failed")) else Normal (x * 10 + i).

(** Four rows of a file with the columns [Question ID] and [name]: the
    third repeats the first id, the fourth has a blank id. *)
Definition csv_sample : list csv_row :=
  [[(lit "Question ID", JString (lit " Q1 ")); (lit "name", JString (lit "a"))];
   [(lit "Question ID", JString (lit "Q2")); (lit "name", JString (lit "b"))];
   [(lit "Question ID", JString (lit "Q1")); (lit "name", JString (lit "c"))];
   [(lit "Question ID", JString (lit "  ")); (lit "name", JString (lit "d"))]].

(** A network that answers the second request with status 404 and every
    other with a question without parts. *)
Definition second_fails (i : nat) (url : jsstring) : response :=
  if i =? 1 then Response false Unparsable
  else Response true (QuestionBody {| question_id := lit "Q"; language_code := lit "en";
                                      number_of_parts := 1%Q; parts := [] |}).

(** A network that serves the first request with the question [A] and
    answers every later one with status 404. *)
Definition first_only (i : nat) (url : jsstring) : response :=
  if i =? 0 then
    Response true (QuestionBody {| question_id := lit "A"; language_code := lit "en";
                                   number_of_parts := 1%Q; parts := [] |})
  else Response false Unparsable.

(** A network that serves, for the first request, a question that is
    filed under the id [B], and answers every later request with status
    404. *)
Definition first_misfiled (i : nat) (url : jsstring) : response :=
  if i =? 0 then
    Response true (QuestionBody {| question_id := lit "B"; language_code := lit "en";
                                   number_of_parts := 1%Q; parts := [] |})
  else Response false Unparsable.

(** The pool of three items and two workers after its first settlement,
    the promise of the second worker. *)
Definition pool_sample : pool nat :=
  Pool 3 [None; Some 21; None] [Awaiting 0; Awaiting 2].

(** The pool of the items 1, 2, 3 and two workers under [reject_two],
    after the promise of the second worker was rejected and the first
    worker then stored its result and took the last item. *)
Definition pool_rejected_sample : pool nat :=
  Pool 3 [Some 10; None; None] [Awaiting 2; Returned].

(** A paragraph with a relative image, then one with an absolute image. *)
Definition pieces_sample : list img_piece :=
  [Piece (lit "<p>") (lit " alt=`x`") (lit "foo.svg");
   Piece (lit "></p><p>") [] (lit "https://h.example/b.png")].

(** Three images: one under a question's folder that the network
    serves, one without a folder, one whose request fails. *)
Definition images_sample : jsstring :=
  lit "<img src=`images/Q1/a.png`><img src=`b.png`><img src=`images/Q2/c.svg`>".

Definition image_network_sample (index : nat) (url : jsstring) : image_response nat :=
  if index =? 0 then ImageResponse true (Some 7) else ImageFailure.

(** A question in Arabic with two parts: a free response with an image
    in its stem, and a choice between two values. *)
Definition question_sample : QuestionJSON :=
  {| question_id := lit "Q1"; language_code := lit "ar"; number_of_parts := 2%Q;
     parts :=
       [{| n := JNumber false (lit "1"); type := lit "frq"; stem := lit "<p>See <img src=`a.png`></p>";
           choices := None; correct_answer := JUndefined;
           acceptable_answers := Some [lit "<p>x</p>"]; gap_keys := None;
           items := JUndefined |};
        {| n := JNumber false (lit "2"); type := lit "mcq"; stem := lit "<p>Pick</p>";
           choices := Some [{| label := lit "A"; value := lit "one"; is_correct := Some true |};
                            {| label := lit "B"; value := lit "two"; is_correct := None |}];
           correct_answer := JUndefined; acceptable_answers := None; gap_keys := None;
           items := JUndefined |}] |}.

(* ================================================================= *)
(** ** Tactics *)

(** Split a conjunction without introducing anything. *)
Ltac splits := repeat match goal with |- _ /\ _ => split end.

(** Comparisons of two literal tags are decided by computation. *)
Ltac settle_tags :=
  repeat match goal with
         | |- context [jseq (lit ?a) (lit ?b)] =>
             let v := eval vm_compute in (jseq (lit a) (lit b)) in
             change (jseq (lit a) (lit b)) with v
         end;
  cbv iota.

(** Dispatch of [renderAnswers] on a tag known by [H] or decided by [E]. *)
Ltac dispatch H := unfold renderAnswers; rewrite H; reflexivity.

(* ================================================================= *)
(** * Properties *)

(** ** Strings *)

Lemma jseq_refl (a : jsstring) : jseq a a = true.
Proof.
  induction a as [|x a IH]; simpl; [reflexivity|].
  now rewrite N.eqb_refl.
Qed.

Lemma jseq_eq (a b : jsstring) : jseq a b = true <-> a = b.
Proof.
  split; [|intros ->; apply jseq_refl].
  revert b; induction a as [|x a IH]; intros [|y b]; simpl; try discriminate; auto.
  rewrite andb_true_iff, N.eqb_eq. intros [-> H]. f_equal. now apply IH.
Qed.

Lemma jseq_neq (a b : jsstring) : jseq a b = false <-> a <> b.
Proof.
  rewrite <- jseq_eq. destruct (jseq a b); intuition congruence.
Qed.

Lemma split_not_nil (sep : char) (s : jsstring) : split sep s <> [].
Proof.
  destruct s as [|c s]; simpl; [discriminate|].
  destruct (N.eqb c sep); [discriminate|].
  destruct (split sep s); discriminate.
Qed.

(** A segment before the first separator is split off whole. *)
Lemma split_segment (sep : char) (a b : jsstring) :
  ~ In sep a -> split sep (a ++ sep :: b) = a :: split sep b.
Proof.
  induction a as [|c a IH]; simpl; intros Hnot.
  - now rewrite N.eqb_refl.
  - destruct (N.eqb_spec c sep) as [->|Hc]; [tauto|].
    rewrite IH by tauto. reflexivity.
Qed.

Lemma split_no_sep (sep : char) (a : jsstring) :
  ~ In sep a -> split sep a = [a].
Proof.
  induction a as [|c a IH]; simpl; intros Hnot; [reflexivity|].
  destruct (N.eqb_spec c sep) as [->|Hc]; [tauto|].
  rewrite IH by tauto. reflexivity.
Qed.

(** No segment holds the separator. *)
Lemma split_segments_clean (sep : char) (s seg : jsstring) :
  In seg (split sep s) -> ~ In sep seg.
Proof.
  revert seg; induction s as [|c s IH]; simpl; intros seg.
  - intros [<-|[]]. tauto.
  - destruct (N.eqb_spec c sep) as [->|Hc].
    + intros [<-|H]; [tauto|now apply IH].
    + destruct (split sep s) as [|seg0 segs] eqn:E.
      * intros [<-|[]]. simpl. intuition congruence.
      * intros [<-|H].
        -- simpl. intros [->|Hin]; [congruence|].
           now apply (IH seg0); [left|].
        -- apply IH. now right.
Qed.

(** Joining the segments gives the string back. *)
Lemma join_split (sep : char) (s : jsstring) : join [sep] (split sep s) = s.
Proof.
  induction s as [|c s IH]; simpl; [reflexivity|].
  destruct (N.eqb_spec c sep) as [->|Hc].
  - pose proof (split_not_nil sep s) as Hne.
    destruct (split sep s) as [|seg segs]; [congruence|].
    simpl in *. now rewrite IH.
  - destruct (split sep s) as [|seg segs] eqn:E.
    + now destruct (split_not_nil sep s).
    + simpl in *. destruct segs; simpl in *; now rewrite <- IH.
Qed.

(** ** Greedy stars *)

Lemma prev_after_cons (prev : option char) (c : char) (u : jsstring) :
  prev_after prev (c :: u) = prev_after (Some c) u.
Proof.
  unfold prev_after. simpl. destruct (rev u) as [|x r] eqn:E; reflexivity.
Qed.

(** The first way a star matches is the longest run of its class. *)
Lemma star_longest (p : char -> bool) (u v : jsstring) :
  forall prev caps,
  forallb p u = true ->
  match v with c :: _ => p c = false | [] => True end ->
  exists more,
    Re.star p prev (u ++ v) caps = Re.MState (prev_after prev u) v caps :: more.
Proof.
  induction u as [|c u IH]; simpl; intros prev caps Hu Hv.
  - destruct v as [|c v]; simpl; [now exists []|].
    rewrite Hv. now exists [].
  - apply andb_true_iff in Hu as [Hc Hu]. rewrite Hc.
    destruct (IH (Some c) caps Hu Hv) as [more ->].
    rewrite prev_after_cons. simpl. eauto.
Qed.

(** ** Leading slashes *)

Lemma drop_slashes_spec (s : jsstring) :
  exists k, s = repeat slash k ++ drop_slashes s.
Proof.
  induction s as [|c s [k IH]]; cbn [drop_slashes]; [now exists 0|].
  destruct (N.eqb_spec slash c) as [<-|Hc]; [|now exists 0].
  exists (S k). cbn [repeat app]. now rewrite <- IH.
Qed.

Lemma drop_slashes_head (s : jsstring) :
  match drop_slashes s with c :: _ => N.eqb slash c = false | [] => True end.
Proof.
  induction s as [|c s IH]; cbn [drop_slashes]; [exact I|].
  destruct (N.eqb slash c) eqn:E; [exact IH|exact E].
Qed.

Lemma drop_slashes_repeat (k : nat) (s : jsstring) :
  drop_slashes (repeat slash k ++ s) = drop_slashes s.
Proof.
  induction k as [|k IH]; cbn [repeat app drop_slashes]; [reflexivity|].
  now rewrite N.eqb_refl.
Qed.

Lemma forallb_repeat_slash (k : nat) : forallb (N.eqb slash) (repeat slash k) = true.
Proof.
  induction k as [|k IH]; cbn [repeat forallb]; [reflexivity|].
  now rewrite N.eqb_refl.
Qed.

(** Away from the start of the input the anchored pattern never matches,
    so nothing is replaced. *)
Lemma replace_leading_inside (f : Re.result -> jsstring) (s : jsstring) :
  forall c, Re.replace_from re_leading_slashes f (Some c) s = s.
Proof.
  induction s as [|x s IH]; intros c; simpl; [reflexivity|].
  now rewrite IH.
Qed.

(** The normalisation of [resolveImageUrl] strips the leading slashes. *)
Lemma normalize_drop_slashes (s : jsstring) :
  Re.replace re_leading_slashes (fun _ => []) s = drop_slashes s.
Proof.
  unfold Re.replace. destruct s as [|c s]; [reflexivity|].
  cbn [drop_slashes]. destruct (N.eqb slash c) eqn:E.
  - apply N.eqb_eq in E. subst c.
    destruct (drop_slashes_spec s) as [k Hk].
    pose proof (star_longest (N.eqb slash) (repeat slash k) (drop_slashes s)
                  (Some slash) [] (forallb_repeat_slash k) (drop_slashes_head s)) as [more Hstar].
    rewrite <- Hk in Hstar.
    unfold Re.replace_from, Re.exec_at. cbn [Re.run re_leading_slashes Re.m_prev Re.m_rest Re.m_caps Re.chr flat_map app].
    rewrite N.eqb_refl. cbn [flat_map Re.run Re.m_prev Re.m_rest Re.m_caps app].
    rewrite Hstar. reflexivity.
  - unfold Re.replace_from, Re.exec_at. cbn [Re.run re_leading_slashes Re.m_prev Re.m_rest Re.m_caps Re.chr flat_map app].
    rewrite E. cbn [flat_map app]. fold (Re.exec_at re_leading_slashes).
    f_equal. apply replace_leading_inside.
Qed.

(** ** [resolveImageUrl] *)

(** The function on the normalised path, as the source goes on. *)
Lemma resolveImageUrl_unfold (p : jsstring) :
  resolveImageUrl p =
  let parts := split slash (drop_slashes p) in
  if (length parts <? 3) || negb (jseq (nth 0 parts []) (lit "images")) then None
  else
    let questionId := nth 1 parts [] in
    let filename := join [slash] (skipn 2 parts) in
    if negb (str_truthy questionId) || negb (str_truthy filename) then None
    else Some (S3_BASE ++ lit "/" ++ questionId ++ lit "/" ++ filename).
Proof. unfold resolveImageUrl. now rewrite normalize_drop_slashes. Qed.

Lemma str_truthy_true (s : jsstring) : str_truthy s = true <-> s <> [].
Proof. destruct s; simpl; intuition congruence. Qed.

Lemma resolveImageUrl_canonical (p questionId filename : jsstring) :
  canonical_path p questionId filename ->
  resolveImageUrl p = Some (S3_BASE ++ lit "/" ++ questionId ++ lit "/" ++ filename).
Proof.
  intros ([k ->] & Hid & Hclean & Hfile).
  rewrite resolveImageUrl_unfold, drop_slashes_repeat.
  change (drop_slashes (lit "images/" ++ questionId ++ lit "/" ++ filename))
    with (lit "images" ++ slash :: (questionId ++ slash :: filename)).
  rewrite split_segment by (cbv; intuition discriminate).
  rewrite split_segment by exact Hclean.
  pose proof (split_not_nil slash filename) as Hne.
  pose proof (join_split slash filename) as Hjoin.
  destruct (split slash filename) as [|seg segs]; [congruence|].
  cbn [length nth skipn Nat.ltb Nat.leb orb].
  change (jseq (lit "images") (lit "images")) with true.
  cbn [negb orb]. rewrite Hjoin.
  apply str_truthy_true in Hid, Hfile. now rewrite Hid, Hfile.
Qed.

Lemma resolveImageUrl_some (p url : jsstring) :
  resolveImageUrl p = Some url ->
  exists questionId filename,
    canonical_path p questionId filename
    /\ url = S3_BASE ++ lit "/" ++ questionId ++ lit "/" ++ filename.
Proof.
  rewrite resolveImageUrl_unfold. cbv zeta.
  pose proof (join_split slash (drop_slashes p)) as Hjoin.
  pose proof (split_segments_clean slash (drop_slashes p)) as Hclean.
  destruct (split slash (drop_slashes p)) as [|x0 [|x1 [|x2 more]]];
    cbn [length Nat.ltb Nat.leb orb]; try discriminate.
  cbn [nth skipn].
  destruct (jseq x0 (lit "images")) eqn:E0; cbn [negb orb]; [|discriminate].
  apply jseq_eq in E0. subst x0.
  destruct (str_truthy x1) eqn:E1; cbn [negb orb]; [|discriminate].
  destruct (str_truthy (join [slash] (x2 :: more))) eqn:E2; cbn [negb]; [|discriminate].
  intros [= <-]. exists x1, (join [slash] (x2 :: more)).
  split; [|reflexivity].
  apply str_truthy_true in E1, E2.
  repeat split; auto.
  - destruct (drop_slashes_spec p) as [k Hk]. exists k.
    rewrite Hk at 1. f_equal. rewrite <- Hjoin.
    reflexivity.
  - apply Hclean. right. now left.
Qed.

Lemma contains_middle (a s b : jsstring) : contains (a ++ s ++ b) s.
Proof. now exists a, b. Qed.

Lemma contains_end (a s : jsstring) : contains (a ++ s) s.
Proof. exists a, []. now rewrite app_nil_r. Qed.

(** C6. [resolveImageUrl] is a total function into [option]: it answers
    [None] exactly for the paths that are not of the canonical shape
    (too few segments, a first segment other than [images], an empty id or
    an empty file name, each of which alone gives [None]), and for a
    canonical path the URL is built from the id and the file name, so it
    contains both; [images/Q1/foo.svg] resolves and [not/a/valid/path]
    does not. *)
Theorem resolveImageUrl_null_unless_canonical :
  (forall p,
      match resolveImageUrl p with
      | Some url =>
          exists questionId filename,
            canonical_path p questionId filename
            /\ url = S3_BASE ++ lit "/" ++ questionId ++ lit "/" ++ filename
            /\ contains url questionId /\ contains url filename
      | None => forall questionId filename, ~ canonical_path p questionId filename
      end)
  /\ (forall p,
        let segments := split slash (drop_slashes p) in
        length segments < 3
        \/ nth 0 segments [] <> lit "images"
        \/ nth 1 segments [] = []
        \/ join [slash] (skipn 2 segments) = [] ->
        resolveImageUrl p = None)
  /\ resolveImageUrl (lit "images/Q1/foo.svg") = Some (lit "/api/questions/Q1/foo.svg")
  /\ contains (lit "/api/questions/Q1/foo.svg") (lit "Q1")
  /\ contains (lit "/api/questions/Q1/foo.svg") (lit "foo.svg")
  /\ resolveImageUrl (lit "not/a/valid/path") = None.
Proof.
  split; [|split; [|repeat split]].
  - intros p. destruct (resolveImageUrl p) as [url|] eqn:E.
    + destruct (resolveImageUrl_some p E) as (q & f & Hc & ->).
      exists q, f. repeat split; try apply Hc.
      * apply (contains_middle (S3_BASE ++ lit "/") q (lit "/" ++ f)).
      * rewrite !app_assoc. apply contains_end.
    + intros q f Hc. rewrite (resolveImageUrl_canonical Hc) in E. discriminate.
  - intros p segments H. rewrite resolveImageUrl_unfold. fold segments. cbv zeta.
    destruct H as [H|[H|[H|H]]].
    + apply Nat.ltb_lt in H. now rewrite H.
    + apply jseq_neq in H. rewrite H. now rewrite orb_true_r.
    + rewrite H. cbn [str_truthy negb orb]. now destruct (_ || _).
    + rewrite H. cbn [str_truthy negb]. rewrite orb_true_r. now destruct (_ || _).
  - exists (lit "/api/questions/"), (lit "/foo.svg"). reflexivity.
  - exists (lit "/api/questions/Q1/"), []. reflexivity.
Qed.

(** C10. Leading slashes are stripped before the path is parsed, so any
    number of them in front changes nothing, and everything after the id
    is the file name, slashes included: [/images/Q1/foo.svg] resolves as
    [images/Q1/foo.svg] does, and [images/Q1/a/b.svg] resolves with the
    file name [a/b.svg]. *)
Theorem resolveImageUrl_normalizes_then_parses :
  (forall k p, resolveImageUrl (repeat slash k ++ p) = resolveImageUrl p)
  /\ (forall k questionId filename,
        questionId <> [] -> ~ In slash questionId -> filename <> [] ->
        resolveImageUrl (repeat slash k ++ lit "images/" ++ questionId ++ lit "/" ++ filename)
        = Some (S3_BASE ++ lit "/" ++ questionId ++ lit "/" ++ filename))
  /\ resolveImageUrl (lit "/images/Q1/foo.svg") = resolveImageUrl (lit "images/Q1/foo.svg")
  /\ resolveImageUrl (lit "images/Q1/a/b.svg") = Some (S3_BASE ++ lit "/Q1/" ++ lit "a/b.svg").
Proof.
  repeat split.
  - intros k p. now rewrite !resolveImageUrl_unfold, drop_slashes_repeat.
  - intros k q f Hq Hclean Hf. apply resolveImageUrl_canonical.
    repeat split; auto. now exists k.
Qed.

(** A canonical path with a nested file name, behind two slashes. *)
Lemma resolveImageUrl_normalizes_witness :
  resolveImageUrl (repeat slash 2 ++ lit "images/" ++ lit "Q1" ++ lit "/" ++ lit "a/b.svg")
  = Some (S3_BASE ++ lit "/" ++ lit "Q1" ++ lit "/" ++ lit "a/b.svg").
Proof.
  apply (proj1 (proj2 resolveImageUrl_normalizes_then_parses) 2 (lit "Q1") (lit "a/b.svg")).
  - discriminate.
  - cbv. intuition discriminate.
  - discriminate.
Defined.

(* ================================================================= *)
(** ** The renderers *)

Lemma mapM_total {A B : Type} (g : A -> B) (f : A -> completion B) (l : list A) :
  (forall a, In a l -> f a = Normal (g a)) -> mapM f l = Normal (map g l).
Proof.
  induction l as [|a l IH]; intros H; simpl; [reflexivity|].
  rewrite (H a) by now left. simpl.
  rewrite IH by (intros; apply H; now right). reflexivity.
Qed.

Lemma mapM_ext {A B : Type} (f g : A -> completion B) (l : list A) :
  (forall a, In a l -> f a = g a) -> mapM f l = mapM g l.
Proof.
  induction l as [|a l IH]; intros H; simpl; [reflexivity|].
  rewrite (H a) by now left.
  rewrite IH by (intros; apply H; now right). reflexivity.
Qed.

Lemma mapM_map {A B C : Type} (h : A -> B) (f : B -> completion C) (l : list A) :
  mapM f (map h l) = mapM (fun a => f (h a)) l.
Proof.
  induction l as [|a l IH]; simpl; [reflexivity|]. now rewrite IH.
Qed.

(** A value that is a string is wrapped without any conversion that
    could throw. *)
Lemma wrapChoiceValue_string (text dir : jsstring) :
  wrapChoiceValue (JString text) dir = Normal (choice_value_html text dir).
Proof. reflexivity. Qed.

Lemma renderChoiceItem_string (label labelClass text dir : jsstring) :
  renderChoiceItem label labelClass (JString text) dir
  = Normal (choice_item_html label labelClass text dir).
Proof. unfold renderChoiceItem. now rewrite wrapChoiceValue_string. Qed.

(** Dispatch on the type tag. *)
Lemma renderAnswers_mcq part dir :
  type part = lit "mcq" -> renderAnswers part dir = renderMCQAnswer part dir.
Proof. intros H. dispatch H. Qed.

Lemma renderAnswers_mrq part dir :
  type part = lit "mrq" -> renderAnswers part dir = renderMRQAnswer part dir.
Proof. intros H. dispatch H. Qed.

Lemma renderAnswers_gap part dir :
  type part = lit "gap" -> renderAnswers part dir = renderGapAnswer part dir.
Proof. intros H. dispatch H. Qed.

Lemma renderAnswers_opinion part dir :
  type part = lit "opinion" -> renderAnswers part dir = renderOpinionAnswer part dir.
Proof. intros H. dispatch H. Qed.

(** C9. A part tagged [mrq] renders to exactly the fragment the same part
    tagged [mcq] renders to, and the multi-choice renderer is the
    single-choice renderer. *)
Theorem renderAnswers_mrq_is_mcq :
  (forall part dir,
      renderAnswers (with_type (lit "mrq") part) dir
      = renderAnswers (with_type (lit "mcq") part) dir)
  /\ renderMRQAnswer = renderMCQAnswer.
Proof.
  split; [|reflexivity].
  intros part dir.
  rewrite renderAnswers_mrq, renderAnswers_mcq by reflexivity.
  reflexivity.
Qed.

(** The opinion renderer does not read the flags. *)
Lemma renderOpinionAnswer_erase part dir :
  renderOpinionAnswer (erase_flags part) dir = renderOpinionAnswer part dir.
Proof.
  unfold renderOpinionAnswer, erase_flags. cbn [choices].
  destruct (choices part) as [[|c cs]|]; cbn [option_map map]; try reflexivity.
  change (erase_flag c :: map erase_flag cs) with (map erase_flag (c :: cs)).
  now rewrite mapM_map.
Qed.

(** It draws every choice as the single-choice renderer draws a choice
    that is not flagged. *)
Lemma renderOpinionAnswer_neutral part dir :
  renderOpinionAnswer part dir = renderMCQAnswer (erase_flags part) dir.
Proof.
  unfold renderOpinionAnswer, renderMCQAnswer, erase_flags. cbn [choices].
  destruct (choices part) as [[|c cs]|]; cbn [option_map map]; try reflexivity.
  change (erase_flag c :: map erase_flag cs) with (map erase_flag (c :: cs)).
  now rewrite mapM_map.
Qed.

(** The markup of an opinion part: nothing without choices, and else
    the list of its choices, each label in a span of the class
    [not_active]. *)
Lemma renderOpinionAnswer_markup part dir :
  renderOpinionAnswer part dir
  = Normal (match choices part with
            | None | Some [] => []
            | Some cs => opinion_list_html dir cs
            end).
Proof.
  unfold renderOpinionAnswer.
  destruct (choices part) as [[|c cs]|]; try reflexivity.
  rewrite (mapM_total (fun choice =>
             choice_item_html (getLabelEntity (label choice)) (lit "not_active")
               (value choice) dir)).
  - reflexivity.
  - intros choice _. apply renderChoiceItem_string.
Qed.

(** C8. The rendering of an opinion part does not depend on the
    [is_correct] flags of its choices: two parts that differ in those flags
    only render alike.  The markup is the list of the choices in which
    the span of every label, flagged or not, has the class [not_active]
    and no other, which is how a single-choice part draws a choice
    without a flag; a part without choices renders to the empty string. *)
Theorem renderAnswers_opinion_ignores_is_correct part1 part2 dir :
  type part1 = lit "opinion" ->
  erase_flags part1 = erase_flags part2 ->
  renderAnswers part1 dir = renderAnswers part2 dir
  /\ renderAnswers part1 dir = renderMCQAnswer (erase_flags part1) dir
  /\ renderAnswers part1 dir
     = Normal (match choices part1 with
               | None | Some [] => []
               | Some cs =>
                   nl ++ lit "    <ul class=`mcq_choices`>" ++ nl
                   ++ join nl (map (fun choice =>
                                      choice_item_html (getLabelEntity (label choice))
                                        (lit "not_active") (value choice) dir) cs) ++ nl
                   ++ lit "    </ul>" ++ nl
               end).
Proof.
  intros Ht Hsame.
  assert (Ht2 : type part2 = lit "opinion").
  { rewrite <- Ht. change (type (erase_flags part2) = type (erase_flags part1)).
    now rewrite Hsame. }
  rewrite !renderAnswers_opinion by assumption.
  split; [|split; [apply renderOpinionAnswer_neutral|apply renderOpinionAnswer_markup]].
  rewrite <- (renderOpinionAnswer_erase part1), <- (renderOpinionAnswer_erase part2).
  now rewrite Hsame.
Qed.

(* ================================================================= *)
(** ** Sorting the gap keys *)

Section Sort.

Variable A : Type.
Variable cmp : A -> A -> Q.

Lemma sort_insert_perm (x : A) (l : list A) :
  Permutation (sort_insert cmp x l) (x :: l).
Proof.
  induction l as [|y l IH]; simpl; [reflexivity|].
  destruct (Qle_bool (cmp x y) 0); [reflexivity|].
  rewrite IH. apply perm_swap.
Qed.

Lemma sort_perm (l : list A) : Permutation (sort cmp l) l.
Proof.
  induction l as [|x l IH]; simpl; [reflexivity|].
  rewrite sort_insert_perm. now constructor.
Qed.

(** The order the comparator stands for. *)
Variable le : A -> A -> Prop.
Hypothesis le_trans : forall a b c, le a b -> le b c -> le a c.
Hypothesis cmp_le : forall a b, Qle_bool (cmp a b) 0 = true -> le a b.
Hypothesis cmp_gt : forall a b, Qle_bool (cmp a b) 0 = false -> le b a.

Lemma sort_insert_sorted (x : A) (l : list A) :
  StronglySorted le l -> StronglySorted le (sort_insert cmp x l).
Proof.
  induction 1 as [|y l Hs IH Hy]; simpl; [repeat constructor|].
  destruct (Qle_bool (cmp x y) 0) eqn:E.
  - constructor; [now constructor|].
    constructor; [now apply cmp_le|].
    eapply Forall_impl; [|exact Hy]. intros z Hz.
    apply le_trans with y; [now apply cmp_le|exact Hz].
  - constructor; [exact IH|].
    apply (Permutation_Forall (Permutation_sym (sort_insert_perm x l))).
    constructor; [now apply cmp_gt|exact Hy].
Qed.

Lemma sort_sorted (l : list A) : StronglySorted le (sort cmp l).
Proof.
  induction l as [|x l IH]; simpl; [constructor|].
  now apply sort_insert_sorted.
Qed.

End Sort.

(** Sorting commutes with a map that keeps the comparisons. *)
Lemma sort_map {A B : Type} (f : A -> B) (cmpA : A -> A -> Q) (cmpB : B -> B -> Q)
  (l : list A) :
  (forall x y, cmpB (f x) (f y) = cmpA x y) ->
  map f (sort cmpA l) = sort cmpB (map f l).
Proof.
  intros Hcmp. induction l as [|x l IH]; simpl; [reflexivity|].
  rewrite <- IH. generalize (sort cmpA l) as s. clear IH.
  induction s as [|y s IH]; simpl; [reflexivity|].
  rewrite Hcmp. destruct (Qle_bool (cmpA x y) 0); simpl; [reflexivity|].
  now rewrite IH.
Qed.

Lemma by_correct_order_le_true (a b : GapKey) :
  Qle_bool (by_correct_order a b) 0 = true -> by_correct_order_le a b.
Proof.
  unfold by_correct_order, by_correct_order_le. rewrite Qle_bool_iff.
  intros H. apply Qle_minus_iff. apply Qle_minus_iff in H.
  setoid_replace (correct_order b + - correct_order a)%Q
    with (0 + - (correct_order a - correct_order b))%Q by ring.
  exact H.
Qed.

Lemma by_correct_order_le_false (a b : GapKey) :
  Qle_bool (by_correct_order a b) 0 = false -> by_correct_order_le b a.
Proof.
  unfold by_correct_order, by_correct_order_le. intros H.
  destruct (Qlt_le_dec 0 (correct_order a - correct_order b)) as [Hlt|Hle].
  - apply Qlt_le_weak. apply Qlt_minus_iff. 
    setoid_replace (correct_order a + - correct_order b)%Q
      with (correct_order a - correct_order b)%Q by ring.
    exact Hlt.
  - apply Qle_bool_iff in Hle. congruence.
Qed.

Lemma by_correct_order_le_trans (a b c : GapKey) :
  by_correct_order_le a b -> by_correct_order_le b c -> by_correct_order_le a c.
Proof. unfold by_correct_order_le. apply Qle_trans. Qed.

(** The keys, sorted: ascending in [correct_order], and the same keys. *)
Lemma sorted_gap_keys (keys : list GapKey) :
  StronglySorted by_correct_order_le (sort by_correct_order keys)
  /\ Permutation (sort by_correct_order keys) keys.
Proof.
  split; [|apply sort_perm].
  apply sort_sorted.
  - exact by_correct_order_le_trans.
  - exact by_correct_order_le_true.
  - exact by_correct_order_le_false.
Qed.

(** The head of the sorted keys has the least [correct_order]. *)
Lemma sorted_head_least (sorted keys : list GapKey) (first : GapKey) :
  StronglySorted by_correct_order_le sorted ->
  Permutation sorted keys ->
  hd_error sorted = Some first ->
  forall k, In k keys -> by_correct_order_le first k.
Proof.
  intros Hs Hp Hhd k Hk.
  destruct sorted as [|x s]; [discriminate|]. injection Hhd as ->.
  apply (Permutation_in _ (Permutation_sym Hp)) in Hk.
  inversion Hs as [|? ? _ Hall]; subst.
  destruct Hk as [<-|Hk]; [apply Qle_refl|].
  rewrite Forall_forall in Hall. now apply Hall.
Qed.

(** The sorted values depend on the values and the correct orders only. *)
Lemma sorted_values_by_content (keys keys' : list GapKey) :
  map gap_content keys' = map gap_content keys ->
  map gap_value (sort by_correct_order keys')
  = map gap_value (sort by_correct_order keys).
Proof.
  intros H.
  assert (Hc : forall l, map gap_value (sort by_correct_order l)
               = map fst (sort (fun a b => (snd a - snd b)%Q) (map gap_content l))).
  { intros l. rewrite <- (sort_map gap_content by_correct_order) by reflexivity.
    now rewrite map_map. }
  now rewrite !Hc, H.
Qed.

Lemma mapMi_numbered (dir : jsstring) (l : list GapKey) :
  forall i,
  mapMi (fun gapKey index =>
           renderChoiceItem (String_of_nat (index + 1)) (lit "answered correct")
             (JString (gap_value gapKey)) dir) i l
  = Normal (numbered_items dir i (map gap_value l)).
Proof.
  induction l as [|g l IH]; intros i; cbn [mapMi numbered_items map]; [reflexivity|].
  rewrite renderChoiceItem_string. cbn [bind]. now rewrite IH.
Qed.

Lemma renderGapAnswer_sorted part dir keys :
  gap_keys part = Some keys -> keys <> [] ->
  renderGapAnswer part dir
  = Normal (gap_list_html dir (map gap_value (sort by_correct_order keys))).
Proof.
  intros Hk Hne. unfold renderGapAnswer. rewrite Hk.
  destruct keys as [|k ks]; [congruence|].
  rewrite mapMi_numbered. reflexivity.
Qed.

(** C7. A gap part with at least one key renders the list of its values
    sorted ascending by [correct_order] and numbered from 1: the keys
    listed are the part's keys, in an order ascending in [correct_order],
    so the first item is a key of least [correct_order]; the rendering is
    the same for any part whose keys have these values and correct
    orders, whatever their display orders. *)
Theorem renderGapAnswer_by_correct_order part dir keys :
  type part = lit "gap" ->
  gap_keys part = Some keys ->
  keys <> [] ->
  exists sorted,
    Permutation sorted keys
    /\ StronglySorted by_correct_order_le sorted
    /\ (exists first, hd_error sorted = Some first
          /\ forall k, In k keys -> by_correct_order_le first k)
    /\ renderAnswers part dir = Normal (gap_list_html dir (map gap_value sorted))
    /\ (forall part' keys',
          type part' = lit "gap" ->
          gap_keys part' = Some keys' ->
          map gap_content keys' = map gap_content keys ->
          renderAnswers part' dir = renderAnswers part dir).
Proof.
  intros Ht Hk Hne.
  destruct (sorted_gap_keys keys) as [Hs Hp].
  exists (sort by_correct_order keys). repeat split; auto.
  - destruct (sort by_correct_order keys) as [|first s] eqn:E.
    + apply Permutation_nil in Hp. congruence.
    + exists first. split; [reflexivity|].
      now apply (sorted_head_least Hs Hp).
  - rewrite renderAnswers_gap by exact Ht. now apply renderGapAnswer_sorted.
  - intros part' keys' Ht' Hk' Hc.
    assert (Hne' : keys' <> []).
    { intros ->. destruct keys; [congruence|discriminate]. }
    rewrite !renderAnswers_gap by assumption.
    rewrite (renderGapAnswer_sorted part' dir Hk' Hne'),
            (renderGapAnswer_sorted part dir Hk Hne).
    now rewrite (sorted_values_by_content keys keys' Hc).
Qed.

(* ================================================================= *)
(** ** When a renderer throws *)

(** A renderer either gives markup or throws a TypeError; [drawn c] says
    it gives markup. *)
Lemma ToString_printable :
  forall v, printable v = true -> exists s, ToString v = Normal s.
Proof.
  fix IH 1. intros [| | [|] | zero text | s | l | fields]; cbn [ToString printable]; eauto.
  - intros H.
    assert (Hl : exists parts,
      (fix elements (l : list jsval) : completion (list jsstring) :=
         match l with
         | [] => Normal []
         | x :: l' =>
             s <- match x with
                  | JUndefined | JNull => Normal []
                  | _ => ToString x
                  end ;;
             ss <- elements l' ;;
             Normal (s :: ss)
         end) l = Normal parts).
    { induction l as [|x l IHl]; [eauto|].
      apply andb_true_iff in H as [Hx Hl].
      destruct (IHl Hl) as [parts ->].
      destruct (IH x Hx) as [s Hs].
      destruct x; try (rewrite Hs); cbn [bind]; eauto. }
    destruct Hl as [parts ->]. cbn [bind]. eauto.
  - destruct (own_property (lit "toString") fields); [discriminate|eauto].
Qed.

Lemma ToString_unprintable :
  forall v, printable v = false -> ToString v = Throw TypeError.
Proof.
  fix IH 1. intros [| | [|] | zero text | s | l | fields]; cbn [ToString printable];
    try discriminate.
  - intros H.
    assert (Hl :
      (fix elements (l : list jsval) : completion (list jsstring) :=
         match l with
         | [] => Normal []
         | x :: l' =>
             s <- match x with
                  | JUndefined | JNull => Normal []
                  | _ => ToString x
                  end ;;
             ss <- elements l' ;;
             Normal (s :: ss)
         end) l = Throw TypeError).
    { induction l as [|x l IHl]; [discriminate|].
      destruct (printable x) eqn:Hx.
      - cbn [andb] in H. rewrite (IHl H).
        destruct (ToString_printable x Hx) as [s Hs].
        destruct x; try (rewrite Hs); reflexivity.
      - pose proof (IH x Hx) as Hs.
        destruct x; try discriminate; now rewrite Hs. }
    now rewrite Hl.
  - destruct (own_property (lit "toString") fields); [reflexivity|discriminate].
Qed.

Lemma get_prop (v : jsval) (name : string) :
  nullish v = false -> get v name = Normal (prop v name).
Proof.
  destruct v; cbn [nullish get prop]; try discriminate; try reflexivity.
  intros _. now destruct (own_property (lit name) fields).
Qed.

Lemma get_nullish (v : jsval) (name : string) :
  nullish v = true -> get v name = Throw TypeError.
Proof. destruct v; cbn [nullish get]; try discriminate; reflexivity. Qed.

Lemma truthy_not_nullish (v : jsval) : truthy v = true -> nullish v = false.
Proof. destruct v; cbn; congruence. Qed.

Lemma unprintable_truthy (v : jsval) : printable v = false -> truthy v = true.
Proof. destruct v; cbn [printable truthy]; try discriminate; reflexivity. Qed.

Lemma unprintable_not_nullish (v : jsval) : printable v = false -> nullish v = false.
Proof. intros H. now apply truthy_not_nullish, unprintable_truthy. Qed.

(** [wrapChoiceValue] and [renderChoiceItem] throw exactly on a value
    that does not convert to a string. *)
Lemma wrapChoiceValue_printable (v : jsval) (dir : jsstring) :
  printable v = true -> exists html, wrapChoiceValue v dir = Normal html.
Proof.
  intros H. unfold wrapChoiceValue.
  assert (Hp : printable (nullish_or v (JString [])) = true) by (destruct v; auto).
  destruct (ToString_printable _ Hp) as [s ->]. cbn [bind]. eauto.
Qed.

Lemma wrapChoiceValue_unprintable (v : jsval) (dir : jsstring) :
  printable v = false -> wrapChoiceValue v dir = Throw TypeError.
Proof.
  intros H. unfold wrapChoiceValue.
  assert (Hn : nullish_or v (JString []) = v) by (destruct v; try discriminate; reflexivity).
  now rewrite Hn, (ToString_unprintable v H).
Qed.

Lemma renderChoiceItem_printable (label cls : jsstring) (v : jsval) (dir : jsstring) :
  printable v = true -> exists html, renderChoiceItem label cls v dir = Normal html.
Proof.
  intros H. unfold renderChoiceItem.
  destruct (wrapChoiceValue_printable v dir H) as [w ->]. cbn [bind]. eauto.
Qed.

Lemma renderChoiceItem_unprintable (label cls : jsstring) (v : jsval) (dir : jsstring) :
  printable v = false -> renderChoiceItem label cls v dir = Throw TypeError.
Proof.
  intros H. unfold renderChoiceItem. now rewrite (wrapChoiceValue_unprintable v dir H).
Qed.

(** A map gives a list when its callback never throws on an element, and
    throws when it throws on one. *)
Lemma mapM_forallb {A B : Type} (ok : A -> bool) (f : A -> completion B) (l : list A) :
  (forall a, ok a = true -> exists b, f a = Normal b) ->
  (forall a, ok a = false -> f a = Throw TypeError) ->
  if forallb ok l then exists bs, mapM f l = Normal bs
  else mapM f l = Throw TypeError.
Proof.
  intros Hok Hbad. induction l as [|a l IH]; cbn [forallb mapM]; [eauto|].
  destruct (ok a) eqn:Ea; cbn [andb].
  - destruct (Hok a Ea) as [b ->]. cbn [bind].
    destruct (forallb ok l).
    + destruct IH as [bs ->]. cbn [bind]. eauto.
    + now rewrite IH.
  - now rewrite (Hbad a Ea).
Qed.

Lemma mapMi_forallb {A B : Type} (ok : A -> bool) (f : A -> nat -> completion B)
  (l : list A) :
  (forall a i, ok a = true -> exists b, f a i = Normal b) ->
  (forall a i, ok a = false -> f a i = Throw TypeError) ->
  forall i,
  if forallb ok l then exists bs, mapMi f i l = Normal bs
  else mapMi f i l = Throw TypeError.
Proof.
  intros Hok Hbad. induction l as [|a l IH]; intros i; cbn [forallb mapMi]; [eauto|].
  destruct (ok a) eqn:Ea; cbn [andb].
  - destruct (Hok a i Ea) as [b ->]. cbn [bind].
    specialize (IH (S i)). destruct (forallb ok l).
    + destruct IH as [bs ->]. cbn [bind]. eauto.
    + now rewrite IH.
  - now rewrite (Hbad a i Ea).
Qed.

Lemma draws_normal (html : jsstring) : draws_iff true (Normal html).
Proof. now exists html. Qed.

(** The branches that read typed fields only never throw. *)
Lemma renderStringAnswer_draws part dir :
  exists html, renderStringAnswer part dir = Normal html.
Proof.
  unfold renderStringAnswer. rewrite renderChoiceItem_string. cbn [bind]. eauto.
Qed.

Lemma renderMCQAnswer_draws part dir :
  exists html, renderMCQAnswer part dir = Normal html.
Proof.
  unfold renderMCQAnswer. destruct (choices part) as [[|c cs]|]; eauto.
  rewrite (mapM_total
             (fun choice => choice_item_html (getLabelEntity (label choice))
                              (choice_class (flag (is_correct choice))) (value choice) dir)).
  - cbn [bind]. eauto.
  - intros a _. apply renderChoiceItem_string.
Qed.

Lemma renderFRQAnswer_draws part dir :
  exists html, renderFRQAnswer part dir = Normal html.
Proof.
  unfold renderFRQAnswer. destruct (acceptable_answers part) as [[|a l]|]; eauto.
Qed.

Lemma renderGapAnswer_draws part dir :
  exists html, renderGapAnswer part dir = Normal html.
Proof.
  unfold renderGapAnswer. destruct (gap_keys part) as [[|k ks]|]; eauto.
  rewrite mapMi_numbered. cbn [bind]. eauto.
Qed.

Lemma renderOpinionAnswer_draws part dir :
  exists html, renderOpinionAnswer part dir = Normal html.
Proof. rewrite renderOpinionAnswer_neutral. apply renderMCQAnswer_draws. Qed.

(** The branches that read a payload typed [unknown]. *)
Lemma renderInputAnswer_draws part :
  let ca := correct_answer part in
  draws_iff (negb (truthy ca) || printable (prop ca "value") && printable (prop ca "unit"))
    (renderInputAnswer part).
Proof.
  cbv zeta. unfold renderInputAnswer.
  destruct (truthy (correct_answer part)) eqn:Et; cbn [negb orb]; [|apply draws_normal].
  pose proof (truthy_not_nullish _ Et) as Hn.
  rewrite !(get_prop _ _ Hn). cbn [bind].
  destruct (printable (prop (correct_answer part) "value")) eqn:Ev; cbn [andb].
  - assert (Hv : exists val,
              match prop (correct_answer part) "value" with
              | JUndefined => Normal []
              | _ => ToString (prop (correct_answer part) "value")
              end = Normal val).
    { destruct (ToString_printable _ Ev) as [s Hs].
      destruct (prop (correct_answer part) "value"); eauto. }
    destruct Hv as [val ->]. cbn [bind].
    destruct (printable (prop (correct_answer part) "unit")) eqn:Eu.
    + destruct (ToString_printable _ Eu) as [s ->]. cbn [bind].
      destruct (truthy (prop (correct_answer part) "unit")); cbn [bind]; apply draws_normal.
    + rewrite (unprintable_truthy _ Eu), (ToString_unprintable _ Eu). reflexivity.
  - rewrite (ToString_unprintable _ Ev).
    destruct (prop (correct_answer part) "value"); try discriminate; reflexivity.
Qed.

Lemma renderOrderingAnswer_draws part dir :
  draws_iff (match correct_answer part with JArray l => forallb printable l | _ => true end)
    (renderOrderingAnswer part dir).
Proof.
  unfold renderOrderingAnswer.
  destruct (correct_answer part) as [| | | | |l|]; try apply draws_normal.
  pose proof (mapMi_forallb printable
                (fun value index =>
                   renderChoiceItem (String_of_nat (index + 1)) (lit "answered correct")
                     value dir) l
                (fun a i H => renderChoiceItem_printable _ _ _ dir H)
                (fun a i H => renderChoiceItem_unprintable _ _ _ dir H) 0) as Hm.
  destruct (forallb printable l).
  - destruct Hm as [bs ->]. cbn [bind]. apply draws_normal.
  - now rewrite Hm.
Qed.

Lemma matching_row (pair : jsval) :
  let row :=
    a <- get pair "A" ;;
    ta <- ToString a ;;
    b <- get pair "B" ;;
    tb <- ToString b ;;
    Normal (lit "            <tr>" ++ nl
            ++ lit "                <td>" ++ ta ++ lit "</td>" ++ nl
            ++ lit "                <td>" ++ arrow ++ lit "</td>" ++ nl
            ++ lit "                <td>" ++ tb ++ lit "</td>" ++ nl
            ++ lit "            </tr>") in
  draws_iff (pair_like pair) row.
Proof.
  cbv zeta. unfold pair_like.
  destruct (nullish pair) eqn:En; cbn [negb andb].
  - now rewrite (get_nullish _ _ En).
  - rewrite !(get_prop _ _ En). cbn [bind].
    destruct (printable (prop pair "A")) eqn:Ea; cbn [andb].
    + destruct (ToString_printable _ Ea) as [ta ->]. cbn [bind].
      destruct (printable (prop pair "B")) eqn:Eb.
      * destruct (ToString_printable _ Eb) as [tb ->]. apply draws_normal.
      * now rewrite (ToString_unprintable _ Eb).
    + now rewrite (ToString_unprintable _ Ea).
Qed.

Lemma renderMatchingAnswer_draws part :
  draws_iff (match correct_answer part with JArray l => forallb pair_like l | _ => true end)
    (renderMatchingAnswer part).
Proof.
  unfold renderMatchingAnswer.
  destruct (correct_answer part) as [| | | | |l|]; try apply draws_normal.
  match goal with |- context [mapM ?f l] =>
    pose proof (mapM_forallb pair_like f l) as Hm end.
  cbv beta in Hm.
  assert (H1 : forall a : jsval, pair_like a = true -> exists b,
            (a0 <- get a "A" ;; ta <- ToString a0 ;; b0 <- get a "B" ;; tb <- ToString b0 ;;
             Normal (lit "            <tr>" ++ nl
                     ++ lit "                <td>" ++ ta ++ lit "</td>" ++ nl
                     ++ lit "                <td>" ++ arrow ++ lit "</td>" ++ nl
                     ++ lit "                <td>" ++ tb ++ lit "</td>" ++ nl
                     ++ lit "            </tr>")) = Normal b).
  { intros a Ha. pose proof (matching_row a) as Hr. cbv zeta in Hr.
    now rewrite Ha in Hr. }
  assert (H2 : forall a : jsval, pair_like a = false ->
            (a0 <- get a "A" ;; ta <- ToString a0 ;; b0 <- get a "B" ;; tb <- ToString b0 ;;
             Normal (lit "            <tr>" ++ nl
                     ++ lit "                <td>" ++ ta ++ lit "</td>" ++ nl
                     ++ lit "                <td>" ++ arrow ++ lit "</td>" ++ nl
                     ++ lit "                <td>" ++ tb ++ lit "</td>" ++ nl
                     ++ lit "            </tr>")) = Throw TypeError).
  { intros a Ha. pose proof (matching_row a) as Hr. cbv zeta in Hr.
    now rewrite Ha in Hr. }
  specialize (Hm H1 H2).
  destruct (forallb pair_like l).
  - destruct Hm as [bs ->]. cbn [bind]. apply draws_normal.
  - now rewrite Hm.
Qed.

Lemma gmrq_choice (dir : jsstring) (choice : jsval) :
  let item :=
    correct <- get choice "is_correct" ;;
    let cls := choice_class (truthy correct) in
    l <- get choice "label" ;;
    key <- ToString l ;;
    v <- get choice "value" ;;
    renderChoiceItem (getLabelEntity key) cls v dir in
  draws_iff (choice_like choice) item.
Proof.
  cbv zeta. unfold choice_like.
  destruct (nullish choice) eqn:En; cbn [negb andb].
  - now rewrite (get_nullish _ _ En).
  - rewrite !(get_prop _ _ En). cbn [bind].
    destruct (printable (prop choice "label")) eqn:El; cbn [andb].
    + destruct (ToString_printable _ El) as [key ->]. cbn [bind].
      destruct (printable (prop choice "value")) eqn:Ev.
      * destruct (renderChoiceItem_printable (getLabelEntity key)
                    (choice_class (truthy (prop choice "is_correct"))) _ dir Ev) as [h ->].
        apply draws_normal.
      * now rewrite renderChoiceItem_unprintable.
    + now rewrite (ToString_unprintable _ El).
Qed.

Lemma renderGroup_draws (dir : jsstring) (group : jsval) :
  draws_iff (group_like group) (renderGroup dir group).
Proof.
  unfold renderGroup, group_like.
  destruct group as [| | | | |cs|]; try reflexivity.
  match goal with |- context [mapM ?f cs] =>
    pose proof (mapM_forallb choice_like f cs) as Hm end.
  cbv beta in Hm.
  assert (H1 : forall a, choice_like a = true -> exists b,
            (correct <- get a "is_correct" ;; l <- get a "label" ;; key <- ToString l ;;
             v <- get a "value" ;;
             renderChoiceItem (getLabelEntity key) (choice_class (truthy correct)) v dir)
            = Normal b).
  { intros a Ha. pose proof (gmrq_choice dir a) as Hr. cbv zeta in Hr.
    now rewrite Ha in Hr. }
  assert (H2 : forall a, choice_like a = false ->
            (correct <- get a "is_correct" ;; l <- get a "label" ;; key <- ToString l ;;
             v <- get a "value" ;;
             renderChoiceItem (getLabelEntity key) (choice_class (truthy correct)) v dir)
            = Throw TypeError).
  { intros a Ha. pose proof (gmrq_choice dir a) as Hr. cbv zeta in Hr.
    now rewrite Ha in Hr. }
  specialize (Hm H1 H2).
  destruct (forallb choice_like cs).
  - destruct Hm as [bs ->]. cbn [bind]. apply draws_normal.
  - now rewrite Hm.
Qed.

Lemma renderGMRQAnswer_draws part dir :
  draws_iff (negb (truthy (items part))
             || group_like (prop (items part) "A") && group_like (prop (items part) "B"))
    (renderGMRQAnswer part dir).
Proof.
  unfold renderGMRQAnswer.
  destruct (truthy (items part)) eqn:Et; cbn [negb orb]; [|apply draws_normal].
  pose proof (truthy_not_nullish _ Et) as Hn.
  rewrite !(get_prop _ _ Hn). cbn [bind].
  pose proof (renderGroup_draws dir (prop (items part) "A")) as Ha.
  pose proof (renderGroup_draws dir (prop (items part) "B")) as Hb.
  destruct (group_like (prop (items part) "A")); cbn [andb].
  - destruct Ha as [ga ->]. cbn [bind].
    destruct (group_like (prop (items part) "B")).
    + destruct Hb as [gb ->]. apply draws_normal.
    + now rewrite Hb.
  - now rewrite Ha.
Qed.

Lemma renderCountingAnswer_draws part :
  draws_iff (printable (correct_answer part)) (renderCountingAnswer part).
Proof.
  unfold renderCountingAnswer.
  destruct (printable (correct_answer part)) eqn:E.
  - destruct (ToString_printable _ E) as [s ->]. apply draws_normal.
  - now rewrite (ToString_unprintable _ E).
Qed.

Lemma renderPuzzleAnswer_draws part :
  let ca := correct_answer part in
  draws_iff (negb (truthy ca) || printable (prop ca "src") && printable (prop ca "alt"))
    (renderPuzzleAnswer part).
Proof.
  cbv zeta. unfold renderPuzzleAnswer.
  destruct (truthy (correct_answer part)) eqn:Et; cbn [negb orb]; [|apply draws_normal].
  pose proof (truthy_not_nullish _ Et) as Hn.
  rewrite !(get_prop _ _ Hn). cbn [bind].
  destruct (printable (prop (correct_answer part) "src")) eqn:Es; cbn [andb].
  - destruct (ToString_printable _ Es) as [src ->]. cbn [bind].
    destruct (printable (prop (correct_answer part) "alt")) eqn:Ea.
    + destruct (ToString_printable _ Ea) as [alt ->].
      destruct (truthy (prop (correct_answer part) "alt")); apply draws_normal.
    + now rewrite (unprintable_truthy _ Ea), (ToString_unprintable _ Ea).
  - now rewrite (ToString_unprintable _ Es).
Qed.


(** [renderAnswers] throws exactly on the payloads it cannot draw. *)
Lemma renderAnswers_draws part dir :
  draws_iff (payload_ok part) (renderAnswers part dir).
Proof.
  unfold renderAnswers, payload_ok. cbv zeta.
  destruct (jseq (type part) (lit "string")) eqn:E1.
  { apply jseq_eq in E1; rewrite E1; settle_tags. apply renderStringAnswer_draws. }
  destruct (jseq (type part) (lit "mcq")) eqn:E2.
  { apply jseq_eq in E2; rewrite E2; settle_tags. apply renderMCQAnswer_draws. }
  destruct (jseq (type part) (lit "mrq")) eqn:E3.
  { apply jseq_eq in E3; rewrite E3; settle_tags. apply renderMCQAnswer_draws. }
  destruct (jseq (type part) (lit "frq")) eqn:E4.
  { apply jseq_eq in E4; rewrite E4; settle_tags. apply renderFRQAnswer_draws. }
  destruct (jseq (type part) (lit "input")) eqn:E5.
  { apply renderInputAnswer_draws. }
  destruct (jseq (type part) (lit "gap")) eqn:E6.
  { apply jseq_eq in E6; rewrite E6; settle_tags. apply renderGapAnswer_draws. }
  destruct (jseq (type part) (lit "ordering")) eqn:E7.
  { apply renderOrderingAnswer_draws. }
  destruct (jseq (type part) (lit "matching")) eqn:E8.
  { apply renderMatchingAnswer_draws. }
  destruct (jseq (type part) (lit "gmrq")) eqn:E9.
  { apply renderGMRQAnswer_draws. }
  destruct (jseq (type part) (lit "counting")) eqn:E10.
  { apply renderCountingAnswer_draws. }
  destruct (jseq (type part) (lit "opinion")) eqn:E11.
  { apply jseq_eq in E11; rewrite E11; settle_tags. apply renderOpinionAnswer_draws. }
  destruct (jseq (type part) (lit "puzzle")) eqn:E12.
  { apply renderPuzzleAnswer_draws. }
  apply draws_normal.
Qed.

(* ================================================================= *)
(** ** Arrays *)

Lemma assign_length {A : Type} (i : nat) (v : A) (l : list A) :
  length (assign i v l) = length l.
Proof.
  revert i; induction l as [|x l IH]; intros [|i]; simpl; auto.
Qed.

Lemma nth_error_assign_same {A : Type} (i : nat) (v : A) (l : list A) :
  i < length l -> nth_error (assign i v l) i = Some v.
Proof.
  revert i; induction l as [|x l IH]; intros [|i]; simpl; intros H; try lia; auto.
  apply IH. lia.
Qed.

Lemma nth_error_assign_other {A : Type} (i j : nat) (v : A) (l : list A) :
  i <> j -> nth_error (assign i v l) j = nth_error l j.
Proof.
  revert i j; induction l as [|x l IH]; intros [|i] [|j]; simpl; intros H;
    try reflexivity; try lia.
  apply IH. lia.
Qed.

Lemma holes_assign {R : Type} (i : nat) (r : R) (l : list (option R)) :
  nth_error l i = Some None -> S (holes (assign i (Some r) l)) = holes l.
Proof.
  revert i; induction l as [|x l IH]; intros [|i]; simpl; try discriminate.
  - now intros [= ->].
  - intros H. destruct x; simpl; [now apply IH|]. f_equal. now apply IH.
Qed.

Lemma holes_positive {R : Type} (i : nat) (l : list (option R)) :
  nth_error l i = Some None -> 0 < holes l.
Proof.
  revert i; induction l as [|x l IH]; intros [|i]; simpl; try discriminate.
  - intros [= ->]. lia.
  - intros H. destruct x; [now apply (IH i)|lia].
Qed.

Lemma nth_error_repeat_lt {A : Type} (a : A) (k i : nat) :
  i < k -> nth_error (repeat a k) i = Some a.
Proof.
  revert i; induction k as [|k IH]; intros [|i] H; simpl; try lia; auto.
  apply IH. lia.
Qed.

Lemma nth_error_map_from {T R : Type} (f : T -> nat -> R) (l : list T) :
  forall b i, nth_error (map_from f b l) i = option_map (fun x => f x (b + i)) (nth_error l i).
Proof.
  induction l as [|x l IH]; intros b [|i]; simpl; try reflexivity.
  - now rewrite Nat.add_0_r.
  - rewrite IH. now replace (S b + i) with (b + S i) by lia.
Qed.

Lemma map_from_length {T R : Type} (f : T -> nat -> R) (l : list T) :
  forall b, length (map_from f b l) = length l.
Proof. induction l as [|x l IH]; intros b; simpl; auto. Qed.

Lemma nth_mod_in (c : nat) (l : list nat) (d : nat) :
  l <> [] -> In (nth (c mod length l) l d) l.
Proof.
  intros H. apply nth_In. apply Nat.mod_upper_bound.
  destruct l; [congruence|discriminate].
Qed.

(* ================================================================= *)
(** ** The worker pool keeps the order of the items *)

Section PoolProof.

Variables T R : Type.
Variable items : list T.
Variable mapper : T -> nat -> completion R.
Variable f : T -> nat -> R.

(** Every promise of the mapper is fulfilled. *)
Hypothesis mapper_fulfils :
  forall i x, nth_error items i = Some x -> mapper x i = Normal (f x i).

(** The workers as [spawn] leaves them: worker [w] awaits index
    [next + w] while there are indices, and the others have returned. *)
Lemma spawn_spec (count : nat) :
  forall next ws next',
  spawn items count next = (ws, next') ->
  next <= length items ->
  length ws = count
  /\ next <= next' <= length items
  /\ (forall w i, nth_error ws w = Some (Awaiting i) -> i = next + w /\ i < next')
  /\ (forall w, nth_error ws w = Some Returned -> length items <= next')
  /\ (forall i, next <= i < next' -> exists w, nth_error ws w = Some (Awaiting i)).
Proof.
  induction count as [|count IH]; intros next ws next'; cbn [spawn].
  - intros [= <- <-] Hle. splits; try (cbn [length]; lia).
    + intros [|w] i; discriminate.
    + intros [|w]; discriminate.
  - unfold enter_loop. destruct (next <? length items) eqn:E.
    + apply Nat.ltb_lt in E.
      destruct (spawn items count (next + 1)) as [ws0 n0] eqn:Es.
      intros [= <- <-] Hle.
      destruct (IH _ _ _ Es ltac:(lia)) as (Hlen & Hn & Haw & Hret & Hcov).
      splits; try (cbn [length]; lia).
      * intros [|w] i H; cbn [nth_error] in H.
        -- injection H as <-. lia.
        -- apply Haw in H. lia.
      * intros [|w]; cbn [nth_error]; [discriminate|apply Hret].
      * intros i Hi. destruct (Nat.eq_dec i next) as [->|Hne].
        -- now exists 0.
        -- destruct (Hcov i ltac:(lia)) as [w Hw]. now exists (S w).
    + apply Nat.ltb_ge in E.
      destruct (spawn items count next) as [ws0 n0] eqn:Es.
      intros [= <- <-] Hle.
      destruct (IH _ _ _ Es Hle) as (Hlen & Hn & Haw & Hret & Hcov).
      splits; try (cbn [length]; lia).
      * intros [|w] i H; cbn [nth_error] in H; [discriminate|].
        apply Haw in H. lia.
Qed.

(** The pool as the workers find it after [spawn]. *)
Lemma spawn_inv (count : nat) ws next :
  0 < count ->
  spawn items count 0 = (ws, next) ->
  pool_inv items f (Pool next (repeat None (length items)) ws).
Proof.
  intros Hpos Hs.
  destruct (spawn_spec count Hs ltac:(lia)) as (Hlen & Hn & Haw & Hret & Hcov).
  constructor; cbn [nextIndex results workers].
  - apply repeat_length.
  - lia.
  - intros w i H. destruct (Haw w i H) as [-> Hlt].
    split; [lia|]. apply nth_error_repeat_lt. lia.
  - intros w w' i H H'. apply Haw in H, H'. lia.
  - intros i x Hi Hx. right. apply Hcov. lia.
  - intros i _ Hi. now apply nth_error_repeat_lt.
  - exact Hret.
  - destruct ws; [cbn in Hlen; lia|discriminate].
Qed.

(** A resumed worker stores its result and moves on; the invariant
    stays, and the array has one hole less. *)
Lemma resume_inv (w i : nat) (st : pool R) :
  pool_inv items f st ->
  nth_error (workers st) w = Some (Awaiting i) ->
  exists st',
    resume items mapper w st = Normal st'
    /\ pool_inv items f st'
    /\ S (holes (results st')) = holes (results st).
Proof.
  intros I Hw.
  destruct (inv_awaiting I w Hw) as [Hi Hhole].
  pose proof (inv_next I) as Hnext.
  destruct (nth_error items i) as [x|] eqn:Hx;
    [|apply nth_error_None in Hx; lia].
  assert (Hwlt : w < length (workers st)).
  { apply nth_error_Some. congruence. }
  assert (Hilt : i < length (results st)).
  { rewrite (inv_length I). lia. }
  unfold resume. rewrite Hw, Hx, (mapper_fulfils i Hx). cbn [bind].
  unfold enter_loop.
  destruct (nextIndex st <? length items) eqn:E; eexists; (split; [reflexivity|]);
    (split; [|cbn [results]; now apply holes_assign]).
  - apply Nat.ltb_lt in E.
    constructor; cbn [nextIndex results workers].
    + rewrite assign_length. apply (inv_length I).
    + lia.
    + intros v j Hv. destruct (Nat.eq_dec v w) as [->|Hvw].
      * rewrite nth_error_assign_same in Hv by exact Hwlt. injection Hv as <-.
        split; [lia|]. rewrite nth_error_assign_other by lia.
        apply (inv_ahead I); lia.
      * rewrite nth_error_assign_other in Hv by congruence.
        destruct (inv_awaiting I v Hv) as [Hj Hjh]. split; [lia|].
        rewrite nth_error_assign_other; [exact Hjh|].
        intros ->. apply Hvw. apply (inv_distinct I v w Hv Hw).
    + intros v v' j Hv Hv'.
      destruct (Nat.eq_dec v w) as [->|Hvw], (Nat.eq_dec v' w) as [->|Hvw']; auto.
      * rewrite nth_error_assign_same in Hv by exact Hwlt. injection Hv as <-.
        rewrite nth_error_assign_other in Hv' by congruence.
        apply (inv_awaiting I) in Hv'. lia.
      * rewrite nth_error_assign_same in Hv' by exact Hwlt. injection Hv' as <-.
        rewrite nth_error_assign_other in Hv by congruence.
        apply (inv_awaiting I) in Hv. lia.
      * rewrite nth_error_assign_other in Hv, Hv' by congruence.
        apply (inv_distinct I v v' Hv Hv').
    + intros j y Hj Hy. destruct (Nat.eq_dec j i) as [->|Hji].
      * left. rewrite nth_error_assign_same by exact Hilt. congruence.
      * destruct (Nat.eq_dec j (nextIndex st)) as [->|Hjn].
        -- right. exists w. now apply nth_error_assign_same.
        -- destruct (inv_done I (i:=j) ltac:(lia) Hy) as [Hd|[v Hv]].
           ++ left. now rewrite nth_error_assign_other by congruence.
           ++ right. exists v. rewrite nth_error_assign_other; [exact Hv|].
              intros ->. congruence.
    + intros j Hj Hjl. rewrite nth_error_assign_other by lia.
      apply (inv_ahead I); lia.
    + intros v Hv. destruct (Nat.eq_dec v w) as [->|Hvw].
      * rewrite nth_error_assign_same in Hv by exact Hwlt. discriminate.
      * rewrite nth_error_assign_other in Hv by congruence.
        apply (inv_returned I) in Hv. lia.
    + intros H. apply (f_equal (@length worker)) in H.
      rewrite assign_length in H. cbn in H. lia.
  - apply Nat.ltb_ge in E.
    constructor; cbn [nextIndex results workers].
    + rewrite assign_length. apply (inv_length I).
    + lia.
    + intros v j Hv. destruct (Nat.eq_dec v w) as [->|Hvw].
      * rewrite nth_error_assign_same in Hv by exact Hwlt. discriminate.
      * rewrite nth_error_assign_other in Hv by congruence.
        destruct (inv_awaiting I v Hv) as [Hj Hjh]. split; [lia|].
        rewrite nth_error_assign_other; [exact Hjh|].
        intros ->. apply Hvw. apply (inv_distinct I v w Hv Hw).
    + intros v v' j Hv Hv'.
      destruct (Nat.eq_dec v w) as [->|Hvw], (Nat.eq_dec v' w) as [->|Hvw']; auto.
      * rewrite nth_error_assign_same in Hv by exact Hwlt. discriminate.
      * rewrite nth_error_assign_same in Hv' by exact Hwlt. discriminate.
      * rewrite nth_error_assign_other in Hv, Hv' by congruence.
        apply (inv_distinct I v v' Hv Hv').
    + intros j y Hj Hy. destruct (Nat.eq_dec j i) as [->|Hji].
      * left. rewrite nth_error_assign_same by exact Hilt. congruence.
      * destruct (inv_done I Hj Hy) as [Hd|[v Hv]].
        -- left. now rewrite nth_error_assign_other by congruence.
        -- right. exists v. rewrite nth_error_assign_other; [exact Hv|].
           intros ->. congruence.
    + intros j Hj Hjl. lia.
    + intros v Hv. lia.
    + intros H. apply (f_equal (@length worker)) in H.
      rewrite assign_length in H. cbn in H. lia.
Qed.

Lemma awaiting_from_spec (ws : list worker) :
  forall b w,
  In w (awaiting_from b ws)
  <-> b <= w /\ exists i, nth_error ws (w - b) = Some (Awaiting i).
Proof.
  induction ws as [|x ws IH]; intros b w; cbn [awaiting_from].
  - split; [intros []|]. intros [_ [i H]]. destruct (w - b); discriminate.
  - destruct x as [j|]; cbn [In]; rewrite ?IH; split.
    + intros [<-|[Hle [i Hi]]].
      * split; [lia|]. rewrite Nat.sub_diag. now exists j.
      * split; [lia|]. exists i. now replace (w - b) with (S (w - S b)) by lia.
    + intros [Hle [i Hi]]. destruct (Nat.eq_dec b w) as [->|Hne]; [now left|right].
      split; [lia|]. exists i. now replace (w - b) with (S (w - S b)) in Hi by lia.
    + intros [Hle [i Hi]]. split; [lia|]. exists i.
      now replace (w - b) with (S (w - S b)) by lia.
    + intros [Hle [i Hi]]. destruct (Nat.eq_dec b w) as [->|Hne].
      * rewrite Nat.sub_diag in Hi. discriminate.
      * split; [lia|]. exists i. now replace (w - b) with (S (w - S b)) in Hi by lia.
Qed.

Lemma awaiting_spec (st : pool R) (w : nat) :
  In w (awaiting st) <-> exists i, nth_error (workers st) w = Some (Awaiting i).
Proof.
  unfold awaiting. rewrite awaiting_from_spec, Nat.sub_0_r.
  split; [intros [_ H]; exact H|intros H; split; [lia|exact H]].
Qed.

(** Once no worker is suspended every slot holds its item's result. *)
Lemma all_returned_results (st : pool R) :
  pool_inv items f st -> awaiting st = [] ->
  results st = map Some (map_from f 0 items).
Proof.
  intros I Hnone.
  assert (Hno : forall w i, nth_error (workers st) w <> Some (Awaiting i)).
  { intros w i H. assert (Hin : In w (awaiting st)) by (apply awaiting_spec; eauto).
    rewrite Hnone in Hin. destruct Hin. }
  assert (Hall : length items <= nextIndex st).
  { destruct (workers st) as [|x ws] eqn:Ew; [now destruct (inv_workers I)|].
    destruct x as [i|].
    - now destruct (Hno 0 i).
    - apply (inv_returned I 0). now rewrite Ew. }
  apply nth_error_ext. intros i.
  rewrite nth_error_map, nth_error_map_from. cbn [Nat.add].
  destruct (nth_error items i) as [x|] eqn:Hx; cbn [option_map].
  - assert (Hi : i < length items) by (apply nth_error_Some; congruence).
    destruct (inv_done I (i:=i) ltac:(lia) Hx) as [Hd|[w Hw]]; [exact Hd|].
    now destruct (Hno w i).
  - apply nth_error_None. rewrite (inv_length I). now apply nth_error_None.
Qed.

(** The event loop ends with the results in the order of the items,
    whichever promise the scheduler settles at each step. *)
Lemma event_loop_fulfilled (sched : nat -> nat) (fuel : nat) :
  forall t st,
  pool_inv items f st -> holes (results st) <= fuel ->
  event_loop items mapper sched fuel t st = Fulfilled (map Some (map_from f 0 items)).
Proof.
  induction fuel as [|fuel IH]; intros t st I Hfuel.
  - cbn [event_loop]. destruct (awaiting st) as [|w0 ws] eqn:Ea.
    + f_equal. now apply all_returned_results.
    + assert (Hin : In w0 (awaiting st)) by (rewrite Ea; now left).
      apply awaiting_spec in Hin as [i Hi].
      destruct (inv_awaiting I w0 Hi) as [_ Hh].
      apply holes_positive in Hh. lia.
  - cbn [event_loop]. destruct (awaiting st) as [|w0 ws] eqn:Ea.
    + f_equal. now apply all_returned_results.
    + set (w := nth (sched t mod length (w0 :: ws)) (w0 :: ws) w0).
      assert (Hin : In w (awaiting st)).
      { rewrite Ea. apply nth_mod_in. discriminate. }
      apply awaiting_spec in Hin as [i Hi].
      destruct (resume_inv w I Hi) as (st' & Hr & I' & Hholes).
      fold w. rewrite Hr.
      apply IH; [exact I'|lia].
Qed.

End PoolProof.

(** ToLength of a number that is at least one. *)
Lemma ToLength_ge_one (r : Q) : (1 <= r)%Q -> 0 < ToLength (Fin r).
Proof.
  intros H. cbn [ToLength]. unfold Qtrunc.
  assert (H0 : (0 <= r)%Q) by (eapply Qle_trans; [|exact H]; discriminate).
  apply Qle_bool_iff in H0. rewrite H0.
  pose proof (Qfloor_resp_le _ _ H) as Hf.
  change (Qfloor 1) with 1%Z in Hf.
  assert (Hz : (1 <= Z.min (Qfloor r) (2 ^ 53 - 1))%Z).
  { apply Z.min_glb; [exact Hf|]. now vm_compute. }
  lia.
Qed.

(** Unless the limit is [NaN] there is at least one worker. *)
Lemma workerCount_positive {T : Type} (items : list T) (limit : number) :
  limit <> NaN -> 0 < workerCount items limit.
Proof.
  intros Hlimit. unfold workerCount.
  assert (Hmin : Math_min limit (of_nat (length items)) = NegInf
                 \/ exists q, Math_min limit (of_nat (length items)) = Fin q).
  { destruct limit as [| | |q]; cbn [Math_min of_nat].
    - congruence.
    - right. eexists. reflexivity.
    - left. reflexivity.
    - right. destruct (Qle_bool q (inject_Z (Z.of_nat (length items)))); eexists; reflexivity. }
  destruct Hmin as [->|[q ->]]; cbn [Math_max of_nat].
  - now apply ToLength_ge_one.
  - destruct (Qle_bool _ q) eqn:E.
    + apply ToLength_ge_one. now apply Qle_bool_iff in E.
    + now apply ToLength_ge_one.
Qed.

(** With at least one worker and a mapper whose promises are all
    fulfilled, the call is fulfilled with the results in item order. *)
Lemma mapWithConcurrency_fulfilled
  (T R : Type) (items : list T) (mapper : T -> nat -> completion R)
  (f : T -> nat -> R) (limit : number) (sched : nat -> nat) :
  limit <> NaN ->
  (forall i x, nth_error items i = Some x -> mapper x i = Normal (f x i)) ->
  mapWithConcurrency items mapper limit sched = Fulfilled (map Some (map_from f 0 items)).
Proof.
  intros Hlimit Hmapper. unfold mapWithConcurrency.
  destruct (length items =? 0) eqn:E.
  - apply Nat.eqb_eq in E. destruct items; [reflexivity|discriminate].
  - destruct (spawn items (workerCount items limit) 0) as [ws next] eqn:Es.
    apply event_loop_fulfilled; [exact Hmapper| |].
    + apply spawn_inv with (count := workerCount items limit); [|exact Es].
      now apply workerCount_positive.
    + cbn [results]. clear. induction (length items); cbn; lia.
Qed.

(** C1, as the code has it.  When the limit is a number other than [NaN]
    and the promise of the mapper is fulfilled for every item, the
    promise of [mapWithConcurrency] is fulfilled, in whatever order the
    mapper's promises settle, with an array as long as [items] whose slot
    [i] holds the result for [items[i]]; for no items it is fulfilled
    with the empty array, whatever the limit and the mapper. *)
Theorem mapWithConcurrency_keeps_order
  (T R : Type) (items : list T) (mapper : T -> nat -> completion R)
  (f : T -> nat -> R) (limit : number) (sched : nat -> nat) :
  limit <> NaN ->
  (forall i x, nth_error items i = Some x -> mapper x i = Normal (f x i)) ->
  mapWithConcurrency items mapper limit sched = Fulfilled (map Some (map_from f 0 items))
  /\ length (map Some (map_from f 0 items)) = length items
  /\ (forall i x, nth_error items i = Some x ->
        nth_error (map Some (map_from f 0 items)) i = Some (Some (f x i)))
  /\ mapWithConcurrency (@nil T) mapper limit sched = Fulfilled []
  /\ mapWithConcurrency (@nil T) mapper NaN sched = Fulfilled [].
Proof.
  intros Hlimit Hmapper. repeat split.
  - now apply mapWithConcurrency_fulfilled.
  - now rewrite length_map, map_from_length.
  - intros i x Hx. now rewrite nth_error_map, nth_error_map_from, Hx.
Qed.

(* ================================================================= *)
(** ** The export sorts every fetch outcome into one of two lists *)

Lemma fetchQuestion_outcome network (id : jsstring) (i : nat) :
  fetchQuestion (network i) id = Normal (fetch_outcome network id i).
Proof.
  unfold fetchQuestion, fetch_outcome, fetched_body.
  destruct (network i _) as [|[|] [| |q]]; reflexivity.
Qed.

Lemma sortResults_filled (outcomes : list fetched) :
  sortResults (map Some outcomes)
  = Normal (fetched_questions outcomes, failed_ids outcomes).
Proof.
  induction outcomes as [|r l IH]; [reflexivity|].
  cbn [map sortResults]. rewrite IH. cbn [bind].
  unfold fetched_questions, failed_ids, has_question. cbn [flat_map filter].
  destruct (fetched_question r); reflexivity.
Qed.

Lemma fetched_questions_length (outcomes : list fetched) :
  length (fetched_questions outcomes) = length (succeeded_ids outcomes).
Proof.
  unfold fetched_questions, succeeded_ids, has_question.
  induction outcomes as [|r l IH]; [reflexivity|].
  cbn [flat_map filter]. destruct (fetched_question r); cbn; now rewrite ?IH.
Qed.

Lemma outcome_ids network (ids : list jsstring) :
  forall b, map fetched_id (map_from (fetch_outcome network) b ids) = ids.
Proof.
  induction ids as [|id ids IH]; intros b; cbn; [reflexivity|]. now rewrite IH.
Qed.

(** Each outcome is on exactly one side. *)
Lemma outcomes_partitioned (outcomes : list fetched) :
  Permutation (succeeded_ids outcomes ++ failed_ids outcomes) (map fetched_id outcomes).
Proof.
  unfold succeeded_ids, failed_ids.
  induction outcomes as [|r l IH]; [reflexivity|].
  cbn [filter map]. destruct (has_question r); cbn [negb map app].
  - now constructor.
  - rewrite <- Permutation_middle. now constructor.
Qed.

Lemma succeeded_failed_disjoint (outcomes : list fetched) :
  NoDup (map fetched_id outcomes) ->
  forall id, ~ (In id (succeeded_ids outcomes) /\ In id (failed_ids outcomes)).
Proof.
  intros Hnd id [Hs Hf].
  apply (Permutation_NoDup (Permutation_sym (outcomes_partitioned outcomes))) in Hnd.
  revert Hnd Hs Hf.
  generalize (failed_ids outcomes) as fs.
  induction (succeeded_ids outcomes) as [|s ss IH]; intros fs Hnd Hs Hf; [destruct Hs|].
  cbn [app] in Hnd. inversion Hnd as [|? ? Hnot Hnd']; subst.
  destruct Hs as [->|Hs].
  - apply Hnot. apply in_or_app. now right.
  - now apply (IH fs).
Qed.

(** The questions fetched carry the ids they were asked under, when
    every body does. *)
Lemma fetched_questions_ids (outcomes : list fetched) :
  (forall r q, In r outcomes -> fetched_question r = Some q -> question_id q = fetched_id r) ->
  map question_id (fetched_questions outcomes) = succeeded_ids outcomes.
Proof.
  unfold fetched_questions, succeeded_ids, has_question.
  induction outcomes as [|r l IH]; intros H; [reflexivity|].
  cbn [flat_map filter].
  destruct (fetched_question r) as [q|] eqn:E; cbn [app map].
  - rewrite (H r q (or_introl eq_refl) E). f_equal.
    apply IH. intros r' q' Hr'. apply H. now right.
  - apply IH. intros r' q' Hr'. apply H. now right.
Qed.

(** The ids on a side are the ids of the positions sorted to it. *)
Lemma side_ids network (ids : list jsstring) (side : bool) (id : jsstring) :
  In id (map fetched_id
           (filter (fun r => Bool.eqb (has_question r) side)
              (map_from (fetch_outcome network) 0 ids)))
  <-> exists i, nth_error ids i = Some id
                /\ has_question (fetch_outcome network id i) = side.
Proof.
  rewrite in_map_iff. split.
  - intros (r & <- & Hr). apply filter_In in Hr as [Hr Hside].
    apply In_nth_error in Hr as [i Hi]. rewrite nth_error_map_from in Hi.
    cbn [Nat.add] in Hi. destruct (nth_error ids i) as [id'|] eqn:E; [|discriminate].
    cbn [option_map] in Hi. injection Hi as <-. exists i. cbn [fetch_outcome fetched_id].
    split; [exact E|]. now apply eqb_prop.
  - intros (i & Hi & Hside). exists (fetch_outcome network id i). split; [reflexivity|].
    apply filter_In. split.
    + apply (nth_error_In _ i). rewrite nth_error_map_from, Hi. reflexivity.
    + rewrite Hside. apply eqb_reflx.
Qed.

(** C2, as the code has it.  The first phase gets one outcome per
    position of the input list, in order, and the loop sorts each outcome
    to one side: the ids under which a question was fetched and
    [failedIds] are together the input ids, each as often as the input
    has it, so every input id is on a side; the number of questions
    fetched is [successCount].  An id is on both sides exactly when the
    input has it at two positions, of which one fetch gives a question
    and the other none; so no id is on both sides when the input holds no
    id twice, and then no question fetched carries a failed id, provided
    every body carries the id it was asked under.  The export hands on
    exactly these lists, if the archive can be built. *)
Theorem generateExportHTML_partitions_ids
  (Blob : Type) (network : nat -> jsstring -> response)
  (package : list QuestionJSON -> completion (Blob * list jsstring))
  (questionIds : list jsstring) (sched : nat -> nat) :
  let outcomes := map_from (fetch_outcome network) 0 questionIds in
  let questions := fetched_questions outcomes in
  let succeeded := succeeded_ids outcomes in
  let failed := failed_ids outcomes in
  map fetched_id outcomes = questionIds
  /\ length questions = length succeeded
  /\ Permutation (succeeded ++ failed) questionIds
  /\ (forall id, In id questionIds <-> In id succeeded \/ In id failed)
  /\ (forall id,
        In id succeeded /\ In id failed
        <-> exists i j,
              nth_error questionIds i = Some id /\ nth_error questionIds j = Some id
              /\ has_question (fetch_outcome network id i) = true
              /\ has_question (fetch_outcome network id j) = false)
  /\ (NoDup questionIds -> forall id, ~ (In id succeeded /\ In id failed))
  /\ (NoDup questionIds ->
      (forall i id q,
          nth_error questionIds i = Some id ->
          fetched_question (fetch_outcome network id i) = Some q ->
          question_id q = id) ->
      map question_id questions = succeeded
      /\ forall q, In q questions -> ~ In (question_id q) failed)
  /\ generateExportHTML network package questionIds sched
     = match package questions with
       | Normal (zipped, failedImages) =>
           Fulfilled {| blob := zipped;
                        successCount := length questions;
                        failedIds := failed;
                        failedImagePaths := failedImages |}
       | Throw e => Rejected e
       end.
Proof.
  cbv zeta.
  set (outcomes := map_from (fetch_outcome network) 0 questionIds).
  assert (Hids : map fetched_id outcomes = questionIds) by apply outcome_ids.
  assert (Hperm : Permutation (succeeded_ids outcomes ++ failed_ids outcomes) questionIds).
  { pose proof (outcomes_partitioned outcomes) as H. now rewrite Hids in H. }
  assert (Hdisj : NoDup questionIds ->
                  forall id, ~ (In id (succeeded_ids outcomes) /\ In id (failed_ids outcomes))).
  { intros Hnd. apply succeeded_failed_disjoint. now rewrite Hids. }
  split; [exact Hids|]. split; [apply fetched_questions_length|].
  split; [exact Hperm|]. split; [|split; [|split; [exact Hdisj|split]]].
  - intros id. rewrite <- in_app_iff. split; apply Permutation_in; [symmetry|]; exact Hperm.
  - intros id. unfold succeeded_ids, failed_ids, outcomes.
    pose proof (side_ids network questionIds true id) as St.
    pose proof (side_ids network questionIds false id) as Sf.
    assert (Et : forall l, filter has_question l
                           = filter (fun r => Bool.eqb (has_question r) true) l).
    { intros l. apply filter_ext. intros r. now destruct (has_question r). }
    assert (Ef : forall l, filter (fun r => negb (has_question r)) l
                           = filter (fun r => Bool.eqb (has_question r) false) l).
    { intros l. apply filter_ext. intros r. now destruct (has_question r). }
    rewrite Et, Ef, St, Sf. split.
    + intros [(i & Hi & Hq) (j & Hj & Hn)]. now exists i, j.
    + intros (i & j & Hi & Hj & Hq & Hn). split; [now exists i|now exists j].
  - intros Hnd Hown.
    assert (E : map question_id (fetched_questions outcomes) = succeeded_ids outcomes).
    { apply fetched_questions_ids. intros r q Hr Hq.
      apply In_nth_error in Hr as [i Hi]. unfold outcomes in Hi.
      rewrite nth_error_map_from in Hi. cbn [Nat.add] in Hi.
      destruct (nth_error questionIds i) as [id|] eqn:Eid; [|discriminate].
      cbn [option_map] in Hi. injection Hi as <-.
      apply (Hown i id q Eid Hq). }
    split; [exact E|]. intros q Hq Hf.
    apply (Hdisj Hnd (question_id q)). split; [|exact Hf].
    rewrite <- E. now apply in_map.
  - unfold generateExportHTML.
    rewrite (mapWithConcurrency_fulfilled questionIds
               (fun id i => fetchQuestion (network i) id) (fetch_outcome network)
               (limit := Fin (inject_Z QUESTION_FETCH_CONCURRENCY)) sched).
    + fold outcomes. rewrite sortResults_filled. reflexivity.
    + discriminate.
    + intros i x _. apply fetchQuestion_outcome.
Qed.

(* ================================================================= *)
(** ** Instances *)

(** Scenario C: the keys in display order 1, 2, 3 have correct orders
    2, 1, 3; the list starts with the key of correct order 1. *)
Lemma renderGapAnswer_by_correct_order_witness :
  exists sorted,
    Permutation sorted gap_sample_keys
    /\ StronglySorted by_correct_order_le sorted
    /\ (exists first, hd_error sorted = Some first
          /\ forall k, In k gap_sample_keys -> by_correct_order_le first k)
    /\ renderAnswers gap_sample (lit "ltr")
       = Normal (gap_list_html (lit "ltr") (map gap_value sorted))
    /\ (forall part' keys',
          type part' = lit "gap" ->
          gap_keys part' = Some keys' ->
          map gap_content keys' = map gap_content gap_sample_keys ->
          renderAnswers part' (lit "ltr") = renderAnswers gap_sample (lit "ltr")).
Proof.
  apply (@renderGapAnswer_by_correct_order gap_sample (lit "ltr") gap_sample_keys).
  - reflexivity.
  - reflexivity.
  - discriminate.
Defined.

(** Scenario D: flagging the first choice correct changes nothing. *)
Lemma renderAnswers_opinion_ignores_is_correct_witness :
  renderAnswers (opinion_sample (Some true)) (lit "ltr")
  = renderAnswers (opinion_sample None) (lit "ltr")
  /\ renderAnswers (opinion_sample (Some true)) (lit "ltr")
     = renderMCQAnswer (erase_flags (opinion_sample (Some true))) (lit "ltr")
  /\ renderAnswers (opinion_sample (Some true)) (lit "ltr")
     = Normal (nl ++ lit "    <ul class=`mcq_choices`>" ++ nl
               ++ join nl (map (fun choice =>
                                  choice_item_html (getLabelEntity (label choice))
                                    (lit "not_active") (value choice) (lit "ltr"))
                             (opinion_choices (Some true))) ++ nl
               ++ lit "    </ul>" ++ nl).
Proof.
  apply (@renderAnswers_opinion_ignores_is_correct
           (opinion_sample (Some true)) (opinion_sample None) (lit "ltr")).
  - reflexivity.
  - reflexivity.
Defined.

(** Three items, two workers, the promises settling in turn. *)
Lemma mapWithConcurrency_keeps_order_witness :
  mapWithConcurrency [10; 20; 30] (fun x i => Normal (x + i)) (Fin 2%Q) (fun t => t)
  = Fulfilled (map Some (map_from (fun x i => x + i) 0 [10; 20; 30]))
  /\ length (map Some (map_from (fun x i => x + i) 0 [10; 20; 30])) = length [10; 20; 30]
  /\ (forall i x, nth_error [10; 20; 30] i = Some x ->
        nth_error (map Some (map_from (fun x i => x + i) 0 [10; 20; 30])) i
        = Some (Some (x + i)))
  /\ mapWithConcurrency (@nil nat) (fun x i => Normal (x + i)) (Fin 2%Q) (fun t => t)
     = Fulfilled []
  /\ mapWithConcurrency (@nil nat) (fun x i => Normal (x + i)) NaN (fun t => t)
     = Fulfilled [].
Proof.
  apply (@mapWithConcurrency_keeps_order nat nat [10; 20; 30]
           (fun x i => Normal (x + i)) (fun x i => x + i) (Fin 2%Q) (fun t => t)).
  - discriminate.
  - reflexivity.
Defined.

(** C1 as stated fails twice.  A mapper that rejects for one item makes
    the whole call reject: no array is returned.  And with the limit
    [NaN] no worker starts: the call is fulfilled with an array of holes,
    not with the mapper's results. *)
Lemma mapWithConcurrency_rejects_or_leaves_holes :
  mapWithConcurrency [1; 2; 3] reject_two (Fin 2%Q) (fun _ => 0)
  = Rejected (Error (lit "failed"))
  /\ (forall out,
        mapWithConcurrency [1; 2; 3] reject_two (Fin 2%Q) (fun _ => 0) <> Fulfilled out)
  /\ mapWithConcurrency [7] (fun x _ => Normal x) NaN (fun _ => 0) = Fulfilled [None]
  /\ mapWithConcurrency [7] (fun x _ => Normal x) NaN (fun _ => 0)
     <> Fulfilled (map Some (map_from (fun x _ => x) 0 [7])).
Proof.
  assert (H : mapWithConcurrency [1; 2; 3] reject_two (Fin 2%Q) (fun _ => 0)
              = Rejected (Error (lit "failed"))) by reflexivity.
  split; [exact H|]. split; [|split].
  - intros out. rewrite H. discriminate.
  - reflexivity.
  - discriminate.
Qed.

(** C3.  The input on which the code leaves the contract: a gmrq part
    whose [items] is the empty object.  [renderGMRQAnswer] tests only
    that [items] is there and then maps over [items.A], so [renderAnswers]
    throws a TypeError where every branch is to give empty or placeholder
    output.  Its siblings for ordering and matching parts test their
    payload with [Array.isArray] and give the empty string for the same
    object.  A gmrq part with both groups is drawn. *)
Theorem renderAnswers_gmrq_without_groups_throws :
  renderAnswers gmrq_without_groups (lit "ltr") = Throw TypeError
  /\ (forall html, renderAnswers gmrq_without_groups (lit "ltr") <> Normal html)
  /\ renderAnswers ordering_without_list (lit "ltr") = Normal []
  /\ renderAnswers matching_without_list (lit "ltr") = Normal []
  /\ exists html, renderAnswers gmrq_sample (lit "ltr") = Normal html.
Proof.
  assert (H : renderAnswers gmrq_without_groups (lit "ltr") = Throw TypeError)
    by reflexivity.
  split; [exact H|]. split; [|split; [reflexivity|split; [reflexivity|]]].
  - intros html. rewrite H. discriminate.
  - eexists. vm_compute. reflexivity.
Qed.

(** Scenario B: three ids, the second answered with status 404. *)
Lemma generateExportHTML_partitions_ids_witness :
  NoDup [lit "Q1"; lit "Q2"; lit "Q3"]
  /\ generateExportHTML second_fails (fun _ => Normal (tt, []))
       [lit "Q1"; lit "Q2"; lit "Q3"] (fun t => t)
     = Fulfilled {| blob := tt; successCount := 2; failedIds := [lit "Q2"];
                    failedImagePaths := [] |}
  /\ forall id,
       ~ (In id (succeeded_ids (map_from (fetch_outcome second_fails) 0
                                  [lit "Q1"; lit "Q2"; lit "Q3"]))
          /\ In id (failed_ids (map_from (fetch_outcome second_fails) 0
                                  [lit "Q1"; lit "Q2"; lit "Q3"]))).
Proof.
  assert (Hnd : NoDup [lit "Q1"; lit "Q2"; lit "Q3"]).
  { repeat constructor; cbn; intuition discriminate. }
  pose proof (generateExportHTML_partitions_ids second_fails
                (fun _ => Normal (tt, [])) [lit "Q1"; lit "Q2"; lit "Q3"] (fun t => t)) as H.
  cbv zeta in H. destruct H as (_ & _ & _ & _ & _ & Hdisj & _ & Hrun).
  split; [exact Hnd|]. split; [|exact (Hdisj Hnd)].
  rewrite Hrun. reflexivity.
Defined.

(** C2 as stated fails.  The id lists are not disjoint when the input
    holds an id twice: of two requests for [A], the first served and the
    second refused, one puts [A] among the questions and the other among
    the failed ids.  And a question fetched can carry a failed id without
    any duplicate in the input: nothing compares the [question_id] of a
    body with the id it was asked under. *)
Lemma generateExportHTML_id_on_both_sides :
  generateExportHTML first_only (fun _ => Normal (tt, [])) [lit "A"; lit "A"] (fun t => t)
  = Fulfilled {| blob := tt; successCount := 1; failedIds := [lit "A"];
                 failedImagePaths := [] |}
  /\ In (lit "A") (succeeded_ids (map_from (fetch_outcome first_only) 0 [lit "A"; lit "A"]))
  /\ In (lit "A") (failed_ids (map_from (fetch_outcome first_only) 0 [lit "A"; lit "A"]))
  /\ NoDup [lit "A"; lit "B"]
  /\ generateExportHTML first_misfiled (fun qs => Normal (map question_id qs, []))
       [lit "A"; lit "B"] (fun t => t)
     = Fulfilled {| blob := [lit "B"]; successCount := 1; failedIds := [lit "B"];
                    failedImagePaths := [] |}.
Proof.
  split; [reflexivity|]. split; [now left|]. split; [now left|].
  split; [|reflexivity].
  repeat constructor; cbn; intuition discriminate.
Qed.

Unset Implicit Arguments.

(* ================================================================= *)
(** ** The matcher *)

Lemma flat_map_nil {A B : Type} (f : A -> list B) (l : list A) :
  (forall x, In x l -> f x = []) -> flat_map f l = [].
Proof.
  induction l as [|a l IH]; intros H; cbn [flat_map]; [reflexivity|].
  rewrite (H a) by now left. apply IH. intros x Hx. apply H. now right.
Qed.

(** Each way a star matches leaves a suffix, after units of its class. *)
Lemma star_states (p : char -> bool) (s : jsstring) :
  forall prev caps st,
  In st (Re.star p prev s caps) ->
  exists u, s = u ++ Re.m_rest st /\ forallb p u = true /\ Re.m_caps st = caps.
Proof.
  induction s as [|c s IH]; intros prev caps st; cbn [Re.star].
  - intros [<-|[]]. now exists [].
  - destruct (p c) eqn:Ec.
    + intros H. apply in_app_or in H as [H|[<-|[]]].
      * destruct (IH _ _ _ H) as (u & -> & Hu & Hc).
        exists (c :: u). cbn [forallb app]. now rewrite Ec.
      * now exists [].
    + intros [<-|[]]. now exists [].
Qed.

(** Every prefix of units of the class is one of the ways. *)
Lemma star_complete (p : char -> bool) (u : jsstring) :
  forall w prev caps,
  forallb p u = true ->
  exists st, In st (Re.star p prev (u ++ w) caps)
             /\ Re.m_rest st = w /\ Re.m_caps st = caps.
Proof.
  induction u as [|c u IH]; intros w prev caps Hu.
  - exists (Re.MState prev w caps). repeat split.
    cbn [app]. destruct w as [|c w]; cbn [Re.star]; [now left|].
    destruct (p c); [apply in_or_app; right|]; now left.
  - cbn [forallb] in Hu. apply andb_true_iff in Hu as [Hc Hu].
    destruct (IH w (Some c) caps Hu) as (st & Hin & Hr & Hcaps).
    exists st. repeat split; auto.
    cbn [app Re.star]. rewrite Hc. apply in_or_app. now left.
Qed.

(** What the matcher consumes is a string of the pattern. *)
Lemma run_sound (r : Re.regex) :
  forall st st',
  In st' (Re.run r st) ->
  exists u, Re.m_rest st = u ++ Re.m_rest st' /\ matches r u.
Proof.
  induction r as [|p|r1 IH1 r2 IH2|r1 IH1 r2 IH2|p|r1 IH1|i r1 IH1| |];
    intros st st'; cbn [Re.run matches].
  - intros [<-|[]]. now exists [].
  - destruct (Re.m_rest st) as [|c s] eqn:E; [intros []|].
    destruct (p c) eqn:Ec; [|intros []].
    intros [<-|[]]. exists [c]. split; [reflexivity|]. now exists c.
  - intros H. apply in_flat_map in H as (mid & H1 & H2).
    destruct (IH1 _ _ H1) as (u1 & E1 & M1).
    destruct (IH2 _ _ H2) as (u2 & E2 & M2).
    exists (u1 ++ u2). split; [now rewrite E1, E2, app_assoc|].
    now exists u1, u2.
  - intros H. apply in_app_or in H as [H|H].
    + destruct (IH1 _ _ H) as (u & E & M). exists u. auto.
    + destruct (IH2 _ _ H) as (u & E & M). exists u. auto.
  - intros H. destruct (star_states _ _ _ _ _ H) as (u & E & Hu & _). now exists u.
  - intros H. apply in_app_or in H as [H|[<-|[]]].
    + destruct (IH1 _ _ H) as (u & E & M). exists u. auto.
    + exists []. auto.
  - intros H. apply in_map_iff in H as (mid & <- & H).
    destruct (IH1 _ _ H) as (u & E & M). now exists u.
  - destruct (Re.m_prev st); [intros []|]. intros [<-|[]]. now exists [].
  - destruct (xorb _ _); [|intros []]. intros [<-|[]]. now exists [].
Qed.

(** A match splits the input into the text matched and the rest. *)
Lemma exec_at_split (r : Re.regex) (prev : option char) (s : jsstring) (m : Re.result) :
  Re.exec_at r prev s = Some m ->
  s = Re.matched m ++ Re.rest m /\ matches r (Re.matched m).
Proof.
  unfold Re.exec_at. destruct (Re.run r (Re.MState prev s [])) as [|st' l] eqn:E;
    [discriminate|].
  intros [= <-]. cbn [Re.matched Re.rest].
  destruct (run_sound r (Re.MState prev s []) st') as (u & Hs & Hm).
  { rewrite E. now left. }
  cbn [Re.m_rest] in Hs. clear E. subst s.
  rewrite length_app, Nat.add_sub, firstn_app, Nat.sub_diag, firstn_all.
  cbn [firstn]. rewrite app_nil_r. auto.
Qed.


(** *** Patterns that do not look behind *)

Lemma Forall2_flat_map {A B : Type} (RA : A -> A -> Prop) (RB : B -> B -> Prop)
  (f g : A -> list B) (l1 l2 : list A) :
  Forall2 RA l1 l2 ->
  (forall a b, RA a b -> Forall2 RB (f a) (g b)) ->
  Forall2 RB (flat_map f l1) (flat_map g l2).
Proof.
  intros H Hf. induction H as [|a b l1 l2 Hab _ IH]; cbn [flat_map]; [constructor|].
  apply Forall2_app; auto.
Qed.

Lemma star_alike (p : char -> bool) (s : jsstring) :
  forall prev prev' caps,
  Forall2 alike (Re.star p prev s caps) (Re.star p prev' s caps).
Proof.
  induction s as [|c s IH]; intros prev prev' caps; cbn [Re.star].
  - repeat constructor.
  - destruct (p c).
    + apply Forall2_app; [apply IH|]. repeat constructor.
    + repeat constructor.
Qed.

Lemma run_alike (r : Re.regex) :
  simple r = true ->
  forall st1 st2, alike st1 st2 -> Forall2 alike (Re.run r st1) (Re.run r st2).
Proof.
  induction r as [|p|r1 IH1 r2 IH2|r1 IH1 r2 IH2|p|r1 IH1|i r1 IH1| |];
    cbn [simple Re.run]; intros Hs st1 st2 [Hr Hc]; try discriminate.
  - repeat constructor; auto.
  - rewrite Hr. destruct (Re.m_rest st2) as [|c s]; [constructor|].
    destruct (p c); repeat constructor. exact Hc.
  - apply andb_true_iff in Hs as [H1 H2].
    apply Forall2_flat_map with (RA := alike); [apply IH1; [exact H1|now split]|].
    intros a b Hab. now apply IH2.
  - apply andb_true_iff in Hs as [H1 H2].
    apply Forall2_app; [apply IH1|apply IH2]; auto; now split.
  - rewrite Hr, Hc. apply star_alike.
  - apply Forall2_app; [apply IH1; [exact Hs|now split]|]. repeat constructor; auto.
  - assert (H : Forall2 alike (Re.run r1 st1) (Re.run r1 st2))
      by (apply IH1; [exact Hs|now split]).
    induction H as [|a b l1 l2 [Hab1 Hab2] _ IH]; cbn [map]; constructor; auto.
    unfold Re.capture, Re.consumed, alike. cbn [Re.m_rest Re.m_caps].
    now rewrite Hr, Hab1, Hab2.
Qed.

(** Such a pattern matches alike whatever precedes. *)
Lemma exec_at_simple (r : Re.regex) (prev prev' : option char) (s : jsstring) :
  simple r = true -> Re.exec_at r prev s = Re.exec_at r prev' s.
Proof.
  intros Hs. unfold Re.exec_at.
  pose proof (run_alike r Hs (Re.MState prev s []) (Re.MState prev' s [])
                (conj eq_refl eq_refl)) as H.
  destruct H as [|a b l1 l2 [Hr Hc] _]; [reflexivity|].
  now rewrite Hr, Hc.
Qed.

(** With more input behind, a match is still found. *)
Lemma run_extend (r : Re.regex) :
  simple r = true ->
  forall st st', In st' (Re.run r st) ->
  forall y prev caps,
  exists st'', In st'' (Re.run r (Re.MState prev (Re.m_rest st ++ y) caps))
               /\ Re.m_rest st'' = Re.m_rest st' ++ y.
Proof.
  induction r as [|p|r1 IH1 r2 IH2|r1 IH1 r2 IH2|p|r1 IH1|i r1 IH1| |];
    cbn [simple]; intros Hs st st' Hin y prev caps; try discriminate;
    cbn [Re.run] in *; cbn [Re.m_rest Re.m_prev Re.m_caps].
  - destruct Hin as [<-|[]]. eexists. split; [now left|reflexivity].
  - destruct (Re.m_rest st) as [|c s] eqn:E; [destruct Hin|].
    cbn [app]. destruct (p c); [|destruct Hin].
    destruct Hin as [<-|[]]. eexists. split; [now left|reflexivity].
  - apply andb_true_iff in Hs as [H1 H2].
    apply in_flat_map in Hin as (mid & Hm1 & Hm2).
    destruct (IH1 H1 _ _ Hm1 y prev caps) as (mid' & Hin1 & Hr1).
    destruct (IH2 H2 _ _ Hm2 y (Re.m_prev mid') (Re.m_caps mid')) as (st'' & Hin2 & Hr2).
    exists st''. split; [|exact Hr2].
    apply in_flat_map. exists mid'. split; [exact Hin1|].
    rewrite <- Hr1 in Hin2. now destruct mid'.
  - apply andb_true_iff in Hs as [H1 H2].
    apply in_app_or in Hin as [Hin|Hin].
    + destruct (IH1 H1 _ _ Hin y prev caps) as (st'' & Hin' & Hr).
      exists st''. split; [apply in_or_app; now left|exact Hr].
    + destruct (IH2 H2 _ _ Hin y prev caps) as (st'' & Hin' & Hr).
      exists st''. split; [apply in_or_app; now right|exact Hr].
  - destruct (star_states _ _ _ _ _ Hin) as (u & E & Hu & _).
    rewrite E, <- app_assoc.
    destruct (star_complete p u (Re.m_rest st' ++ y) prev caps Hu) as (st'' & Hin' & Hr & _).
    now exists st''.
  - apply in_app_or in Hin as [Hin|[<-|[]]].
    + destruct (IH1 Hs _ _ Hin y prev caps) as (st'' & Hin' & Hr).
      exists st''. split; [apply in_or_app; now left|exact Hr].
    + eexists. split; [apply in_or_app; right; now left|reflexivity].
  - apply in_map_iff in Hin as (mid & <- & Hin).
    destruct (IH1 Hs _ _ Hin y prev caps) as (st'' & Hin' & Hr).
    eexists. split; [apply in_map; exact Hin'|]. exact Hr.
Qed.

Lemma exec_at_extend (r : Re.regex) (prev prev' : option char) (s y : jsstring) :
  simple r = true ->
  Re.exec_at r prev s <> None -> Re.exec_at r prev' (s ++ y) <> None.
Proof.
  intros Hs. unfold Re.exec_at.
  destruct (Re.run r (Re.MState prev s [])) as [|st' l] eqn:E; [congruence|].
  intros _.
  destruct (run_extend r Hs (Re.MState prev s []) st' ltac:(rewrite E; now left)
              y prev' []) as (st'' & Hin & _).
  cbn [Re.m_rest] in Hin.
  destruct (Re.run r (Re.MState prev' (s ++ y) [])); [destruct Hin|discriminate].
Qed.

(** *** Searching *)

Lemma test_from_intro (r : Re.regex) (x y : jsstring) :
  forall prev,
  Re.exec_at r (prev_after prev x) y <> None -> Re.test_from r prev (x ++ y) = true.
Proof.
  induction x as [|c x IH]; intros prev H.
  - cbn [app]. unfold prev_after in H. cbn [rev] in H.
    destruct y as [|c y]; cbn [Re.test_from];
      destruct (Re.exec_at r prev _); congruence.
  - cbn [app Re.test_from]. destruct (Re.exec_at r prev (c :: x ++ y)); [reflexivity|].
    apply IH. now rewrite <- (prev_after_cons prev c x).
Qed.

Lemma test_from_elim (r : Re.regex) (s : jsstring) :
  forall prev,
  Re.test_from r prev s = true ->
  exists x y, s = x ++ y /\ Re.exec_at r (prev_after prev x) y <> None.
Proof.
  induction s as [|c s IH]; intros prev; cbn [Re.test_from].
  - destruct (Re.exec_at r prev []) eqn:E; [|discriminate].
    intros _. exists [], []. split; [reflexivity|]. unfold prev_after. cbn. congruence.
  - destruct (Re.exec_at r prev (c :: s)) eqn:E.
    + intros _. exists [], (c :: s). split; [reflexivity|]. unfold prev_after. cbn. congruence.
    + intros H. destruct (IH _ H) as (x & y & -> & Hy).
      exists (c :: x), y. split; [reflexivity|]. now rewrite prev_after_cons.
Qed.



(** A match at the front of [y] is found behind any [x]. *)
Lemma test_found (r : Re.regex) (x y : jsstring) :
  simple r = true -> Re.exec_at r None y <> None -> Re.test r (x ++ y) = true.
Proof.
  intros Hs H. apply test_from_intro.
  now rewrite (exec_at_simple r (prev_after None x) None y Hs).
Qed.

(** *** Replacing the first match *)



(** *** Replacing every match *)

Lemma replace_all_prev (r : Re.regex) (f : Re.result -> jsstring)
  (k : nat) (prev prev' : option char) (s : jsstring) :
  simple r = true ->
  Re.replace_all_from r f k prev s = Re.replace_all_from r f k prev' s.
Proof.
  intros Hs. destruct s as [|c s], k as [|k]; cbn [Re.replace_all_from];
    try reflexivity; now rewrite (exec_at_simple r prev prev' _ Hs).
Qed.

Lemma replace_all_skip (r : Re.regex) (f : Re.result -> jsstring) (u s : jsstring) :
  forall prev,
  Re.replace_all_from r f (length u) prev (u ++ s)
  = Re.replace_all_from r f 0 (prev_after prev u) s.
Proof.
  induction u as [|c u IH]; intros prev; [reflexivity|].
  cbn [length app Re.replace_all_from]. rewrite IH. now rewrite prev_after_cons.
Qed.

Lemma replace_all_nomatch (r : Re.regex) (f : Re.result -> jsstring)
  (prev : option char) (c : char) (s : jsstring) :
  simple r = true ->
  Re.exec_at r prev (c :: s) = None ->
  Re.replace_all_from r f 0 prev (c :: s) = c :: Re.replace_all_from r f 0 None s.
Proof.
  intros Hs H. cbn [Re.replace_all_from]. rewrite H.
  now rewrite (replace_all_prev r f 0 (Some c) None s Hs).
Qed.

Lemma replace_all_match (r : Re.regex) (f : Re.result -> jsstring)
  (prev : option char) (s : jsstring) (m : Re.result) :
  simple r = true ->
  Re.exec_at r prev s = Some m ->
  Re.matched m <> [] ->
  Re.replace_all_from r f 0 prev s = f m ++ Re.replace_all_from r f 0 None (Re.rest m).
Proof.
  intros Hs H Hne. destruct (exec_at_split r prev s m H) as [Hsplit _].
  destruct (Re.matched m) as [|c u] eqn:Em; [congruence|].
  rewrite Hsplit in H |- *. cbn [app Re.replace_all_from] in *.
  rewrite H, Em. cbn [length]. f_equal.
  rewrite replace_all_skip. now apply replace_all_prev.
Qed.

Lemma match_all_prev (r : Re.regex) (k : nat) (prev prev' : option char) (s : jsstring) :
  simple r = true ->
  Re.match_all_from r k prev s = Re.match_all_from r k prev' s.
Proof.
  intros Hs. destruct s as [|c s], k as [|k]; cbn [Re.match_all_from];
    try reflexivity; now rewrite (exec_at_simple r prev prev' _ Hs).
Qed.

Lemma match_all_skip (r : Re.regex) (u s : jsstring) :
  forall prev,
  Re.match_all_from r (length u) prev (u ++ s)
  = Re.match_all_from r 0 (prev_after prev u) s.
Proof.
  induction u as [|c u IH]; intros prev; [reflexivity|].
  cbn [length app Re.match_all_from]. rewrite IH. now rewrite prev_after_cons.
Qed.

Lemma match_all_nomatch (r : Re.regex) (prev : option char) (c : char) (s : jsstring) :
  simple r = true ->
  Re.exec_at r prev (c :: s) = None ->
  Re.match_all_from r 0 prev (c :: s) = Re.match_all_from r 0 None s.
Proof.
  intros Hs H. cbn [Re.match_all_from]. rewrite H.
  now rewrite (match_all_prev r 0 (Some c) None s Hs).
Qed.

Lemma match_all_match (r : Re.regex) (prev : option char) (s : jsstring) (m : Re.result) :
  simple r = true ->
  Re.exec_at r prev s = Some m ->
  Re.matched m <> [] ->
  Re.match_all_from r 0 prev s = m :: Re.match_all_from r 0 None (Re.rest m).
Proof.
  intros Hs H Hne. destruct (exec_at_split r prev s m H) as [Hsplit _].
  destruct (Re.matched m) as [|c u] eqn:Em; [congruence|].
  rewrite Hsplit in H |- *. cbn [app Re.match_all_from] in *.
  rewrite H, Em. cbn [length pred]. f_equal.
  rewrite match_all_skip. now apply match_all_prev.
Qed.

(** *** Captures *)




(* ================================================================= *)
(** ** Paragraph-opening tags *)

Lemma span_until_spec (stop : char) (t : jsstring) :
  forall u v,
  span_until stop t = (u, v) ->
  t = u ++ v
  /\ forallb (Re.not_chr stop) u = true
  /\ ~ In stop u
  /\ (v = [] \/ exists rest, v = stop :: rest).
Proof.
  induction t as [|c t IH]; intros u v; cbn [span_until].
  - intros [= <- <-]. cbn. intuition.
  - destruct (N.eqb_spec c stop) as [->|Hc].
    + intros [= <- <-]. cbn. intuition eauto.
    + destruct (span_until stop t) as [u0 v0]. intros [= <- <-].
      destruct (IH u0 v0 eq_refl) as (-> & Hu & Hn & Hv).
      repeat split; auto.
      * cbn [forallb]. unfold Re.not_chr at 1.
        apply N.eqb_neq in Hc. now rewrite Hc.
      * intros [H|H]; [congruence|auto].
Qed.

(** Without a closing bracket ahead the tag cannot close. *)
Lemma p_close_fails (prev : option char) (w : jsstring) (caps : list (nat * jsstring)) :
  ~ In gt w -> Re.run re_p_close (Re.MState prev w caps) = [].
Proof.
  intros Hw. unfold re_p_close. cbn [Re.run Re.m_prev Re.m_rest Re.m_caps Re.spaces].
  apply flat_map_nil. intros st Hst.
  destruct (star_states _ _ _ _ _ Hst) as (u & E & _ & _).
  cbn [Re.run Re.chr]. destruct (Re.m_rest st) as [|c s] eqn:Er; [reflexivity|].
  destruct (N.eqb_spec gt c) as [<-|Hc]; [|reflexivity].
  exfalso. apply Hw. rewrite E. apply in_or_app. right. now left.
Qed.

Lemma firstn_app_exact {A : Type} (u v : list A) :
  firstn (length (u ++ v) - length v) (u ++ v) = u.
Proof.
  rewrite length_app, Nat.add_sub, firstn_app, Nat.sub_diag, firstn_all.
  cbn [firstn]. apply app_nil_r.
Qed.

Lemma is_space_not_gt (c : char) : is_space c = true -> c <> gt.
Proof. intros H ->. discriminate. Qed.

(** At a closing bracket the tag closes, and that is the first way. *)
Lemma p_close_at_gt (prev : option char) (rest : jsstring) (caps : list (nat * jsstring)) :
  Re.run re_p_close (Re.MState prev (gt :: rest) caps)
  = [Re.MState (Some gt) rest caps].
Proof. reflexivity. Qed.

Lemma exec_p_open (prev : option char) (s : jsstring) :
  Re.exec_at re_p_open prev s = option_map (p_open_result s) (p_open s).
Proof.
  unfold Re.exec_at, p_open.
  change re_p_open
    with (Re.Seq (Re.Seq (Re.chr 60%N) (Re.chr 112%N))
            (Re.Seq (Re.Opt re_p_attrs) re_p_close)).
  destruct s as [|a [|b [|c t]]].
  - reflexivity.
  - cbn [Re.run flat_map Re.m_rest Re.m_prev Re.m_caps Re.chr app].
    destruct (N.eqb 60 a); reflexivity.
  - cbn [Re.run flat_map Re.m_rest Re.m_prev Re.m_caps Re.chr app].
    destruct (N.eqb 60 a); [|reflexivity].
    cbn [Re.run flat_map Re.m_rest Re.m_prev Re.m_caps Re.chr app].
    destruct (N.eqb 112 b); reflexivity.
  - cbn [Re.run flat_map Re.m_rest Re.m_prev Re.m_caps Re.chr app].
    destruct (N.eqb 60 a); [|reflexivity].
    cbn [Re.run flat_map Re.m_rest Re.m_prev Re.m_caps Re.chr app].
    destruct (N.eqb 112 b); [|reflexivity].
    cbn [flat_map app andb negb]. rewrite !app_nil_r, flat_map_app.
    cbn [flat_map]. rewrite app_nil_r.
    set (st1 := Re.MState (Some b) (c :: t) []).
    unfold re_p_attrs at 1.
    cbn [Re.run Re.space Re.m_rest Re.m_prev Re.m_caps]. subst st1.
    cbn [Re.m_rest Re.m_prev Re.m_caps].
    destruct (is_space c) eqn:Esp.
    + cbn [flat_map Re.run Re.m_rest Re.m_prev Re.m_caps]. rewrite app_nil_r.
      destruct (span_until gt t) as [u v] eqn:Espan.
      destruct (span_until_spec gt t u v Espan) as (Ht & Hu & Hnu & Hv).
      destruct Hv as [->|[rest ->]].
      * (* no closing bracket at all *)
        rewrite app_nil_r in Ht. subst u.
        rewrite flat_map_nil.
        -- rewrite p_close_fails; [reflexivity|].
           intros [H|H]; [|auto]. now apply (is_space_not_gt c Esp).
        -- intros st Hst. apply in_map_iff in Hst as (st0 & <- & Hst0).
           destruct (star_states _ _ _ _ _ Hst0) as (u0 & E & _ & _).
           destruct st0 as [p0 r0 c0]. unfold Re.capture. cbn [Re.m_rest Re.m_prev Re.m_caps] in *.
           apply p_close_fails. intros H. apply Hnu. rewrite E.
           apply in_or_app. now right.
      * destruct (star_longest (Re.not_chr gt) u (gt :: rest) (Some c) [] Hu) as [more Hstar].
        { reflexivity. }
        rewrite <- Ht in Hstar. rewrite Hstar. cbn [map flat_map].
        unfold Re.capture at 1. cbn [Re.m_rest Re.m_prev Re.m_caps].
        rewrite p_close_at_gt. cbn [app option_map].
        unfold p_open_result, Re.consumed. cbn [fst snd Re.m_rest Re.m_caps].
        do 3 f_equal. rewrite Ht.
        change (c :: u ++ gt :: rest) with ((c :: u) ++ gt :: rest).
        now rewrite firstn_app_exact.
    + cbn [flat_map map app].
      unfold re_p_close. cbn [Re.run Re.spaces Re.star Re.m_rest Re.m_prev Re.m_caps].
      rewrite Esp. cbn [flat_map Re.run Re.chr Re.m_rest Re.m_prev Re.m_caps app].
      destruct (N.eqb gt c); reflexivity.
Qed.

Lemma span_until_found (stop : char) (u rest : jsstring) :
  ~ In stop u -> span_until stop (u ++ stop :: rest) = (u, stop :: rest).
Proof.
  induction u as [|c u IH]; intros Hu; cbn [app span_until].
  - now rewrite N.eqb_refl.
  - destruct (N.eqb_spec c stop) as [->|Hc]; [destruct Hu; now left|].
    rewrite IH; [reflexivity|]. intros H. apply Hu. now right.
Qed.








(* ================================================================= *)
(** ** The new attribute text *)









Lemma simple_re_theme : simple re_theme = true.
Proof. reflexivity. Qed.





(** *** Its shape *)

Lemma not_in_checked (c : char) (l : jsstring) :
  forallb (Re.not_chr c) l = true -> ~ In c l.
Proof.
  induction l as [|x l IH]; cbn [forallb In]; [tauto|].
  unfold Re.not_chr at 1. intros H. apply andb_true_iff in H as [Hx Hl].
  intros [->|Hin]; [now rewrite N.eqb_refl in Hx|now apply IH].
Qed.

Lemma not_in_app (c : char) (x y : jsstring) :
  ~ In c x -> ~ In c y -> ~ In c (x ++ y).
Proof. intros Hx Hy H. apply in_app_or in H. tauto. Qed.




(* ================================================================= *)
(** ** [addLexicalClass] twice *)











(* ================================================================= *)
(** ** Image tags *)

(** *** More on the matcher *)

(** The ways of a star behind a prefix of its class come first. *)
Lemma star_app (p : char -> bool) (a t : jsstring) :
  forall prev caps,
  forallb p a = true ->
  exists prev' shorter,
    Re.star p prev (a ++ t) caps = Re.star p prev' t caps ++ shorter.
Proof.
  induction a as [|c a IH]; intros prev caps Ha.
  - exists prev, []. now rewrite app_nil_r.
  - cbn [forallb] in Ha. apply andb_true_iff in Ha as [Hc Ha].
    destruct (IH (Some c) caps Ha) as (prev' & shorter & E).
    exists prev', (shorter ++ [Re.MState prev (c :: a ++ t) caps]).
    cbn [app Re.star]. now rewrite Hc, E, app_assoc.
Qed.

(** The last way of a star takes nothing; every other takes something. *)
Lemma star_last (p : char -> bool) (prev : option char) (t : jsstring)
  (caps : list (nat * jsstring)) :
  exists longer,
    Re.star p prev t caps = longer ++ [Re.MState prev t caps]
    /\ forall st, In st longer ->
         exists c u, t = (c :: u) ++ Re.m_rest st /\ forallb p (c :: u) = true.
Proof.
  destruct t as [|c t]; cbn [Re.star].
  - exists []. split; [reflexivity|]. intros st [].
  - destruct (p c) eqn:Ec.
    + exists (Re.star p (Some c) t caps). split; [reflexivity|].
      intros st Hst. destruct (star_states _ _ _ _ _ Hst) as (u & E & Hu & _).
      exists c, u. cbn [app forallb]. now rewrite Ec, Hu, <- E.
    + exists []. split; [reflexivity|]. intros st [].
Qed.

(** A string of the pattern at the front of the input is matched. *)
Lemma run_complete (r : Re.regex) :
  simple r = true ->
  forall u, matches r u ->
  forall y prev caps,
  exists st', In st' (Re.run r (Re.MState prev (u ++ y) caps)) /\ Re.m_rest st' = y.
Proof.
  induction r as [|p|r1 IH1 r2 IH2|r1 IH1 r2 IH2|p|r1 IH1|i r1 IH1| |];
    cbn [simple matches]; intros Hs u Hu y prev caps; try discriminate;
    cbn [Re.run Re.m_rest Re.m_prev Re.m_caps].
  - subst u. eexists. split; [now left|reflexivity].
  - destruct Hu as (c & -> & Hc). cbn [app]. rewrite Hc.
    eexists. split; [now left|reflexivity].
  - apply andb_true_iff in Hs as [H1 H2].
    destruct Hu as (u1 & u2 & -> & M1 & M2). rewrite <- app_assoc.
    destruct (IH1 H1 u1 M1 (u2 ++ y) prev caps) as (mid & Hin1 & Hr1).
    destruct (IH2 H2 u2 M2 y (Re.m_prev mid) (Re.m_caps mid)) as (st' & Hin2 & Hr2).
    exists st'. split; [|exact Hr2]. apply in_flat_map. exists mid.
    split; [exact Hin1|]. rewrite <- Hr1 in Hin2. now destruct mid.
  - apply andb_true_iff in Hs as [H1 H2]. destruct Hu as [M|M].
    + destruct (IH1 H1 u M y prev caps) as (st' & Hin & Hr).
      exists st'. split; [apply in_or_app; now left|exact Hr].
    + destruct (IH2 H2 u M y prev caps) as (st' & Hin & Hr).
      exists st'. split; [apply in_or_app; now right|exact Hr].
  - destruct (star_complete p u y prev caps Hu) as (st' & Hin & Hr & _). now exists st'.
  - destruct Hu as [->|M].
    + eexists. split; [apply in_or_app; right; now left|reflexivity].
    + destruct (IH1 Hs u M y prev caps) as (st' & Hin & Hr).
      exists st'. split; [apply in_or_app; now left|exact Hr].
  - destruct (IH1 Hs u Hu y prev caps) as (st' & Hin & Hr).
    eexists. split; [apply in_map; exact Hin|]. exact Hr.
Qed.

(** A pattern that is not found matches at no position. *)
Lemma test_from_false (r : Re.regex) (x y : jsstring) :
  forall prev,
  Re.test_from r prev (x ++ y) = false -> Re.exec_at r (prev_after prev x) y = None.
Proof.
  intros prev H. destruct (Re.exec_at r (prev_after prev x) y) eqn:E; [|reflexivity].
  rewrite test_from_intro in H; [discriminate|]. now rewrite E.
Qed.

(** A pattern that matches somewhere inside is found. *)
Lemma test_inside (r : Re.regex) (x u y : jsstring) :
  simple r = true -> matches r u -> Re.test r (x ++ u ++ y) = true.
Proof.
  intros Hs Hu. apply test_found; [exact Hs|]. unfold Re.exec_at.
  destruct (run_complete r Hs u Hu y None []) as (st' & Hin & _).
  destruct (Re.run r (Re.MState None (u ++ y) [])); [destruct Hin|discriminate].
Qed.

(** *** Absolute sources *)

(** The pattern is anchored: it matches at the start only. *)
Lemma http_not_inside (s : jsstring) :
  forall c, Re.test_from re_http (Some c) s = false.
Proof.
  induction s as [|d s IH]; intros c; cbn [Re.test_from]; [reflexivity|].
  change (Re.exec_at re_http (Some c) (d :: s)) with (@None Re.result). apply IH.
Qed.

Lemma test_http (s : jsstring) : Re.test re_http s = absolute_http s.
Proof.
  unfold Re.test, absolute_http.
  assert (H : Re.test_from re_http None s
              = match Re.exec_at re_http None s with Some _ => true | None => false end).
  { destruct s as [|c s]; cbn [Re.test_from]; [reflexivity|].
    destruct (Re.exec_at re_http None (c :: s)); [reflexivity|apply http_not_inside]. }
  rewrite H. clear H. unfold Re.exec_at.
  change re_http
    with (Re.Seq Re.Bol
            (Re.Seq (Re.Seq (Re.chr 104%N) (Re.Seq (Re.chr 116%N)
                       (Re.Seq (Re.chr 116%N) (Re.chr 112%N))))
               (Re.Seq (Re.Opt (Re.chr 115%N))
                  (Re.Seq (Re.chr 58%N) (Re.Seq (Re.chr 47%N) (Re.chr 47%N)))))).
  change (lit "http://") with [104; 116; 116; 112; 58; 47; 47]%N.
  change (lit "https://") with [104; 116; 116; 112; 115; 58; 47; 47]%N.
  cbn [Re.run flat_map app Re.m_rest Re.m_prev Re.m_caps Re.chr startsWith orb andb].
  repeat first
    [ reflexivity
    | match goal with
      | |- context [N.eqb ?k ?c] =>
          destruct (N.eqb_spec k c); [subst|];
          cbn [Re.run flat_map app Re.m_rest Re.m_prev Re.m_caps Re.chr startsWith orb andb]
      end
    | destruct s as [|? s];
      cbn [Re.run flat_map app Re.m_rest Re.m_prev Re.m_caps Re.chr startsWith orb andb] ].
Qed.

(** *** Extensions *)

Lemma is_word_fold_case (c : char) : Re.is_word (Re.fold_case c) = Re.is_word c.
Proof.
  unfold Re.fold_case. destruct ((97 <=? c) && (c <=? 122))%N eqn:E; [|reflexivity].
  apply andb_true_iff in E as [E1 E2]. apply N.leb_le in E1, E2.
  assert (H1 : Re.is_word c = true).
  { unfold Re.is_word. rewrite !orb_true_iff, !andb_true_iff, !N.leb_le. lia. }
  assert (H2 : Re.is_word (c - 32)%N = true).
  { unfold Re.is_word. rewrite !orb_true_iff, !andb_true_iff, !N.leb_le. lia. }
  congruence.
Qed.

Lemma is_word_not_space (c : char) : Re.is_word c = true -> is_space c = false.
Proof.
  intros H. destruct (is_space c) eqn:E; [|reflexivity]. exfalso. revert H E.
  unfold Re.is_word, is_space.
  rewrite !orb_true_iff, !andb_true_iff, !N.leb_le, !N.eqb_eq. lia.
Qed.

(** A unit the pattern takes for a letter is a letter. *)
Lemma letter_is_word (c k : char) :
  Re.is_word k = true -> N.eqb (Re.fold_case c) k = true -> Re.is_word c = true.
Proof.
  intros Hk H. apply N.eqb_eq in H. now rewrite <- is_word_fold_case, H.
Qed.

Lemma matches_letter (k : char) (u : jsstring) :
  matches (Re.Cls (fun x => N.eqb (Re.fold_case x) k)) u ->
  exists c, u = [c] /\ Re.fold_case c = k.
Proof. intros (c & -> & H). apply N.eqb_eq in H. now exists c. Qed.

(** An extension is three or four letters, and the pattern takes it whole
    when a double quote follows. *)
Lemma image_ext_shape (e : jsstring) :
  matches re_image_ext e ->
  forallb Re.is_word e = true
  /\ e <> []
  /\ forall prev rest caps,
       exists prev',
         Re.run re_image_ext (Re.MState prev (e ++ dquote :: rest) caps)
         = [Re.MState prev' (dquote :: rest) caps].
Proof.
  change re_image_ext
    with (let L := fun k => Re.Cls (fun x => N.eqb (Re.fold_case x) k) in
          Re.Alt (Re.Seq (L 83%N) (Re.Seq (L 86%N) (L 71%N)))
            (Re.Alt (Re.Seq (L 80%N) (Re.Seq (L 78%N) (L 71%N)))
               (Re.Alt (Re.Seq (L 74%N) (Re.Seq (L 80%N) (L 71%N)))
                  (Re.Alt (Re.Seq (L 74%N) (Re.Seq (L 80%N) (Re.Seq (L 69%N) (L 71%N))))
                     (Re.Alt (Re.Seq (L 71%N) (Re.Seq (L 73%N) (L 70%N)))
                        (Re.Seq (L 87%N) (Re.Seq (L 69%N) (Re.Seq (L 66%N) (L 80%N))))))))).
  cbv zeta beta. intros H. cbn [matches] in H.
  repeat match goal with
         | H : _ \/ _ |- _ => destruct H as [H|H]
         | H : exists _, _ |- _ => destruct H as [? H]
         | H : _ /\ _ |- _ => destruct H
         end; subst;
    repeat match goal with
           | H : N.eqb _ _ = true |- _ => apply N.eqb_eq in H
           end.
  all: split; [|split; [discriminate|]].
  all: cbn [app forallb].
  all: try (repeat match goal with
                   | H : Re.fold_case ?x = _ |- _ =>
                       rewrite <- (is_word_fold_case x), H; clear H
                   end; reflexivity).
  all: intros prev rest caps.
  all: repeat progress
         (cbn [Re.run flat_map app Re.m_rest Re.m_prev Re.m_caps N.eqb Pos.eqb];
          repeat match goal with
                 | H : Re.fold_case _ = _ |- _ => rewrite H
                 end).
  all: eexists; reflexivity.
Qed.

(** *** The start of the source attribute *)

Lemma simple_re_src_open : simple re_src_open = true.
Proof. reflexivity. Qed.

Lemma not_in_spaces (k : char) (ws : jsstring) :
  forallb is_space ws = true -> is_space k = false -> ~ In k ws.
Proof.
  intros Hws Hk Hin. rewrite forallb_forall in Hws. rewrite (Hws k Hin) in Hk. discriminate.
Qed.

Lemma src_open_body (sp s r c : char) (ws1 ws2 : jsstring) :
  is_space sp = true ->
  Re.fold_case s = 83%N -> Re.fold_case r = 82%N -> Re.fold_case c = 67%N ->
  forallb is_space ws1 = true -> forallb is_space ws2 = true ->
  exists u0 z,
    [sp] ++ ([s] ++ [r] ++ [c]) ++ ws1 ++ [61%N] ++ ws2 ++ [dquote] = u0 ++ [z] ++ [dquote]
    /\ (z = 61%N \/ is_space z = true)
    /\ ~ In dquote (u0 ++ [z])
    /\ ~ In gt (u0 ++ [z]).
Proof.
  intros Hsp Hs Hr Hc Hws1 Hws2.
  assert (Hw : forall x, In x [s; r; c] -> Re.is_word x = true).
  { intros x [<-|[<-|[<-|[]]]]; rewrite <- is_word_fold_case;
      [rewrite Hs|rewrite Hr|rewrite Hc]; reflexivity. }
  assert (Hplain : forall k, is_space k = false -> Re.is_word k = false -> k <> 61%N ->
                   ~ In k ([sp] ++ ([s] ++ [r] ++ [c]) ++ ws1 ++ [61%N] ++ ws2)).
  { intros k Hk1 Hk2 Hk3 Hin. cbn [app] in Hin.
    destruct Hin as [<-|Hin]; [congruence|].
    destruct Hin as [<-|Hin]; [rewrite Hw in Hk2; [discriminate|now left]|].
    destruct Hin as [<-|Hin]; [rewrite Hw in Hk2; [discriminate|right; now left]|].
    destruct Hin as [<-|Hin]; [rewrite Hw in Hk2; [discriminate|right; right; now left]|].
    apply in_app_or in Hin as [Hin|[Hin|Hin]].
    - now apply (not_in_spaces k ws1).
    - congruence.
    - now apply (not_in_spaces k ws2). }
  destruct ws2 as [|w ws2 _] using rev_ind.
  - exists ([sp] ++ ([s] ++ [r] ++ [c]) ++ ws1), 61%N. split; [|split; [|split]].
    + cbn [app]. rewrite <- ?app_assoc. reflexivity.
    + now left.
    + rewrite <- app_assoc. apply (Hplain dquote); [reflexivity|reflexivity|discriminate].
    + rewrite <- app_assoc. apply (Hplain gt); [reflexivity|reflexivity|discriminate].
  - exists ([sp] ++ ([s] ++ [r] ++ [c]) ++ ws1 ++ [61%N] ++ ws2), w.
    rewrite forallb_app in Hws2. apply andb_true_iff in Hws2 as [_ Hw2].
    cbn [forallb] in Hw2. rewrite andb_true_r in Hw2.
    split; [|split; [|split]].
    + cbn [app]. rewrite <- ?app_assoc. reflexivity.
    + now right.
    + replace (([sp] ++ ([s] ++ [r] ++ [c]) ++ ws1 ++ [61%N] ++ ws2) ++ [w])
        with ([sp] ++ ([s] ++ [r] ++ [c]) ++ ws1 ++ [61%N] ++ ws2 ++ [w])
        by (cbn [app]; now rewrite <- !app_assoc).
      apply (Hplain dquote); [reflexivity|reflexivity|discriminate].
    + replace (([sp] ++ ([s] ++ [r] ++ [c]) ++ ws1 ++ [61%N] ++ ws2) ++ [w])
        with ([sp] ++ ([s] ++ [r] ++ [c]) ++ ws1 ++ [61%N] ++ ws2 ++ [w])
        by (cbn [app]; now rewrite <- !app_assoc).
      apply (Hplain gt); [reflexivity|reflexivity|discriminate].
Qed.

(** A start of the attribute begins with a blank, ends with the double
    quote behind an equals sign or a blank, and holds no other double
    quote and no closing bracket. *)
Lemma src_open_shape (u : jsstring) :
  matches re_src_open u ->
  (exists sp t, u = sp :: t /\ is_space sp = true)
  /\ exists u0 z,
       u = u0 ++ [z] ++ [dquote]
       /\ (z = 61%N \/ is_space z = true)
       /\ ~ In dquote (u0 ++ [z])
       /\ ~ In gt (u0 ++ [z]).
Proof.
  change re_src_open
    with (let L := fun k => Re.Cls (fun x => N.eqb (Re.fold_case x) k) in
          Re.Seq (Re.Cls is_space)
            (Re.Seq (Re.Seq (L 83%N) (Re.Seq (L 82%N) (L 67%N)))
               (Re.Seq (Re.Star is_space)
                  (Re.Seq (Re.Cls (N.eqb 61))
                     (Re.Seq (Re.Star is_space) (Re.Cls (N.eqb dquote))))))).
  cbv zeta beta. cbn [matches]. intros H.
  repeat match goal with
         | H : exists _, _ |- _ => destruct H as [? H]
         | H : _ /\ _ |- _ => destruct H
         end; subst.
  repeat match goal with
         | H : N.eqb _ _ = true |- _ => apply N.eqb_eq in H
         end; subst.
  split.
  - do 2 eexists. split; [reflexivity|assumption].
  - apply src_open_body; assumption.
Qed.

Lemma span_until_app (stop : char) (x y : jsstring) :
  ~ In stop x ->
  span_until stop (x ++ y) = (x ++ fst (span_until stop y), snd (span_until stop y)).
Proof.
  induction x as [|c x IH]; intros Hx; cbn [app].
  - now destruct (span_until stop y).
  - cbn [span_until]. destruct (N.eqb_spec c stop) as [->|Hc]; [destruct Hx; now left|].
    rewrite IH; [reflexivity|]. intros H. apply Hx. now right.
Qed.

(** The first double quote of a text is where it is. *)
Lemma first_quote_unique (q : char) (x x' y y' : jsstring) :
  ~ In q x -> ~ In q x' -> x ++ q :: y = x' ++ q :: y' -> x = x'.
Proof.
  intros Hx Hx' E. pose proof (span_until_found q x y Hx) as H1.
  rewrite E, (span_until_found q x' y' Hx') in H1. congruence.
Qed.

(** Behind the attributes taken, the source attribute starts nowhere
    later in the tag: not inside its own [ src=Q], not inside the source,
    whose last unit is a letter, and not in the rest of the tag. *)
Lemma src_open_fails (src z : jsstring) (c : char) (u t : jsstring)
  (prev : option char) (caps : list (nat * jsstring)) :
  image_src src ->
  Re.test re_src_open (tag_rest z) = false ->
  (c :: u) ++ t = lit " src=`" ++ src ++ dquote :: z ->
  forallb (Re.not_chr gt) (c :: u) = true ->
  Re.run re_src_open (Re.MState prev t caps) = [].
Proof.
  intros [Hq (stem & ext & Hsrc & Hext)] Hrest Hcut Hgt.
  destruct (Re.run re_src_open (Re.MState prev t caps)) as [|st' l] eqn:Erun;
    [reflexivity|exfalso].
  destruct (run_sound re_src_open (Re.MState prev t caps) st') as (m & Ht & Hm).
  { rewrite Erun. now left. }
  cbn [Re.m_rest] in Ht. clear Erun l.
  destruct (src_open_shape m Hm) as [(sp & m' & Hsp & Espace) (u0 & y & Hu0 & Hy & Hnq & Hng)].
  destruct (image_ext_shape ext Hext) as (Hword & Hne & _).
  change (lit " src=`") with [32; 115; 114; 99; 61; 34]%N in Hcut.
  assert (Hl : exists l, c :: u = [32; 115; 114; 99; 61; 34]%N ++ l
                         /\ src ++ dquote :: z = l ++ t).
  { apply app_eq_app in Hcut as [l [[H1 H2]|[H1 H2]]]; [now exists l|].
    destruct l as [|a l].
    - exists []. rewrite app_nil_r in *. now split.
    - exfalso. rewrite Ht, Hsp in H2. injection H2 as <- _.
      assert (Ha : In sp [115; 114; 99; 61; 34]%N).
      { injection H1 as _ H1. rewrite H1. apply in_or_app. right. now left. }
      cbn [In] in Ha.
      repeat match goal with
             | H : _ \/ _ |- _ => destruct H as [H|H]
             end; try contradiction; subst sp; discriminate. }
  destruct Hl as (l & Hl & Hcut'). clear Hcut.
  assert (Hgl : ~ In gt l).
  { rewrite Hl, forallb_app in Hgt. apply andb_true_iff in Hgt as [_ Hgt].
    intros Hin. rewrite forallb_forall in Hgt. specialize (Hgt gt Hin). discriminate. }
  apply app_eq_app in Hcut' as [l2 [[H1 H2]|[H1 H2]]].
  - (* the cut is inside the source *)
    assert (Hl2 : l2 = u0 ++ [y]).
    { apply (first_quote_unique dquote l2 (u0 ++ [y]) z (Re.m_rest st')).
      - intros Hin. apply Hq. rewrite H1. apply in_or_app. now right.
      - exact Hnq.
      - transitivity t; [symmetry; exact H2|].
        rewrite Ht, Hu0. now rewrite <- !app_assoc. }
    destruct (exists_last Hne) as (ext' & e & Eext).
    assert (He : Re.is_word e = true).
    { rewrite Eext, forallb_app in Hword. apply andb_true_iff in Hword as [_ Hword].
      cbn [forallb] in Hword. now rewrite andb_true_r in Hword. }
    assert (Hye : y = e).
    { rewrite Hsrc, Eext, Hl2 in H1.
      rewrite !app_assoc in H1. now apply app_inj_tail in H1 as [_ H1]. }
    subst y. destruct Hy as [->|Hy]; [discriminate|].
    rewrite (is_word_not_space e He) in Hy. discriminate.
  - (* the cut is past the source *)
    destruct l2 as [|q l3].
    + cbn [app] in H2. rewrite Ht, Hsp in H2. injection H2 as E _. subst sp. discriminate.
    + cbn [app] in H2. injection H2 as Eq Hz. subst q.
      assert (Hgm : ~ In gt (l3 ++ m)).
      { intros Hin. apply in_app_or in Hin as [Hin|Hin].
        - apply Hgl. rewrite H1. apply in_or_app. right. now right.
        - rewrite Hu0, app_assoc in Hin. apply in_app_or in Hin as [Hin|[Hin|[]]];
            [now apply Hng|discriminate]. }
      assert (Hfound : Re.test re_src_open (tag_rest z) = true).
      { unfold tag_rest. rewrite Hz, Ht, app_assoc, (span_until_app gt _ _ Hgm).
        cbn [fst]. rewrite <- app_assoc.
        apply test_inside; [apply simple_re_src_open|exact Hm]. }
      congruence.
Qed.

(** Behind a longer start of the source the extension does not follow. *)
Lemma dot_ext_fails (ext z : jsstring) (c : char) (u r : jsstring)
  (prev : option char) (caps : list (nat * jsstring)) :
  forallb Re.is_word ext = true ->
  (c :: u) ++ r = 46%N :: ext ++ dquote :: z ->
  forallb (Re.not_chr dquote) (c :: u) = true ->
  Re.run (Re.Seq (Re.chr 46%N) re_image_ext) (Re.MState prev r caps) = [].
Proof.
  intros Hword Hcut Hq.
  assert (H : match r with [] => True | x :: _ => N.eqb 46 x = false end).
  { cbn [app] in Hcut. injection Hcut as _ Hcut.
    cbn [forallb] in Hq. apply andb_true_iff in Hq as [_ Hq].
    apply not_in_checked in Hq.
    apply app_eq_app in Hcut as [l [[H1 H2]|[H1 H2]]].
    - (* the cut is at the closing quote or behind it *)
      destruct l as [|q l]; [cbn [app] in H2; now rewrite <- H2|].
      cbn [app] in H2. injection H2 as Eq _. exfalso. apply Hq.
      rewrite H1. apply in_or_app. right. left. now symmetry.
    - (* the cut is inside the extension *)
      destruct l as [|e l]; [cbn [app] in H2; now rewrite H2|].
      cbn [app] in H2. rewrite H2.
      rewrite H1, forallb_app in Hword. apply andb_true_iff in Hword as [_ Hword].
      cbn [forallb] in Hword. apply andb_true_iff in Hword as [He _].
      destruct (N.eqb_spec 46 e) as [<-|]; [discriminate|reflexivity]. }
  cbn [Re.run Re.m_rest Re.m_prev Re.m_caps Re.chr].
  destruct r as [|x r]; [reflexivity|]. now rewrite H.
Qed.

(** *** The match at an image tag *)

Lemma not_in_forallb (c : char) (l : jsstring) :
  ~ In c l -> forallb (Re.not_chr c) l = true.
Proof.
  induction l as [|x l IH]; cbn [forallb In]; [reflexivity|].
  intros H. unfold Re.not_chr at 1.
  destruct (N.eqb_spec x c) as [->|Hx]; [destruct H; now left|].
  cbn [negb andb]. apply IH. tauto.
Qed.

Lemma exec_img_src (prev : option char) (attrs src z : jsstring) :
  ~ In gt attrs ->
  image_src src ->
  Re.test re_src_open (tag_rest z) = false ->
  Re.exec_at re_img_src prev (img_tag attrs src ++ z)
  = Some (Re.Result (img_tag attrs src)
            [(3, [dquote]); (2, src); (1, lit "<img" ++ attrs ++ lit " src=`")] z).
Proof.
  intros Hattrs Hsrc Hrest.
  assert (Hsrc' := Hsrc). destruct Hsrc' as [Hq (stem & ext & Esrc & Hext)].
  destruct (image_ext_shape ext Hext) as (Hword & Hne & Hrun).
  unfold Re.exec_at.
  change re_img_src
    with (Re.Seq (Re.Grp 1 (Re.Seq re_img_open (Re.Seq (Re.Star (Re.not_chr gt)) re_src_open)))
            (Re.Seq (Re.Grp 2 (Re.Seq (Re.Star (Re.not_chr dquote))
                                 (Re.Seq (Re.chr 46%N) re_image_ext)))
               (Re.Grp 3 (Re.chr dquote)))).
  set (s := img_tag attrs src ++ z).
  set (st0 := Re.MState prev s []).
  set (t := lit " src=`" ++ src ++ dquote :: z).
  assert (Es : s = lit "<img" ++ attrs ++ t).
  { unfold s, t, img_tag. now rewrite <- !app_assoc. }
  (* the tag name *)
  assert (H1 : Re.run re_img_open st0 = [Re.MState (Some 103%N) (attrs ++ t) []]).
  { unfold st0. rewrite Es. reflexivity. }
  (* the attributes, then the start of the source attribute *)
  assert (H2 : exists more,
             Re.run (Re.Seq (Re.Star (Re.not_chr gt)) re_src_open)
               (Re.MState (Some 103%N) (attrs ++ t) [])
             = Re.MState (Some dquote) (src ++ dquote :: z) [] :: more).
  { cbn [Re.run Re.m_prev Re.m_rest Re.m_caps].
    destruct (star_app (Re.not_chr gt) attrs t (Some 103%N) [] (not_in_forallb gt attrs Hattrs))
      as (prev' & shorter & ->).
    destruct (star_last (Re.not_chr gt) prev' t []) as (longer & -> & Hlonger).
    rewrite !flat_map_app.
    rewrite (flat_map_nil (Re.run re_src_open) longer).
    - cbn [app flat_map]. eexists. unfold t. reflexivity.
    - intros st Hst. destruct (Hlonger st Hst) as (c & u & Ecut & Hcu).
      destruct st as [p0 r0 c0]. cbn [Re.m_rest] in Ecut.
      now apply (src_open_fails src z c u r0 p0 c0 Hsrc Hrest). }
  destruct H2 as [more1 H2].
  set (pre := lit "<img" ++ attrs ++ lit " src=`").
  set (st1 := Re.MState (Some dquote) (src ++ dquote :: z) [(1, pre)]).
  assert (Hcap1 : Re.capture 1 st0 (Re.MState (Some dquote) (src ++ dquote :: z) []) = st1).
  { unfold Re.capture, Re.consumed, st0, st1. cbn [Re.m_prev Re.m_rest Re.m_caps].
    do 3 f_equal.
    assert (E : s = pre ++ src ++ dquote :: z).
    { unfold s, pre, img_tag. now rewrite <- !app_assoc. }
    rewrite E. apply firstn_app_exact. }
  (* the source *)
  assert (H3 : exists prev' more,
             Re.run (Re.Seq (Re.Star (Re.not_chr dquote)) (Re.Seq (Re.chr 46%N) re_image_ext)) st1
             = Re.MState prev' (dquote :: z) [(1, pre)] :: more).
  { unfold st1. cbn [Re.run Re.m_prev Re.m_rest Re.m_caps].
    assert (Estem : src ++ dquote :: z = stem ++ 46%N :: ext ++ dquote :: z).
    { rewrite Esrc. now rewrite <- !app_assoc. }
    assert (Hstem : ~ In dquote stem).
    { intros Hin. apply Hq. rewrite Esrc. apply in_or_app. now left. }
    rewrite Estem.
    destruct (star_app (Re.not_chr dquote) stem (46%N :: ext ++ dquote :: z) (Some dquote)
                [(1, pre)] (not_in_forallb dquote stem Hstem)) as (prev' & shorter & ->).
    destruct (star_last (Re.not_chr dquote) prev' (46%N :: ext ++ dquote :: z) [(1, pre)])
      as (longer & -> & Hlonger).
    rewrite !flat_map_app.
    rewrite (flat_map_nil _ longer).
    - destruct (Hrun (Some 46%N) z [(1, pre)]) as [pe Hpe].
      exists pe. eexists. cbn [app flat_map].
      change (Re.run (Re.chr 46%N)
                (Re.MState prev' (46%N :: ext ++ dquote :: z) [(1, pre)]))
        with [Re.MState (Some 46%N) (ext ++ dquote :: z) [(1, pre)]].
      cbn [flat_map].
      rewrite Hpe. cbn [app]. reflexivity.
    - intros st Hst. destruct (Hlonger st Hst) as (c & u & Ecut & Hcu).
      destruct st as [p0 r0 c0]. cbn [Re.m_rest] in Ecut.
      now apply (dot_ext_fails ext z c u r0 p0 c0 Hword). }
  destruct H3 as (pe & more2 & H3).
  (* together *)
  change (Re.run
            (Re.Seq (Re.Grp 1 (Re.Seq re_img_open (Re.Seq (Re.Star (Re.not_chr gt)) re_src_open)))
               (Re.Seq (Re.Grp 2 (Re.Seq (Re.Star (Re.not_chr dquote))
                                    (Re.Seq (Re.chr 46%N) re_image_ext)))
                  (Re.Grp 3 (Re.chr dquote)))) st0)
    with (flat_map
            (Re.run (Re.Seq (Re.Grp 2 (Re.Seq (Re.Star (Re.not_chr dquote))
                                         (Re.Seq (Re.chr 46%N) re_image_ext)))
                       (Re.Grp 3 (Re.chr dquote))))
            (map (Re.capture 1 st0)
               (flat_map (Re.run (Re.Seq (Re.Star (Re.not_chr gt)) re_src_open))
                  (Re.run re_img_open st0)))).
  rewrite H1. cbn [flat_map]. rewrite app_nil_r, H2. cbn [map flat_map]. rewrite Hcap1.
  change (Re.run
            (Re.Seq (Re.Grp 2 (Re.Seq (Re.Star (Re.not_chr dquote))
                                 (Re.Seq (Re.chr 46%N) re_image_ext)))
               (Re.Grp 3 (Re.chr dquote))) st1)
    with (flat_map (Re.run (Re.Grp 3 (Re.chr dquote)))
            (map (Re.capture 2 st1)
               (Re.run (Re.Seq (Re.Star (Re.not_chr dquote))
                          (Re.Seq (Re.chr 46%N) re_image_ext)) st1))).
  rewrite H3. cbn [map flat_map].
  unfold Re.capture at 2. cbn [Re.m_prev Re.m_rest Re.m_caps].
  cbn [Re.run Re.chr Re.m_prev Re.m_rest Re.m_caps].
  unfold Re.capture, Re.consumed. cbn [Re.m_prev Re.m_rest Re.m_caps].
  rewrite N.eqb_refl. cbn [map app Re.m_prev Re.m_rest Re.m_caps].
  unfold st1. cbn [Re.m_rest].
  rewrite (firstn_app_exact src (dquote :: z)).
  change (dquote :: z) with ([dquote] ++ z) at 1 2.
  rewrite (firstn_app_exact [dquote] z).
  unfold s. rewrite (firstn_app_exact (img_tag attrs src) z).
  reflexivity.
Qed.

(** What the callback makes of that match. *)
Lemma rewrite_img_tag (questionId attrs src z : jsstring) :
  rewrite_img questionId
    (Re.Result (img_tag attrs src)
       [(3, [dquote]); (2, src); (1, lit "<img" ++ attrs ++ lit " src=`")] z)
  = lit "<img" ++ attrs ++ lit " src=`" ++ archive_src questionId src ++ [dquote].
Proof.
  unfold rewrite_img, archive_src.
  cbn [Re.group Re.lookup Re.caps Re.matched Nat.eqb or_empty].
  rewrite test_http.
  destruct (absolute_http src || startsWith (lit "images/") src).
  - reflexivity.
  - now rewrite <- !app_assoc.
Qed.

(** *** The text between the tags *)

Lemma simple_re_img_src : simple re_img_src = true.
Proof. reflexivity. Qed.

Lemma simple_re_img_open : simple re_img_open = true.
Proof. reflexivity. Qed.

(** The pattern starts with the tag name. *)
Lemma img_src_needs_open (prev : option char) (s : jsstring) :
  Re.exec_at re_img_open prev s = None -> Re.exec_at re_img_src prev s = None.
Proof.
  unfold Re.exec_at.
  change re_img_src
    with (Re.Seq (Re.Grp 1 (Re.Seq re_img_open (Re.Seq (Re.Star (Re.not_chr gt)) re_src_open)))
            (Re.Seq (Re.Grp 2 (Re.Seq (Re.Star (Re.not_chr dquote))
                                 (Re.Seq (Re.chr 46%N) re_image_ext)))
               (Re.Grp 3 (Re.chr dquote)))).
  change (Re.run
            (Re.Seq (Re.Grp 1 (Re.Seq re_img_open (Re.Seq (Re.Star (Re.not_chr gt)) re_src_open)))
               (Re.Seq (Re.Grp 2 (Re.Seq (Re.Star (Re.not_chr dquote))
                                    (Re.Seq (Re.chr 46%N) re_image_ext)))
                  (Re.Grp 3 (Re.chr dquote)))) (Re.MState prev s []))
    with (flat_map
            (Re.run (Re.Seq (Re.Grp 2 (Re.Seq (Re.Star (Re.not_chr dquote))
                                         (Re.Seq (Re.chr 46%N) re_image_ext)))
                       (Re.Grp 3 (Re.chr dquote))))
            (map (Re.capture 1 (Re.MState prev s []))
               (flat_map (Re.run (Re.Seq (Re.Star (Re.not_chr gt)) re_src_open))
                  (Re.run re_img_open (Re.MState prev s []))))).
  destruct (Re.run re_img_open (Re.MState prev s [])); [reflexivity|discriminate].
Qed.

(** The tag name is four units: what comes behind does not matter, and
    it does not start in the last three units before another tag name. *)
Lemma img_open_before_tag (x y : jsstring) :
  x <> [] ->
  Re.exec_at re_img_open None x = None ->
  Re.exec_at re_img_open None (x ++ lit "<img" ++ y) = None.
Proof.
  unfold Re.exec_at.
  change re_img_open
    with (let L := fun k => Re.Cls (fun x => N.eqb (Re.fold_case x) k) in
          Re.Seq (L 60%N) (Re.Seq (L 73%N) (Re.Seq (L 77%N) (L 71%N)))).
  cbv zeta beta.
  change (lit "<img") with [60; 105; 109; 103]%N.
  intros Hx H.
  destruct x as [|a [|b [|c [|d x]]]]; [congruence| | | |];
    cbn [Re.run flat_map app Re.m_rest Re.m_prev Re.m_caps] in *;
    repeat match goal with
           | |- context [N.eqb (Re.fold_case ?v) ?k] =>
               is_var v; destruct (N.eqb (Re.fold_case v) k);
               cbn [Re.run flat_map app Re.m_rest Re.m_prev Re.m_caps] in *
           end;
    try reflexivity; try discriminate.
Qed.

Lemma test_from_false_cons (r : Re.regex) (prev : option char) (c : char) (s : jsstring) :
  Re.test_from r prev (c :: s) = false ->
  Re.exec_at r prev (c :: s) = None /\ Re.test_from r (Some c) s = false.
Proof.
  cbn [Re.test_from]. destruct (Re.exec_at r prev (c :: s)); [discriminate|]. now split.
Qed.

(** Text without a tag name is copied up to the next image tag. *)
Lemma rewrite_scan (f : Re.result -> jsstring) (x y : jsstring) :
  forall prev,
  Re.test_from re_img_open prev x = false ->
  Re.replace_all_from re_img_src f 0 None (x ++ lit "<img" ++ y)
  = x ++ Re.replace_all_from re_img_src f 0 None (lit "<img" ++ y).
Proof.
  induction x as [|c x IH]; intros prev Hx; [reflexivity|].
  apply test_from_false_cons in Hx as [Hc Hx].
  change ((c :: x) ++ lit "<img" ++ y) with (c :: (x ++ lit "<img" ++ y)).
  rewrite replace_all_nomatch.
  - cbn [app]. f_equal. now apply (IH (Some c)).
  - apply simple_re_img_src.
  - apply img_src_needs_open.
    apply (img_open_before_tag (c :: x) y); [discriminate|].
    now rewrite (exec_at_simple re_img_open None prev _ simple_re_img_open).
Qed.

(** Text without a tag name is left as it is. *)
Lemma rewriteImagePaths_without_images (html questionId : jsstring) :
  Re.test re_img_open html = false -> rewriteImagePaths html questionId = html.
Proof.
  unfold rewriteImagePaths, Re.replace_all, Re.test. generalize (@None char) at 1.
  induction html as [|c x IH]; intros prev Hx; [reflexivity|].
  apply test_from_false_cons in Hx as [Hc Hx].
  rewrite replace_all_nomatch.
  - f_equal. now apply (IH (Some c)).
  - apply simple_re_img_src.
  - apply img_src_needs_open.
    now rewrite (exec_at_simple re_img_open None prev _ simple_re_img_open).
Qed.

(** A pattern that takes the whole of [u] has [u] among its strings. *)
Lemma matches_by_exec (r : Re.regex) (u : jsstring) (m : Re.result) :
  Re.exec_at r None u = Some m -> Re.rest m = [] -> matches r u.
Proof.
  intros H Hrest. destruct (exec_at_split r None u m H) as [E Hm].
  rewrite Hrest, app_nil_r in E. now rewrite E.
Qed.

(** The examples of the specification, by evaluation: a relative source
    goes under the question's folder; sources that start with [http://],
    [https://] or [images/] stay. *)
Lemma rewriteImagePaths_examples :
  rewriteImagePaths (lit "<p><img alt=`x` src=`foo.svg`></p>") (lit "Q1")
  = lit "<p><img alt=`x` src=`images/Q1/foo.svg`></p>"
  /\ rewriteImagePaths (lit "<img src=`foo.svg`>") (lit "Q1")
     = lit "<img src=`images/Q1/foo.svg`>"
  /\ rewriteImagePaths (lit "<img src=`https://cdn.example/a.png`>") (lit "Q1")
     = lit "<img src=`https://cdn.example/a.png`>"
  /\ rewriteImagePaths (lit "<img src=`http://cdn.example/a.JPG`>") (lit "Q1")
     = lit "<img src=`http://cdn.example/a.JPG`>"
  /\ rewriteImagePaths (lit "<img src=`images/Q7/b.webp`>") (lit "Q1")
     = lit "<img src=`images/Q7/b.webp`>"
  /\ rewriteImagePaths (lit "<img src=`a.gif`><IMG class=`w` SRC = `b.jpeg` alt=`>`>")
       (lit "Q1")
     = lit "<img src=`images/Q1/a.gif`><IMG class=`w` SRC = `images/Q1/b.jpeg` alt=`>`>".
Proof. repeat split; vm_compute; reflexivity. Qed.

(* ================================================================= *)
(** ** The CSV parser *)

(** *** Trimming *)

Lemma trimStart_split (s : jsstring) :
  exists a, s = a ++ trimStart s /\ forallb is_space a = true.
Proof.
  induction s as [|c s (a & E & Ha)]; [now exists []|].
  cbn [trimStart]. destruct (is_space c) eqn:Ec.
  - exists (c :: a). cbn [app forallb]. now rewrite Ec, <- E.
  - now exists [].
Qed.

Lemma trimStart_head (s : jsstring) :
  match trimStart s with [] => True | c :: _ => is_space c = false end.
Proof.
  induction s as [|c s IH]; [exact I|].
  cbn [trimStart]. destruct (is_space c) eqn:Ec; [exact IH|exact Ec].
Qed.

Lemma trimStart_fixed (s : jsstring) :
  match s with [] => True | c :: _ => is_space c = false end -> trimStart s = s.
Proof. destruct s as [|c s]; [reflexivity|]. cbn [trimStart]. now intros ->. Qed.

Lemma trimStart_trimStart (s : jsstring) : trimStart (trimStart s) = trimStart s.
Proof. apply trimStart_fixed, trimStart_head. Qed.

(** A trimmed string has no blank at either end. *)
Lemma trim_fixed (s : jsstring) :
  trimStart (trim s) = trim s /\ trimEnd (trim s) = trim s.
Proof.
  unfold trim, trimEnd. split.
  - destruct (trimStart_split (rev (trimStart s))) as (a & E & _).
    apply (f_equal (@rev char)) in E. rewrite rev_involutive, rev_app_distr in E.
    pose proof (trimStart_head s) as H. rewrite E in H.
    apply trimStart_fixed.
    destruct (rev (trimStart (rev (trimStart s)))); [exact I|exact H].
  - now rewrite rev_involutive, trimStart_trimStart.
Qed.

Lemma trim_trim (s : jsstring) : trim (trim s) = trim s.
Proof.
  destruct (trim_fixed s) as [H1 H2]. unfold trim at 1. now rewrite H1.
Qed.

(** *** Erasing a class of units *)

Lemma erase_class (p : char -> bool) (s : jsstring) :
  forall prev,
  Re.replace_all_from (Re.Cls p) (fun _ => []) 0 prev s = filter (fun c => negb (p c)) s.
Proof.
  induction s as [|c s IH]; intros prev; [reflexivity|].
  cbn [Re.replace_all_from filter]. unfold Re.exec_at.
  cbn [Re.run Re.m_rest Re.m_prev Re.m_caps].
  destruct (p c); cbn [negb Re.matched Re.m_rest app].
  - change (c :: s) with ([c] ++ s). rewrite (firstn_app_exact [c] s).
    cbn [length]. apply IH.
  - f_equal. apply IH.
Qed.

Lemma span_class (p : char -> bool) (s : jsstring) :
  exists u v, s = u ++ v /\ forallb p u = true
              /\ match v with c :: _ => p c = false | [] => True end.
Proof.
  induction s as [|c s (u & v & E & Hu & Hv)]; [now exists [], []|].
  destruct (p c) eqn:Ec.
  - exists (c :: u), v. cbn [app forallb]. now rewrite Ec, <- E.
  - exists [], (c :: s). now split.
Qed.

Lemma filter_none (p : char -> bool) (u : jsstring) :
  forallb p u = true -> filter (fun c => negb (p c)) u = [].
Proof.
  induction u as [|c u IH]; [reflexivity|]. cbn [forallb filter].
  intros H. apply andb_true_iff in H as [-> H]. now apply IH.
Qed.

(** Erasing the runs of a class erases the class. *)
Lemma erase_runs (p : char -> bool) (s : jsstring) :
  forall prev,
  Re.replace_all_from (Re.Seq (Re.Cls p) (Re.Star p)) (fun _ => []) 0 prev s
  = filter (fun c => negb (p c)) s.
Proof.
  remember (length s) as n eqn:Hn. revert s Hn.
  induction n as [n IH] using lt_wf_ind. intros s Hn prev.
  destruct s as [|c s]; [reflexivity|].
  destruct (p c) eqn:Ec.
  - destruct (span_class p s) as (u & v & E & Hu & Hv).
    assert (Hexec : Re.exec_at (Re.Seq (Re.Cls p) (Re.Star p)) prev (c :: s)
                    = Some (Re.Result (c :: u) [] v)).
    { unfold Re.exec_at. cbn [Re.run Re.m_rest Re.m_prev Re.m_caps]. rewrite Ec.
      cbn [flat_map Re.run Re.m_rest Re.m_prev Re.m_caps]. rewrite app_nil_r, E.
      destruct (star_longest p u v (Some c) [] Hu Hv) as [more ->].
      cbn [Re.m_rest Re.m_caps]. do 2 f_equal.
      change (c :: u ++ v) with ((c :: u) ++ v). apply firstn_app_exact. }
    rewrite (replace_all_match (Re.Seq (Re.Cls p) (Re.Star p)) _ prev (c :: s) _ eq_refl Hexec); [|discriminate].
    cbn [Re.rest app filter]. rewrite Ec. cbn [negb].
    rewrite E, filter_app, (filter_none p u Hu). cbn [app].
    apply (IH (length v)); [|reflexivity].
    subst n. rewrite E. cbn [length]. rewrite length_app. lia.
  - assert (Hexec : Re.exec_at (Re.Seq (Re.Cls p) (Re.Star p)) prev (c :: s) = None).
    { unfold Re.exec_at. cbn [Re.run Re.m_rest Re.m_prev Re.m_caps]. now rewrite Ec. }
    rewrite (replace_all_nomatch (Re.Seq (Re.Cls p) (Re.Star p)) _ prev c s eq_refl Hexec).
    cbn [filter]. rewrite Ec. cbn [negb]. f_equal.
    apply (IH (length s)); [|reflexivity]. subst n. cbn [length]. lia.
Qed.

Lemma filter_filter_weaker (p q : char -> bool) (s : jsstring) :
  (forall c, q c = true -> p c = true) ->
  filter q (filter p s) = filter q s.
Proof.
  intros H. induction s as [|c s IH]; [reflexivity|].
  cbn [filter]. destruct (p c) eqn:Ep; cbn [filter].
  - now rewrite IH.
  - destruct (q c) eqn:Eq; [|exact IH]. rewrite (H c Eq) in Ep. discriminate.
Qed.

Lemma key_unit_not_blank (c : char) : key_unit c = true -> negb (blank_or_dash c) = true.
Proof.
  intros H. destruct (blank_or_dash c) eqn:E; [|reflexivity]. exfalso. revert H E.
  unfold key_unit, blank_or_dash, is_space.
  rewrite !orb_true_iff, !andb_true_iff, !N.leb_le, !N.eqb_eq. lia.
Qed.

(** X1.  A header key is normalized to the units [a-z], [0-9] and [_] of
    its lower-cased, trimmed text, in their order: erasing the runs of
    blanks and dashes first changes nothing, and whatever [toLowerCase]
    gives, nothing else is left in the key. *)
Theorem normalizeHeaderKey_keeps_key_units (toLowerCase : jsstring -> jsstring)
  (key : jsstring) :
  normalizeHeaderKey toLowerCase key = filter key_unit (toLowerCase (trim key))
  /\ forallb key_unit (normalizeHeaderKey toLowerCase key) = true.
Proof.
  assert (E : normalizeHeaderKey toLowerCase key = filter key_unit (toLowerCase (trim key))).
  { unfold normalizeHeaderKey, Re.replace_all, re_not_key_unit, re_blanks_dashes.
    rewrite erase_runs, erase_class.
    rewrite (filter_ext (fun c => negb (negb (key_unit c))) key_unit)
      by (intros c; apply negb_involutive).
    apply filter_filter_weaker. intros c Hc. now apply key_unit_not_blank. }
  split; [exact E|]. rewrite E. apply forallb_forall. intros c Hc.
  now apply filter_In in Hc.
Qed.

(** *** The id of a row *)

Lemma extractQuestionId_cons (toLowerCase : jsstring -> jsstring)
  (key : jsstring) (rawValue : jsval) (row : csv_row) :
  extractQuestionId toLowerCase ((key, rawValue) :: row)
  = if negb (id_column toLowerCase key) then extractQuestionId toLowerCase row
    else v <- cell_text rawValue ;;
         if str_truthy v then Normal (Some v) else extractQuestionId toLowerCase row.
Proof.
  cbn [extractQuestionId]. unfold id_column, cell_text.
  destruct (negb _); [reflexivity|].
  now destruct (ToString (nullish_or rawValue (JString []))).
Qed.

Lemma cell_text_trimmed (rawValue : jsval) (v : jsstring) :
  cell_text rawValue = Normal v -> trim v = v.
Proof.
  unfold cell_text. destruct (ToString _) as [s|e]; [|discriminate].
  cbn [bind]. intros [= <-]. apply trim_trim.
Qed.

Lemma cell_text_throws (rawValue : jsval) (e : jserror) :
  cell_text rawValue = Throw e -> e = TypeError.
Proof.
  unfold cell_text. destruct (ToString _) as [s|e'] eqn:E; [discriminate|].
  cbn [bind]. intros [= <-].
  destruct (printable (nullish_or rawValue (JString []))) eqn:Ep.
  - destruct (ToString_printable _ Ep) as [s Hs]. congruence.
  - rewrite (ToString_unprintable _ Ep) in E. congruence.
Qed.

(** An id is never empty and has no blank at either end. *)
Lemma extractQuestionId_filled (toLowerCase : jsstring -> jsstring) (row : csv_row)
  (id : jsstring) :
  extractQuestionId toLowerCase row = Normal (Some id) -> id <> [] /\ trim id = id.
Proof.
  induction row as [|[key rawValue] row IH]; [discriminate|].
  rewrite extractQuestionId_cons. destruct (negb _); [exact IH|].
  destruct (cell_text rawValue) as [v|e] eqn:Ev; [|discriminate]. cbn [bind].
  destruct v as [|c v]; [exact IH|]. cbn [str_truthy]. intros [= <-].
  split; [discriminate|]. now apply (cell_text_trimmed rawValue).
Qed.

Lemma extractQuestionId_throws (toLowerCase : jsstring -> jsstring) (row : csv_row)
  (e : jserror) :
  extractQuestionId toLowerCase row = Throw e -> e = TypeError.
Proof.
  induction row as [|[key rawValue] row IH]; [discriminate|].
  rewrite extractQuestionId_cons. destruct (negb _); [exact IH|].
  destruct (cell_text rawValue) as [v|e'] eqn:Ev; cbn [bind].
  - destruct (str_truthy v); [discriminate|exact IH].
  - intros [= <-]. now apply (cell_text_throws rawValue).
Qed.

(** Cells that are strings are printed as they are. *)
Lemma extractQuestionId_of_strings (toLowerCase : jsstring -> jsstring) (row : csv_row) :
  (forall key rawValue, In (key, rawValue) row -> exists s, rawValue = JString s) ->
  exists r, extractQuestionId toLowerCase row = Normal r.
Proof.
  induction row as [|[key rawValue] row IH]; intros H; [now exists None|].
  rewrite extractQuestionId_cons.
  assert (Hrow : exists r, extractQuestionId toLowerCase row = Normal r).
  { apply IH. intros k r Hin. apply (H k r). now right. }
  destruct (negb _); [exact Hrow|].
  destruct (H key rawValue (or_introl eq_refl)) as [s ->].
  unfold cell_text. cbn [nullish_or ToString bind].
  destruct (str_truthy (trim s)); [eauto|exact Hrow].
Qed.

(** X2.  The id of a row is the text of the first cell under an id column
    (a key that normalizes to [question_id], [questionid] or [id]) that
    is not blank once trimmed: the id is that trimmed text, so never empty
    and never padded, and every id cell before it is blank.  A row has no
    id when all its id cells are blank; and only a cell that cannot be
    printed makes the function throw, a TypeError. *)
Theorem extractQuestionId_first_filled_cell (toLowerCase : jsstring -> jsstring)
  (row : csv_row) :
  match extractQuestionId toLowerCase row with
  | Normal (Some id) =>
      id <> [] /\ trim id = id
      /\ exists before key rawValue after,
           row = before ++ (key, rawValue) :: after
           /\ blank_ids toLowerCase before
           /\ id_column toLowerCase key = true
           /\ cell_text rawValue = Normal id
  | Normal None => blank_ids toLowerCase row
  | Throw e =>
      e = TypeError
      /\ exists before key rawValue after,
           row = before ++ (key, rawValue) :: after
           /\ blank_ids toLowerCase before
           /\ id_column toLowerCase key = true
           /\ cell_text rawValue = Throw TypeError
  end.
Proof.
  induction row as [|[key rawValue] row IH].
  - cbn [extractQuestionId]. intros k r [].
  - rewrite extractQuestionId_cons.
    assert (Hstep : forall before,
              (id_column toLowerCase key = false \/ cell_text rawValue = Normal []) ->
              blank_ids toLowerCase before ->
              blank_ids toLowerCase ((key, rawValue) :: before)).
    { intros before Hhead Hb k r [[= <- <-]|Hin] Hk; [|now apply (Hb k r)].
      destruct Hhead as [Hhead|Hhead]; [congruence|exact Hhead]. }
    destruct (id_column toLowerCase key) eqn:Ek; cbn [negb].
    + destruct (cell_text rawValue) as [v|e] eqn:Ev; cbn [bind].
      * destruct v as [|c v]; cbn [str_truthy].
        -- destruct (extractQuestionId toLowerCase row) as [[id|]|e].
           ++ destruct IH as (H1 & H2 & before & k & r & after & -> & Hb & Hk & Hr).
              split; [exact H1|]. split; [exact H2|].
              exists ((key, rawValue) :: before), k, r, after.
              split; [reflexivity|]. split; [apply Hstep; auto|]. now split.
           ++ apply Hstep; auto.
           ++ destruct IH as (H1 & before & k & r & after & -> & Hb & Hk & Hr).
              split; [exact H1|].
              exists ((key, rawValue) :: before), k, r, after.
              split; [reflexivity|]. split; [apply Hstep; auto|]. now split.
        -- split; [discriminate|]. split; [now apply (cell_text_trimmed rawValue)|].
           exists [], key, rawValue, row. split; [reflexivity|].
           split; [intros k r []|]. now split.
      * pose proof (cell_text_throws _ _ Ev) as ->. split; [reflexivity|].
        exists [], key, rawValue, row. split; [reflexivity|].
        split; [intros k r []|]. now split.
    + destruct (extractQuestionId toLowerCase row) as [[id|]|e].
      * destruct IH as (H1 & H2 & before & k & r & after & -> & Hb & Hk & Hr).
        split; [exact H1|]. split; [exact H2|].
        exists ((key, rawValue) :: before), k, r, after.
        split; [reflexivity|]. split; [apply Hstep; auto|]. now split.
      * apply Hstep; auto.
      * destruct IH as (H1 & before & k & r & after & -> & Hb & Hk & Hr).
        split; [exact H1|].
        exists ((key, rawValue) :: before), k, r, after.
        split; [reflexivity|]. split; [apply Hstep; auto|]. now split.
Qed.

(** *** The ids of a file *)

Lemma set_has_in (x : jsstring) (s : list jsstring) : set_has x s = true <-> In x s.
Proof.
  unfold set_has. rewrite existsb_exists. split.
  - intros (y & Hy & E). apply jseq_eq in E. now subst.
  - intros H. exists x. split; [exact H|apply jseq_refl].
Qed.

Lemma set_add_in (x y : jsstring) (s : list jsstring) :
  In y (set_add x s) <-> y = x \/ In y s.
Proof.
  unfold set_add. destruct (set_has x s) eqn:E.
  - apply set_has_in in E. split; [now right|]. intros [->|H]; assumption.
  - rewrite in_app_iff. cbn [In]. intuition.
Qed.

Lemma first_occurrences_in (l : list jsstring) :
  forall seen x, In x (first_occurrences seen l) <-> In x l /\ ~ In x seen.
Proof.
  induction l as [|y l IH]; intros seen x; cbn [first_occurrences In]; [tauto|].
  destruct (set_has y seen) eqn:E.
  - apply set_has_in in E. rewrite IH. split; [tauto|].
    intros [[->|H] Hn]; [contradiction|tauto].
  - assert (Hy : ~ In y seen) by (rewrite <- set_has_in; congruence).
    cbn [In]. rewrite IH, set_add_in. split.
    + intros [->|[H Hn]]; [tauto|]. split; [tauto|]. intros Hs. apply Hn. now right.
    + intros [[->|H] Hn]; [now left|].
      destruct (list_eq_dec N.eq_dec x y) as [->|Hxy]; [now left|].
      right. split; [exact H|]. intros [?|?]; contradiction.
Qed.

Lemma first_occurrences_nodup (l : list jsstring) :
  forall seen, NoDup (first_occurrences seen l).
Proof.
  induction l as [|y l IH]; intros seen; cbn [first_occurrences]; [constructor|].
  destruct (set_has y seen); [apply IH|]. constructor; [|apply IH].
  rewrite first_occurrences_in, set_add_in. intros [_ H]. apply H. now left.
Qed.

(** The loop appends the first occurrences of the rows' ids. *)
Lemma collect_ids_spec (toLowerCase : jsstring -> jsstring) (data : list csv_row) :
  forall ids seen out,
  collect_ids toLowerCase data ids seen = Normal out ->
  out = ids ++ first_occurrences seen (row_ids toLowerCase data).
Proof.
  induction data as [|row data IH]; intros ids seen out; cbn [collect_ids row_ids].
  - intros [= <-]. cbn [first_occurrences]. now rewrite app_nil_r.
  - destruct (extractQuestionId toLowerCase row) as [[id|]|e] eqn:Erow; cbn [bind];
      [|apply IH|discriminate].
    destruct (extractQuestionId_filled toLowerCase row id Erow) as [Hne _].
    destruct id as [|c id]; [congruence|]. cbn [str_truthy negb orb first_occurrences].
    destruct (set_has (c :: id) seen); [apply IH|].
    intros H. apply IH in H. now rewrite <- app_assoc in H.
Qed.

(** It throws only when a row does. *)
Lemma collect_ids_throws (toLowerCase : jsstring -> jsstring) (data : list csv_row) :
  forall ids seen e,
  collect_ids toLowerCase data ids seen = Throw e ->
  exists row, In row data /\ extractQuestionId toLowerCase row = Throw e.
Proof.
  induction data as [|row data IH]; intros ids seen e; cbn [collect_ids]; [discriminate|].
  destruct (extractQuestionId toLowerCase row) as [[id|]|e'] eqn:Erow; cbn [bind].
  - destruct (negb (str_truthy id) || set_has id seen); intros H;
      destruct (IH _ _ _ H) as (r & Hr & Er); exists r; (split; [now right|exact Er]).
  - intros H. destruct (IH _ _ _ H) as (r & Hr & Er). exists r. split; [now right|exact Er].
  - intros [= <-]. exists row. split; [now left|exact Erow].
Qed.

Lemma row_ids_in (toLowerCase : jsstring -> jsstring) (data : list csv_row) (id : jsstring) :
  In id (row_ids toLowerCase data)
  <-> exists row, In row data /\ extractQuestionId toLowerCase row = Normal (Some id).
Proof.
  induction data as [|row data IH]; cbn [row_ids].
  - split; [intros []|intros (r & [] & _)].
  - destruct (extractQuestionId toLowerCase row) as [[x|]|e] eqn:Erow; cbn [In];
      rewrite ?IH; split.
    + intros [<-|(r & Hr & Er)]; [exists row; split; [now left|exact Erow]|].
      exists r. split; [now right|exact Er].
    + intros (r & [<-|Hr] & Er); [left; congruence|right; now exists r].
    + intros (r & Hr & Er). exists r. split; [now right|exact Er].
    + intros (r & [<-|Hr] & Er); [congruence|now exists r].
    + intros (r & Hr & Er). exists r. split; [now right|exact Er].
    + intros (r & [<-|Hr] & Er); [congruence|now exists r].
Qed.

(** X3.  When [parseCSV] resolves, the ids are the ids of the rows in the
    order of their first appearance: the list is not empty, no id comes
    twice, an id is in the list exactly when some row gives it, and every
    id is a non-empty string without blanks at its ends. *)
Theorem parseCSV_resolves_distinct_ids (toLowerCase : jsstring -> jsstring)
  (data : list csv_row) (ids : list jsstring) :
  parseCSV toLowerCase (PapaComplete data) = Fulfilled ids ->
  ids = first_occurrences [] (row_ids toLowerCase data)
  /\ ids <> []
  /\ NoDup ids
  /\ (forall id, In id ids
                 <-> exists row, In row data
                                 /\ extractQuestionId toLowerCase row = Normal (Some id))
  /\ Forall (fun id => id <> [] /\ trim id = id) ids.
Proof.
  unfold parseCSV.
  destruct (collect_ids toLowerCase data [] []) as [out|e] eqn:Eout; [|discriminate].
  apply collect_ids_spec in Eout. cbn [app] in Eout.
  destruct (length out =? 0) eqn:El; [discriminate|]. intros [= <-].
  assert (Hin : forall id, In id out
                  <-> exists row, In row data
                        /\ extractQuestionId toLowerCase row = Normal (Some id)).
  { intros id. rewrite Eout, first_occurrences_in, <- row_ids_in. cbn [In]. tauto. }
  split; [exact Eout|]. split; [|split; [|split]].
  - intros ->. discriminate.
  - rewrite Eout. apply first_occurrences_nodup.
  - exact Hin.
  - apply Forall_forall. intros id Hid. apply Hin in Hid as (row & _ & Erow).
    now apply (extractQuestionId_filled toLowerCase row).
Qed.

Lemma collect_ids_normal (toLowerCase : jsstring -> jsstring) (data : list csv_row) :
  (forall row, In row data -> exists r, extractQuestionId toLowerCase row = Normal r) ->
  forall ids seen, exists out, collect_ids toLowerCase data ids seen = Normal out.
Proof.
  induction data as [|row data IH]; intros H ids seen; cbn [collect_ids]; [eauto|].
  destruct (H row (or_introl eq_refl)) as [r ->]. cbn [bind].
  assert (IH' := IH (fun r Hr => H r (or_intror Hr))).
  destruct r as [id|]; [|apply IH'].
  destruct (negb (str_truthy id) || set_has id seen); apply IH'.
Qed.

Lemma collect_ids_rows_normal (toLowerCase : jsstring -> jsstring) (data : list csv_row) :
  forall ids seen out,
  collect_ids toLowerCase data ids seen = Normal out ->
  forall row, In row data -> exists r, extractQuestionId toLowerCase row = Normal r.
Proof.
  induction data as [|row0 data IH]; intros ids seen out H row; [intros []|].
  cbn [collect_ids] in H.
  destruct (extractQuestionId toLowerCase row0) as [r0|e] eqn:E0; [|discriminate].
  cbn [bind] in H. intros [<-|Hrow]; [eauto|].
  destruct r0 as [id|]; [|now apply (IH _ _ _ H)].
  destruct (negb (str_truthy id) || set_has id seen); now apply (IH _ _ _ H).
Qed.

Lemma first_occurrences_nil (l : list jsstring) :
  first_occurrences [] l = [] -> l = [].
Proof. destruct l as [|x l]; [reflexivity|discriminate]. Qed.

(** X4.  [parseCSV] rejects in two cases only: with the parser's own
    error, and, with its message about the [question_id] column, exactly
    when every row read is without an id (no id column, or only blank
    cells under it; also when there is no row).  It stays pending exactly
    when a cell under an id column cannot be printed, so never when the
    cells are strings. *)
Theorem parseCSV_rejects_without_ids (toLowerCase : jsstring -> jsstring)
  (data : list csv_row) :
  (forall e,
     parseCSV toLowerCase (PapaComplete data) = Rejected e
     <-> e = Error (lit "No question IDs found in CSV. Make sure the CSV has a column named `question_id`.")
         /\ forall row, In row data -> extractQuestionId toLowerCase row = Normal None)
  /\ (parseCSV toLowerCase (PapaComplete data) = Pending
      <-> exists row, In row data /\ extractQuestionId toLowerCase row = Throw TypeError)
  /\ ((forall row key rawValue,
         In row data -> In (key, rawValue) row -> exists s, rawValue = JString s) ->
      parseCSV toLowerCase (PapaComplete data) <> Pending)
  /\ forall e, parseCSV toLowerCase (PapaError e) = Rejected e.
Proof.
  assert (Hpending : parseCSV toLowerCase (PapaComplete data) = Pending
            <-> exists row, In row data /\ extractQuestionId toLowerCase row = Throw TypeError).
  { unfold parseCSV. split.
    - destruct (collect_ids toLowerCase data [] []) as [out|e] eqn:Eout.
      + destruct (length out =? 0); discriminate.
      + intros _. destruct (collect_ids_throws _ _ _ _ _ Eout) as (row & Hrow & Erow).
        exists row. split; [exact Hrow|].
        now rewrite Erow, (extractQuestionId_throws _ _ _ Erow).
    - intros (row & Hrow & Erow).
      destruct (collect_ids toLowerCase data [] []) as [out|e] eqn:Eout; [|reflexivity].
      exfalso. destruct (collect_ids_rows_normal _ _ _ _ _ Eout row Hrow) as [r Hr].
      congruence. }
  split; [|split; [exact Hpending|split]].
  - intros e. unfold parseCSV. split.
    + destruct (collect_ids toLowerCase data [] []) as [out|e'] eqn:Eout; [|discriminate].
      destruct (length out =? 0) eqn:El; [|discriminate]. intros [= <-].
      split; [reflexivity|]. intros row Hrow.
      destruct (collect_ids_rows_normal _ _ _ _ _ Eout row Hrow) as [[id|] Hr]; [|exact Hr].
      exfalso. apply collect_ids_spec in Eout. cbn [app] in Eout.
      apply Nat.eqb_eq, length_zero_iff_nil in El. rewrite Eout in El.
      apply first_occurrences_nil in El.
      assert (Hid : In id (row_ids toLowerCase data)) by (apply row_ids_in; now exists row).
      rewrite El in Hid. destruct Hid.
    + intros [-> Hrows].
      destruct (collect_ids_normal toLowerCase data
                  (fun row Hrow => ex_intro _ None (Hrows row Hrow)) [] []) as [out Eout].
      rewrite Eout. apply collect_ids_spec in Eout. cbn [app] in Eout.
      assert (E : row_ids toLowerCase data = []).
      { destruct (row_ids toLowerCase data) as [|id l] eqn:E; [reflexivity|].
        assert (Hid : In id (row_ids toLowerCase data)) by (rewrite E; now left).
        apply row_ids_in in Hid as (row & Hrow & Erow).
        rewrite (Hrows row Hrow) in Erow. discriminate. }
      rewrite E in Eout. cbn [first_occurrences] in Eout. now subst out.
  - intros Hstr Hp. apply Hpending in Hp as (row & Hrow & Erow).
    destruct (extractQuestionId_of_strings toLowerCase row
                (fun key rawValue => Hstr row key rawValue Hrow)) as [r Hr].
    congruence.
  - reflexivity.
Qed.

(** Four rows under the header [Question ID], read with ASCII lowering:
    two ids are left. *)
Lemma parseCSV_resolves_distinct_ids_witness :
  [lit "Q1"; lit "Q2"] = first_occurrences [] (row_ids ascii_lower csv_sample)
  /\ [lit "Q1"; lit "Q2"] <> []
  /\ NoDup [lit "Q1"; lit "Q2"]
  /\ (forall id, In id [lit "Q1"; lit "Q2"]
                 <-> exists row, In row csv_sample
                                 /\ extractQuestionId ascii_lower row = Normal (Some id))
  /\ Forall (fun id => id <> [] /\ trim id = id) [lit "Q1"; lit "Q2"].
Proof.
  apply (parseCSV_resolves_distinct_ids ascii_lower csv_sample [lit "Q1"; lit "Q2"]).
  vm_compute. reflexivity.
Defined.

(** *** From the file to the export *)

Lemma failed_ids_nodup (outcomes : list fetched) :
  NoDup (map fetched_id outcomes) -> NoDup (failed_ids outcomes).
Proof.
  intros H.
  apply (Permutation_NoDup (Permutation_sym (outcomes_partitioned outcomes))) in H.
  now apply NoDup_app_remove_l in H.
Qed.

(** X5.  The ids [parseCSV] resolves, handed to [generateExportHTML]: in
    the result no id is listed twice as failed, every failed id is one of
    the file's ids, and [successCount] and the failed ids add up to the
    number of ids of the file. *)
Theorem export_of_parsed_ids_counts_each_once
  (toLowerCase : jsstring -> jsstring) (data : list csv_row) (ids : list jsstring)
  (Blob : Type) (network : nat -> jsstring -> response)
  (package : list QuestionJSON -> completion (Blob * list jsstring))
  (sched : nat -> nat) (result : ExportResult Blob) :
  parseCSV toLowerCase (PapaComplete data) = Fulfilled ids ->
  generateExportHTML network package ids sched = Fulfilled result ->
  NoDup (failedIds result)
  /\ (forall id, In id (failedIds result) -> In id ids)
  /\ successCount result + length (failedIds result) = length ids.
Proof.
  intros Hparse Hexport.
  assert (Hnd : NoDup ids).
  { unfold parseCSV in Hparse.
    destruct (collect_ids toLowerCase data [] []) as [out|e] eqn:Eout; [|discriminate].
    destruct (length out =? 0); [discriminate|]. injection Hparse as <-.
    apply collect_ids_spec in Eout. rewrite Eout. apply first_occurrences_nodup. }
  unfold generateExportHTML in Hexport.
  rewrite (mapWithConcurrency_fulfilled ids
             (fun id i => fetchQuestion (network i) id) (fetch_outcome network)
             (limit := Fin (inject_Z QUESTION_FETCH_CONCURRENCY)) sched) in Hexport;
    [|discriminate|intros i x _; apply fetchQuestion_outcome].
  rewrite sortResults_filled in Hexport.
  set (outcomes := map_from (fetch_outcome network) 0 ids) in *.
  assert (Hids : map fetched_id outcomes = ids) by apply outcome_ids.
  pose proof (outcomes_partitioned outcomes) as Hperm. rewrite Hids in Hperm.
  destruct (package (fetched_questions outcomes)) as [[zipped failedImages]|e];
    [|discriminate].
  injection Hexport as <-. cbn [failedIds successCount].
  split; [|split].
  - apply failed_ids_nodup. now rewrite Hids.
  - intros id Hid. apply (Permutation_in id Hperm). apply in_or_app. now right.
  - rewrite fetched_questions_length, <- length_app. now apply Permutation_length.
Qed.

(** The two ids of the four rows, the second request failing. *)
Lemma export_of_parsed_ids_counts_each_once_witness :
  NoDup [lit "Q2"]
  /\ (forall id, In id [lit "Q2"] -> In id [lit "Q1"; lit "Q2"])
  /\ 1 + length [lit "Q2"] = length [lit "Q1"; lit "Q2"].
Proof.
  apply (export_of_parsed_ids_counts_each_once ascii_lower csv_sample [lit "Q1"; lit "Q2"]
           unit second_fails (fun _ => Normal (tt, [])) (fun t => t)
           {| blob := tt; successCount := 1; failedIds := [lit "Q2"];
              failedImagePaths := [] |}).
  - vm_compute. reflexivity.
  - vm_compute. reflexivity.
Defined.

(* ================================================================= *)
(** ** The image paths of a document *)

(** *** From the rewritten source to the address fetched *)

Lemma startsWith_app (p s : jsstring) : startsWith p (p ++ s) = true.
Proof.
  induction p as [|c p IH]; [reflexivity|]. cbn [app startsWith].
  now rewrite N.eqb_refl.
Qed.

(** *** What is collected *)

(** Every match of a global scan is a match at some position. *)
Lemma match_all_exec (r : Re.regex) (s : jsstring) :
  forall k prev m,
  In m (Re.match_all_from r k prev s) ->
  exists prev' x y, s = x ++ y /\ Re.exec_at r prev' y = Some m.
Proof.
  induction s as [|c s IH]; intros k prev m.
  - destruct k; cbn [Re.match_all_from]; [|intros []].
    destruct (Re.exec_at r prev []) as [m'|] eqn:E; [|intros []].
    intros [<-|[]]. now exists prev, [], [].
  - destruct k as [|k]; cbn [Re.match_all_from].
    + destruct (Re.exec_at r prev (c :: s)) as [m'|] eqn:E.
      * intros [<-|H]; [now exists prev, [], (c :: s)|].
        destruct (IH _ _ _ H) as (p' & x & y & -> & Hy). now exists p', (c :: x), y.
      * intros H. destruct (IH _ _ _ H) as (p' & x & y & -> & Hy).
        now exists p', (c :: x), y.
    + intros H. destruct (IH _ _ _ H) as (p' & x & y & -> & Hy).
      now exists p', (c :: x), y.
Qed.

(** What a group takes between two positions is what its pattern matched. *)
Lemma run_group (i : nat) (r : Re.regex) (st st' : Re.mstate) :
  In st' (Re.run (Re.Grp i r) st) ->
  exists v more,
    Re.m_caps st' = (i, v) :: more /\ Re.m_rest st = v ++ Re.m_rest st' /\ matches r v.
Proof.
  cbn [Re.run]. intros H. apply in_map_iff in H as (mid & <- & H).
  destruct (run_sound r st mid H) as (u & E & Hu).
  exists u, (Re.m_caps mid). unfold Re.capture, Re.consumed.
  cbn [Re.m_caps Re.m_rest Re.m_prev]. rewrite E, firstn_app_exact. auto.
Qed.

Lemma run_seq (r1 r2 : Re.regex) (st st' : Re.mstate) :
  In st' (Re.run (Re.Seq r1 r2) st) ->
  exists mid, In mid (Re.run r1 st) /\ In st' (Re.run r2 mid).
Proof. cbn [Re.run]. intros H. now apply in_flat_map in H. Qed.

Lemma run_chr (c : char) (st st' : Re.mstate) :
  In st' (Re.run (Re.chr c) st) ->
  Re.m_rest st = c :: Re.m_rest st' /\ Re.m_caps st' = Re.m_caps st.
Proof.
  cbn [Re.run Re.chr]. destruct (Re.m_rest st) as [|x rest]; [intros []|].
  destruct (N.eqb_spec c x) as [<-|_]; [|intros []]. intros [<-|[]]. now split.
Qed.

(** Where the source pattern matches, group 1 holds a text of the source
    sub-pattern, between the double quotes that end the match. *)
Lemma src_value_capture (prev : option char) (s : jsstring) (m : Re.result) :
  Re.exec_at re_src_value prev s = Some m ->
  exists pre v,
    Re.group 1 m = Some v
    /\ Re.matched m = pre ++ dquote :: v ++ [dquote]
    /\ matches (Re.Seq (Re.Star (Re.not_chr dquote)) (Re.Seq (Re.chr 46%N) re_image_ext)) v.
Proof.
  intros H. destruct (exec_at_split _ _ _ _ H) as [Hsplit _]. revert H.
  unfold Re.exec_at.
  destruct (Re.run re_src_value (Re.MState prev s [])) as [|st' l] eqn:E; [discriminate|].
  intros [= Hm].
  assert (Hin : In st' (Re.run re_src_value (Re.MState prev s []))) by (rewrite E; now left).
  clear E l.
  change re_src_value
    with (Re.Seq (Re.str_i "src")
            (Re.Seq Re.spaces (Re.Seq (Re.str "=") (Re.Seq Re.spaces
               (Re.Seq (Re.chr dquote)
                  (Re.Seq (Re.Grp 1 (Re.Seq (Re.Star (Re.not_chr dquote))
                                       (Re.Seq (Re.chr 46%N) re_image_ext)))
                     (Re.chr dquote))))))) in Hin.
  apply run_seq in Hin as (m1 & H1 & Hin). apply run_sound in H1 as (u1 & E1 & _).
  apply run_seq in Hin as (m2 & H2 & Hin). apply run_sound in H2 as (u2 & E2 & _).
  apply run_seq in Hin as (m3 & H3 & Hin). apply run_sound in H3 as (u3 & E3 & _).
  apply run_seq in Hin as (m4 & H4 & Hin). apply run_sound in H4 as (u4 & E4 & _).
  apply run_seq in Hin as (m5 & H5 & Hin). apply run_chr in H5 as [E5 _].
  apply run_seq in Hin as (m6 & H6 & Hin).
  apply run_group in H6 as (v & more & Hcaps & E6 & Hv).
  apply run_chr in Hin as [E7 Hcaps'].
  exists (u1 ++ u2 ++ u3 ++ u4), v. split; [|split; [|exact Hv]].
  - rewrite <- Hm. unfold Re.group. cbn [Re.caps]. rewrite Hcaps', Hcaps. reflexivity.
  - cbn [Re.m_rest] in E1.
    assert (Es : s = (u1 ++ u2 ++ u3 ++ u4 ++ dquote :: v ++ [dquote]) ++ Re.rest m).
    { rewrite <- Hm. cbn [Re.rest]. rewrite E1, E2, E3, E4, E5, E6, E7.
      rewrite <- !app_assoc. cbn [app]. now rewrite <- !app_assoc. }
    rewrite Hsplit in Es at 1. apply app_inv_tail in Es. rewrite Es.
    now rewrite <- !app_assoc.
Qed.

Lemma word_not_quote (e : jsstring) : forallb Re.is_word e = true -> ~ In dquote e.
Proof.
  intros H Hin. rewrite forallb_forall in H. specialize (H dquote Hin). discriminate.
Qed.

Lemma source_pattern_image_src (v : jsstring) :
  matches (Re.Seq (Re.Star (Re.not_chr dquote)) (Re.Seq (Re.chr 46%N) re_image_ext)) v ->
  image_src v.
Proof.
  cbn [matches Re.chr]. intros (u1 & u2 & -> & Hu1 & u3 & e & -> & (c & -> & Hc) & He).
  apply N.eqb_eq in Hc. subst c.
  destruct (image_ext_shape e He) as (Hword & _ & _).
  split.
  - repeat apply not_in_app.
    + now apply not_in_checked.
    + apply not_in_checked. reflexivity.
    + now apply word_not_quote.
  - exists u1, e. now split.
Qed.

(** X7.  Every path [collectImagePaths] returns stands in the document
    between two double quotes, holds no double quote itself, ends in a dot
    and one of the six extensions (in any case), and does not start with
    [http://] or [https://]. *)
Theorem collectImagePaths_collects_image_sources (html : jsstring) :
  Forall (fun p => image_src p
                   /\ absolute_http p = false
                   /\ contains html (dquote :: p ++ [dquote]))
    (collectImagePaths html).
Proof.
  apply Forall_forall. intros p Hp. unfold collectImagePaths in Hp.
  apply in_flat_map in Hp as (m & Hm & Hp). cbv zeta in Hp.
  destruct (Re.test re_http (or_empty (Re.group 1 m))) eqn:Eh; [destruct Hp|].
  destruct Hp as [<-|[]].
  destruct (match_all_exec _ _ _ _ _ Hm) as (prev & x & y & Hxy & He).
  destruct (src_value_capture prev y m He) as (pre & v & Hg & Hmatched & Hv).
  destruct (exec_at_split _ _ _ _ He) as [Hy _].
  rewrite Hg in *. cbn [or_empty] in *.
  split; [now apply source_pattern_image_src|]. split.
  - now rewrite <- test_http.
  - exists (x ++ pre), (Re.rest m). rewrite Hxy, Hy, Hmatched.
    rewrite <- !app_assoc. cbn [app]. now rewrite <- !app_assoc.
Qed.

(** *** The first source of a document *)

(** The source sub-pattern takes a source whole when its closing quote
    follows, and that is its first way. *)
Lemma run_source (src z : jsstring) (prev : option char) (caps : list (nat * jsstring)) :
  image_src src ->
  exists prev' more,
    Re.run re_source (Re.MState prev (src ++ dquote :: z) caps)
    = Re.MState prev' (dquote :: z) caps :: more.
Proof.
  intros [Hq (stem & ext & Esrc & Hext)].
  destruct (image_ext_shape ext Hext) as (Hword & Hne & Hrun).
  change re_source
    with (Re.Seq (Re.Star (Re.not_chr dquote)) (Re.Seq (Re.chr 46%N) re_image_ext)).
  cbn [Re.run Re.m_prev Re.m_rest Re.m_caps].
  assert (Estem : src ++ dquote :: z = stem ++ 46%N :: ext ++ dquote :: z).
  { rewrite Esrc. now rewrite <- !app_assoc. }
  assert (Hstem : ~ In dquote stem).
  { intros Hin. apply Hq. rewrite Esrc. apply in_or_app. now left. }
  rewrite Estem.
  destruct (star_app (Re.not_chr dquote) stem (46%N :: ext ++ dquote :: z) prev
              caps (not_in_forallb dquote stem Hstem)) as (prev' & shorter & ->).
  destruct (star_last (Re.not_chr dquote) prev' (46%N :: ext ++ dquote :: z) caps)
    as (longer & -> & Hlonger).
  rewrite !flat_map_app.
  rewrite (flat_map_nil _ longer).
  - destruct (Hrun (Some 46%N) z caps) as [pe Hpe].
    exists pe. eexists. cbn [app flat_map].
    change (Re.run (Re.chr 46%N) (Re.MState prev' (46%N :: ext ++ dquote :: z) caps))
      with [Re.MState (Some 46%N) (ext ++ dquote :: z) caps].
    cbn [flat_map]. rewrite Hpe. cbn [app]. reflexivity.
  - intros st Hst. destruct (Hlonger st Hst) as (c & u & Ecut & Hcu).
    destruct st as [p0 r0 c0]. cbn [Re.m_rest] in Ecut.
    now apply (dot_ext_fails ext z c u r0 p0 c0 Hword).
Qed.

Lemma run_seq_single (r1 r2 : Re.regex) (st mid : Re.mstate) :
  Re.run r1 st = [mid] -> Re.run (Re.Seq r1 r2) st = Re.run r2 mid.
Proof. intros H. cbn [Re.run]. rewrite H. cbn [flat_map]. apply app_nil_r. Qed.

(** The match at a source attribute. *)
Lemma exec_src_value (prev : option char) (src z : jsstring) :
  image_src src ->
  Re.exec_at re_src_value prev (lit "src=`" ++ src ++ dquote :: z)
  = Some (Re.Result (lit "src=`" ++ src ++ [dquote]) [(1, src)] z).
Proof.
  intros Hsrc. unfold Re.exec_at.
  set (st5 := Re.MState (Some dquote) (src ++ dquote :: z) []).
  assert (H : Re.run re_src_value (Re.MState prev (lit "src=`" ++ src ++ dquote :: z) [])
              = flat_map (Re.run (Re.chr dquote))
                  (map (Re.capture 1 st5) (Re.run re_source st5))).
  { change re_src_value
      with (Re.Seq (Re.str_i "src")
              (Re.Seq Re.spaces (Re.Seq (Re.str "=") (Re.Seq Re.spaces
                 (Re.Seq (Re.chr dquote) (Re.Seq (Re.Grp 1 re_source) (Re.chr dquote))))))).
    rewrite (run_seq_single (Re.str_i "src") _ _
               (Re.MState (Some 99%N) (lit "=`" ++ src ++ dquote :: z) [])) by reflexivity.
    rewrite (run_seq_single Re.spaces _ _
               (Re.MState (Some 99%N) (lit "=`" ++ src ++ dquote :: z) [])) by reflexivity.
    rewrite (run_seq_single (Re.str "=") _ _
               (Re.MState (Some 61%N) (lit "`" ++ src ++ dquote :: z) [])) by reflexivity.
    rewrite (run_seq_single Re.spaces _ _
               (Re.MState (Some 61%N) (lit "`" ++ src ++ dquote :: z) [])) by reflexivity.
    rewrite (run_seq_single (Re.chr dquote) _ _ st5) by reflexivity.
    reflexivity. }
  rewrite H. subst st5.
  destruct (run_source src z (Some dquote) [] Hsrc) as (pe & more & ->).
  cbn [map flat_map]. unfold Re.capture at 1, Re.consumed.
  cbn [Re.m_prev Re.m_rest Re.m_caps Re.run Re.chr]. rewrite N.eqb_refl.
  cbn [app Re.m_rest Re.m_caps]. rewrite (firstn_app_exact src (dquote :: z)).
  do 2 f_equal.
  replace (lit "src=`" ++ src ++ dquote :: z) with ((lit "src=`" ++ src ++ [dquote]) ++ z)
    by (now rewrite <- !app_assoc).
  apply firstn_app_exact.
Qed.

Lemma simple_re_src_value : simple re_src_value = true.
Proof. reflexivity. Qed.

Lemma simple_re_src_name : simple re_src_name = true.
Proof. reflexivity. Qed.

(** The pattern starts with the attribute name. *)
Lemma src_value_needs_name (prev : option char) (s : jsstring) :
  Re.exec_at re_src_name prev s = None -> Re.exec_at re_src_value prev s = None.
Proof.
  unfold Re.exec_at.
  change (Re.run re_src_value (Re.MState prev s []))
    with (flat_map
            (Re.run (Re.Seq Re.spaces (Re.Seq (Re.str "=") (Re.Seq Re.spaces
                       (Re.Seq (Re.chr dquote)
                          (Re.Seq (Re.Grp 1 re_source) (Re.chr dquote)))))))
            (Re.run re_src_name (Re.MState prev s []))).
  destruct (Re.run re_src_name (Re.MState prev s [])); [reflexivity|discriminate].
Qed.

(** The name is three units: it does not start in the last two units
    before another name. *)
Lemma src_name_before_attr (x y : jsstring) :
  x <> [] ->
  Re.exec_at re_src_name None x = None ->
  Re.exec_at re_src_name None (x ++ lit "src" ++ y) = None.
Proof.
  unfold Re.exec_at.
  change re_src_name
    with (let L := fun k => Re.Cls (fun x => N.eqb (Re.fold_case x) k) in
          Re.Seq (L 83%N) (Re.Seq (L 82%N) (L 67%N))).
  cbv zeta beta.
  change (lit "src") with [115; 114; 99]%N.
  intros Hx H.
  destruct x as [|a [|b [|c x]]]; [congruence| | |];
    cbn [Re.run flat_map app Re.m_rest Re.m_prev Re.m_caps] in *;
    repeat match goal with
           | |- context [N.eqb (Re.fold_case ?v) ?k] =>
               is_var v; destruct (N.eqb (Re.fold_case v) k);
               cbn [Re.run flat_map app Re.m_rest Re.m_prev Re.m_caps] in *
           end;
    try reflexivity; try discriminate.
Qed.

(** Text without the attribute name holds no source. *)
Lemma collect_scan (x y : jsstring) :
  forall prev,
  Re.test_from re_src_name prev x = false ->
  Re.match_all_from re_src_value 0 None (x ++ lit "src" ++ y)
  = Re.match_all_from re_src_value 0 None (lit "src" ++ y).
Proof.
  induction x as [|c x IH]; intros prev Hx; [reflexivity|].
  apply test_from_false_cons in Hx as [Hc Hx].
  change ((c :: x) ++ lit "src" ++ y) with (c :: (x ++ lit "src" ++ y)).
  rewrite match_all_nomatch.
  - now apply (IH (Some c)).
  - apply simple_re_src_value.
  - apply src_value_needs_name.
    apply (src_name_before_attr (c :: x) y); [discriminate|].
    now rewrite (exec_at_simple re_src_name None prev _ simple_re_src_name).
Qed.

Lemma collect_first_source (before src after : jsstring) :
  Re.test re_src_name before = false ->
  image_src src ->
  collectImagePaths (before ++ lit "src=`" ++ src ++ dquote :: after)
  = collected src ++ collectImagePaths after.
Proof.
  intros Hbefore Hsrc. unfold collectImagePaths, Re.match_all.
  change (lit "src=`" ++ src ++ dquote :: after)
    with (lit "src" ++ (lit "=`" ++ src ++ dquote :: after)).
  rewrite (collect_scan before _ None Hbefore).
  change (lit "src" ++ (lit "=`" ++ src ++ dquote :: after))
    with (lit "src=`" ++ src ++ dquote :: after).
  rewrite (match_all_match re_src_value None _ _ simple_re_src_value
             (exec_src_value None src after Hsrc)) by discriminate.
  cbn [flat_map Re.rest Re.group Re.lookup Re.caps Nat.eqb or_empty].
  now rewrite test_http.
Qed.

Lemma collect_nothing (html : jsstring) :
  Re.test re_src_name html = false -> collectImagePaths html = [].
Proof.
  unfold collectImagePaths, Re.match_all, Re.test. generalize (@None char) at 1.
  induction html as [|c x IH]; intros prev Hx; [reflexivity|].
  apply test_from_false_cons in Hx as [Hc Hx].
  rewrite match_all_nomatch.
  - now apply (IH (Some c)).
  - apply simple_re_src_value.
  - apply src_value_needs_name.
    now rewrite (exec_at_simple re_src_name None prev _ simple_re_src_name).
Qed.

(** X8.  In a document that goes on, behind a part without the text
    [src] (in any case), with [src=Q...Q] around a source that holds no
    double quote and ends in a dot and one of the six extensions,
    [collectImagePaths] returns that source first, unless it starts with
    [http://] or [https://], and then what it collects behind the closing
    quote; from a part without the text [src] it collects nothing. *)
Theorem collectImagePaths_first_source (before src after : jsstring) :
  Re.test re_src_name before = false ->
  image_src src ->
  collectImagePaths (before ++ lit "src=`" ++ src ++ dquote :: after)
  = collected src ++ collectImagePaths after
  /\ collectImagePaths before = [].
Proof.
  intros Hbefore Hsrc. split.
  - now apply collect_first_source.
  - now apply collect_nothing.
Qed.

(** *** From the rewritten document to its paths *)

(** One image tag of the document, as [rewriteImagePaths] handles it. *)
Lemma rewriteImagePaths_tag (before attrs src after questionId : jsstring) :
  Re.test re_img_open before = false ->
  ~ In gt attrs ->
  image_src src ->
  Re.test re_src_open (tag_rest after) = false ->
  rewriteImagePaths (before ++ img_tag attrs src ++ after) questionId
  = before ++ img_tag attrs (archive_src questionId src)
    ++ rewriteImagePaths after questionId.
Proof.
  intros Hbefore Hattrs Hsrc Hafter.
  unfold rewriteImagePaths, Re.replace_all.
  assert (E : img_tag attrs src ++ after
              = lit "<img" ++ (attrs ++ lit " src=`" ++ src ++ [dquote]) ++ after).
  { unfold img_tag. now rewrite <- !app_assoc. }
  rewrite E, (rewrite_scan _ before _ None Hbefore), <- E. f_equal.
  rewrite (replace_all_match re_img_src _ None _ _ simple_re_img_src
             (exec_img_src None attrs src after Hattrs Hsrc Hafter)).
  - cbn [Re.rest]. rewrite rewrite_img_tag. unfold img_tag. now rewrite <- !app_assoc.
  - discriminate.
Qed.

(** A text without the separator is one segment. *)
Lemma split_whole (sep : char) (s : jsstring) : ~ In sep s -> split sep s = [s].
Proof.
  induction s as [|c s IH]; cbn [split]; intros Hs; [reflexivity|].
  destruct (N.eqb_spec c sep) as [->|Hc]; [destruct Hs; now left|].
  rewrite IH; [reflexivity|]. intros H. apply Hs. now right.
Qed.

(** A path of two segments has no address. *)
Lemma resolveImageUrl_two_segments (file : jsstring) :
  ~ In slash file -> resolveImageUrl (lit "images/" ++ file) = None.
Proof.
  intros Hfile. rewrite resolveImageUrl_unfold.
  change (drop_slashes (lit "images/" ++ file)) with (lit "images" ++ slash :: file).
  rewrite split_segment by (cbv; intuition discriminate).
  now rewrite (split_whole slash file Hfile).
Qed.

(** X6.  From a tag to the address of its image.  For an image tag as
    [rewriteImagePaths] takes it and a question id that is not empty and
    holds no slash: a relative source (one that starts with none of
    [http://], [https://] and [images/]) is written back as
    [images/<questionId>/<src>], and [resolveImageUrl] gives that path
    the address [S3_BASE/<questionId>/<src>], whatever slashes the source
    holds.  But a source [images/<file>] with no further slash, a file in
    a folder of that name, is left as it is, and [resolveImageUrl] gives
    it no address: such an image is never downloaded. *)
Theorem resolveImageUrl_of_archive_src (before attrs src after questionId : jsstring) :
  Re.test re_img_open before = false ->
  ~ In gt attrs ->
  image_src src ->
  Re.test re_src_open (tag_rest after) = false ->
  questionId <> [] -> ~ In slash questionId ->
  (absolute_http src = false -> startsWith (lit "images/") src = false ->
   rewriteImagePaths (before ++ img_tag attrs src ++ after) questionId
   = before ++ img_tag attrs (lit "images/" ++ questionId ++ lit "/" ++ src)
     ++ rewriteImagePaths after questionId
   /\ resolveImageUrl (lit "images/" ++ questionId ++ lit "/" ++ src)
      = Some (S3_BASE ++ lit "/" ++ questionId ++ lit "/" ++ src))
  /\ (forall file,
        src = lit "images/" ++ file -> ~ In slash file ->
        rewriteImagePaths (before ++ img_tag attrs src ++ after) questionId
        = before ++ img_tag attrs src ++ rewriteImagePaths after questionId
        /\ resolveImageUrl src = None).
Proof.
  intros Hbefore Hattrs Hsrc Hafter Hid Hclean.
  pose proof (rewriteImagePaths_tag before attrs src after questionId
                Hbefore Hattrs Hsrc Hafter) as E.
  split.
  - intros Habs Himg. split.
    + rewrite E. unfold archive_src. now rewrite Habs, Himg.
    + apply resolveImageUrl_canonical. split; [now exists 0|].
      split; [exact Hid|]. split; [exact Hclean|].
      destruct Hsrc as [_ (stem & ext & -> & _)]. destruct stem; discriminate.
  - intros file Hfile Hslash. split.
    + rewrite E. unfold archive_src. rewrite Hfile at 2.
      rewrite (startsWith_app (lit "images/")). now rewrite orb_true_r.
    + rewrite Hfile. now apply resolveImageUrl_two_segments.
Qed.

(** The tag [<img alt=Qx Q src=Qa/foo.svgQ>] under Q1. *)
Lemma resolveImageUrl_of_archive_src_witness :
  (absolute_http (lit "a/foo.svg") = false ->
   startsWith (lit "images/") (lit "a/foo.svg") = false ->
   rewriteImagePaths (lit "<p>" ++ img_tag (lit " alt=`x`") (lit "a/foo.svg") ++ lit "></p>")
     (lit "Q1")
   = lit "<p>" ++ img_tag (lit " alt=`x`") (lit "images/" ++ lit "Q1" ++ lit "/" ++ lit "a/foo.svg")
     ++ rewriteImagePaths (lit "></p>") (lit "Q1")
   /\ resolveImageUrl (lit "images/" ++ lit "Q1" ++ lit "/" ++ lit "a/foo.svg")
      = Some (S3_BASE ++ lit "/" ++ lit "Q1" ++ lit "/" ++ lit "a/foo.svg"))
  /\ (forall file,
        lit "a/foo.svg" = lit "images/" ++ file -> ~ In slash file ->
        rewriteImagePaths (lit "<p>" ++ img_tag (lit " alt=`x`") (lit "a/foo.svg") ++ lit "></p>")
          (lit "Q1")
        = lit "<p>" ++ img_tag (lit " alt=`x`") (lit "a/foo.svg")
          ++ rewriteImagePaths (lit "></p>") (lit "Q1")
        /\ resolveImageUrl (lit "a/foo.svg") = None).
Proof.
  apply (resolveImageUrl_of_archive_src
           (lit "<p>") (lit " alt=`x`") (lit "a/foo.svg") (lit "></p>") (lit "Q1")).
  - reflexivity.
  - apply not_in_checked. reflexivity.
  - split.
    + apply not_in_checked. reflexivity.
    + exists (lit "a/foo"), (lit "svg"). split; [reflexivity|].
      eapply matches_by_exec; [vm_compute; reflexivity|reflexivity].
  - reflexivity.
  - discriminate.
  - apply not_in_checked. reflexivity.
Defined.

(** A blank behind a text brings no attribute name. *)
Lemma src_name_before_blank (x : jsstring) :
  Re.test re_src_name x = false -> Re.test re_src_name (x ++ lit " ") = false.
Proof.
  intros Hx. destruct (Re.test re_src_name (x ++ lit " ")) eqn:E; [|reflexivity].
  exfalso. unfold Re.test in E.
  destruct (test_from_elim _ _ _ E) as (pre & y & Hxy & Hy).
  destruct (Re.exec_at re_src_name (prev_after None pre) y) as [m|] eqn:Em; [|congruence].
  destruct (exec_at_split _ _ _ _ Em) as [Hsplit Hm].
  assert (Hshape : exists a b c, Re.matched m = [a; b; c] /\ Re.fold_case c = 67%N).
  { revert Hm. generalize (Re.matched m) as u. intros u.
    change re_src_name
      with (let L := fun k => Re.Cls (fun x => N.eqb (Re.fold_case x) k) in
            Re.Seq (L 83%N) (Re.Seq (L 82%N) (L 67%N))).
    cbv zeta beta. cbn [matches].
    intros (u1 & u2 & -> & (a & -> & _) & u3 & u4 & -> & (b & -> & _) & c & -> & Hc).
    apply N.eqb_eq in Hc. now exists a, b, c. }
  destruct Hshape as (a & b & c & Hmatched & Hc).
  rewrite Hmatched in Hsplit. rewrite Hsplit in Hxy.
  destruct (Re.rest m) as [|r0 rest] using rev_ind.
  - replace (pre ++ [a; b; c] ++ []) with ((pre ++ [a; b]) ++ [c]) in Hxy
      by (now rewrite <- !app_assoc).
    apply app_inj_tail in Hxy as [_ Hlast]. cbn in Hlast. subst c. discriminate.
  - clear IHrest.
    replace (pre ++ [a; b; c] ++ rest ++ [r0]) with ((pre ++ [a; b; c] ++ rest) ++ [r0]) in Hxy
      by (now rewrite <- !app_assoc).
    apply app_inj_tail in Hxy as [Hx' _].
    assert (Ht : Re.test re_src_name x = true).
    { rewrite Hx'. apply test_inside; [reflexivity|].
      rewrite <- Hmatched. exact Hm. }
    congruence.
Qed.

Lemma archive_src_image_src (questionId src : jsstring) :
  ~ In dquote questionId -> image_src src -> image_src (archive_src questionId src).
Proof.
  intros Hid Hsrc. unfold archive_src.
  destruct (absolute_http src || startsWith (lit "images/") src); [exact Hsrc|].
  destruct Hsrc as [Hq (stem & ext & -> & Hext)]. split.
  - apply not_in_app; [apply not_in_checked; reflexivity|].
    apply not_in_app; [exact Hid|].
    apply not_in_app; [apply not_in_checked; reflexivity|exact Hq].
  - exists (lit "images/" ++ questionId ++ lit "/" ++ stem), ext.
    split; [now rewrite <- !app_assoc|exact Hext].
Qed.

Lemma collected_archive_src (questionId src : jsstring) :
  collected (archive_src questionId src)
  = if absolute_http src then [] else [archive_src questionId src].
Proof.
  unfold collected, archive_src. destruct (absolute_http src) eqn:Ea; cbn [orb].
  - now rewrite Ea.
  - destruct (startsWith (lit "images/") src); [now rewrite Ea|reflexivity].
Qed.

(** X9.  Rewriting, then collecting.  For a document that goes on with an
    image tag as [rewriteImagePaths] takes it (the text [src] not occurring
    before its source attribute) and a question id without a double quote,
    the paths collected from the rewritten document start with the source
    the tag was given (its own if it starts with [images/], else the
    source under [images/<questionId>/]), nothing for a source that starts
    with [http://] or [https://], followed by the paths of the rewritten
    rest. *)
Theorem collectImagePaths_of_rewritten_tag (before attrs src after questionId : jsstring) :
  Re.test re_img_open before = false ->
  Re.test re_src_name (before ++ lit "<img" ++ attrs) = false ->
  ~ In gt attrs ->
  image_src src ->
  Re.test re_src_open (tag_rest after) = false ->
  ~ In dquote questionId ->
  collectImagePaths (rewriteImagePaths (before ++ img_tag attrs src ++ after) questionId)
  = (if absolute_http src then [] else [archive_src questionId src])
    ++ collectImagePaths (rewriteImagePaths after questionId).
Proof.
  intros Hbefore Hname Hattrs Hsrc Hafter Hid.
  rewrite (rewriteImagePaths_tag before attrs src after questionId Hbefore Hattrs Hsrc Hafter).
  rewrite <- collected_archive_src.
  replace (before ++ img_tag attrs (archive_src questionId src)
           ++ rewriteImagePaths after questionId)
    with (((before ++ lit "<img" ++ attrs) ++ lit " ")
          ++ lit "src=`" ++ archive_src questionId src
          ++ dquote :: rewriteImagePaths after questionId)
    by (unfold img_tag; now rewrite <- !app_assoc).
  apply collect_first_source.
  - now apply src_name_before_blank.
  - now apply archive_src_image_src.
Qed.

(** The tag [<img alt=Qx Q src=Qfoo.svgQ>] inside a paragraph. *)
Lemma collectImagePaths_first_source_witness :
  collectImagePaths (lit "<p><img alt=`x` " ++ lit "src=`" ++ lit "foo.svg" ++ dquote :: lit "></p>")
  = collected (lit "foo.svg") ++ collectImagePaths (lit "></p>")
  /\ collectImagePaths (lit "<p><img alt=`x` ") = [].
Proof.
  apply (collectImagePaths_first_source (lit "<p><img alt=`x` ") (lit "foo.svg") (lit "></p>")).
  - reflexivity.
  - split.
    + apply not_in_checked. reflexivity.
    + exists (lit "foo"), (lit "svg"). split; [reflexivity|].
      eapply matches_by_exec; [vm_compute; reflexivity|reflexivity].
Defined.

(** The same tag, rewritten under Q1 and collected. *)
Lemma collectImagePaths_of_rewritten_tag_witness :
  collectImagePaths
    (rewriteImagePaths (lit "<p>" ++ img_tag (lit " alt=`x`") (lit "foo.svg") ++ lit "></p>")
       (lit "Q1"))
  = (if absolute_http (lit "foo.svg") then [] else [archive_src (lit "Q1") (lit "foo.svg")])
    ++ collectImagePaths (rewriteImagePaths (lit "></p>") (lit "Q1")).
Proof.
  apply (collectImagePaths_of_rewritten_tag
           (lit "<p>") (lit " alt=`x`") (lit "foo.svg") (lit "></p>") (lit "Q1")).
  - reflexivity.
  - reflexivity.
  - apply not_in_checked. reflexivity.
  - split.
    + apply not_in_checked. reflexivity.
    + exists (lit "foo"), (lit "svg"). split; [reflexivity|].
      eapply matches_by_exec; [vm_compute; reflexivity|reflexivity].
  - reflexivity.
  - apply not_in_checked. reflexivity.
Defined.

(* ================================================================= *)
(** ** Paragraph tags after a pass *)

(** A pattern found nowhere leaves the text as it is. *)
Lemma replace_all_none (r : Re.regex) (f : Re.result -> jsstring) (s : jsstring) :
  forall prev,
  Re.test_from r prev s = false -> Re.replace_all_from r f 0 prev s = s.
Proof.
  induction s as [|c s IH]; intros prev; cbn [Re.test_from Re.replace_all_from].
  - now destruct (Re.exec_at r prev []).
  - destruct (Re.exec_at r prev (c :: s)); [discriminate|].
    intros H. f_equal. now apply IH.
Qed.

(** X10.  A text in which no paragraph-opening tag starts ([<p>], or [<p]
    and a blank with a closing bracket somewhere behind) comes back from
    [addLexicalClass] as it is, for every direction; so does the empty
    text. *)
Theorem addLexicalClass_without_paragraph_tags (html dir : jsstring) :
  Re.test re_p_open html = false -> addLexicalClass html dir = html.
Proof. intros H. now apply replace_all_none. Qed.

Lemma addLexicalClass_without_paragraph_tags_witness :
  addLexicalClass (lit "<div>x &lt; y</div><pre>z</pre>") (lit "rtl")
  = lit "<div>x &lt; y</div><pre>z</pre>".
Proof.
  apply (addLexicalClass_without_paragraph_tags
           (lit "<div>x &lt; y</div><pre>z</pre>") (lit "rtl")).
  reflexivity.
Defined.




(* ================================================================= *)
(** ** The worker pool at work *)

(** *** The number of workers *)

Lemma Qtrunc_le (r : Q) (z : Z) : (r <= inject_Z z)%Q -> (0 <= z)%Z -> (Qtrunc r <= z)%Z.
Proof.
  intros Hr Hz. unfold Qtrunc. destruct (Qle_bool 0 r) eqn:E.
  - rewrite <- (Qfloor_Z z). now apply Qfloor_resp_le.
  - assert (Hneg : (r < 0)%Q).
    { apply Qnot_le_lt. intros H. apply Qle_bool_iff in H. congruence. }
    assert (Hc : (Qceiling r <= Qceiling 0)%Z) by (apply Qceiling_resp_le; now apply Qlt_le_weak).
    change (Qceiling 0) with 0%Z in Hc. lia.
Qed.

Lemma ToLength_le (r : Q) (k : nat) :
  (r <= inject_Z (Z.of_nat k))%Q -> ToLength (Fin r) <= k.
Proof.
  intros Hr. cbn [ToLength].
  pose proof (Qtrunc_le r (Z.of_nat k) Hr ltac:(lia)) as H. lia.
Qed.

Lemma ToLength_floor (r : Q) :
  (1 <= r)%Q -> (Z.of_nat (ToLength (Fin r)) <= Qfloor r)%Z.
Proof.
  intros Hr. cbn [ToLength]. unfold Qtrunc.
  assert (H0 : (0 <= r)%Q) by (eapply Qle_trans; [|exact Hr]; discriminate).
  apply Qle_bool_iff in H0. rewrite H0.
  pose proof (Qfloor_resp_le _ _ Hr) as Hf. change (Qfloor 1) with 1%Z in Hf. lia.
Qed.

(** The argument of [Array.from]: [Math.max(1, Math.min(limit, n))]. *)
Lemma worker_number (n : nat) (limit : number) :
  0 < n ->
  Math_max (of_nat 1) (Math_min limit (of_nat n))
  = match limit with
    | NaN => NaN
    | PosInf => of_nat n
    | NegInf => of_nat 1
    | Fin q =>
        if Qle_bool q (inject_Z (Z.of_nat n))
        then (if Qle_bool 1 q then Fin q else of_nat 1)
        else of_nat n
    end.
Proof.
  intros Hn.
  assert (H1n : Qle_bool (inject_Z (Z.of_nat 1)) (inject_Z (Z.of_nat n)) = true).
  { apply Qle_bool_iff. rewrite <- Zle_Qle. lia. }
  destruct limit as [| | |q]; cbn [Math_min Math_max of_nat]; try reflexivity.
  - now rewrite H1n.
  - destruct (Qle_bool q (inject_Z (Z.of_nat n))); cbn [Math_max]; [reflexivity|].
    now rewrite H1n.
Qed.

Lemma ToLength_of_nat (k : nat) :
  (Z.of_nat k <= 2 ^ 53 - 1)%Z -> ToLength (of_nat k) = k.
Proof.
  intros Hk. unfold of_nat. cbn [ToLength]. unfold Qtrunc.
  assert (H0 : Qle_bool 0 (inject_Z (Z.of_nat k)) = true).
  { apply Qle_bool_iff. change 0%Q with (inject_Z 0). rewrite <- Zle_Qle. lia. }
  rewrite H0, Qfloor_Z. lia.
Qed.

(** X12.  The number of workers [mapWithConcurrency] starts for a
    non-empty array of [n] items (at most 2^53 - 1 of them): none for the
    limit [NaN]; one for every limit below 2, so for 1, for a fraction,
    for zero, for a negative limit and for minus infinity; the limit
    rounded down for a limit from 1 to [n]; [n] for every greater limit
    and for infinity.  There are never more workers than items. *)
Theorem workerCount_by_limit (T : Type) (items : list T) (limit : number) :
  items <> [] ->
  (Z.of_nat (length items) <= 2 ^ 53 - 1)%Z ->
  workerCount items limit <= length items
  /\ match limit with
     | NaN => workerCount items limit = 0
     | NegInf => workerCount items limit = 1
     | PosInf => workerCount items limit = length items
     | Fin q =>
         ((q < 2)%Q -> workerCount items limit = 1)
         /\ ((1 <= q)%Q -> (q <= inject_Z (Z.of_nat (length items)))%Q ->
             Z.of_nat (workerCount items limit) = Qfloor q)
         /\ ((inject_Z (Z.of_nat (length items)) <= q)%Q ->
             workerCount items limit = length items)
     end.
Proof.
  intros Hne Hbig.
  assert (Hn : 0 < length items) by (destruct items; [congruence|cbn; lia]).
  unfold workerCount. rewrite (worker_number (length items) limit Hn).
  assert (H1 : ToLength (of_nat 1) = 1) by reflexivity.
  assert (Hlen : ToLength (of_nat (length items)) = length items)
    by now apply ToLength_of_nat.
  destruct limit as [| | |q].
  - split; [cbn; lia|reflexivity].
  - split; [lia|exact Hlen].
  - split; [lia|exact H1].
  - destruct (Qle_bool q (inject_Z (Z.of_nat (length items)))) eqn:Eq.
    + apply Qle_bool_iff in Eq.
      destruct (Qle_bool 1 q) eqn:E1.
      * apply Qle_bool_iff in E1.
        assert (H0 : Qle_bool 0 q = true).
        { apply Qle_bool_iff. eapply Qle_trans; [|exact E1]. discriminate. }
        assert (Hfl : (1 <= Qfloor q)%Z).
        { change 1%Z with (Qfloor 1). now apply Qfloor_resp_le. }
        assert (Hfn : (Qfloor q <= Z.of_nat (length items))%Z).
        { rewrite <- (Qfloor_Z (Z.of_nat (length items))). now apply Qfloor_resp_le. }
        assert (Hto : Z.of_nat (ToLength (Fin q)) = Qfloor q).
        { cbn [ToLength]. unfold Qtrunc. rewrite H0. lia. }
        split; [lia|]. split; [|split].
        -- intros Hq2.
           assert (Hf2 : (Qfloor q < 2)%Z).
           { apply Z.le_succ_l. change (Z.succ (Qfloor q)) with (Qfloor q + 1)%Z.
             assert (H : (inject_Z (Qfloor q) < 2)%Q).
             { eapply Qle_lt_trans; [apply Qfloor_le|exact Hq2]. }
             change 2%Q with (inject_Z 2) in H. rewrite <- Zlt_Qlt in H. lia. }
           lia.
        -- intros _ _. exact Hto.
        -- intros Hge.
           assert (Hq : (q == inject_Z (Z.of_nat (length items)))%Q) by now apply Qle_antisym.
           assert (Hf : Qfloor q = Z.of_nat (length items)).
           { rewrite <- (Qfloor_Z (Z.of_nat (length items))).
             apply Z.le_antisymm; apply Qfloor_resp_le; rewrite Hq; apply Qle_refl. }
           lia.
      * assert (Hlt : (q < 1)%Q).
        { apply Qnot_le_lt. intros H. apply Qle_bool_iff in H. congruence. }
        split; [lia|]. split; [|split].
        -- intros _. exact H1.
        -- intros Hge. exfalso. now apply (Qlt_not_le _ _ Hlt).
        -- intros Hge. exfalso.
           assert (H : (inject_Z (Z.of_nat (length items)) < 1)%Q)
             by (eapply Qle_lt_trans; [exact Hge|exact Hlt]).
           change 1%Q with (inject_Z 1) in H. rewrite <- Zlt_Qlt in H. lia.
    + assert (Hgt : (inject_Z (Z.of_nat (length items)) < q)%Q).
      { apply Qnot_le_lt. intros H. apply Qle_bool_iff in H. congruence. }
      split; [lia|]. split; [|split].
      * intros Hq2.
        assert (H : (inject_Z (Z.of_nat (length items)) < 2)%Q)
          by (eapply Qlt_trans; [exact Hgt|exact Hq2]).
        change 2%Q with (inject_Z 2) in H. rewrite <- Zlt_Qlt in H. lia.
      * intros _ Hle. exfalso. now apply (Qlt_not_le _ _ Hgt).
      * intros _. exact Hlen.
Qed.

(** Three items and the limit 5/2: two workers. *)
Lemma workerCount_by_limit_witness :
  workerCount [10; 20; 30] (Fin (5 # 2)) <= length [10; 20; 30]
  /\ (((5 # 2) < 2)%Q -> workerCount [10; 20; 30] (Fin (5 # 2)) = 1)
     /\ ((1 <= 5 # 2)%Q -> (5 # 2 <= inject_Z (Z.of_nat (length [10; 20; 30])))%Q ->
         Z.of_nat (workerCount [10; 20; 30] (Fin (5 # 2))) = Qfloor (5 # 2))
     /\ ((inject_Z (Z.of_nat (length [10; 20; 30])) <= 5 # 2)%Q ->
         workerCount [10; 20; 30] (Fin (5 # 2)) = length [10; 20; 30]).
Proof.
  apply (workerCount_by_limit nat [10; 20; 30] (Fin (5 # 2))).
  - discriminate.
  - vm_compute. discriminate.
Defined.

(** *** The pool between two settlements *)

Lemma awaiting_from_length (ws : list worker) :
  forall b, length (awaiting_from b ws) <= length ws.
Proof.
  induction ws as [|[i|] ws IH]; intros b; cbn [awaiting_from length]; [lia| |].
  - specialize (IH (S b)). lia.
  - specialize (IH (S b)). lia.
Qed.

Lemma resume_workers (T R : Type) (items : list T) (mapper : T -> nat -> completion R)
  (w : nat) (st st' : pool R) :
  resume items mapper w st = Normal st' -> length (workers st') = length (workers st).
Proof.
  unfold resume. destruct (nth_error (workers st) w) as [[i|]|]; try (now intros [= <-]).
  destruct (nth_error items i) as [item|]; [|discriminate].
  destruct (mapper item i) as [r|e]; [|discriminate]. cbn [bind].
  destruct (enter_loop items (nextIndex st)) as [w' next'].
  intros [= <-]. cbn [workers]. apply assign_length.
Qed.

Lemma reachable_workers (T R : Type) (items : list T) (mapper : T -> nat -> completion R)
  (limit : number) (st : pool R) :
  reachable items mapper limit st -> length (workers st) = workerCount items limit.
Proof.
  induction 1 as [ws next Hne Hs|st st' w _ IH _ Hr|st w e _ IH _ _].
  - cbn [workers]. now destruct (spawn_spec items (workerCount items limit) Hs (Nat.le_0_l _)).
  - now rewrite (resume_workers _ _ _ _ _ _ _ Hr).
  - unfold abandon. cbn [workers]. now rewrite assign_length.
Qed.

(** X13.  Whatever the mapper does, fulfilling or rejecting its promises,
    and in whatever order they settle, the calls of the mapper that are
    pending at any moment are at most as many as the workers: never more
    than the items, never more than a limit of at least 1 rounded down,
    and one at a time for a limit below 2.  This holds in every state the
    workers reach, those behind a rejection included, where the call is
    already rejected and the remaining workers go on. *)
Theorem mapWithConcurrency_bounds_pending_calls
  (T R : Type) (items : list T) (mapper : T -> nat -> completion R)
  (limit : number) (st : pool R) :
  reachable items mapper limit st ->
  length (awaiting st) <= workerCount items limit
  /\ length (awaiting st) <= length items
  /\ (forall q, limit = Fin q -> (1 <= q)%Q -> (Z.of_nat (length (awaiting st)) <= Qfloor q)%Z)
  /\ (forall q, limit = Fin q -> (q < 2)%Q -> length (awaiting st) <= 1).
Proof.
  intros Hreach.
  assert (Hne : items <> []).
  { clear -Hreach. induction Hreach; assumption. }
  assert (Hn : 0 < length items) by (destruct items; [congruence|cbn; lia]).
  assert (Hw : length (awaiting st) <= workerCount items limit).
  { rewrite <- (reachable_workers _ _ _ _ _ _ Hreach). apply awaiting_from_length. }
  assert (Hle : forall k, (match Math_max (of_nat 1) (Math_min limit (of_nat (length items))) with
                           | Fin r => (r <= inject_Z (Z.of_nat k))%Q
                           | NaN | NegInf => True
                           | PosInf => False
                           end) -> workerCount items limit <= k).
  { intros k. unfold workerCount.
    destruct (Math_max _ _) as [| | |r].
    - cbn [ToLength]. lia.
    - intros [].
    - cbn [ToLength]. lia.
    - intros Hr. now apply (ToLength_le r k). }
  assert (Hfloor : forall q, limit = Fin q -> (1 <= q)%Q ->
                     (Z.of_nat (workerCount items limit) <= Qfloor q)%Z).
  { intros q -> Hq. unfold workerCount. rewrite (worker_number _ (Fin q) Hn).
    assert (Hq' := Hq). apply Qle_bool_iff in Hq'. rewrite Hq'.
    destruct (Qle_bool q _) eqn:Eq; [now apply ToLength_floor|].
    assert (Hgt : (inject_Z (Z.of_nat (length items)) <= q)%Q).
    { apply Qlt_le_weak, Qnot_le_lt. intros H. apply Qle_bool_iff in H. congruence. }
    apply Qfloor_resp_le in Hgt. rewrite Qfloor_Z in Hgt.
    pose proof (ToLength_le (inject_Z (Z.of_nat (length items))) (length items)
                  (Qle_refl _)) as Hl.
    unfold of_nat. lia. }
  split; [exact Hw|]. split; [|split].
  - apply (Nat.le_trans _ _ _ Hw). apply Hle.
    rewrite (worker_number _ limit Hn).
    destruct limit as [| | |q]; unfold of_nat; try exact I.
    + apply Qle_refl.
    + rewrite <- Zle_Qle. lia.
    + destruct (Qle_bool q _) eqn:Eq; [|apply Qle_refl].
      destruct (Qle_bool 1 q); [now apply Qle_bool_iff|rewrite <- Zle_Qle; lia].
  - intros q Hl Hq. specialize (Hfloor q Hl Hq). lia.
  - intros q Hl Hq. destruct (Qlt_le_dec q 1) as [Hlt|Hge].
    + apply (Nat.le_trans _ _ _ Hw). subst limit. unfold workerCount.
      rewrite (worker_number _ (Fin q) Hn).
      assert (E1 : Qle_bool 1 q = false).
      { destruct (Qle_bool 1 q) eqn:E; [|reflexivity]. apply Qle_bool_iff in E.
        exfalso. now apply (Qlt_not_le _ _ Hlt). }
      assert (En : Qle_bool q (inject_Z (Z.of_nat (length items))) = true).
      { apply Qle_bool_iff. apply Qlt_le_weak. eapply Qlt_le_trans; [exact Hlt|].
        change 1%Q with (inject_Z 1). rewrite <- Zle_Qle. lia. }
      rewrite En, E1. apply Nat.le_refl.
    + specialize (Hfloor q Hl Hge).
      assert (Hf2 : (Qfloor q < 2)%Z).
      { assert (H : (inject_Z (Qfloor q) < 2)%Q).
        { eapply Qle_lt_trans; [apply Qfloor_le|exact Hq]. }
        change 2%Q with (inject_Z 2) in H. now rewrite <- Zlt_Qlt in H. }
      lia.
Qed.

Lemma pool_sample_reachable :
  reachable [10; 20; 30] (fun x i => Normal (x + i)) (Fin 2) pool_sample.
Proof.
  apply (@reach_resume nat nat [10; 20; 30] (fun x i => Normal (x + i)) (Fin 2)
           (Pool 2 [None; None; None] [Awaiting 0; Awaiting 1]) pool_sample 1).
  - apply (@reach_start nat nat [10; 20; 30] (fun x i => Normal (x + i)) (Fin 2)
             [Awaiting 0; Awaiting 1] 2); [discriminate|reflexivity].
  - right. now left.
  - reflexivity.
Qed.

(** Behind a rejection the other worker goes on. *)
Lemma pool_rejected_sample_reachable :
  reachable [1; 2; 3] reject_two (Fin 2) pool_rejected_sample.
Proof.
  apply (@reach_resume nat nat [1; 2; 3] reject_two (Fin 2)
           (abandon 1 (Pool 2 [None; None; None] [Awaiting 0; Awaiting 1]))
           pool_rejected_sample 0).
  - apply (@reach_reject nat nat [1; 2; 3] reject_two (Fin 2)
             (Pool 2 [None; None; None] [Awaiting 0; Awaiting 1]) 1 (Error (lit "failed"))).
    + apply (@reach_start nat nat [1; 2; 3] reject_two (Fin 2)
               [Awaiting 0; Awaiting 1] 2); [discriminate|reflexivity].
    + right. now left.
    + reflexivity.
  - now left.
  - reflexivity.
Qed.

(** Three items, the limit 2 and a mapper that rejects for the second
    item: the state in which the call is rejected and the first worker
    awaits the mapper for the third item. *)
Lemma mapWithConcurrency_bounds_pending_calls_witness :
  length (awaiting pool_rejected_sample) <= workerCount [1; 2; 3] (Fin 2)
  /\ length (awaiting pool_rejected_sample) <= length [1; 2; 3]
  /\ (forall q, Fin 2 = Fin q -> (1 <= q)%Q ->
        (Z.of_nat (length (awaiting pool_rejected_sample)) <= Qfloor q)%Z)
  /\ (forall q, Fin 2 = Fin q -> (q < 2)%Q -> length (awaiting pool_rejected_sample) <= 1).
Proof.
  apply (mapWithConcurrency_bounds_pending_calls nat nat [1; 2; 3]
           reject_two (Fin 2) pool_rejected_sample).
  exact pool_rejected_sample_reachable.
Defined.

(** X14.  When the mapper's promises are all fulfilled and the limit is
    not [NaN], this holds between any two settlements of a call: the
    indices below [nextIndex] are exactly the ones handed out, each either
    stored with the result of its own item or awaited by exactly one
    worker, whose slot is still a hole; the slots from [nextIndex] on are
    holes; a worker has returned only when no index is left.  And the
    next settlement, whichever worker it resumes, fills exactly one hole. *)
Theorem mapWithConcurrency_hands_out_each_index_once
  (T R : Type) (items : list T) (mapper : T -> nat -> completion R)
  (f : T -> nat -> R) (limit : number) (st : pool R) :
  (forall i x, nth_error items i = Some x -> mapper x i = Normal (f x i)) ->
  limit <> NaN ->
  reachable items mapper limit st ->
  pool_inv items f st
  /\ forall w, In w (awaiting st) ->
       exists st', resume items mapper w st = Normal st'
                   /\ reachable items mapper limit st'
                   /\ S (holes (results st')) = holes (results st).
Proof.
  intros Hmapper Hlimit Hreach.
  assert (Hinv : pool_inv items f st).
  { induction Hreach as [ws next Hne Hs|st st' w Hreach IH Hw Hr|st w e Hreach IH Hw Hr].
    - apply (spawn_inv items f (workerCount_positive items Hlimit) Hs).
    - apply awaiting_spec in Hw as [i Hi].
      destruct (resume_inv mapper Hmapper w IH Hi) as (st'' & Hr' & Hinv & _).
      congruence.
    - apply awaiting_spec in Hw as [i Hi].
      destruct (resume_inv mapper Hmapper w IH Hi) as (st'' & Hr' & _).
      congruence. }
  split; [exact Hinv|]. intros w Hw. assert (Hw' := Hw).
  apply awaiting_spec in Hw' as [i Hi].
  destruct (resume_inv mapper Hmapper w Hinv Hi) as (st' & Hr & _ & Hholes).
  exists st'. split; [exact Hr|]. split; [|exact Hholes].
  now apply (@reach_resume T R items mapper limit st st' w).
Qed.

Lemma mapWithConcurrency_hands_out_each_index_once_witness :
  pool_inv [10; 20; 30] (fun x i => x + i) pool_sample
  /\ forall w, In w (awaiting pool_sample) ->
       exists st', resume [10; 20; 30] (fun x i => Normal (x + i)) w pool_sample = Normal st'
                   /\ reachable [10; 20; 30] (fun x i => Normal (x + i)) (Fin 2) st'
                   /\ S (holes (results st')) = holes (results pool_sample).
Proof.
  apply (mapWithConcurrency_hands_out_each_index_once nat nat [10; 20; 30]
           (fun x i => Normal (x + i)) (fun x i => x + i) (Fin 2) pool_sample).
  - intros i x _. reflexivity.
  - discriminate.
  - exact pool_sample_reachable.
Defined.

(** The event loop goes through such states only: what it is fulfilled
    with is the array of one of them, in which no worker is suspended. *)
Lemma event_loop_reaches (T R : Type) (items : list T) (mapper : T -> nat -> completion R)
  (limit : number) (sched : nat -> nat) (fuel : nat) :
  forall t st rs,
  reachable items mapper limit st ->
  event_loop items mapper sched fuel t st = Fulfilled rs ->
  exists st', reachable items mapper limit st' /\ awaiting st' = [] /\ results st' = rs.
Proof.
  induction fuel as [|fuel IH]; intros t st rs Hreach; cbn [event_loop].
  - destruct (awaiting st) as [|w0 ws] eqn:Ea; [|discriminate].
    intros [= <-]. now exists st.
  - destruct (awaiting st) as [|w0 ws] eqn:Ea.
    + intros [= <-]. now exists st.
    + set (w := nth (sched t mod length (w0 :: ws)) (w0 :: ws) w0).
      destruct (resume items mapper w st) as [st'|e] eqn:Er; [|discriminate].
      apply IH. apply (@reach_resume T R items mapper limit st st' w Hreach); [|exact Er].
      rewrite Ea. apply nth_mod_in. discriminate.
Qed.

(* ================================================================= *)
(** ** The markup of the questions *)

(** A part is drawn when its payload can be drawn and its number
    converts to a string, and throws a TypeError otherwise. *)
Lemma part_draws (isMultiPart : bool) (dir qId : jsstring) (part : QuestionPart) :
  draws_iff (part_ok part)
    (answers <- renderAnswers part dir ;;
     partLabel <- (if isMultiPart then
                     number <- ToString (n part) ;;
                     Normal (nl ++ lit "                    <div class=`part-number`><p>Part "
                             ++ number ++ lit "</p></div>")
                   else Normal []) ;;
     partno <- ToString (n part) ;;
     Normal (lit "                    " ++ partLabel ++ nl
             ++ lit "                        <div class=`question inline-displayed` data-partno=`"
             ++ partno ++ lit "` data-parttype=`" ++ type part
             ++ lit "`>" ++ nl
             ++ nl
             ++ lit "            <div class=`stem`>" ++ nl
             ++ lit "                "
             ++ rewriteImagePaths (addLexicalClass (stem part) dir) qId ++ nl
             ++ lit "            </div>" ++ nl
             ++ lit "            <div class=`answers`>" ++ nl
             ++ rewriteImagePaths answers qId ++ nl
             ++ lit "            </div>" ++ nl
             ++ lit "        </div>")).
Proof.
  unfold part_ok. pose proof (renderAnswers_draws part dir) as D.
  destruct (payload_ok part); cbn [draws_iff andb] in *.
  - destruct D as [answers ->]. cbn [bind].
    destruct (printable (n part)) eqn:Hn; cbn [draws_iff].
    + destruct (ToString_printable (n part) Hn) as [number ->].
      destruct isMultiPart; cbn [bind]; eauto.
    + rewrite (ToString_unprintable (n part) Hn).
      destruct isMultiPart; reflexivity.
  - now rewrite D.
Qed.

(** A question is drawn when each of its parts is, and throws on the
    first part that cannot be drawn. *)
Lemma generateQuestionHTML_draws (question : QuestionJSON) :
  draws_iff (forallb part_ok (parts question)) (generateQuestionHTML question).
Proof.
  unfold generateQuestionHTML. cbv zeta.
  match goal with |- context [mapM ?f (parts question)] =>
    pose proof (mapM_forallb part_ok f (parts question)) as Hm end.
  unfold draws_iff.
  destruct (forallb part_ok (parts question)).
  - destruct Hm as [bs ->].
    + intros part Hp. pose proof (part_draws
        (negb (Qle_bool (number_of_parts question) 1))
        (if jseq (language_code question) (lit "ar") then lit "rtl" else lit "ltr")
        (question_id question) part) as D.
      rewrite Hp in D. exact D.
    + intros part Hp. pose proof (part_draws
        (negb (Qle_bool (number_of_parts question) 1))
        (if jseq (language_code question) (lit "ar") then lit "rtl" else lit "ltr")
        (question_id question) part) as D.
      rewrite Hp in D. exact D.
    + cbn [bind]. eauto.
  - rewrite Hm; [reflexivity| |].
    + intros part Hp. pose proof (part_draws
        (negb (Qle_bool (number_of_parts question) 1))
        (if jseq (language_code question) (lit "ar") then lit "rtl" else lit "ltr")
        (question_id question) part) as D.
      rewrite Hp in D. exact D.
    + intros part Hp. pose proof (part_draws
        (negb (Qle_bool (number_of_parts question) 1))
        (if jseq (language_code question) (lit "ar") then lit "rtl" else lit "ltr")
        (question_id question) part) as D.
      rewrite Hp in D. exact D.
Qed.

(** The markup of the questions, or the TypeError of the first part that
    cannot be drawn. *)
Lemma questionDivs_draws (questions : list QuestionJSON) :
  draws_iff (forallb (fun q => forallb part_ok (parts q)) questions)
            (questionDivs questions).
Proof.
  unfold questionDivs.
  pose proof (mapM_forallb (fun q => forallb part_ok (parts q))
                generateQuestionHTML questions) as Hm.
  assert (Hok : forall q, forallb part_ok (parts q) = true ->
                          exists b, generateQuestionHTML q = Normal b).
  { intros q Hq. pose proof (generateQuestionHTML_draws q) as D. now rewrite Hq in D. }
  assert (Hbad : forall q, forallb part_ok (parts q) = false ->
                           generateQuestionHTML q = Throw TypeError).
  { intros q Hq. pose proof (generateQuestionHTML_draws q) as D. now rewrite Hq in D. }
  specialize (Hm Hok Hbad). unfold draws_iff.
  destruct (forallb _ questions).
  - destruct Hm as [bs ->]. cbn [bind]. eauto.
  - now rewrite Hm.
Qed.

(** X15.  For questions that have the fields the interface
    [QuestionJSON] declares, typed as it types them (the parts a list,
    their tags and stems strings, their choices, keys and acceptable
    answers absent or lists of the declared records, the payloads
    [correct_answer] and [items] and the number [n] any JSON value): the
    markup of the fetched questions, the first thing [generateExportHTML]
    builds once they are sorted, is made exactly when every part of every
    question can be drawn ([part_ok]: a payload that is absent or one
    its renderer can draw, a number that converts to a string); when one
    part cannot, the step throws a TypeError, whatever the other parts
    and questions hold.  So one gmrq part whose [items] has no groups
    keeps every question of the export from being drawn. *)
Theorem questionDivs_needs_every_part_drawable :
  (forall questions,
      if forallb (fun q => forallb part_ok (parts q)) questions
      then exists divs, questionDivs questions = Normal divs
      else questionDivs questions = Throw TypeError)
  /\ (forall before question behind,
        In gmrq_without_groups (parts question) ->
        questionDivs (before ++ question :: behind) = Throw TypeError).
Proof.
  split; [exact questionDivs_draws|].
  intros before question behind Hin.
  pose proof (questionDivs_draws (before ++ question :: behind)) as D.
  assert (E : forallb (fun q => forallb part_ok (parts q)) (before ++ question :: behind)
              = false).
  { rewrite forallb_app. cbn [forallb].
    assert (Hq : forallb part_ok (parts question) = false).
    { destruct (forallb part_ok (parts question)) eqn:Hall; [|reflexivity].
      rewrite forallb_forall in Hall. specialize (Hall _ Hin).
      vm_compute in Hall. discriminate. }
    rewrite Hq. cbn [andb]. apply andb_false_r. }
  now rewrite E in D.
Qed.

(** The sample question, in Arabic and of two parts, is drawn. *)
Lemma questionDivs_needs_every_part_drawable_witness :
  exists divs, questionDivs [question_sample] = Normal divs.
Proof.
  exact (proj1 questionDivs_needs_every_part_drawable [question_sample]).
Defined.

(* ================================================================= *)
(** ** Whole documents of image tags *)

(** Every tag of the document is rewritten, and nothing else. *)
Lemma rewrite_doc (pieces : list img_piece) (last questionId : jsstring) :
  well_tagged pieces last ->
  rewriteImagePaths (doc_text pieces last) questionId
  = doc_text (map (archive_piece questionId) pieces) last.
Proof.
  induction pieces as [|p more IH]; cbn [well_tagged doc_text map].
  - apply rewriteImagePaths_without_images.
  - intros (Hb & Ha & Hs & Hr & Hmore).
    rewrite (rewriteImagePaths_tag _ _ _ _ questionId Hb Ha Hs Hr).
    cbn [archive_piece piece_before piece_attrs piece_src]. now rewrite IH.
Qed.

Lemma matches_src_open : matches re_src_open (lit " src=`").
Proof. eapply matches_by_exec; [vm_compute; reflexivity|reflexivity]. Qed.

(** The rest of a tag stops at the first closing bracket. *)
Lemma tag_rest_cut (x y : jsstring) : In gt x -> tag_rest (x ++ y) = tag_rest x.
Proof.
  unfold tag_rest. induction x as [|c x IH]; [intros []|].
  intros Hin. cbn [app span_until]. destruct (N.eqb_spec c gt) as [->|Hc]; [reflexivity|].
  destruct Hin as [->|Hin]; [congruence|]. specialize (IH Hin).
  destruct (span_until gt (x ++ y)), (span_until gt x). cbn [fst] in *. now rewrite IH.
Qed.

(** What is left of the tag before a document is the same once the
    document is rewritten: the next tag, if any, starts behind a closing
    bracket. *)
Lemma tag_rest_rewritten (pieces : list img_piece) (last questionId : jsstring) :
  well_tagged pieces last ->
  Re.test re_src_open (tag_rest (doc_text pieces last)) = false ->
  tag_rest (doc_text (map (archive_piece questionId) pieces) last)
  = tag_rest (doc_text pieces last).
Proof.
  destruct pieces as [|p more]; [reflexivity|].
  cbn [well_tagged doc_text map archive_piece piece_before piece_attrs piece_src].
  intros (_ & Ha & _) H.
  destruct (in_dec N.eq_dec gt (piece_before p)) as [Hin|Hout].
  - now rewrite !(tag_rest_cut _ _ Hin).
  - exfalso. revert H. unfold img_tag.
    replace (piece_before p
             ++ (lit "<img" ++ piece_attrs p ++ lit " src=`" ++ piece_src p ++ [dquote])
             ++ doc_text more last)
      with (((piece_before p ++ lit "<img" ++ piece_attrs p) ++ lit " src=`")
            ++ piece_src p ++ dquote :: doc_text more last)
      by (now rewrite <- !app_assoc).
    unfold tag_rest. rewrite span_until_app.
    + cbn [fst]. rewrite <- app_assoc.
      rewrite (test_inside re_src_open _ (lit " src=`") _ simple_re_src_open matches_src_open).
      discriminate.
    + apply not_in_app; [|apply not_in_checked; reflexivity].
      apply not_in_app; [exact Hout|].
      apply not_in_app; [apply not_in_checked; reflexivity|exact Ha].
Qed.

(** A rewritten document is cut at its tags as the document was. *)
Lemma well_tagged_archive (pieces : list img_piece) (last questionId : jsstring) :
  ~ In dquote questionId ->
  well_tagged pieces last ->
  well_tagged (map (archive_piece questionId) pieces) last.
Proof.
  intros Hid. induction pieces as [|p more IH]; cbn [well_tagged map]; [tauto|].
  intros (Hb & Ha & Hs & Hr & Hmore).
  cbn [archive_piece piece_before piece_attrs piece_src].
  repeat split; try assumption.
  - now apply archive_src_image_src.
  - destruct (archive_src_image_src questionId (piece_src p) Hid Hs) as [_ H]. exact H.
  - now rewrite (tag_rest_rewritten more last questionId Hmore Hr).
  - now apply IH.
Qed.

(** A source that was written back stays. *)
Lemma archive_src_twice (questionId src : jsstring) :
  archive_src questionId (archive_src questionId src) = archive_src questionId src.
Proof.
  unfold archive_src at 2.
  destruct (absolute_http src || startsWith (lit "images/") src) eqn:E.
  - unfold archive_src. now rewrite E.
  - unfold archive_src. rewrite (startsWith_app (lit "images/")), orb_true_r.
    now rewrite E.
Qed.

Lemma archive_piece_twice (questionId : jsstring) (pieces : list img_piece) :
  map (archive_piece questionId) (map (archive_piece questionId) pieces)
  = map (archive_piece questionId) pieces.
Proof.
  rewrite map_map. apply map_ext. intros p. unfold archive_piece.
  cbn [piece_before piece_attrs piece_src]. now rewrite archive_src_twice.
Qed.

(** X16.  A document cut at its image tags ([well_tagged]: no [<img]
    between the tags, each tag with attributes free of a closing bracket
    before [ src=Q...Q] around a source of one of the six extensions, no
    second [src=Q] in the tag) comes back from [rewriteImagePaths] with
    every tag's source written back ([archive_src]: under
    [images/<questionId>/], or as it was for [http://], [https://] and
    [images/]) and every other unit as it was; with no tag at all the
    text is returned unchanged. *)
Theorem rewriteImagePaths_rewrites_every_tag
  (pieces : list img_piece) (last questionId : jsstring) :
  well_tagged pieces last ->
  rewriteImagePaths (doc_text pieces last) questionId
  = doc_text (map (archive_piece questionId) pieces) last.
Proof. apply rewrite_doc. Qed.

(** X17.  A second pass changes nothing: for a document cut at its image
    tags and a question id without a double quote, rewriting the rewritten
    document gives the rewritten document. *)
Theorem rewriteImagePaths_twice_is_once
  (pieces : list img_piece) (last questionId : jsstring) :
  well_tagged pieces last ->
  ~ In dquote questionId ->
  rewriteImagePaths (rewriteImagePaths (doc_text pieces last) questionId) questionId
  = rewriteImagePaths (doc_text pieces last) questionId.
Proof.
  intros Hw Hid. rewrite (rewrite_doc pieces last questionId Hw).
  rewrite (rewrite_doc _ last questionId (well_tagged_archive _ _ _ Hid Hw)).
  now rewrite archive_piece_twice.
Qed.

(** The sources of a document, in order, without the absolute ones. *)
Lemma collect_doc (pieces : list img_piece) (last : jsstring) :
  Forall (fun p => image_src (piece_src p)) pieces ->
  src_in_tags_only pieces last ->
  collectImagePaths (doc_text pieces last)
  = flat_map (fun p => collected (piece_src p)) pieces.
Proof.
  induction pieces as [|p more IH]; cbn [src_in_tags_only doc_text flat_map].
  - intros _. apply collect_nothing.
  - intros Hall [Hp Hmore]. inversion Hall as [|? ? Hs Hall']; subst.
    replace (piece_before p ++ img_tag (piece_attrs p) (piece_src p) ++ doc_text more last)
      with (((piece_before p ++ lit "<img" ++ piece_attrs p) ++ lit " ")
            ++ lit "src=`" ++ piece_src p ++ dquote :: doc_text more last)
      by (unfold img_tag; now rewrite <- !app_assoc).
    rewrite collect_first_source; [|now apply src_name_before_blank|exact Hs].
    now rewrite IH.
Qed.

Lemma well_tagged_sources (pieces : list img_piece) (last : jsstring) :
  well_tagged pieces last -> Forall (fun p => image_src (piece_src p)) pieces.
Proof.
  induction pieces as [|p more IH]; cbn [well_tagged]; [constructor|].
  intros (_ & _ & Hs & _ & Hmore). constructor; [exact Hs|now apply IH].
Qed.

Lemma src_in_tags_only_archive (pieces : list img_piece) (last questionId : jsstring) :
  src_in_tags_only pieces last ->
  src_in_tags_only (map (archive_piece questionId) pieces) last.
Proof.
  induction pieces as [|p more IH]; cbn [src_in_tags_only map]; [tauto|].
  intros [Hp Hmore]. split; [exact Hp|now apply IH].
Qed.

Lemma collect_rewritten_doc (pieces : list img_piece) (last questionId : jsstring) :
  well_tagged pieces last ->
  src_in_tags_only pieces last ->
  ~ In dquote questionId ->
  collectImagePaths (rewriteImagePaths (doc_text pieces last) questionId)
  = flat_map (fun p => collected (archive_src questionId (piece_src p))) pieces.
Proof.
  intros Hw Hn Hid. rewrite (rewrite_doc pieces last questionId Hw).
  rewrite collect_doc.
  - now rewrite flat_map_concat_map, map_map, <- flat_map_concat_map.
  - apply (well_tagged_sources _ last). now apply well_tagged_archive.
  - now apply src_in_tags_only_archive.
Qed.

(** X18.  Rewriting a whole document, then collecting: when the text
    [src] stands only in the source attributes of the tags and the
    question id holds no double quote, the paths collected from the
    rewritten document are, tag by tag and in the order of the tags, the
    sources written back, without those that start with [http://] or
    [https://]; so as many paths as tags with a source that is not
    absolute, duplicates included. *)
Theorem collectImagePaths_of_rewritten_document
  (pieces : list img_piece) (last questionId : jsstring) :
  well_tagged pieces last ->
  src_in_tags_only pieces last ->
  ~ In dquote questionId ->
  collectImagePaths (rewriteImagePaths (doc_text pieces last) questionId)
  = map (fun p => archive_src questionId (piece_src p))
      (filter (fun p => negb (absolute_http (piece_src p))) pieces).
Proof.
  intros Hw Hn Hid. rewrite (collect_rewritten_doc pieces last questionId Hw Hn Hid).
  clear. induction pieces as [|p more IH]; [reflexivity|].
  cbn [flat_map filter]. rewrite collected_archive_src.
  destruct (absolute_http (piece_src p)); cbn [negb map app]; now rewrite IH.
Qed.

(** A source of one of the extensions is not empty. *)
Lemma image_src_not_empty (src : jsstring) : image_src src -> src <> [].
Proof.
  intros [_ (stem & ext & -> & _)]. destruct stem; discriminate.
Qed.

(** X19.  From the stems to the downloads: for a document cut at its
    image tags whose sources do not start with [images/], and a question
    id that is not empty and holds neither a slash nor a double quote,
    every path collected from the rewritten document is
    [images/<questionId>/<src>] for the source of one of the tags, and
    [resolveImageUrl] gives it the address [S3_BASE/<questionId>/<src>]:
    no path of such a document is refused before the download. *)
Theorem collected_paths_resolve
  (pieces : list img_piece) (last questionId path : jsstring) :
  well_tagged pieces last ->
  src_in_tags_only pieces last ->
  Forall (fun p => startsWith (lit "images/") (piece_src p) = false) pieces ->
  questionId <> [] -> ~ In slash questionId -> ~ In dquote questionId ->
  In path (collectImagePaths (rewriteImagePaths (doc_text pieces last) questionId)) ->
  exists p, In p pieces
            /\ path = lit "images/" ++ questionId ++ lit "/" ++ piece_src p
            /\ resolveImageUrl path
               = Some (S3_BASE ++ lit "/" ++ questionId ++ lit "/" ++ piece_src p).
Proof.
  intros Hw Hn Hrel Hne Hslash Hid Hin.
  rewrite (collect_rewritten_doc pieces last questionId Hw Hn Hid) in Hin.
  apply in_flat_map in Hin as (p & Hp & Hin). exists p. split; [exact Hp|].
  rewrite Forall_forall in Hrel. specialize (Hrel p Hp). cbv beta in Hrel.
  pose proof (well_tagged_sources pieces last Hw) as Hsrc.
  rewrite Forall_forall in Hsrc. specialize (Hsrc p Hp). cbv beta in Hsrc.
  rewrite collected_archive_src in Hin.
  destruct (absolute_http (piece_src p)) eqn:Ea; [destruct Hin|].
  destruct Hin as [<-|[]].
  assert (E : archive_src questionId (piece_src p)
              = lit "images/" ++ questionId ++ lit "/" ++ piece_src p).
  { unfold archive_src. now rewrite Ea, Hrel. }
  split; [exact E|]. rewrite E. apply resolveImageUrl_canonical.
  split; [now exists 0|]. split; [exact Hne|]. split; [exact Hslash|].
  now apply image_src_not_empty.
Qed.

(** The sample document is cut at its two tags. *)
Lemma pieces_sample_well_tagged : well_tagged pieces_sample (lit "></p>").
Proof.
  cbn [well_tagged pieces_sample piece_before piece_attrs piece_src].
  assert (Hext : forall stem ext m,
            Re.exec_at re_image_ext None ext = Some m -> Re.rest m = [] ->
            forallb (Re.not_chr dquote) (stem ++ lit "." ++ ext) = true ->
            image_src (stem ++ lit "." ++ ext)).
  { intros stem ext m Hm Hr Hq. split; [now apply not_in_checked|].
    exists stem, ext. split; [reflexivity|]. now apply (matches_by_exec _ _ m). }
  splits.
  - reflexivity.
  - apply not_in_checked. reflexivity.
  - eapply (Hext (lit "foo") (lit "svg")); [vm_compute; reflexivity|reflexivity|reflexivity].
  - reflexivity.
  - reflexivity.
  - intros [].
  - eapply (Hext (lit "https://h.example/b") (lit "png"));
      [vm_compute; reflexivity|reflexivity|reflexivity].
  - reflexivity.
  - reflexivity.
Qed.

Lemma rewriteImagePaths_rewrites_every_tag_witness :
  rewriteImagePaths (doc_text pieces_sample (lit "></p>")) (lit "Q1")
  = doc_text (map (archive_piece (lit "Q1")) pieces_sample) (lit "></p>").
Proof.
  apply (rewriteImagePaths_rewrites_every_tag pieces_sample (lit "></p>") (lit "Q1")).
  exact pieces_sample_well_tagged.
Defined.

Lemma rewriteImagePaths_twice_is_once_witness :
  rewriteImagePaths (rewriteImagePaths (doc_text pieces_sample (lit "></p>")) (lit "Q1"))
    (lit "Q1")
  = rewriteImagePaths (doc_text pieces_sample (lit "></p>")) (lit "Q1").
Proof.
  apply (rewriteImagePaths_twice_is_once pieces_sample (lit "></p>") (lit "Q1")).
  - exact pieces_sample_well_tagged.
  - apply not_in_checked. reflexivity.
Defined.

Lemma collectImagePaths_of_rewritten_document_witness :
  collectImagePaths (rewriteImagePaths (doc_text pieces_sample (lit "></p>")) (lit "Q1"))
  = map (fun p => archive_src (lit "Q1") (piece_src p))
      (filter (fun p => negb (absolute_http (piece_src p))) pieces_sample).
Proof.
  apply (collectImagePaths_of_rewritten_document pieces_sample (lit "></p>") (lit "Q1")).
  - exact pieces_sample_well_tagged.
  - cbn [src_in_tags_only pieces_sample piece_before piece_attrs]. splits; reflexivity.
  - apply not_in_checked. reflexivity.
Defined.

Lemma collected_paths_resolve_witness :
  exists p, In p pieces_sample
            /\ lit "images/Q1/foo.svg" = lit "images/" ++ lit "Q1" ++ lit "/" ++ piece_src p
            /\ resolveImageUrl (lit "images/Q1/foo.svg")
               = Some (S3_BASE ++ lit "/" ++ lit "Q1" ++ lit "/" ++ piece_src p).
Proof.
  apply (collected_paths_resolve pieces_sample (lit "></p>") (lit "Q1")
           (lit "images/Q1/foo.svg")).
  - exact pieces_sample_well_tagged.
  - cbn [src_in_tags_only pieces_sample piece_before piece_attrs]. splits; reflexivity.
  - repeat constructor.
  - discriminate.
  - apply not_in_checked. reflexivity.
  - apply not_in_checked. reflexivity.
  - vm_compute. left. reflexivity.
Defined.

(* ================================================================= *)
(** ** Choice values without markup *)

(** Trimming takes units away and brings none. *)
Lemma in_trimStart (c : char) (s : jsstring) : In c (trimStart s) -> In c s.
Proof.
  induction s as [|a s IH]; [intros []|]. cbn [trimStart].
  destruct (is_space a); [|tauto]. intros H. right. now apply IH.
Qed.

Lemma in_trim (c : char) (s : jsstring) : In c (trim s) -> In c s.
Proof.
  unfold trim, trimEnd. intros H. apply in_rev in H. apply in_trimStart in H.
  apply in_rev in H. now apply in_trimStart.
Qed.

(** A paragraph tag opens at an opening bracket only. *)
Lemma p_open_needs_bracket (s : jsstring) :
  ~ In lt_sign s -> forall prev, Re.test_from re_p_open prev s = false.
Proof.
  induction s as [|c s IH]; intros Hs prev; cbn [Re.test_from]; rewrite exec_p_open.
  - reflexivity.
  - assert (Hc : N.eqb 60 c = false).
    { apply N.eqb_neq. intros E. apply Hs. left. now rewrite <- E. }
    assert (Hp : p_open (c :: s) = None).
    { unfold p_open. destruct s as [|b [|d t]]; try reflexivity. now rewrite Hc. }
    rewrite Hp. cbn [option_map]. apply IH. intros H. apply Hs. now right.
Qed.

Lemma p_word_needs_bracket (s : jsstring) :
  ~ In lt_sign s -> forall prev, Re.test_from re_p_word prev s = false.
Proof.
  induction s as [|c s IH]; intros Hs prev; cbn [Re.test_from].
  - reflexivity.
  - assert (Hc : N.eqb 60 c = false).
    { apply N.eqb_neq. intros E. apply Hs. left. now rewrite <- E. }
    assert (He : Re.exec_at re_p_word prev (c :: s) = None).
    { unfold Re.exec_at.
      change re_p_word
        with (Re.Seq (Re.chr 60%N) (Re.Seq Re.spaces (Re.Seq (Re.chr_i 112%N) Re.WordB))).
      cbn [Re.run Re.chr Re.m_rest]. now rewrite Hc. }
    rewrite He. apply IH. intros H. apply Hs. now right.
Qed.

(** X20.  A choice value that is a text without an opening bracket comes
    back from [wrapChoiceValue] trimmed and wrapped in one themed
    paragraph with the direction, inside the [choice-value] division;
    [null] and [undefined] give the empty paragraph. *)
Theorem wrapChoiceValue_wraps_plain_text (text dir : jsstring) :
  ~ In lt_sign text ->
  wrapChoiceValue (JString text) dir
  = Normal (lit "<div class=`choice-value` dir=`" ++ dir
            ++ lit "`><p class=`LexicalTheme__paragraph` dir=`" ++ dir ++ lit "`>"
            ++ trim text ++ lit "</p></div>")
  /\ wrapChoiceValue JNull dir = wrapChoiceValue (JString []) dir
  /\ wrapChoiceValue JUndefined dir = wrapChoiceValue (JString []) dir.
Proof.
  intros Ht. split; [|split; reflexivity].
  rewrite wrapChoiceValue_string. unfold choice_value_html. cbv zeta.
  assert (Htrim : ~ In lt_sign (trim text)) by (intros H; apply Ht; now apply in_trim).
  assert (E : addLexicalClass (trim text) dir = trim text).
  { apply replace_all_none. now apply p_open_needs_bracket. }
  rewrite E, trim_trim.
  unfold Re.test. rewrite (p_word_needs_bracket _ Htrim).
  now rewrite <- !app_assoc.
Qed.

Lemma wrapChoiceValue_wraps_plain_text_witness :
  wrapChoiceValue (JString (lit "  x + 1 ")) (lit "rtl")
  = Normal (lit "<div class=`choice-value` dir=`" ++ lit "rtl"
            ++ lit "`><p class=`LexicalTheme__paragraph` dir=`" ++ lit "rtl" ++ lit "`>"
            ++ trim (lit "  x + 1 ") ++ lit "</p></div>")
  /\ wrapChoiceValue JNull (lit "rtl") = wrapChoiceValue (JString []) (lit "rtl")
  /\ wrapChoiceValue JUndefined (lit "rtl") = wrapChoiceValue (JString []) (lit "rtl").
Proof.
  apply (wrapChoiceValue_wraps_plain_text (lit "  x + 1 ") (lit "rtl")).
  apply not_in_checked. reflexivity.
Defined.

(* ================================================================= *)
(** ** The image downloads *)

(** *** Sets and archives *)

Lemma set_add_fresh (x : jsstring) (s : list jsstring) :
  ~ In x s -> set_add x s = s ++ [x].
Proof.
  intros H. unfold set_add. destruct (set_has x s) eqn:E; [|reflexivity].
  apply set_has_in in E. contradiction.
Qed.

Lemma set_add_nodup (x : jsstring) (s : list jsstring) : NoDup s -> NoDup (set_add x s).
Proof.
  intros H. unfold set_add. destruct (set_has x s) eqn:E; [exact H|].
  apply NoDup_app; [exact H|repeat constructor; intros []|].
  intros y Hy [<-|[]]. apply set_has_in in Hy. congruence.
Qed.

Lemma fold_set_add (l : list jsstring) :
  forall s, NoDup s ->
  NoDup (fold_left (fun s x => set_add x s) l s)
  /\ (forall x, In x (fold_left (fun s x => set_add x s) l s) <-> In x s \/ In x l).
Proof.
  induction l as [|y l IH]; intros s Hs; cbn [fold_left].
  - split; [exact Hs|]. intros x. cbn [In]. tauto.
  - destruct (IH (set_add y s) (set_add_nodup y s Hs)) as [Hn Hin]. split; [exact Hn|].
    intros x. rewrite Hin, set_add_in. cbn [In]. intuition.
Qed.

(** [[...new Set(l)]] holds the elements of [l], each once. *)
Lemma Set_of_spec (l : list jsstring) :
  NoDup (Set_of l) /\ (forall x, In x (Set_of l) <-> In x l).
Proof.
  destruct (fold_set_add l [] (NoDup_nil _)) as [Hn Hin]. split; [exact Hn|].
  intros x. unfold Set_of. rewrite Hin. cbn [In]. tauto.
Qed.

Lemma zip_file_fresh (Blob : Type) (name : jsstring) (data : zip_data Blob)
  (zip : list (jsstring * zip_data Blob)) :
  ~ In name (map fst zip) -> zip_file name data zip = zip ++ [(name, data)].
Proof.
  induction zip as [|[n d] more IH]; cbn [zip_file map fst In app]; [reflexivity|].
  intros H. destruct (jseq n name) eqn:E.
  - apply jseq_eq in E. tauto.
  - rewrite IH; tauto.
Qed.

(** *** One continuation *)

Section ImageProof.

Variable Blob : Type.
Variable imagePaths : list jsstring.
Variable network : nat -> jsstring -> image_response Blob.
Variable zip0 : list (jsstring * zip_data Blob).

Hypothesis paths_distinct : NoDup imagePaths.
Hypothesis zip0_names : forall name, In name (map fst zip0) -> ~ In name imagePaths.

Lemma failed_of_in (done : list nat) (p : jsstring) :
  In p (failed_of network imagePaths done) ->
  exists i, In i done /\ nth i imagePaths [] = p.
Proof.
  unfold failed_of. intros H. apply in_flat_map in H as (i & Hi & H).
  destruct (image_outcome network imagePaths i); [destruct H|].
  destruct H as [<-|[]]. now exists i.
Qed.

Lemma files_of_in (done : list nat) (p : jsstring) :
  In p (map fst (files_of network imagePaths done)) ->
  exists i, In i done /\ nth i imagePaths [] = p.
Proof.
  unfold files_of. intros H. apply in_map_iff in H as ([q d] & <- & H).
  apply in_flat_map in H as (i & Hi & H).
  destruct (image_outcome network imagePaths i); [|destruct H].
  destruct H as [[= <- _]|[]]. now exists i.
Qed.

(** The indices at work and done are below [nextIndex], each once. *)
Lemma inv_fresh (i : nat) (flights done : list nat) (v : image_vars Blob) :
  image_inv imagePaths network zip0 (i :: flights) done v ->
  i < length imagePaths
  /\ ~ In i done
  /\ forall j, In j done -> j < length imagePaths.
Proof.
  intros I. pose proof (img_inv_indices I) as P. pose proof (img_inv_next I) as Hn.
  assert (Hnd : NoDup ((i :: flights) ++ done)).
  { apply (Permutation_NoDup (Permutation_sym P)), seq_NoDup. }
  assert (Hlt : forall j, In j ((i :: flights) ++ done) -> j < img_nextIndex v).
  { intros j Hj. apply (Permutation_in _ P) in Hj. apply in_seq in Hj. lia. }
  split; [|split].
  - specialize (Hlt i (or_introl eq_refl)). lia.
  - cbn [app] in Hnd. inversion Hnd as [|? ? Hout _]; subst.
    intros Hin. apply Hout. apply in_or_app. now right.
  - intros j Hj. assert (j < img_nextIndex v); [|lia].
    apply Hlt. apply in_or_app. now right.
Qed.

Lemma path_fresh (i : nat) (done : list nat) (p : jsstring) :
  i < length imagePaths -> ~ In i done ->
  (forall j, In j done -> j < length imagePaths) ->
  (exists j, In j done /\ nth j imagePaths [] = nth i imagePaths []) -> False.
Proof.
  intros Hi Hout Hdone (j & Hj & E).
  apply (proj1 (NoDup_nth imagePaths []) paths_distinct) in E; [|now apply Hdone|exact Hi].
  subst j. contradiction.
Qed.

Lemma done_indices (i : nat) (flights done : list nat) (next : nat) :
  Permutation ((i :: flights) ++ done) (seq 0 next) ->
  Permutation (flights ++ done ++ [i]) (seq 0 next).
Proof.
  intros P. rewrite <- P. cbn [app]. rewrite app_assoc.
  symmetry. apply Permutation_cons_append.
Qed.

(** A call that ends in a failure leaves its path in the set. *)
Lemma inv_fail (i : nat) (flights done : list nat) (v : image_vars Blob) :
  image_inv imagePaths network zip0 (i :: flights) done v ->
  image_outcome network imagePaths i = None ->
  image_inv imagePaths network zip0 flights (done ++ [i])
    (count_processed (add_failed (nth i imagePaths []) v)).
Proof.
  intros I Hout. destruct (inv_fresh _ _ _ _ I) as (Hi & Hnew & Hdone).
  destruct I as [P Hn Hf Hz Hp]. constructor; cbn.
  - now apply done_indices.
  - exact Hn.
  - rewrite Hf. unfold failed_of at 2. rewrite flat_map_app. cbn [flat_map].
    rewrite Hout, app_nil_r. apply set_add_fresh.
    intros Hin. apply failed_of_in in Hin. now apply (path_fresh i done []).
  - rewrite Hz. unfold files_of at 2. rewrite flat_map_app. cbn [flat_map].
    now rewrite Hout, !app_nil_r.
  - rewrite Hp, length_app. reflexivity.
Qed.

(** A call that ends with the data leaves an entry of its path. *)
Lemma inv_file (i : nat) (blob : Blob) (flights done : list nat) (v : image_vars Blob) :
  image_inv imagePaths network zip0 (i :: flights) done v ->
  image_outcome network imagePaths i = Some blob ->
  image_inv imagePaths network zip0 flights (done ++ [i])
    (count_processed (add_file (nth i imagePaths []) blob v)).
Proof.
  intros I Hout. destruct (inv_fresh _ _ _ _ I) as (Hi & Hnew & Hdone).
  destruct I as [P Hn Hf Hz Hp]. constructor; cbn.
  - now apply done_indices.
  - exact Hn.
  - rewrite Hf. unfold failed_of at 2. rewrite flat_map_app. cbn [flat_map].
    now rewrite Hout, !app_nil_r.
  - rewrite Hz. unfold files_of at 2. rewrite flat_map_app. cbn [flat_map].
    rewrite Hout, app_nil_r, app_assoc. apply zip_file_fresh.
    rewrite map_app. intros Hin. apply in_app_or in Hin as [Hin|Hin].
    + apply (zip0_names _ Hin). now apply nth_In.
    + apply files_of_in in Hin. now apply (path_fresh i done []).
  - rewrite Hp, length_app. reflexivity.
Qed.

(** A worker at the head of its loop. *)
Lemma inv_enter (flights done : list nat) (v v' : image_vars Blob) (w' : image_worker Blob) :
  image_inv imagePaths network zip0 flights done v ->
  image_enter_loop imagePaths network v = (w', v') ->
  worker_ok imagePaths network w'
  /\ (w' = WorkerReturned -> img_nextIndex v' = length imagePaths)
  /\ img_nextIndex v <= img_nextIndex v'
  /\ weight w' + 3 * (length imagePaths - img_nextIndex v')
     <= 3 * (length imagePaths - img_nextIndex v)
  /\ exists done',
       image_inv imagePaths network zip0 (flight w' ++ flights) done' v'.
Proof.
  intros I. unfold image_enter_loop.
  destruct (Nat.ltb_spec (img_nextIndex v) (length imagePaths)) as [Hlt|Hge].
  - assert (I1 : image_inv imagePaths network zip0 (img_nextIndex v :: flights) done
                   (ImageVars (img_nextIndex v + 1) (img_results v) (failedImagePathSet v)
                      (zip v) (processedImages v))).
    { destruct I as [P Hn Hf Hz Hp]. constructor; cbn; try assumption; [|lia].
      rewrite Nat.add_1_r, seq_S. cbn [app plus].
      rewrite <- P. apply Permutation_cons_append. }
    unfold call_mapper. cbv zeta.
    destruct (resolveImageUrl (nth (img_nextIndex v) imagePaths [])) as [imageUrl|] eqn:Eurl.
    + intros [= <- <-]. cbn [worker_ok weight flight img_nextIndex app].
      split; [now exists imageUrl|]. split; [discriminate|]. split; [lia|].
      split; [lia|]. now exists done.
    + intros [= <- <-]. cbn [worker_ok weight flight app].
      split; [exact Logic.I|]. split; [discriminate|]. cbn. split; [lia|]. split; [lia|].
      exists (done ++ [img_nextIndex v]). apply inv_fail; [exact I1|].
      unfold image_outcome. now rewrite Eurl.
  - intros [= <- <-]. cbn [worker_ok weight flight app].
    pose proof (img_inv_next I). split; [exact Logic.I|]. split; [lia|]. split; [lia|].
    split; [lia|]. now exists done.
Qed.

(** One continuation of a worker that has not returned. *)
Lemma inv_resume (w w' : image_worker Blob) (flights done : list nat)
  (v v' : image_vars Blob) :
  worker_ok imagePaths network w ->
  w <> WorkerReturned ->
  image_inv imagePaths network zip0 (flight w ++ flights) done v ->
  image_resume imagePaths network w v = (w', v') ->
  worker_ok imagePaths network w'
  /\ (w' = WorkerReturned -> img_nextIndex v' = length imagePaths)
  /\ img_nextIndex v <= img_nextIndex v'
  /\ weight w' + 3 * (length imagePaths - img_nextIndex v')
     < weight w + 3 * (length imagePaths - img_nextIndex v)
  /\ exists done',
       image_inv imagePaths network zip0 (flight w' ++ flights) done' v'.
Proof.
  intros Hok Hw I. destruct w as [i settles|i settles|i|]; [| | |congruence].
  - destruct Hok as (imageUrl & Eurl & Es). cbn [flight app] in I.
    assert (Hfail : settles = ImageFailure \/ (exists body, settles = ImageResponse false body) ->
                    image_outcome network imagePaths i = None).
    { intros H. unfold image_outcome. rewrite Eurl, <- Es.
      destruct H as [->|[body ->]]; reflexivity. }
    cbn [image_resume]. destruct settles as [|[|] body].
    + intros [= <- <-]. cbn [worker_ok weight flight app].
      split; [exact Logic.I|]. split; [discriminate|]. cbn. split; [lia|]. split; [lia|].
      exists (done ++ [i]). apply inv_fail; [exact I|]. apply Hfail. now left.
    + intros [= <- <-]. cbn [worker_ok weight flight app].
      split; [now exists imageUrl|]. split; [discriminate|]. split; [lia|]. split; [lia|].
      now exists done.
    + intros [= <- <-]. cbn [worker_ok weight flight app].
      split; [exact Logic.I|]. split; [discriminate|]. cbn. split; [lia|]. split; [lia|].
      exists (done ++ [i]). apply inv_fail; [exact I|]. apply Hfail. right. now exists body.
  - destruct Hok as (imageUrl & Eurl & Es). cbn [flight app] in I.
    cbn [image_resume]. destruct settles as [blob|].
    + intros [= <- <-]. cbn [worker_ok weight flight app].
      split; [exact Logic.I|]. split; [discriminate|]. cbn. split; [lia|]. split; [lia|].
      exists (done ++ [i]). apply inv_file; [exact I|].
      unfold image_outcome. now rewrite Eurl, Es.
    + intros [= <- <-]. cbn [worker_ok weight flight app].
      split; [exact Logic.I|]. split; [discriminate|]. cbn. split; [lia|]. split; [lia|].
      exists (done ++ [i]). apply inv_fail; [exact I|].
      unfold image_outcome. now rewrite Eurl, Es.
  - cbn [flight app] in I. cbn [image_resume]. intros He.
    assert (I1 : image_inv imagePaths network zip0 flights done
                   (ImageVars (img_nextIndex v) (assign i (Some tt) (img_results v))
                      (failedImagePathSet v) (zip v) (processedImages v))).
    { destruct I as [P Hn Hf Hz Hp]. now constructor. }
    destruct (inv_enter _ _ _ _ _ I1 He) as (H1 & H2 & H3 & H4 & H5).
    cbn [img_nextIndex] in H3, H4. cbn [weight].
    split; [exact H1|]. split; [exact H2|]. split; [exact H3|]. split; [lia|exact H5].
Qed.

(** *** The pool *)

Lemma image_inv_perm (flights flights' done : list nat) (v : image_vars Blob) :
  Permutation flights flights' ->
  image_inv imagePaths network zip0 flights done v ->
  image_inv imagePaths network zip0 flights' done v.
Proof.
  intros P [Pi Hn Hf Hz Hp]. constructor; try assumption.
  rewrite <- Pi. apply Permutation_app_tail. now symmetry.
Qed.

Lemma assign_middle (l1 l2 : list (image_worker Blob)) (w w' : image_worker Blob) :
  assign (length l1) w' (l1 ++ w :: l2) = l1 ++ w' :: l2.
Proof. induction l1 as [|x l1 IH]; cbn [length app assign]; [reflexivity|now rewrite IH]. Qed.

Lemma image_pending_spec (ws : list (image_worker Blob)) :
  forall b k,
  In k (image_pending_from b ws)
  <-> b <= k /\ exists w, nth_error ws (k - b) = Some w /\ w <> WorkerReturned.
Proof.
  induction ws as [|x ws IH]; intros b k; cbn [image_pending_from].
  - split; [intros []|]. intros [_ (w & H & _)]. destruct (k - b); discriminate.
  - assert (Hrest : In k (image_pending_from (S b) ws)
                    <-> b < k /\ exists w, nth_error ws (k - S b) = Some w
                                           /\ w <> WorkerReturned).
    { rewrite IH. reflexivity. }
    assert (Hshift : b < k -> nth_error (x :: ws) (k - b) = nth_error ws (k - S b)).
    { intros H. now replace (k - b) with (S (k - S b)) by lia. }
    destruct x as [i r|i r|i|]; cbn [In]; rewrite ?Hrest; split.
    all: try (intros [<-|[Hlt (w & Hw & Hne)]];
              [split; [lia|]; rewrite Nat.sub_diag; eexists; split;
                 [reflexivity|discriminate]
              |split; [lia|]; exists w; rewrite Hshift by lia; now split]).
    all: try (intros [Hle (w & Hw & Hne)];
              destruct (Nat.eq_dec b k) as [->|Hneq]; [now left|right];
              split; [lia|]; exists w; rewrite <- Hshift by lia; now split).
    + intros [Hlt (w & Hw & Hne)]. split; [lia|]. exists w. rewrite Hshift by lia. now split.
    + intros [Hle (w & Hw & Hne)]. destruct (Nat.eq_dec b k) as [->|Hneq].
      * rewrite Nat.sub_diag in Hw. cbn in Hw. congruence.
      * split; [lia|]. exists w. rewrite <- Hshift by lia. now split.
Qed.

(** The workers start: each takes an index while there is one. *)
Lemma image_spawn_inv (count : nat) :
  forall (v v' : image_vars Blob) (prev ws : list (image_worker Blob)) (done : list nat),
  image_inv imagePaths network zip0 (flat_map (@flight Blob) prev) done v ->
  Forall (worker_ok imagePaths network) prev ->
  (In WorkerReturned prev -> img_nextIndex v = length imagePaths) ->
  image_spawn imagePaths network count v = (ws, v') ->
  length ws = count
  /\ Forall (worker_ok imagePaths network) (prev ++ ws)
  /\ (In WorkerReturned (prev ++ ws) -> img_nextIndex v' = length imagePaths)
  /\ list_sum (map (@weight Blob) (prev ++ ws)) + 3 * (length imagePaths - img_nextIndex v')
     <= list_sum (map (@weight Blob) prev) + 3 * (length imagePaths - img_nextIndex v)
  /\ exists done',
       image_inv imagePaths network zip0 (flat_map (@flight Blob) (prev ++ ws)) done' v'.
Proof.
  induction count as [|count IH]; intros v v' prev ws done I Hok Hret; cbn [image_spawn].
  - intros [= <- <-]. rewrite app_nil_r. split; [reflexivity|]. split; [exact Hok|].
    split; [exact Hret|]. split; [lia|]. now exists done.
  - destruct (image_enter_loop imagePaths network v) as [w v1] eqn:Ee.
    destruct (image_spawn imagePaths network count v1) as [ws1 v2] eqn:Es.
    intros [= <- <-].
    destruct (inv_enter _ _ _ _ _ I Ee) as (H1 & H2 & H3 & H4 & done1 & I1).
    assert (I1' : image_inv imagePaths network zip0 (flat_map (@flight Blob) (prev ++ [w]))
                    done1 v1).
    { rewrite flat_map_app. cbn [flat_map]. rewrite app_nil_r.
      exact (image_inv_perm _ _ _ _ (Permutation_app_comm _ _) I1). }
    pose proof (img_inv_next I1) as Hn1.
    destruct (IH v1 v2 (prev ++ [w]) ws1 done1 I1') as (L & Hok' & Hret' & Hw & done2 & I2).
    + apply Forall_app. split; [exact Hok|]. now constructor.
    + intros Hin. apply in_app_or in Hin as [Hin|[E|[]]]; [|now apply H2].
      specialize (Hret Hin). lia.
    + exact Es.
    + rewrite <- app_assoc in Hok', Hret', Hw, I2. cbn [app] in Hok', Hret', Hw, I2.
      split; [cbn [length]; now rewrite L|]. split; [exact Hok'|]. split; [exact Hret'|].
      split; [|now exists done2].
      rewrite !map_app, !list_sum_app in Hw. rewrite !map_app, !list_sum_app.
      cbn [map list_sum fold_right] in Hw. cbn [map list_sum fold_right]. lia.
Qed.

(** Every run of the event loop comes to its end, with every index
    handed out and every call ended. *)
Lemma image_event_loop_run (sched : nat -> nat) (fuel : nat) :
  forall (t : nat) (v : image_vars Blob) (ws : list (image_worker Blob)) (done : list nat),
  image_inv imagePaths network zip0 (flat_map (@flight Blob) ws) done v ->
  Forall (worker_ok imagePaths network) ws ->
  (In WorkerReturned ws -> img_nextIndex v = length imagePaths) ->
  ws <> [] ->
  list_sum (map (@weight Blob) ws) + 3 * (length imagePaths - img_nextIndex v) <= fuel ->
  exists v' done',
    image_event_loop imagePaths network sched fuel t v ws = Fulfilled v'
    /\ image_inv imagePaths network zip0 [] done' v'
    /\ img_nextIndex v' = length imagePaths.
Proof.
  induction fuel as [|fuel IH]; intros t v ws done I Hok Hret Hne Hfuel;
    cbn [image_event_loop];
    destruct (image_pending_from 0 ws) as [|w0 more] eqn:Ep.
  1, 3:
    assert (Hall : forall w, In w ws -> w = WorkerReturned)
      by (intros w Hw; destruct (In_nth_error _ _ Hw) as [k Hk];
          destruct w as [i r|i r|i|]; try reflexivity;
          (assert (Hin : In k (image_pending_from 0 ws))
             by (apply image_pending_spec; split; [lia|];
                 rewrite Nat.sub_0_r; eexists; split; [exact Hk|discriminate]));
          rewrite Ep in Hin; destruct Hin);
    assert (Hfl : flat_map (@flight Blob) ws = [])
      by (clear - Hall; induction ws as [|x ws IHws]; [reflexivity|];
          cbn [flat_map]; rewrite (Hall x (or_introl eq_refl)); cbn [flight app];
          apply IHws; intros w Hw; apply Hall; now right);
    rewrite Hfl in I; exists v, done; split; [reflexivity|]; split; [exact I|];
    apply Hret; destruct ws as [|x ws']; [congruence|];
    rewrite <- (Hall x (or_introl eq_refl)); now left.
  - exfalso.
    assert (Hin : In w0 (image_pending_from 0 ws)) by (rewrite Ep; now left).
    apply image_pending_spec in Hin as [_ (w & Hw & Hnr)]. rewrite Nat.sub_0_r in Hw.
    apply nth_error_split in Hw as (l1 & l2 & -> & _).
    rewrite map_app, list_sum_app in Hfuel. cbn [map list_sum fold_right] in Hfuel.
    destruct w; cbn [weight] in Hfuel; try lia. congruence.
  - assert (Hin : In (nth (sched t mod length (w0 :: more)) (w0 :: more) w0)
                     (image_pending_from 0 ws)).
    { rewrite Ep. apply nth_mod_in. discriminate. }
    generalize dependent (nth (sched t mod length (w0 :: more)) (w0 :: more) w0).
    intros k Hin. apply image_pending_spec in Hin as [_ (w & Hw & Hnr)].
    rewrite Nat.sub_0_r in Hw.
    rewrite (nth_error_nth _ _ WorkerReturned Hw).
    destruct (image_resume imagePaths network w v) as [w' v'] eqn:Er.
    apply nth_error_split in Hw as (l1 & l2 & -> & <-).
    rewrite assign_middle.
    apply Forall_app in Hok as [Hok1 Hok2]. inversion Hok2 as [|? ? Hokw Hok2']; subst.
    assert (Iw : image_inv imagePaths network zip0
                   (flight w ++ flat_map (@flight Blob) (l1 ++ l2)) done v).
    { refine (image_inv_perm _ _ _ _ _ I).
      rewrite !flat_map_app. cbn [flat_map]. apply Permutation_app_swap_app. }
    destruct (inv_resume _ _ _ _ _ _ Hokw Hnr Iw Er) as (H1 & H2 & H3 & H4 & done' & I').
    pose proof (img_inv_next I') as Hn'.
    apply (IH (S t) v' (l1 ++ w' :: l2) done').
    + refine (image_inv_perm _ _ _ _ _ I').
      rewrite !flat_map_app. cbn [flat_map]. apply Permutation_app_swap_app.
    + apply Forall_app. split; [exact Hok1|]. now constructor.
    + intros Hin. apply in_app_or in Hin as [Hin|[E|Hin]]; [|now apply H2|].
      * assert (img_nextIndex v = length imagePaths); [|lia].
        apply Hret. apply in_or_app. now left.
      * assert (img_nextIndex v = length imagePaths); [|lia].
        apply Hret. apply in_or_app. right. now right.
    + now destruct l1.
    + rewrite !map_app, !list_sum_app in Hfuel. rewrite !map_app, !list_sum_app.
      cbn [map list_sum fold_right] in Hfuel. cbn [map list_sum fold_right]. lia.
Qed.

End ImageProof.

(** *** The paths of a document *)

Lemma collected_image_src (html p : jsstring) :
  In p (collectImagePaths html) -> image_src p.
Proof.
  intros Hp. unfold collectImagePaths in Hp.
  apply in_flat_map in Hp as (m & Hm & Hp). cbv zeta in Hp.
  destruct (Re.test re_http (or_empty (Re.group 1 m))); [destruct Hp|].
  destruct Hp as [<-|[]].
  destruct (match_all_exec _ _ _ _ _ Hm) as (prev & x & y & _ & He).
  destruct (src_value_capture prev y m He) as (pre & v & Hg & _ & Hv).
  rewrite Hg. cbn [or_empty]. now apply source_pattern_image_src.
Qed.

(** The name of the document in the archive is no image path. *)
Lemma export_name_no_image : ~ image_src EXPORT_NAME.
Proof.
  intros [_ (stem & ext & E & Hext)].
  destruct (image_ext_shape ext Hext) as (Hword & _ & Hrun).
  assert (Hdot : ~ In 46%N ext).
  { intros Hin. rewrite forallb_forall in Hword. now specialize (Hword _ Hin). }
  assert (Erev : rev (lit "html") ++ 46%N :: rev (lit "Questions_Export")
                 = rev ext ++ 46%N :: rev stem).
  { transitivity (rev EXPORT_NAME); [reflexivity|]. rewrite E.
    rewrite !rev_app_distr. cbn [lit lit_char rev app]. now rewrite <- app_assoc. }
  apply first_quote_unique in Erev.
  - apply (f_equal (@rev char)) in Erev. rewrite !rev_involutive in Erev.
    subst ext. destruct (Hrun None [] []) as [prev' H]. vm_compute in H. discriminate.
  - apply not_in_checked. reflexivity.
  - intros Hin. apply in_rev in Hin. contradiction.
Qed.

Lemma image_paths_distinct (Blob : Type) (html : jsstring) :
  NoDup (Set_of (collectImagePaths html))
  /\ forall name,
       In name (map fst [(EXPORT_NAME, @HtmlText Blob html)]) ->
       ~ In name (Set_of (collectImagePaths html)).
Proof.
  destruct (Set_of_spec (collectImagePaths html)) as [Hn Hin]. split; [exact Hn|].
  intros name [<-|[]] H. apply Hin in H. apply collected_image_src in H.
  now apply export_name_no_image.
Qed.

(** *** The whole phase *)

(** Whatever the order of the continuations, the downloads come to an
    end, and the calls have ended in some order [done] of all indices. *)
Lemma download_images_run (Blob : Type) (imagePaths : list jsstring)
  (network : nat -> jsstring -> image_response Blob)
  (zip0 : list (jsstring * zip_data Blob)) (sched : nat -> nat)
  (results : list (option unit)) :
  NoDup imagePaths ->
  (forall name, In name (map fst zip0) -> ~ In name imagePaths) ->
  exists v done,
    download_images imagePaths network sched (ImageVars 0 results [] zip0 0) = Fulfilled v
    /\ Permutation done (seq 0 (length imagePaths))
    /\ failedImagePathSet v = failed_of network imagePaths done
    /\ zip v = zip0 ++ files_of network imagePaths done
    /\ processedImages v = length imagePaths.
Proof.
  intros Hnd Hnames. unfold download_images.
  assert (I0 : image_inv imagePaths network zip0 (flat_map (@flight Blob) []) []
                 (ImageVars 0 results [] zip0 0)).
  { constructor; cbn; [constructor|lia|reflexivity|now rewrite app_nil_r|reflexivity]. }
  destruct (Nat.ltb_spec 0 (length imagePaths)) as [Hpos|Hzero].
  - destruct (image_spawn imagePaths network
                (workerCount imagePaths (Fin (inject_Z IMAGE_FETCH_CONCURRENCY)))
                (ImageVars 0 results [] zip0 0)) as [ws v1] eqn:Es.
    destruct (image_spawn_inv Blob imagePaths network zip0 Hnd _ _ _ [] _ []
                I0 (Forall_nil _) (fun H => match H with end) Es)
      as (L & Hok & Hret & Hw & done1 & I1).
    cbn [app] in Hok, Hret, Hw, I1. cbn [map list_sum fold_right img_nextIndex] in Hw.
    assert (Hws : ws <> []).
    { pose proof (@workerCount_positive _ imagePaths
                    (Fin (inject_Z IMAGE_FETCH_CONCURRENCY))) as Hc.
      destruct ws; [|discriminate]. cbn [length] in L.
      assert (Fin (inject_Z IMAGE_FETCH_CONCURRENCY) <> NaN) by discriminate. intuition lia. }
    destruct (image_event_loop_run Blob imagePaths network zip0 Hnd Hnames sched
                (3 * length imagePaths) 0 v1 ws done1 I1 Hok Hret Hws)
      as (v' & done' & Hrun & I' & Hnext); [lia|].
    exists v', done'. split; [exact Hrun|].
    destruct I' as [P _ Hf Hz Hp]. cbn [app] in P. rewrite Hnext in P.
    repeat split; try assumption.
    rewrite Hp, (Permutation_length P). apply length_seq.
  - exists (ImageVars 0 results [] zip0 0), [].
    assert (E : length imagePaths = 0) by lia. rewrite E.
    repeat split; cbn; [constructor|now rewrite app_nil_r].
Qed.


(** What the calls leave, by what became of each image. *)
Lemma failed_of_spec (Blob : Type) (network : nat -> jsstring -> image_response Blob)
  (imagePaths : list jsstring) (done : list nat) (p : jsstring) :
  In p (failed_of network imagePaths done)
  <-> exists i, In i done /\ nth i imagePaths [] = p
                /\ image_outcome network imagePaths i = None.
Proof.
  unfold failed_of. rewrite in_flat_map. split.
  - intros (i & Hi & H). destruct (image_outcome network imagePaths i) eqn:E; [destruct H|].
    destruct H as [<-|[]]. now exists i.
  - intros (i & Hi & <- & E). exists i. rewrite E. split; [exact Hi|now left].
Qed.

Lemma files_of_spec (Blob : Type) (network : nat -> jsstring -> image_response Blob)
  (imagePaths : list jsstring) (done : list nat) (p : jsstring) :
  In p (map fst (files_of network imagePaths done))
  <-> exists i, In i done /\ nth i imagePaths [] = p
                /\ image_outcome network imagePaths i <> None.
Proof.
  unfold files_of. rewrite in_map_iff. split.
  - intros ([q d] & <- & H). apply in_flat_map in H as (i & Hi & H).
    destruct (image_outcome network imagePaths i) eqn:E; [|destruct H].
    destruct H as [[= <- _]|[]]. exists i. rewrite E. now repeat split.
  - intros (i & Hi & <- & E).
    destruct (image_outcome network imagePaths i) as [blob|] eqn:Eo; [|congruence].
    exists (nth i imagePaths [], ImageData blob). split; [reflexivity|].
    apply in_flat_map. exists i. rewrite Eo. split; [exact Hi|now left].
Qed.

Lemma failed_files_split (Blob : Type) (network : nat -> jsstring -> image_response Blob)
  (imagePaths : list jsstring) (done : list nat) :
  NoDup imagePaths -> NoDup done -> (forall i, In i done -> i < length imagePaths) ->
  NoDup (failed_of network imagePaths done)
  /\ NoDup (map fst (files_of network imagePaths done))
  /\ length (failed_of network imagePaths done)
     + length (files_of network imagePaths done) = length done.
Proof.
  intros Hp. induction done as [|i done IH]; intros Hd Hlt.
  - cbn. repeat split; constructor.
  - inversion Hd as [|? ? Hout Hd']; subst.
    destruct IH as (IH1 & IH2 & IH3); [exact Hd'|intros j Hj; apply Hlt; now right|].
    assert (Hnew : forall j, In j done -> nth j imagePaths [] <> nth i imagePaths []).
    { intros j Hj E. apply (proj1 (NoDup_nth imagePaths []) Hp) in E.
      - now subst j.
      - apply Hlt. now right.
      - apply Hlt. now left. }
    unfold failed_of, files_of in *. cbn [flat_map].
    destruct (image_outcome network imagePaths i) as [blob|]; cbn [app map fst length].
    + split; [exact IH1|]. split; [|lia]. constructor; [|exact IH2].
      intros Hin. apply (files_of_spec Blob network imagePaths done) in Hin
        as (j & Hj & E & _).
      now apply (Hnew j).
    + split; [|split; [exact IH2|lia]]. constructor; [|exact IH1].
      intros Hin. apply (failed_of_spec Blob network imagePaths done) in Hin
        as (j & Hj & E & _).
      now apply (Hnew j).
Qed.

(** The paths of a document are the failed paths and the names of the
    image entries. *)
Lemma packageImages_paths (Blob : Type) (network : nat -> jsstring -> image_response Blob)
  (html : jsstring) (sched : nat -> nat) :
  exists zipped failed,
    packageImages network html sched = Fulfilled (zipped, failed)
    /\ hd_error zipped = Some (EXPORT_NAME, HtmlText html)
    /\ forall p, In p (collectImagePaths html)
                 <-> In p failed \/ In p (map fst (tl zipped)).
Proof.
  destruct (image_paths_distinct Blob html) as [Hnd Hnames].
  destruct (Set_of_spec (collectImagePaths html)) as [_ Hset].
  destruct (download_images_run Blob _ network _ sched
              (repeat None (length (Set_of (collectImagePaths html)))) Hnd Hnames)
    as (v & done & Hrun & P & Hf & Hz & _).
  exists (zip v), (failedImagePathSet v).
  split; [unfold packageImages; cbv zeta; cbn [zip_file]; now rewrite Hrun|].
  rewrite Hz, Hf. cbn [app hd_error tl]. split; [reflexivity|].
  assert (Hlt : forall i, In i done <-> i < length (Set_of (collectImagePaths html))).
  { intros i. split.
    - intros Hi. apply (Permutation_in _ P) in Hi. apply in_seq in Hi. lia.
    - intros Hi. apply (Permutation_in _ (Permutation_sym P)). apply in_seq. lia. }
  intros p. rewrite <- Hset. split.
  - intros Hp. destruct (In_nth _ _ [] Hp) as (i & Hi & E).
    destruct (image_outcome network (Set_of (collectImagePaths html)) i) eqn:Eo.
    + right. apply files_of_spec. exists i. rewrite Eo. split; [now apply Hlt|].
      split; [exact E|discriminate].
    + left. apply failed_of_spec. exists i. split; [now apply Hlt|]. now split.
  - intros [H|H].
    + apply failed_of_spec in H as (i & Hi & <- & _). apply nth_In. now apply Hlt.
    + apply files_of_spec in H as (i & Hi & <- & _). apply nth_In. now apply Hlt.
Qed.

(** X22.  When phases 2 and 3 are through, every image path of the
    document is accounted for once: the archive starts with the
    document, its other entries and the failed paths are the paths
    [collectImagePaths] found, no path is both failed and in the
    archive, none is listed twice, and the numbers add up to the number
    of distinct paths.  A path [resolveImageUrl] refuses is among the
    failed ones whatever the network does. *)
Theorem packageImages_accounts_for_every_path (Blob : Type)
  (network : nat -> jsstring -> image_response Blob) (html : jsstring) (sched : nat -> nat)
  (zipped : list (jsstring * zip_data Blob)) (failed : list jsstring) :
  packageImages network html sched = Fulfilled (zipped, failed) ->
  hd_error zipped = Some (EXPORT_NAME, HtmlText html)
  /\ NoDup (map fst zipped)
  /\ NoDup failed
  /\ (forall p, In p (collectImagePaths html)
                <-> In p failed \/ In p (map fst (tl zipped)))
  /\ (forall p, In p failed -> ~ In p (map fst zipped))
  /\ length failed + length (tl zipped) = length (Set_of (collectImagePaths html))
  /\ (forall p, In p (collectImagePaths html) -> resolveImageUrl p = None -> In p failed).
Proof.
  destruct (image_paths_distinct Blob html) as [Hnd Hnames].
  destruct (Set_of_spec (collectImagePaths html)) as [_ Hset].
  destruct (download_images_run Blob _ network _ sched
              (repeat None (length (Set_of (collectImagePaths html)))) Hnd Hnames)
    as (v & done & Hrun & P & Hf & Hz & _).
  unfold packageImages. cbv zeta. cbn [zip_file]. rewrite Hrun, Hf, Hz. intros [= <- <-].
  cbn [app hd_error tl map fst].
  assert (Hdone : NoDup done) by (apply (Permutation_NoDup (Permutation_sym P)), seq_NoDup).
  assert (Hlt : forall i, In i done <-> i < length (Set_of (collectImagePaths html))).
  { intros i. split.
    - intros Hi. apply (Permutation_in _ P) in Hi. apply in_seq in Hi. lia.
    - intros Hi. apply (Permutation_in _ (Permutation_sym P)). apply in_seq. lia. }
  destruct (failed_files_split Blob network _ done Hnd Hdone (fun i Hi => proj1 (Hlt i) Hi))
    as (N1 & N2 & Hlen).
  assert (Hdisj : forall p, In p (failed_of network (Set_of (collectImagePaths html)) done) ->
                            ~ In p (map fst (files_of network
                                               (Set_of (collectImagePaths html)) done))).
  { intros p H1 H2. apply failed_of_spec in H1 as (i & Hi & Ei & Hnone).
    apply files_of_spec in H2 as (j & Hj & Ej & Hsome).
    rewrite <- Ej in Ei. apply (proj1 (NoDup_nth _ []) Hnd) in Ei; [|now apply Hlt..].
    subst j. contradiction. }
  assert (Hpath : forall p, In p (failed_of network (Set_of (collectImagePaths html)) done) ->
                            In p (Set_of (collectImagePaths html))).
  { intros p H. apply failed_of_spec in H as (i & Hi & <- & _). apply nth_In. now apply Hlt. }
  split; [reflexivity|]. split; [|split; [exact N1|]].
  { constructor; [|exact N2]. intros H. apply files_of_spec in H as (i & Hi & E & _).
    apply (Hnames EXPORT_NAME (or_introl eq_refl)). rewrite <- E. apply nth_In.
    now apply Hlt. }
  split; [|split; [|split]].
  - intros p. rewrite <- Hset. split.
    + intros Hp. destruct (In_nth _ _ [] Hp) as (i & Hi & E).
      destruct (image_outcome network (Set_of (collectImagePaths html)) i) eqn:Eo.
      * right. apply files_of_spec. exists i. rewrite Eo. split; [now apply Hlt|].
        split; [exact E|discriminate].
      * left. apply failed_of_spec. exists i. split; [now apply Hlt|]. now split.
    + intros [H|H]; [now apply Hpath|].
      apply files_of_spec in H as (i & Hi & <- & _). apply nth_In. now apply Hlt.
  - intros p Hp [<-|H]; [|now apply (Hdisj p)].
    apply (Hnames EXPORT_NAME (or_introl eq_refl)). now apply Hpath.
  - rewrite Hlen, (Permutation_length P). apply length_seq.
  - intros p Hp Hurl. apply Hset in Hp. destruct (In_nth _ _ [] Hp) as (i & Hi & E).
    apply failed_of_spec. exists i. split; [now apply Hlt|]. split; [exact E|].
    subst p. unfold image_outcome.
    destruct (resolveImageUrl _) as [imageUrl|] eqn:Eu; [discriminate|reflexivity].
Qed.

(** Three images, one of them served. *)
Lemma packageImages_accounts_for_every_path_witness :
  hd_error [(EXPORT_NAME, HtmlText images_sample); (lit "images/Q1/a.png", ImageData 7)]
  = Some (EXPORT_NAME, HtmlText images_sample)
  /\ NoDup (map fst [(EXPORT_NAME, @HtmlText nat images_sample);
                     (lit "images/Q1/a.png", ImageData 7)])
  /\ NoDup [lit "b.png"; lit "images/Q2/c.svg"]
  /\ (forall p, In p (collectImagePaths images_sample)
                <-> In p [lit "b.png"; lit "images/Q2/c.svg"]
                    \/ In p (map fst (tl [(EXPORT_NAME, @HtmlText nat images_sample);
                                          (lit "images/Q1/a.png", ImageData 7)])))
  /\ (forall p, In p [lit "b.png"; lit "images/Q2/c.svg"] ->
                ~ In p (map fst [(EXPORT_NAME, @HtmlText nat images_sample);
                                 (lit "images/Q1/a.png", ImageData 7)]))
  /\ length [lit "b.png"; lit "images/Q2/c.svg"]
     + length (tl [(EXPORT_NAME, @HtmlText nat images_sample);
                   (lit "images/Q1/a.png", ImageData 7)])
     = length (Set_of (collectImagePaths images_sample))
  /\ (forall p, In p (collectImagePaths images_sample) -> resolveImageUrl p = None ->
                In p [lit "b.png"; lit "images/Q2/c.svg"]).
Proof.
  apply (packageImages_accounts_for_every_path nat image_network_sample images_sample
           (fun t => t)).
  vm_compute. reflexivity.
Defined.

(* ================================================================= *)
(** ** The frame of the document *)

(** *** Text before the questions *)

(** The attribute name does not start in a text that neither [rc] nor
    [c] would complete. *)
Lemma src_name_fails_inside (c : char) (x y : jsstring) (prev : option char) :
  Re.exec_at re_src_name prev (c :: x ++ lit "rc") = None ->
  Re.exec_at re_src_name prev (c :: x ++ lit "c") = None ->
  Re.exec_at re_src_name prev (c :: x ++ y) = None.
Proof.
  unfold Re.exec_at.
  change re_src_name
    with (let L := fun k => Re.Cls (fun x => N.eqb (Re.fold_case x) k) in
          Re.Seq (L 83%N) (Re.Seq (L 82%N) (L 67%N))).
  cbv zeta beta.
  change (lit "rc") with [114; 99]%N. change (lit "c") with [99]%N.
  change (N.eqb (Re.fold_case 114%N) 82%N) with true.
  intros H1 H2.
  destruct x as [|b [|d x]]; destruct y as [|y0 [|y1 y]];
    cbn [Re.run flat_map app Re.m_rest Re.m_prev Re.m_caps] in *;
    repeat match goal with
           | |- context [N.eqb (Re.fold_case ?v) ?k] =>
               is_var v; destruct (N.eqb (Re.fold_case v) k);
               cbn [Re.run flat_map app Re.m_rest Re.m_prev Re.m_caps] in *
           | H : context [N.eqb (Re.fold_case ?v) ?k] |- _ =>
               is_var v; destruct (N.eqb (Re.fold_case v) k);
               cbn [Re.run flat_map app Re.m_rest Re.m_prev Re.m_caps] in *
           end;
    try reflexivity; try discriminate.
Qed.

(** Text in which the attribute name neither stands nor starts holds no
    source, whatever follows. *)
Lemma collect_skip_text (x y : jsstring) :
  forall prev,
  Re.test_from re_src_name prev (x ++ lit "rc") = false ->
  Re.test_from re_src_name prev (x ++ lit "c") = false ->
  Re.match_all_from re_src_value 0 prev (x ++ y)
  = Re.match_all_from re_src_value 0 None y.
Proof.
  induction x as [|c x IH]; intros prev H1 H2.
  - apply match_all_prev. reflexivity.
  - cbn [app] in *.
    apply test_from_false_cons in H1 as [E1 H1].
    apply test_from_false_cons in H2 as [E2 H2].
    rewrite match_all_nomatch.
    + rewrite <- (IH (Some c) H1 H2). apply match_all_prev. reflexivity.
    + reflexivity.
    + apply src_value_needs_name. now apply src_name_fails_inside.
Qed.

(** *** The shape of a match *)

(** A match of the source pattern: before the opening quote only the
    name, blanks and the equals sign; between the quotes a text without
    a quote that ends in a letter or digit. *)
Lemma src_value_parts (prev : option char) (s : jsstring) (m : Re.result) :
  Re.exec_at re_src_value prev s = Some m ->
  exists pre v e,
    Re.group 1 m = Some (v ++ [e])
    /\ Re.matched m = pre ++ dquote :: v ++ [e; dquote]
    /\ ~ In dquote pre /\ ~ In lt_sign pre
    /\ ~ In dquote (v ++ [e])
    /\ Re.is_word e = true.
Proof.
  intros H. destruct (exec_at_split _ _ _ _ H) as [Hsplit _]. revert H.
  unfold Re.exec_at.
  destruct (Re.run re_src_value (Re.MState prev s [])) as [|st' l] eqn:E; [discriminate|].
  intros [= Hm].
  assert (Hin : In st' (Re.run re_src_value (Re.MState prev s []))) by (rewrite E; now left).
  clear E l.
  change re_src_value
    with (Re.Seq (Re.str_i "src")
            (Re.Seq Re.spaces (Re.Seq (Re.str "=") (Re.Seq Re.spaces
               (Re.Seq (Re.chr dquote)
                  (Re.Seq (Re.Grp 1 (Re.Seq (Re.Star (Re.not_chr dquote))
                                       (Re.Seq (Re.chr 46%N) re_image_ext)))
                     (Re.chr dquote))))))) in Hin.
  apply run_seq in Hin as (m1 & H1 & Hin). apply run_sound in H1 as (u1 & E1 & M1).
  apply run_seq in Hin as (m2 & H2 & Hin). apply run_sound in H2 as (u2 & E2 & M2).
  apply run_seq in Hin as (m3 & H3 & Hin). apply run_sound in H3 as (u3 & E3 & M3).
  apply run_seq in Hin as (m4 & H4 & Hin). apply run_sound in H4 as (u4 & E4 & M4).
  apply run_seq in Hin as (m5 & H5 & Hin). apply run_chr in H5 as [E5 _].
  apply run_seq in Hin as (m6 & H6 & Hin).
  apply run_group in H6 as (v & more & Hcaps & E6 & Hv).
  apply run_chr in Hin as [E7 Hcaps'].
  destruct (source_pattern_image_src v Hv) as [Hq (stem & ext & Ev & Hext)].
  destruct (image_ext_shape ext Hext) as (Hword & Hne & _).
  destruct (exists_last Hne) as (ext' & e & Eext).
  assert (He : Re.is_word e = true).
  { rewrite forallb_forall in Hword. apply Hword. rewrite Eext. apply in_or_app.
    right. now left. }
  assert (Ev' : v = (stem ++ lit "." ++ ext') ++ [e]).
  { rewrite Ev, Eext. now rewrite <- !app_assoc. }
  exists (u1 ++ u2 ++ u3 ++ u4), (stem ++ lit "." ++ ext'), e.
  rewrite <- Ev'.
  assert (Hname : forall c, In c u1 -> Re.is_word c = true).
  { revert M1.
    change (Re.str_i "src")
      with (let L := fun k => Re.Cls (fun x => N.eqb (Re.fold_case x) k) in
            Re.Seq (L 83%N) (Re.Seq (L 82%N) (L 67%N))).
    cbv zeta beta. cbn [matches].
    intros (a1 & a2 & -> & (a & -> & Ha) & a3 & a4 & -> & (b & -> & Hb) & c0 & -> & Hc).
    intros c [<-|[<-|[<-|[]]]];
      [apply (letter_is_word _ 83%N)|apply (letter_is_word _ 82%N)
      |apply (letter_is_word _ 67%N)]; auto. }
  assert (Hu3 : u3 = [61%N]).
  { revert M3. change (Re.str "=") with (Re.Cls (N.eqb 61%N)). cbn [matches].
    intros (c & -> & Hc). apply N.eqb_eq in Hc. now subst c. }
  cbn [matches] in M2, M4.
  assert (Hpre : forall k, Re.is_word k = false -> is_space k = false -> k <> 61%N ->
                           ~ In k (u1 ++ u2 ++ u3 ++ u4)).
  { intros k Hw Hs Hk Hin. apply in_app_or in Hin as [Hin|Hin].
    - rewrite (Hname k Hin) in Hw. discriminate.
    - apply in_app_or in Hin as [Hin|Hin]; [now apply (not_in_spaces k u2 M2 Hs)|].
      apply in_app_or in Hin as [Hin|Hin]; [|now apply (not_in_spaces k u4 M4 Hs)].
      rewrite Hu3 in Hin. destruct Hin as [Hin|[]]. congruence. }
  split; [|split; [|split; [|split; [|split]]]].
  - rewrite <- Hm. unfold Re.group. cbn [Re.caps]. rewrite Hcaps', Hcaps. reflexivity.
  - cbn [Re.m_rest] in E1.
    assert (Es : s = (u1 ++ u2 ++ u3 ++ u4 ++ dquote :: v ++ [dquote]) ++ Re.rest m).
    { rewrite <- Hm. cbn [Re.rest]. rewrite E1, E2, E3, E4, E5, E6, E7.
      rewrite <- !app_assoc. cbn [app]. now rewrite <- !app_assoc. }
    rewrite Hsplit in Es at 1. apply app_inv_tail in Es. rewrite Es.
    rewrite Ev'. rewrite <- !app_assoc. cbn [app]. reflexivity.
  - apply Hpre; [reflexivity|reflexivity|discriminate].
  - apply Hpre; [reflexivity|reflexivity|discriminate].
  - exact Hq.
  - exact He.
Qed.

(** *** Text behind the questions *)

Section DocumentTail.

(** The text behind: [T1], an equals sign, a double quote, [T2]. *)
Variables T1 T2 : jsstring.

Hypothesis tail_quote : ~ In dquote T1.
Hypothesis tail_bracket : In lt_sign T1.
Hypothesis tail_names : Re.test re_src_name (T1 ++ 61%N :: dquote :: T2) = false.

(** At every position of a text, the pattern finds with the tail behind
    what it finds without. *)
Lemma exec_with_tail (prev : option char) (y : jsstring) :
  match Re.exec_at re_src_value prev (y ++ T1 ++ 61%N :: dquote :: T2),
        Re.exec_at re_src_value prev y with
  | Some m', Some m =>
      Re.group 1 m' = Re.group 1 m /\ length (Re.matched m') = length (Re.matched m)
  | None, None => True
  | _, _ => False
  end.
Proof.
  destruct (Re.exec_at re_src_value prev y) as [m|] eqn:Ey.
  - destruct (Re.exec_at re_src_value prev (y ++ T1 ++ 61%N :: dquote :: T2))
      as [m'|] eqn:Et.
    + destruct (exec_at_split _ _ _ _ Ey) as [Hy _].
      destruct (exec_at_split _ _ _ _ Et) as [Ht _].
      destruct (src_value_parts _ _ _ Ey) as (pre & v & e & Hg & Hm & Hq & _ & Hv & _).
      destruct (src_value_parts _ _ _ Et) as (pre' & v' & e' & Hg' & Hm' & Hq' & _ & Hv' & _).
      rewrite Hy, Hm, Hm' in Ht.
      assert (E : pre ++ dquote :: (v ++ [e]) ++ dquote
                           :: Re.rest m ++ T1 ++ 61%N :: dquote :: T2
                  = pre' ++ dquote :: (v' ++ [e']) ++ dquote :: Re.rest m').
      { repeat (rewrite <- app_assoc in Ht; cbn [app] in Ht).
        repeat (rewrite <- app_assoc; cbn [app]). exact Ht. }
      pose proof (first_quote_unique dquote _ _ _ _ Hq Hq' E) as ->.
      apply app_inv_head in E. injection E as E.
      pose proof (first_quote_unique dquote _ _ _ _ Hv Hv' E) as Ev.
      rewrite Hg, Hg', Hm, Hm'. split; [now rewrite Ev|].
      rewrite !length_app. cbn [length]. rewrite !length_app. cbn [length].
      apply (f_equal (@length char)) in Ev. rewrite !length_app in Ev. cbn [length] in Ev. lia.
    + apply (exec_at_extend re_src_value prev prev y (T1 ++ 61%N :: dquote :: T2)
               simple_re_src_value); [congruence|exact Et].
  - destruct (Re.exec_at re_src_value prev (y ++ T1 ++ 61%N :: dquote :: T2))
      as [m'|] eqn:Et; [|exact I].
    destruct (exec_at_split _ _ _ _ Et) as [Ht Hm].
    destruct (src_value_parts _ _ _ Et) as (pre & v & e & _ & HM & Hq & Hlt & Hv & He).
    assert (Hinside : forall l, y = Re.matched m' ++ l -> False).
    { intros l El.
      destruct (run_complete re_src_value simple_re_src_value _ Hm l prev []) as (st' & Hin & _).
      revert Ey. unfold Re.exec_at. rewrite El.
      destruct (Re.run re_src_value (Re.MState prev (Re.matched m' ++ l) []));
        [destruct Hin|discriminate]. }
    apply app_eq_app in Ht as (l & [[El _]|[El ET]]); [now apply (Hinside l)|].
    destruct l as [|l0 l] using rev_ind; [apply (Hinside []); now rewrite El, !app_nil_r|].
    clear IHl.
    assert (Hbad : forall z, pre = (y ++ T1 ++ [61%N]) ++ z -> False).
    { intros z Ez. apply Hlt. rewrite Ez. apply in_or_app. left.
      apply in_or_app. right. apply in_or_app. now left. }
    rewrite HM in El.
    replace (pre ++ dquote :: v ++ [e; dquote]) with ((pre ++ dquote :: v ++ [e]) ++ [dquote])
      in El by (rewrite <- !app_assoc; cbn [app]; rewrite <- !app_assoc; reflexivity).
    rewrite app_assoc in El. apply app_inj_tail in El as [El <-].
    assert (ET' : (T1 ++ [61%N]) ++ dquote :: T2 = l ++ dquote :: Re.rest m').
    { rewrite <- !app_assoc. cbn [app]. etransitivity; [exact ET|].
      now rewrite <- app_assoc. }
    assert (Hl : l = T1 ++ [61%N] \/ exists l4, l = (T1 ++ [61%N]) ++ dquote :: l4).
    { apply app_eq_app in ET' as (l3 & [[E1 E2]|[E1 E2]]).
      - destruct l3 as [|c l3]; [left; rewrite app_nil_r in E1; now symmetry|].
        injection E2 as <- _. exfalso.
        assert (Hin : In dquote (T1 ++ [61%N])).
        { rewrite E1. apply in_or_app. right. now left. }
        apply in_app_or in Hin as [Hin|[Hin|[]]]; [contradiction|discriminate].
      - destruct l3 as [|c l3]; [left; now rewrite app_nil_r in E1|right].
        injection E2 as <- _. now exists l3. }
    destruct Hl as [->|[l4 ->]].
    + replace (pre ++ dquote :: v ++ [e]) with ((pre ++ dquote :: v) ++ [e]) in El
        by (now rewrite <- app_assoc).
      rewrite app_assoc in El. apply app_inj_tail in El as [_ ->]. discriminate.
    + replace (y ++ (T1 ++ [61%N]) ++ dquote :: l4)
        with ((y ++ T1 ++ [61%N]) ++ dquote :: l4) in El
        by (now rewrite <- !app_assoc).
      replace (pre ++ dquote :: v ++ [e]) with (pre ++ dquote :: (v ++ [e])) in El
        by reflexivity.
      symmetry in El. apply app_eq_app in El as (l5 & [[E1 E2]|[E1 E2]]).
      * destruct l5 as [|c l5];
          [apply (Hbad []); rewrite app_nil_r in *; now symmetry|].
        injection E2 as <- E2. apply Hv. rewrite E2. apply in_or_app. right. now left.
      * apply (Hbad l5). exact E1.
Qed.

(** Where the attribute name does not stand there is no match. *)
Lemma no_name_no_match (s : jsstring) :
  forall prev, Re.test_from re_src_name prev s = false ->
  forall k prev', Re.match_all_from re_src_value k prev' s = [].
Proof.
  induction s as [|c s IH]; intros prev H k prev'.
  - destruct k; reflexivity.
  - apply test_from_false_cons in H as [Hc Hs]. destruct k as [|k]; cbn [Re.match_all_from].
    + rewrite (src_value_needs_name prev' (c :: s)).
      * now apply (IH (Some c)).
      * now rewrite (exec_at_simple re_src_name prev' prev _ simple_re_src_name).
    + now apply (IH (Some c)).
Qed.

(** The sources found in a text are those found with the tail behind. *)
Lemma tail_adds_nothing (d : jsstring) :
  forall k prev,
  map (Re.group 1) (Re.match_all_from re_src_value k prev (d ++ T1 ++ 61%N :: dquote :: T2))
  = map (Re.group 1) (Re.match_all_from re_src_value k prev d).
Proof.
  induction d as [|c d IH]; intros k prev.
  - cbn [app]. rewrite (no_name_no_match _ None tail_names). now destruct k.
  - destruct k as [|k]; [|cbn [app Re.match_all_from]; apply IH].
    pose proof (exec_with_tail prev (c :: d)) as H.
    cbn [app Re.match_all_from] in *.
    destruct (Re.exec_at re_src_value prev (c :: d ++ T1 ++ 61%N :: dquote :: T2)) as [m'|],
             (Re.exec_at re_src_value prev (c :: d)) as [m|]; try contradiction.
    + destruct H as [Hg Hl]. cbn [map]. rewrite Hg, Hl. f_equal. apply IH.
    + apply IH.
Qed.

End DocumentTail.

(** The paths come from the first groups of the matches. *)
Lemma collectImagePaths_groups (html : jsstring) :
  collectImagePaths html
  = flat_map (fun g => if Re.test re_http (or_empty g) then [] else [or_empty g])
      (map (Re.group 1) (Re.match_all re_src_value html)).
Proof.
  unfold collectImagePaths. generalize (Re.match_all re_src_value html) as l.
  induction l as [|m l IH]; [reflexivity|]. cbn [flat_map map]. now rewrite IH.
Qed.

(** The matches of the document are those of the markup. *)
Lemma frame_matches (questionDivs : jsstring) :
  map (Re.group 1)
    (Re.match_all_from re_src_value 0 None (EXPORT_HEAD ++ questionDivs ++ EXPORT_TAIL))
  = map (Re.group 1) (Re.match_all_from re_src_value 0 None questionDivs).
Proof.
  assert (Ehead : EXPORT_HEAD
                  = firstn 1303 EXPORT_HEAD
                    ++ lit "src=`https://cdn.jsdelivr.net/npm/katex@0.16.9/dist/katex.min.js`"
                    ++ skipn 1368 EXPORT_HEAD) by (vm_compute; reflexivity).
  assert (Etail : EXPORT_TAIL
                  = firstn 494 EXPORT_TAIL ++ 61%N :: dquote :: skipn 496 EXPORT_TAIL)
    by (vm_compute; reflexivity).
  rewrite Ehead, Etail at 1.
  rewrite <- !app_assoc.
  (* up to the script of the frame *)
  rewrite collect_skip_text by (vm_compute; reflexivity).
  (* its source is no image *)
  change (lit "src=`https://cdn.jsdelivr.net/npm/katex@0.16.9/dist/katex.min.js`")
    with (115%N :: lit "rc=`https://cdn.jsdelivr.net/npm/katex@0.16.9/dist/katex.min.js`").
  cbn [app].
  rewrite match_all_nomatch; [|reflexivity|vm_compute; reflexivity].
  (* the rest of the frame before the markup *)
  rewrite app_assoc.
  rewrite collect_skip_text by (vm_compute; reflexivity).
  (* the text behind the markup *)
  apply tail_adds_nothing.
  - apply not_in_checked. vm_compute. reflexivity.
  - vm_compute. tauto.
  - vm_compute. reflexivity.
Qed.

(** X23.  The frame of the document brings no image path: whatever the
    markup of the questions is, the paths collected from the whole
    document, the template of [generateExportHTML] around that markup,
    are the paths collected from the markup alone.  (The one [src] of the
    frame is the KaTeX script; no source of the markup runs on into the
    text behind it.) *)
Theorem exportDocument_frame_brings_no_path (questionDivs : jsstring) :
  collectImagePaths (exportDocument questionDivs) = collectImagePaths questionDivs.
Proof.
  rewrite !collectImagePaths_groups. f_equal. apply frame_matches.
Qed.

(* ================================================================= *)
(** ** From the markup to the archive *)

(** X24.  Once the markup of the questions is made, nothing in phases 2
    and 3 rejects.  Whatever that markup is, whatever the network gives
    and in whatever order the downloads settle, they come to an end: the
    entries of the archive start with the document built around the
    markup, under its fixed name, and the image paths of the markup, to
    which the template around it adds none, are exactly the failed paths
    and the names of the other entries. *)
Theorem exportDocument_packs_images_of_markup (Blob : Type)
  (network : nat -> jsstring -> image_response Blob)
  (divs : jsstring) (sched : nat -> nat) :
  exists zipped failed,
    packageImages network (exportDocument divs) sched = Fulfilled (zipped, failed)
    /\ hd_error zipped = Some (EXPORT_NAME, HtmlText (exportDocument divs))
    /\ forall p, In p (collectImagePaths divs)
                 <-> In p failed \/ In p (map fst (tl zipped)).
Proof.
  assert (E : collectImagePaths (exportDocument divs)
              = collectImagePaths divs).
  { rewrite !collectImagePaths_groups. f_equal. apply frame_matches. }
  revert E. generalize (exportDocument divs) as html. intros html E.
  destruct (packageImages_paths Blob network html sched)
    as (zipped & failed & Hrun & Hhd & Hp).
  exists zipped, failed. split; [exact Hrun|]. split; [exact Hhd|].
  intros p. rewrite <- E. apply Hp.
Qed.

(* ================================================================= *)
(** ** Every image tag the pattern takes *)

(** *** The parts of the pattern, one by one *)

(** The tag name is four units, in any case. *)
Lemma run_img_open (o t : jsstring) (prev : option char) (caps : list (nat * jsstring)) :
  matches re_img_open o ->
  length o = 4
  /\ exists p, Re.run re_img_open (Re.MState prev (o ++ t) caps) = [Re.MState p t caps].
Proof.
  change re_img_open
    with (let L := fun k => Re.Cls (fun x => N.eqb (Re.fold_case x) k) in
          Re.Seq (L 60%N) (Re.Seq (L 73%N) (Re.Seq (L 77%N) (L 71%N)))).
  cbv zeta beta. cbn [matches]. intros H.
  repeat match goal with
         | H : exists _, _ |- _ => destruct H as [? H]
         | H : _ /\ _ |- _ => destruct H
         end; subst.
  split; [reflexivity|].
  cbn [app Re.run flat_map Re.m_rest Re.m_prev Re.m_caps].
  repeat match goal with
         | H : N.eqb _ _ = true |- _ =>
             rewrite H; clear H; cbn [app Re.run flat_map Re.m_rest Re.m_prev Re.m_caps]
         end.
  eexists. reflexivity.
Qed.

(** Behind a run of units of a class, a continuation that fails on the
    units of the class is tried with success at the end of the run only. *)
Lemma star_then (p : char -> bool) (k : Re.mstate -> list Re.mstate)
  (ws : jsstring) (c : char) (t : jsstring) (caps : list (nat * jsstring)) :
  forallb p ws = true ->
  p c = false ->
  (forall prev x s, p x = true -> k (Re.MState prev (x :: s) caps) = []) ->
  forall prev,
  exists prev', flat_map k (Re.star p prev (ws ++ c :: t) caps)
                = k (Re.MState prev' (c :: t) caps).
Proof.
  intros Hws Hc Hk. induction ws as [|w ws IH]; intros prev.
  - exists prev. cbn [app Re.star]. rewrite Hc. cbn [flat_map]. apply app_nil_r.
  - cbn [forallb] in Hws. apply andb_true_iff in Hws as [Hw Hws].
    destruct (IH Hws (Some w)) as [prev' E]. exists prev'.
    cbn [app Re.star]. rewrite Hw, flat_map_app, E. cbn [flat_map].
    rewrite (Hk prev w (ws ++ c :: t) Hw). now rewrite !app_nil_r.
Qed.

(** The start of a source attribute, unit by unit. *)
Lemma src_open_parts (u : jsstring) :
  matches re_src_open u ->
  exists sp s r c ws1 ws2,
    u = sp :: s :: r :: c :: ws1 ++ 61%N :: ws2 ++ [dquote]
    /\ is_space sp = true
    /\ Re.fold_case s = 83%N /\ Re.fold_case r = 82%N /\ Re.fold_case c = 67%N
    /\ forallb is_space ws1 = true /\ forallb is_space ws2 = true.
Proof.
  change re_src_open
    with (let L := fun k => Re.Cls (fun x => N.eqb (Re.fold_case x) k) in
          Re.Seq (Re.Cls is_space)
            (Re.Seq (Re.Seq (L 83%N) (Re.Seq (L 82%N) (L 67%N)))
               (Re.Seq (Re.Star is_space)
                  (Re.Seq (Re.Cls (N.eqb 61))
                     (Re.Seq (Re.Star is_space) (Re.Cls (N.eqb dquote))))))).
  cbv zeta beta. cbn [matches]. intros H.
  repeat match goal with
         | H : exists _, _ |- _ => destruct H as [? H]
         | H : _ /\ _ |- _ => destruct H
         end; subst.
  repeat match goal with
         | H : N.eqb _ _ = true |- _ => apply N.eqb_eq in H
         end; subst.
  do 6 eexists. split; [cbn [app]; reflexivity|]. auto 10.
Qed.

Lemma space_not_letter (x : char) (k : char) :
  is_space x = true -> Re.is_word k = true -> N.eqb (Re.fold_case x) k = false.
Proof.
  intros Hx Hk. destruct (N.eqb (Re.fold_case x) k) eqn:E; [|reflexivity].
  pose proof (letter_is_word x k Hk E) as Hw.
  rewrite (is_word_not_space x Hw) in Hx. discriminate.
Qed.

(** The start of a source attribute is matched in one way. *)
Lemma run_src_open_parts (sp s r c : char) (ws1 ws2 t : jsstring)
  (prev : option char) (caps : list (nat * jsstring)) :
  is_space sp = true ->
  Re.fold_case s = 83%N -> Re.fold_case r = 82%N -> Re.fold_case c = 67%N ->
  forallb is_space ws1 = true -> forallb is_space ws2 = true ->
  Re.run re_src_open
    (Re.MState prev (sp :: s :: r :: c :: ws1 ++ 61%N :: ws2 ++ dquote :: t) caps)
  = [Re.MState (Some dquote) t caps].
Proof.
  intros Hsp Hs Hr Hc H1 H2.
  set (R4 := Re.Cls (N.eqb dquote)).
  set (R3 := Re.Seq (Re.Cls (N.eqb 61)) (Re.Seq (Re.Star is_space) R4)).
  set (L := fun k => Re.Cls (fun x => N.eqb (Re.fold_case x) k)).
  change re_src_open
    with (Re.Seq (Re.Cls is_space)
            (Re.Seq (Re.Seq (L 83%N) (Re.Seq (L 82%N) (L 67%N)))
               (Re.Seq (Re.Star is_space) R3))).
  rewrite (run_seq_single (Re.Cls is_space) _ _
             (Re.MState (Some sp) (s :: r :: c :: ws1 ++ 61%N :: ws2 ++ dquote :: t) caps))
    by (cbn [Re.run Re.m_rest Re.m_caps]; now rewrite Hsp).
  rewrite (run_seq_single (Re.Seq (L 83%N) (Re.Seq (L 82%N) (L 67%N))) _ _
             (Re.MState (Some c) (ws1 ++ 61%N :: ws2 ++ dquote :: t) caps)).
  2:{ unfold L. cbn [Re.run flat_map Re.m_rest Re.m_prev Re.m_caps app].
      rewrite Hs, N.eqb_refl. cbn [Re.run flat_map Re.m_rest Re.m_prev Re.m_caps app].
      rewrite Hr, N.eqb_refl. cbn [Re.run flat_map Re.m_rest Re.m_prev Re.m_caps app].
      rewrite Hc, N.eqb_refl. reflexivity. }
  change (Re.run (Re.Seq (Re.Star is_space) R3)
            (Re.MState (Some c) (ws1 ++ 61%N :: ws2 ++ dquote :: t) caps))
    with (flat_map (Re.run R3)
            (Re.star is_space (Some c) (ws1 ++ 61%N :: ws2 ++ dquote :: t) caps)).
  destruct (star_then is_space (Re.run R3) ws1 61%N (ws2 ++ dquote :: t) caps H1 eq_refl)
    with (prev := Some c) as [p1 E1].
  { intros p x rest Hx. unfold R3. cbn [Re.run Re.m_rest flat_map].
    destruct (N.eqb_spec 61 x) as [<-|_]; [discriminate|reflexivity]. }
  etransitivity; [exact E1|]. unfold R3.
  rewrite (run_seq_single (Re.Cls (N.eqb 61)) _ _
             (Re.MState (Some 61%N) (ws2 ++ dquote :: t) caps)) by reflexivity.
  change (Re.run (Re.Seq (Re.Star is_space) R4)
            (Re.MState (Some 61%N) (ws2 ++ dquote :: t) caps))
    with (flat_map (Re.run R4) (Re.star is_space (Some 61%N) (ws2 ++ dquote :: t) caps)).
  destruct (star_then is_space (Re.run R4) ws2 dquote t caps H2 eq_refl)
    with (prev := Some 61%N) as [p2 E2].
  { intros p x rest Hx. unfold R4. cbn [Re.run Re.m_rest].
    destruct (N.eqb_spec dquote x) as [<-|_]; [discriminate|reflexivity]. }
  etransitivity; [exact E2|]. unfold R4. cbn [Re.run Re.m_rest Re.m_caps]. now rewrite N.eqb_refl.
Qed.

Lemma run_src_open (u t : jsstring) (prev : option char) (caps : list (nat * jsstring)) :
  matches re_src_open u ->
  Re.run re_src_open (Re.MState prev (u ++ t) caps) = [Re.MState (Some dquote) t caps].
Proof.
  intros Hu.
  destruct (src_open_parts u Hu) as (sp & s & r & c & ws1 & ws2 & E & Hsp & Hs & Hr & Hc & H1 & H2).
  assert (E' : u ++ t = sp :: s :: r :: c :: ws1 ++ 61%N :: ws2 ++ dquote :: t).
  { rewrite E. cbn [app]. rewrite <- !app_assoc. cbn [app]. now rewrite <- !app_assoc. }
  rewrite E'. now apply run_src_open_parts.
Qed.

(** *** No other source attribute where one has started *)

(** No start of a source attribute ends where a longer one ends. *)
Lemma src_open_no_suffix (u l : jsstring) (c0 : char) (l0 : jsstring) :
  matches re_src_open u -> u = (c0 :: l0) ++ l -> ~ matches re_src_open l.
Proof.
  intros Hu E Hl.
  destruct (src_open_parts u Hu)
    as (sp & s & r & c & ws1 & ws2 & Eu & Hsp & Hs & Hr & Hc & H1 & H2).
  destruct (src_open_parts l Hl)
    as (sp' & s' & r' & c' & ws1' & ws2' & El & Hsp' & Hs' & _).
  assert (Hletter : forall x k, Re.is_word k = true -> Re.fold_case x = k ->
                                is_space x = false).
  { intros x k Hk Hx. destruct (is_space x) eqn:Ex; [|reflexivity].
    pose proof (space_not_letter x k Ex Hk) as H. rewrite Hx, N.eqb_refl in H.
    discriminate. }
  pose proof (Hletter s 83%N eq_refl Hs) as Ns.
  pose proof (Hletter r 82%N eq_refl Hr) as Nr.
  pose proof (Hletter c 67%N eq_refl Hc) as Nc.
  pose proof (Hletter s' 83%N eq_refl Hs') as Ns'.
  assert (Hg : forallb (fun x => is_space x || N.eqb x 61 || N.eqb x dquote)
                 (ws1 ++ 61%N :: ws2 ++ [dquote]) = true).
  { rewrite forallb_forall in H1, H2. apply forallb_forall. intros x Hx.
    apply in_app_or in Hx as [Hx|[<-|Hx]]; [now rewrite (H1 x Hx)|reflexivity|].
    apply in_app_or in Hx as [Hx|[<-|[]]]; [now rewrite (H2 x Hx)|reflexivity]. }
  rewrite Eu, El in E. cbn [app] in E. injection E as _ E.
  destruct l0 as [|a [|b [|d l0]]]; cbn [app] in E.
  - injection E as E _. subst sp'. congruence.
  - injection E as _ E _. subst sp'. congruence.
  - injection E as _ _ E _. subst sp'. congruence.
  - injection E as _ _ _ E.
    assert (Hin : In s' (ws1 ++ 61%N :: ws2 ++ [dquote])).
    { rewrite E. apply in_or_app. right. right. now left. }
    rewrite forallb_forall in Hg. specialize (Hg s' Hin). cbv beta in Hg.
    rewrite Ns' in Hg. cbn [orb] in Hg.
    apply orb_true_iff in Hg as [Hg|Hg]; apply N.eqb_eq in Hg; subst s'; discriminate.
Qed.

(** The last unit of a source is a letter or a digit. *)
Lemma image_src_last (src : jsstring) :
  image_src src -> exists body e, src = body ++ [e] /\ Re.is_word e = true.
Proof.
  intros [_ (stem & ext & -> & Hext)].
  destruct (image_ext_shape ext Hext) as (Hword & Hne & _).
  destruct (exists_last Hne) as (ext' & e & ->).
  rewrite forallb_app in Hword. apply andb_true_iff in Hword as [_ He].
  cbn [forallb] in He. rewrite andb_true_r in He.
  exists (stem ++ lit "." ++ ext'), e. split; [now rewrite <- !app_assoc|exact He].
Qed.

(** A start of a source attribute does not end at the closing quote of a
    source. *)
Lemma src_open_not_at_source (src w u' r' z : jsstring) :
  image_src src -> matches re_src_open u' ->
  (forall x, In x w -> In x src) ->
  (exists body, src = body ++ w) ->
  w ++ dquote :: z = u' ++ r' -> False.
Proof.
  intros Hsrc Hu' Hsub [body Ebody] E.
  destruct (src_open_shape u' Hu') as [(sp' & t' & Eu' & Hsp') (u0 & y & Hu0 & Hy & Hnq & _)].
  assert (Hw : w = u0 ++ [y]).
  { apply (first_quote_unique dquote w (u0 ++ [y]) z r').
    - intros Hin. destruct Hsrc as [Hq _]. apply Hq. now apply Hsub.
    - exact Hnq.
    - rewrite E, Hu0. now rewrite <- !app_assoc. }
  destruct (image_src_last src Hsrc) as (b & e & Esrc & He).
  assert (Hye : y = e).
  { rewrite Ebody, Hw, !app_assoc in Esrc. now apply app_inj_tail in Esrc as [_ H]. }
  subst y. destruct Hy as [->|Hy]; [discriminate|].
  rewrite (is_word_not_space e He) in Hy. discriminate.
Qed.

(** Behind the start of a source attribute and its source, another start
    can only stand in the rest of the tag. *)
Lemma later_source_in_rest (u src z : jsstring) (c : char) (l0 r u' r' : jsstring) :
  matches re_src_open u -> image_src src ->
  (c :: l0) ++ r = u ++ src ++ dquote :: z ->
  ~ In gt (c :: l0) ->
  r = u' ++ r' -> matches re_src_open u' ->
  ~ In gt src /\ exists a, z = a ++ r /\ ~ In gt a.
Proof.
  intros Hu Hsrc Hcut Hgt Er Hu'.
  destruct (src_open_shape u' Hu') as [(sp' & t' & Eu' & Hsp') (u0' & y' & Hu0' & Hy' & Hnq' & _)].
  destruct (src_open_shape u Hu) as [_ (u0 & y & Hu0 & _ & Hnq & _)].
  apply app_eq_app in Hcut as [l [[H1 H2]|[H1 H2]]].
  - (* the cut is behind the start of the attribute *)
    apply app_eq_app in H2 as [l2 [[H3 H4]|[H3 H4]]].
    + (* inside the source *)
      exfalso. apply (src_open_not_at_source src l2 u' r' z Hsrc Hu').
      * intros x Hx. rewrite H3. apply in_or_app. now right.
      * now exists l.
      * now rewrite <- H4, Er.
    + (* behind the source *)
      destruct l2 as [|q l3]; cbn [app] in H4.
      * exfalso. rewrite Er, Eu' in H4. injection H4 as E _. subst sp'. discriminate.
      * injection H4 as Eq H4. subst q.
        assert (Hin : forall x, In x (src ++ dquote :: l3) -> In x (c :: l0)).
        { intros x Hx. rewrite H1, H3. apply in_or_app. now right. }
        split.
        -- intros Hs. apply Hgt, Hin. apply in_or_app. now left.
        -- exists l3. split; [exact H4|]. intros Hl. apply Hgt, Hin.
           apply in_or_app. right. now right.
  - (* the cut is inside the start of the attribute *)
    exfalso. destruct l as [|e0 l'] using rev_ind.
    + cbn [app] in H2. apply (src_open_not_at_source src src u' r' z Hsrc Hu').
      * auto.
      * now exists [].
      * now rewrite <- H2, Er.
    + clear IHl'.
      assert (E : (c :: l0) ++ l' = u0 ++ [y] /\ e0 = dquote).
      { rewrite Hu0 in H1. rewrite !app_assoc in H1.
        apply app_inj_tail in H1 as [H1 H1']. split; now symmetry. }
      destruct E as [E ->].
      assert (Hl' : l' = u0' ++ [y']).
      { apply (first_quote_unique dquote l' (u0' ++ [y']) (src ++ dquote :: z) r').
        - intros Hin. apply Hnq. rewrite <- E. apply in_or_app. now right.
        - exact Hnq'.
        - rewrite <- app_assoc in H2. cbn [app] in H2.
          rewrite <- H2, Er, Hu0'. now rewrite <- !app_assoc. }
      apply (src_open_no_suffix u (l' ++ [dquote]) c l0 Hu H1).
      rewrite Hl', <- app_assoc. now rewrite <- Hu0'.
Qed.

(** *** The match at an image tag *)

Lemma found_within_none (r : Re.regex) (a y : jsstring) :
  simple r = true ->
  forall k prev,
  found_within r k prev (a ++ y) = false -> length a < k ->
  Re.exec_at r None y = None.
Proof.
  intros Hs. induction a as [|c a IH]; intros k prev H Hk.
  - destruct k as [|k]; [cbn in Hk; lia|]. cbn [app found_within] in H.
    rewrite (exec_at_simple r None prev y Hs).
    destruct (Re.exec_at r prev y); [discriminate|reflexivity].
  - destruct k as [|k]; [cbn in Hk; lia|]. cbn [app found_within] in H.
    destruct (Re.exec_at r prev (c :: a ++ y)); [discriminate|].
    apply (IH k (Some c) H). cbn [length] in Hk. lia.
Qed.

(** A blank behind a text without closing bracket is still in the tag. *)
Lemma tag_rest_covers (a : jsstring) (sp : char) (r : jsstring) :
  ~ In gt a -> is_space sp = true -> length a < length (tag_rest (a ++ sp :: r)).
Proof.
  intros Ha Hsp. unfold tag_rest.
  replace (a ++ sp :: r) with ((a ++ [sp]) ++ r) by now rewrite <- app_assoc.
  rewrite span_until_app.
  - cbn [fst]. rewrite !length_app. cbn [length]. lia.
  - apply not_in_app; [exact Ha|]. intros [E|[]]. rewrite E in Hsp. discriminate.
Qed.

Lemma simple_re_src_attr : simple re_src_attr = true.
Proof. reflexivity. Qed.

(** Where the attributes are taken further than [attrs], no source
    attribute follows that the pattern could take. *)
Lemma longer_attrs_fail (u src z : jsstring) (st_l st : Re.mstate) (c : char) (l0 : jsstring)
  (st0 : Re.mstate) :
  matches re_src_open u -> image_src src ->
  In gt src \/ found_within re_src_attr (length (tag_rest z)) None z = false ->
  u ++ src ++ dquote :: z = (c :: l0) ++ Re.m_rest st_l ->
  forallb (Re.not_chr gt) (c :: l0) = true ->
  In st (Re.run re_src_open st_l) ->
  Re.run (Re.Seq (Re.Grp 2 re_source) (Re.Grp 3 (Re.chr dquote))) (Re.capture 1 st0 st) = [].
Proof.
  intros Hu Hsrc Hlast Hcut Hgt Hst.
  destruct (Re.run (Re.Seq (Re.Grp 2 re_source) (Re.Grp 3 (Re.chr dquote)))
              (Re.capture 1 st0 st)) as [|st2 l] eqn:E; [reflexivity|exfalso].
  destruct (run_sound re_src_open st_l st Hst) as (u' & Hrest & Hu').
  destruct (run_sound (Re.Seq (Re.Grp 2 re_source) (Re.Grp 3 (Re.chr dquote)))
              (Re.capture 1 st0 st) st2) as (m23 & Hrest2 & Hm23).
  { rewrite E. now left. }
  unfold Re.capture in Hrest2. cbn [Re.m_rest] in Hrest2.
  destruct (later_source_in_rest u src z c l0 (Re.m_rest st_l) u' (Re.m_rest st)
              Hu Hsrc (eq_sym Hcut) (not_in_checked gt _ Hgt) Hrest Hu')
    as (Hnsrc & a & Hz & Ha).
  destruct Hlast as [Hin|Hlast]; [contradiction|].
  assert (Hm : matches re_src_attr (u' ++ m23)).
  { unfold re_src_attr. cbn [matches] in Hm23 |- *.
    destruct Hm23 as (m2 & m3 & -> & M2 & M3).
    exists u', (m2 ++ m3). split; [reflexivity|]. split; [exact Hu'|].
    now exists m2, m3. }
  destruct (run_complete re_src_attr simple_re_src_attr (u' ++ m23) Hm
              (Re.m_rest st2) None []) as (st3 & Hin3 & _).
  assert (Hnone : Re.exec_at re_src_attr None (Re.m_rest st_l) = None).
  { apply (found_within_none re_src_attr a (Re.m_rest st_l) simple_re_src_attr
             (length (tag_rest z)) None).
    - now rewrite <- Hz.
    - rewrite Hz, Hrest.
      destruct (src_open_shape u' Hu') as [(sp' & t' & -> & Hsp') _].
      cbn [app]. now apply tag_rest_covers. }
  unfold Re.exec_at in Hnone. rewrite Hrest, Hrest2, app_assoc in Hnone.
  destruct (Re.run re_src_attr (Re.MState None ((u' ++ m23) ++ Re.m_rest st2) []));
    [destruct Hin3|discriminate].
Qed.

Lemma exec_img_source (prev : option char) (o attrs u src z : jsstring) :
  matches re_img_open o ->
  ~ In gt attrs ->
  matches re_src_open u ->
  image_src src ->
  In gt src \/ found_within re_src_attr (length (tag_rest z)) None z = false ->
  Re.exec_at re_img_src prev (o ++ attrs ++ u ++ src ++ dquote :: z)
  = Some (Re.Result (o ++ attrs ++ u ++ src ++ [dquote])
            [(3, [dquote]); (2, src); (1, o ++ attrs ++ u)] z).
Proof.
  intros Ho Hattrs Hu Hsrc Hlast.
  unfold Re.exec_at.
  change re_img_src
    with (Re.Seq (Re.Grp 1 (Re.Seq re_img_open (Re.Seq (Re.Star (Re.not_chr gt)) re_src_open)))
            (Re.Seq (Re.Grp 2 re_source) (Re.Grp 3 (Re.chr dquote)))).
  set (rest23 := Re.Seq (Re.Grp 2 re_source) (Re.Grp 3 (Re.chr dquote))).
  set (t := u ++ src ++ dquote :: z).
  set (s := o ++ attrs ++ t).
  set (st0 := Re.MState prev s []).
  (* the tag name *)
  destruct (run_img_open o (attrs ++ t) prev [] Ho) as (_ & p1 & H1).
  fold s in H1. fold st0 in H1.
  (* the attributes, then the start of the source attribute *)
  assert (H2 : exists long more,
             Re.run (Re.Seq (Re.Star (Re.not_chr gt)) re_src_open)
               (Re.MState p1 (attrs ++ t) [])
             = long ++ Re.MState (Some dquote) (src ++ dquote :: z) [] :: more
             /\ forall st, In st long -> Re.run rest23 (Re.capture 1 st0 st) = []).
  { change (Re.run (Re.Seq (Re.Star (Re.not_chr gt)) re_src_open)
              (Re.MState p1 (attrs ++ t) []))
      with (flat_map (Re.run re_src_open) (Re.star (Re.not_chr gt) p1 (attrs ++ t) [])).
    destruct (star_app (Re.not_chr gt) attrs t p1 [] (not_in_forallb gt attrs Hattrs))
      as (prev' & shorter & ->).
    destruct (star_last (Re.not_chr gt) prev' t []) as (longer & -> & Hlonger).
    exists (flat_map (Re.run re_src_open) longer), (flat_map (Re.run re_src_open) shorter).
    split.
    - rewrite !flat_map_app. cbn [flat_map]. unfold t.
      rewrite (run_src_open u (src ++ dquote :: z) prev' [] Hu).
      rewrite <- !app_assoc. reflexivity.
    - intros st Hst. apply in_flat_map in Hst as (st_l & Hl & Hst).
      destruct (Hlonger st_l Hl) as (c & l0 & Ecut & Hcl).
      apply (longer_attrs_fail u src z st_l st c l0 st0 Hu Hsrc Hlast Ecut Hcl Hst). }
  destruct H2 as (long & more1 & H2 & Hlong).
  set (pre := o ++ attrs ++ u).
  set (st1 := Re.MState (Some dquote) (src ++ dquote :: z) [(1, pre)]).
  assert (Hcap1 : Re.capture 1 st0 (Re.MState (Some dquote) (src ++ dquote :: z) []) = st1).
  { unfold Re.capture, Re.consumed, st0, st1. cbn [Re.m_prev Re.m_rest Re.m_caps].
    do 3 f_equal.
    assert (E : s = pre ++ src ++ dquote :: z).
    { unfold s, t, pre. now rewrite <- !app_assoc. }
    rewrite E. apply firstn_app_exact. }
  (* the source *)
  destruct (run_source src z (Some dquote) [(1, pre)] Hsrc) as (pe & more2 & H3).
  fold st1 in H3.
  (* together *)
  change (Re.run
            (Re.Seq (Re.Grp 1 (Re.Seq re_img_open (Re.Seq (Re.Star (Re.not_chr gt)) re_src_open)))
               rest23) st0)
    with (flat_map (Re.run rest23)
            (map (Re.capture 1 st0)
               (flat_map (Re.run (Re.Seq (Re.Star (Re.not_chr gt)) re_src_open))
                  (Re.run re_img_open st0)))).
  rewrite H1. cbn [flat_map]. rewrite app_nil_r, H2.
  rewrite map_app, flat_map_app.
  rewrite (flat_map_nil (Re.run rest23) (map (Re.capture 1 st0) long)).
  2:{ intros x Hx. apply in_map_iff in Hx as (st & <- & Hst). now apply Hlong. }
  cbn [app map flat_map]. rewrite Hcap1.
  change (Re.run rest23 st1)
    with (flat_map (Re.run (Re.Grp 3 (Re.chr dquote)))
            (map (Re.capture 2 st1) (Re.run re_source st1))).
  rewrite H3. cbn [map flat_map].
  unfold Re.capture at 2. cbn [Re.m_prev Re.m_rest Re.m_caps].
  cbn [Re.run Re.chr Re.m_prev Re.m_rest Re.m_caps].
  unfold Re.capture, Re.consumed. cbn [Re.m_prev Re.m_rest Re.m_caps].
  rewrite N.eqb_refl. cbn [map app Re.m_prev Re.m_rest Re.m_caps].
  unfold st1. cbn [Re.m_rest].
  rewrite (firstn_app_exact src (dquote :: z)).
  change (dquote :: z) with ([dquote] ++ z) at 1 2.
  rewrite (firstn_app_exact [dquote] z).
  assert (Es : s = (o ++ attrs ++ u ++ src ++ [dquote]) ++ z).
  { unfold s, t. now rewrite <- !app_assoc. }
  rewrite Es, (firstn_app_exact (o ++ attrs ++ u ++ src ++ [dquote]) z).
  reflexivity.
Qed.

(** *** The text before the first tag taken *)

Lemma rewrite_before (f : Re.result -> jsstring) (x y : jsstring) :
  forall prev,
  found_within re_img_src (length x) prev (x ++ y) = false ->
  Re.replace_all_from re_img_src f 0 None (x ++ y)
  = x ++ Re.replace_all_from re_img_src f 0 None y.
Proof.
  induction x as [|c x IH]; intros prev H; [reflexivity|].
  cbn [length app found_within] in H.
  destruct (Re.exec_at re_img_src prev (c :: x ++ y)) eqn:E; [discriminate|].
  cbn [app]. rewrite replace_all_nomatch.
  - f_equal. now apply (IH (Some c)).
  - apply simple_re_img_src.
  - now rewrite (exec_at_simple re_img_src None prev _ simple_re_img_src).
Qed.

Lemma startsWith_any_case (p s : jsstring) :
  startsWith p s = true -> startsWith_i p s = true.
Proof.
  revert s. induction p as [|x p IH]; intros [|y s]; cbn [startsWith startsWith_i];
    try reflexivity; try discriminate.
  intros H. apply andb_true_iff in H as [Hx Hp]. apply N.eqb_eq in Hx. subst y.
  now rewrite N.eqb_refl, (IH s Hp).
Qed.

Lemma absolute_http_any_case (src : jsstring) :
  absolute_any_case src = false -> absolute_http src = false.
Proof.
  unfold absolute_any_case, absolute_http. intros H.
  apply orb_false_iff in H as [H1 H2].
  destruct (startsWith (lit "http://") src) eqn:E1.
  { now rewrite (startsWith_any_case _ _ E1) in H1. }
  destruct (startsWith (lit "https://") src) eqn:E2; [|reflexivity].
  now rewrite (startsWith_any_case _ _ E2) in H2.
Qed.

(** What the callback makes of the match at a tag. *)
Lemma rewrite_img_source (questionId o attrs u src z : jsstring) :
  rewrite_img questionId
    (Re.Result (o ++ attrs ++ u ++ src ++ [dquote])
       [(3, [dquote]); (2, src); (1, o ++ attrs ++ u)] z)
  = if absolute_http src || startsWith (lit "images/") src
    then o ++ attrs ++ u ++ src ++ [dquote]
    else o ++ attrs ++ u ++ lit "images/" ++ questionId ++ lit "/" ++ src ++ [dquote].
Proof.
  unfold rewrite_img.
  cbn [Re.group Re.lookup Re.caps Re.matched Nat.eqb or_empty].
  rewrite test_http.
  destruct (absolute_http src || startsWith (lit "images/") src); [reflexivity|].
  now rewrite <- !app_assoc.
Qed.

(** The first tag taken, and the text before it. *)
Lemma rewriteImagePaths_first_source (before o attrs u src after questionId : jsstring) :
  matches re_img_open o ->
  ~ In gt attrs ->
  matches re_src_open u ->
  image_src src ->
  found_within re_img_src (length before) None
    (before ++ o ++ attrs ++ u ++ src ++ dquote :: after) = false ->
  In gt src \/ found_within re_src_attr (length (tag_rest after)) None after = false ->
  rewriteImagePaths (before ++ o ++ attrs ++ u ++ src ++ dquote :: after) questionId
  = before
    ++ (if absolute_http src || startsWith (lit "images/") src
        then o ++ attrs ++ u ++ src ++ [dquote]
        else o ++ attrs ++ u ++ lit "images/" ++ questionId ++ lit "/" ++ src ++ [dquote])
    ++ rewriteImagePaths after questionId.
Proof.
  intros Ho Hattrs Hu Hsrc Hfirst Hlast.
  unfold rewriteImagePaths, Re.replace_all.
  rewrite (rewrite_before _ before _ None Hfirst). f_equal.
  rewrite (replace_all_match re_img_src _ None _ _ simple_re_img_src
             (exec_img_source None o attrs u src after Ho Hattrs Hu Hsrc Hlast)).
  - cbn [Re.rest]. now rewrite rewrite_img_source.
  - cbn [Re.matched]. destruct (run_img_open o [] None [] Ho) as [Hlen _].
    destruct o; [discriminate|discriminate].
Qed.

(** C5, as the code has it.  [rewriteImagePaths] works on the image tags
    its pattern takes: the tag name [<img] in any case, then text without
    a closing bracket, then a blank, the name [src] in any case, an
    equals sign with any blanks around it, and between double quotes a
    source without a double quote that ends in a dot and one of svg,
    png, jpg, jpeg, gif, webp in any case.  In a text that goes on with
    such a tag, where the pattern matches at no position before the tag,
    and where the source is the last of this form in its tag (it holds a
    closing bracket itself, or the pattern of such an attribute matches
    at no position of the text behind it before the next closing
    bracket), the text before the tag and the tag's other units stay, the
    text behind the closing quote is rewritten in the same way, and the
    source stays if it starts with [http://], [https://] or [images/],
    and is put under [images/<questionId>/] if it starts neither with
    [images/] nor, in any case of the letters, with [http://] or
    [https://].  A text in which the pattern matches nowhere, so any text
    without [<img], comes back as it is; and [foo.svg] under [Q1] becomes
    [images/Q1/foo.svg]. *)
Theorem rewriteImagePaths_rewrites_quoted_src :
  (forall before o attrs u src after questionId,
      matches re_img_open o ->
      ~ In gt attrs ->
      matches re_src_open u ->
      image_src src ->
      found_within re_img_src (length before) None
        (before ++ o ++ attrs ++ u ++ src ++ dquote :: after) = false ->
      In gt src \/ found_within re_src_attr (length (tag_rest after)) None after = false ->
      (absolute_http src || startsWith (lit "images/") src = true ->
       rewriteImagePaths (before ++ o ++ attrs ++ u ++ src ++ dquote :: after) questionId
       = before ++ o ++ attrs ++ u ++ src ++ dquote :: rewriteImagePaths after questionId)
      /\ (absolute_any_case src = false ->
          startsWith (lit "images/") src = false ->
          rewriteImagePaths (before ++ o ++ attrs ++ u ++ src ++ dquote :: after) questionId
          = before ++ o ++ attrs ++ u ++ lit "images/" ++ questionId ++ lit "/" ++ src
            ++ dquote :: rewriteImagePaths after questionId))
  /\ (forall html questionId,
        Re.test re_img_src html = false -> rewriteImagePaths html questionId = html)
  /\ (forall html questionId,
        Re.test re_img_open html = false -> rewriteImagePaths html questionId = html)
  /\ rewriteImagePaths (lit "<img src=`foo.svg`>") (lit "Q1")
     = lit "<img src=`images/Q1/foo.svg`>".
Proof.
  split; [|split; [|split]].
  - intros before o attrs u src after questionId Ho Hattrs Hu Hsrc Hfirst Hlast.
    pose proof (rewriteImagePaths_first_source before o attrs u src after questionId
                  Ho Hattrs Hu Hsrc Hfirst Hlast) as E.
    split.
    + intros Hkeep. rewrite E, Hkeep. now rewrite <- !app_assoc.
    + intros Habs Himg. rewrite E, (absolute_http_any_case src Habs), Himg.
      cbn [orb]. now rewrite <- !app_assoc.
  - intros html questionId H. now apply replace_all_none.
  - intros html questionId H. now apply rewriteImagePaths_without_images.
  - vm_compute. reflexivity.
Qed.

(** A tag in upper case with a tab before its source attribute and blanks
    around the equals sign, behind an image tag without a source. *)
Lemma rewriteImagePaths_rewrites_quoted_src_witness :
  rewriteImagePaths
    (lit "<img alt=`x`><p>" ++ lit "<IMG" ++ lit " class=`w`" ++ (9%N :: lit "SRC = `")
     ++ lit "foo.svg" ++ dquote :: lit " alt=`>`></p>") (lit "Q1")
  = lit "<img alt=`x`><p>" ++ lit "<IMG" ++ lit " class=`w`" ++ (9%N :: lit "SRC = `")
    ++ lit "images/" ++ lit "Q1" ++ lit "/" ++ lit "foo.svg"
    ++ dquote :: rewriteImagePaths (lit " alt=`>`></p>") (lit "Q1").
Proof.
  apply (proj1 rewriteImagePaths_rewrites_quoted_src
           (lit "<img alt=`x`><p>") (lit "<IMG") (lit " class=`w`") (9%N :: lit "SRC = `")
           (lit "foo.svg") (lit " alt=`>`></p>") (lit "Q1")).
  - eapply matches_by_exec; [vm_compute; reflexivity|reflexivity].
  - apply not_in_checked. reflexivity.
  - eapply matches_by_exec; [vm_compute; reflexivity|reflexivity].
  - split.
    + apply not_in_checked. reflexivity.
    + exists (lit "foo"), (lit "svg"). split; [reflexivity|].
      eapply matches_by_exec; [vm_compute; reflexivity|reflexivity].
  - vm_compute. reflexivity.
  - right. vm_compute. reflexivity.
  - reflexivity.
  - reflexivity.
Defined.

(** C5 as stated fails on the image tags the pattern does not take: a
    source between single quotes or without quotes stays as it is, and
    so does a source behind an attribute that holds a closing bracket. *)
Lemma rewriteImagePaths_misses_other_tags :
  rewriteImagePaths (lit "<img src='foo.svg'>") (lit "Q1") = lit "<img src='foo.svg'>"
  /\ rewriteImagePaths (lit "<img src=foo.svg>") (lit "Q1") = lit "<img src=foo.svg>"
  /\ rewriteImagePaths (lit "<img alt=`a>b` src=`foo.svg`>") (lit "Q1")
     = lit "<img alt=`a>b` src=`foo.svg`>".
Proof. repeat split; vm_compute; reflexivity. Qed.

(** The test for an absolute address compares the letters of the scheme
    as they are; the comment on it reads [Skip absolute URLs]. *)
Lemma rewriteImagePaths_upper_case_scheme :
  rewriteImagePaths (lit "<img src=`HTTP://cdn.example/a.png`>") (lit "Q1")
  = lit "<img src=`images/Q1/HTTP://cdn.example/a.png`>".
Proof. vm_compute. reflexivity. Qed.
